(** * Drug-disease hypothesis ranking: gene-distance matrix and pair scoring

    A shallow embedding of the distance precomputation
    ([scripts/precompute_gene_distance_matrix.py]), the matrix-backed
    proximity scorer ([scripts/annotate_pairs_with_ppi_from_matrix.py]),
    the graph builder ([src/ddh/graphs.py]) and the overlap and combination
    code ([src/ddh/scoring.py]), followed by the properties proved of them.

    Conventions.  Python [dict]s that are only queried are [gmap]s, sets are
    [gset]s, dicts that are iterated are association lists in insertion
    order.  Python floats are rationals; every float division is returned
    in lowest terms so that equal values are equal terms.  Raised exceptions
    are values of [result]. *)

From Stdlib Require Import QArith Qminmax.
From stdpp Require Import gmap strings list fin_maps sorting.

Local Open Scope Z_scope.

(* ================================================================== *)
(** * Part I: the embedding *)
(* ================================================================== *)

(** ** Exceptions and fallible computations *)

Inductive exn : Type :=
| IndexError
| KeyError
| ValueError
| NodeNotFound.

Inductive result (A : Type) : Type :=
| Ok (a : A)
| Raise (e : exn).

Arguments Ok {A} a.
Arguments Raise {A} e.

#[global] Instance result_ret : MRet result := λ A a, Ok a.

#[global] Instance result_bind : MBind result := λ A B f m,
  match m with
  | Ok a => f a
  | Raise e => Raise e
  end.

#[global] Instance exn_eq_dec : EqDecision exn.
Proof. solve_decision. Defined.

(** ** Floats *)

(** [float("inf")] next to the finite values. *)
Inductive distance : Type :=
| Finite (q : Q)
| Inf.

#[global] Instance Qlt_decision : RelDecision Qlt :=
  λ x y, decide (Qnum x * QDen y < Qnum y * QDen x).

#[global] Instance Qle_decision : RelDecision Qle :=
  λ x y, decide (Qnum x * QDen y ≤ Qnum y * QDen x).

#[global] Instance Qeq_decision : RelDecision Qeq :=
  λ x y, decide (Qnum x * QDen y = Qnum y * QDen x).

(** True division of two Python integers. *)
Definition true_div (a b : Z) : Q := Qred (inject_Z a / inject_Z b).

(** ** The distance matrix store (a 2-D [numpy] array of [uint16]) *)

Definition max_uint16 : Z := 65535.

Definition is_uint16 (d : Z) : Prop := 0 ≤ d ≤ max_uint16.

(** Integer indexing of an axis of length [n]: a negative index counts
    from the end, anything outside [-n, n) raises [IndexError]. *)
Definition np_index (n : nat) (i : Z) : result nat :=
  if decide (0 ≤ i < Z.of_nat n) then Ok (Z.to_nat i)
  else if decide (- Z.of_nat n ≤ i < 0) then Ok (Z.to_nat (i + Z.of_nat n))
  else Raise IndexError.

(** [dist[i]] *)
Definition matrix_row (dist : list (list Z)) (i : Z) : result (list Z) :=
  k ← np_index (length dist) i;
  match dist !! k with
  | Some row => Ok row
  | None => Raise IndexError
  end.

(** [row[j]] *)
Definition row_get (row : list Z) (j : Z) : result Z :=
  k ← np_index (length row) j;
  match row !! k with
  | Some d => Ok d
  | None => Raise IndexError
  end.

(** [int(dist[i][j])] *)
Definition matrix_get (dist : list (list Z)) (i j : Z) : result Z :=
  row ← matrix_row dist i;
  row_get row j.

(** An [N x N] array. *)
Definition square (N : nat) (dist : list (list Z)) : Prop :=
  length dist = N ∧ Forall (λ row, length row = N) dist.

Definition uint16_cells (dist : list (list Z)) : Prop :=
  Forall (Forall is_uint16) dist.

(** The cell at a position inside the array; 0 outside. *)
Definition cell (dist : list (list Z)) (i j : nat) : Z :=
  default 0 (row ← dist !! i; row !! j).

(** The position an in-range, possibly negative, index denotes. *)
Definition wrap (n : nat) (i : Z) : nat :=
  if decide (i < 0) then Z.to_nat (i + Z.of_nat n) else Z.to_nat i.

(** The store as the specification words it: every lookup with a row or
    column index outside [0, N) is an [IndexError]. *)
Definition fails_outside_0_N (N : nat) (dist : list (list Z)) : Prop :=
  ∀ i j : Z, ¬ (0 ≤ i < Z.of_nat N ∧ 0 ≤ j < Z.of_nat N) →
    matrix_get dist i j = Raise IndexError.

(** A 2 x 2 store. *)
Definition dist2 : list (list Z) := [[0; 1]; [1; 0]].

(** ** scripts/annotate_pairs_with_ppi_from_matrix.py *)

Module Annotate.

(** [[gene_to_idx[g] for g in set(genes) if g in gene_to_idx]]; [set_iter]
    is the order in which the interpreter iterates over a set. *)
Definition present_indices (set_iter : gset string → list string)
    (gene_to_idx : gmap string Z) (genes : list string) : list Z :=
  omap (λ g, gene_to_idx !! g) (set_iter (list_to_set genes)).

(** The body of [for j in idx_s]. *)
Fixpoint scan_row (row : list Z) (max_val : Z) (idx_s : list Z)
    (dists : list Z) : result (list Z) :=
  match idx_s with
  | [] => Ok dists
  | j :: idx_s' =>
      d ← row_get row j;
      scan_row row max_val idx_s'
        (if decide (d < max_val) then dists ++ [d] else dists)
  end.

(** The body of [for i in idx_d]. *)
Fixpoint scan_rows (dist : list (list Z)) (max_val : Z) (idx_d idx_s : list Z)
    (dists : list Z) : result (list Z) :=
  match idx_d with
  | [] => Ok dists
  | i :: idx_d' =>
      row ← matrix_row dist i;
      dists' ← scan_row row max_val idx_s dists;
      scan_rows dist max_val idx_d' idx_s dists'
  end.

Definition sum (dists : list Z) : Z := foldr Z.add 0 dists.

(** [not genes]: the key is missing or the list is empty. *)
Definition falsy (genes : option (list string)) : bool :=
  match genes with
  | None | Some [] => true
  | Some (_ :: _) => false
  end.

Definition mean_distance_for_pair (set_iter : gset string → list string)
    (drug_id disease_id : string)
    (drug_to_genes disease_to_genes : gmap string (list string))
    (gene_to_idx : gmap string Z) (dist : list (list Z)) (max_val : Z)
    : result distance :=
  let genes_d := drug_to_genes !! drug_id in
  let genes_s := disease_to_genes !! disease_id in
  if falsy genes_d || falsy genes_s then Ok Inf
  else
    let idx_d := present_indices set_iter gene_to_idx (default [] genes_d) in
    let idx_s := present_indices set_iter gene_to_idx (default [] genes_s) in
    match idx_d, idx_s with
    | [], _ | _, [] => Ok Inf
    | _, _ =>
        dists ← scan_rows dist max_val idx_d idx_s [];
        match dists with
        | [] => Ok Inf
        | _ => Ok (Finite (true_div (sum dists) (Z.of_nat (length dists))))
        end
    end.

(** [1 / (1 + d)], with 0 for [inf]. *)
Definition proximity_score (d : distance) : Q :=
  match d with
  | Inf => 0
  | Finite q => Qred (1 / (1 + q))
  end.

Record annotated : Type := MkAnnotated {
  a_drug_id : string;
  a_disease_id : string;
  a_mean_distance : distance;
  a_proximity_score : Q
}.

(** The loop over the rows of one chunk. *)
Fixpoint score_rows (set_iter : gset string → list string)
    (chunk : list (string * string))
    (drug_to_genes disease_to_genes : gmap string (list string))
    (gene_to_idx : gmap string Z) (dist : list (list Z)) (max_val : Z)
    : result (list distance) :=
  match chunk with
  | [] => Ok []
  | (d_id, dis_id) :: chunk' =>
      md ← mean_distance_for_pair set_iter d_id dis_id
             drug_to_genes disease_to_genes gene_to_idx dist max_val;
      mds ← score_rows set_iter chunk'
              drug_to_genes disease_to_genes gene_to_idx dist max_val;
      Ok (md :: mds)
  end.

(** [for start in range(0, n_rows, chunk_size)] for a positive
    [chunk_size], from [start] on; every round takes at least one row, so
    [fuel] above the number of rows is never used up. *)
Fixpoint chunk_loop (fuel : nat) (set_iter : gset string → list string)
    (pairs : list (string * string)) (chunk_size start : nat)
    (drug_to_genes disease_to_genes : gmap string (list string))
    (gene_to_idx : gmap string Z) (dist : list (list Z)) (max_val : Z)
    : result (list distance) :=
  match fuel with
  | O => Ok []
  | S fuel' =>
      let n_rows := length pairs in
      if decide (start < n_rows)%nat then
        let end_ := ((start + chunk_size) `min` n_rows)%nat in
        (* pairs_df.iloc[start:end] *)
        let chunk := take (end_ - start)%nat (drop start pairs) in
        mds ← score_rows set_iter chunk
                drug_to_genes disease_to_genes gene_to_idx dist max_val;
        rest ← chunk_loop fuel' set_iter pairs chunk_size
                 (start + chunk_size)%nat
                 drug_to_genes disease_to_genes gene_to_idx dist max_val;
        Ok (mds ++ rest)
      else Ok []
  end.

(** [annotate_pairs]; [strip] is [astype(str).str.strip()].  A
    [chunk_size] of 0 makes [range] raise [ValueError]; with a negative one
    no row is scored, and assigning the column raises [ValueError] unless
    the frame is empty. *)
Definition annotate_pairs (set_iter : gset string → list string)
    (strip : string → string) (pairs_df : list (string * string))
    (drug_to_genes disease_to_genes : gmap string (list string))
    (gene_to_idx : gmap string Z) (dist : list (list Z)) (max_val : Z)
    (chunk_size : Z) : result (list annotated) :=
  let pairs := (λ p, (strip p.1, strip p.2)) <$> pairs_df in
  let n_rows := length pairs in
  mean_distances ←
    (if decide (chunk_size = 0) then Raise ValueError
     else if decide (chunk_size < 0) then Ok []
     else chunk_loop (S n_rows) set_iter pairs (Z.to_nat chunk_size) 0
            drug_to_genes disease_to_genes gene_to_idx dist max_val);
  (* pairs_df["mean_distance"] = mean_distances *)
  if decide (length mean_distances = n_rows) then
    Ok (zip_with
          (λ p md, MkAnnotated p.1 p.2 md (proximity_score md))
          pairs mean_distances)
  else Raise ValueError.

End Annotate.

(** ** The scorer in the words of the specification *)

(** Every gene of the index file has a position inside the matrix. *)
Definition indices_in_range (N : nat) (gene_to_idx : gmap string Z) : Prop :=
  map_Forall (λ _ i, 0 ≤ i < Z.of_nat N) gene_to_idx.

(** The deduplicated gene set mapped to matrix indices, absent genes
    dropped. *)
Definition gene_indices (gene_to_idx : gmap string Z) (genes : list string)
    : list Z :=
  omap (λ g, gene_to_idx !! g) (elements (list_to_set genes : gset string)).

(** The matrix entry of every (drug-gene-index, disease-gene-index)
    combination. *)
Definition entries (dist : list (list Z)) (idx_d idx_s : list Z) : list Z :=
  i ← idx_d; (λ j, cell dist (Z.to_nat i) (Z.to_nat j)) <$> idx_s.

(** The entries that are not the sentinel. *)
Definition valid_entries (gene_to_idx : gmap string Z) (dist : list (list Z))
    (genes_d genes_s : list string) : list Z :=
  filter (λ d, d ≠ max_uint16)
    (entries dist (gene_indices gene_to_idx genes_d)
       (gene_indices gene_to_idx genes_s)).

(** Arithmetic mean, +infinity for no entries. *)
Definition mean (ds : list Z) : distance :=
  match ds with
  | [] => Inf
  | _ => Finite (true_div (Annotate.sum ds) (Z.of_nat (length ds)))
  end.

(** The annotated row of a pair: the mean of its valid entries and the
    proximity 1 / (1 + mean). *)
Definition scored_row
    (drug_to_genes disease_to_genes : gmap string (list string))
    (gene_to_idx : gmap string Z) (dist : list (list Z))
    (pair : string * string) : Annotate.annotated :=
  let md :=
    mean (valid_entries gene_to_idx dist
            (default [] (drug_to_genes !! pair.1))
            (default [] (disease_to_genes !! pair.2))) in
  Annotate.MkAnnotated pair.1 pair.2 md (Annotate.proximity_score md).

(** No finite distance evidence, case by case. *)
Definition missing_or_empty (genes : option (list string)) : Prop :=
  genes = None ∨ genes = Some [].

Definition none_indexed (gene_to_idx : gmap string Z)
    (genes : option (list string)) : Prop :=
  ∀ g, g ∈ default [] genes → gene_to_idx !! g = None.

Definition all_sentinel (gene_to_idx : gmap string Z) (dist : list (list Z))
    (genes_d genes_s : option (list string)) : Prop :=
  ∀ g h i j, g ∈ default [] genes_d → h ∈ default [] genes_s →
    gene_to_idx !! g = Some i → gene_to_idx !! h = Some j →
    cell dist (Z.to_nat i) (Z.to_nat j) = max_uint16.

Definition no_lookup (gene_to_idx : gmap string Z)
    (genes_d genes_s : option (list string)) : Prop :=
  missing_or_empty genes_d ∨ missing_or_empty genes_s ∨
  none_indexed gene_to_idx genes_d ∨ none_indexed gene_to_idx genes_s.

Definition no_evidence (gene_to_idx : gmap string Z) (dist : list (list Z))
    (genes_d genes_s : option (list string)) : Prop :=
  no_lookup gene_to_idx genes_d genes_s ∨
  all_sentinel gene_to_idx dist genes_d genes_s.

(** The example of the specification: drug D with targets A and B,
    disease X with genes B and C, and the distances A-B = 1, A-C = 3,
    B-B = 0, B-C = 2. *)
Definition ex_gene_to_idx : gmap string Z :=
  <["A" := 0]> (<["B" := 1]> (<["C" := 2]> ∅)).

Definition ex_dist : list (list Z) := [[0; 1; 3]; [1; 0; 2]; [3; 2; 0]].

Definition ex_drug_to_genes : gmap string (list string) :=
  <["D" := ["A"; "B"]%string]> ∅.

Definition ex_disease_to_genes : gmap string (list string) :=
  <["X" := ["B"; "C"]%string]> ∅.

(** ** Ordering of identifiers and of float keys *)

(** Python's [<=] on [str] (code point order). *)
Definition str_le (a b : string) : Prop := String.leb a b = true.

#[global] Instance str_le_dec : RelDecision str_le.
Proof. intros a b. unfold str_le. apply _. Defined.

(** Lexicographic [<=] on (drug_id, disease_id). *)
Definition key_le (a b : string * string) : Prop :=
  match String.compare a.1 b.1 with
  | Lt => True
  | Eq => str_le a.2 b.2
  | Gt => False
  end.

#[global] Instance key_le_dec : RelDecision key_le.
Proof.
  intros a b. unfold key_le. destruct (String.compare a.1 b.1); apply _.
Defined.

(** ** src/ddh/scoring.py *)

Module Scoring.

(** *** [combine_overlap_and_proximity] *)

(** A row of [proximity_df]. *)
Record prox_row : Type := MkProx {
  p_drug_id : string;
  p_disease_id : string;
  p_mean_distance : distance;
  p_proximity_score : Q
}.

(** A row of [overlap_df]. *)
Record overlap_row : Type := MkOverlap {
  o_drug_id : string;
  o_disease_id : string;
  o_n_overlap : Z;
  o_overlapping_genes : string;
  o_jaccard : option Q
}.

(** A row of the joined frame; [None] is NaN. *)
Record joined : Type := MkJoined {
  j_drug_id : string;
  j_disease_id : string;
  j_mean_distance : option distance;
  j_proximity_score : option Q;
  j_n_overlap : option Q;
  j_overlapping_genes : option string;
  j_jaccard : option Q
}.

(** A row of the result. *)
Record combined : Type := MkCombined {
  c_drug_id : string;
  c_disease_id : string;
  c_mean_distance : option distance;
  c_proximity_score : Q;
  c_n_overlap : Q;
  c_overlapping_genes : option string;
  c_jaccard : option Q;
  c_norm_overlap : Q;
  c_combined_score : Q
}.

Definition p_key (p : prox_row) : string * string :=
  (p_drug_id p, p_disease_id p).

Definition o_key (o : overlap_row) : string * string :=
  (o_drug_id o, o_disease_id o).

Definition c_key (c : combined) : string * string :=
  (c_drug_id c, c_disease_id c).

Definition join_both (p : prox_row) (o : overlap_row) : joined :=
  MkJoined (p_drug_id p) (p_disease_id p)
    (Some (p_mean_distance p)) (Some (p_proximity_score p))
    (Some (inject_Z (o_n_overlap o))) (Some (o_overlapping_genes o))
    (o_jaccard o).

Definition join_left (p : prox_row) : joined :=
  MkJoined (p_drug_id p) (p_disease_id p)
    (Some (p_mean_distance p)) (Some (p_proximity_score p)) None None None.

Definition join_right (o : overlap_row) : joined :=
  MkJoined (o_drug_id o) (o_disease_id o) None None
    (Some (inject_Z (o_n_overlap o))) (Some (o_overlapping_genes o))
    (o_jaccard o).

(** [pd.merge(proximity_df, overlap_df, on=["drug_id", "disease_id"],
    how="outer")]: the union of the keys in lexicographic order; under a
    key the product of the rows of both sides, or the rows of the one side
    that has the key, padded with NaN. *)
Definition merge_outer (proximity_df : list prox_row)
    (overlap_df : list overlap_row) : list joined :=
  k ← merge_sort key_le
        (remove_dups ((p_key <$> proximity_df) ++ (o_key <$> overlap_df)));
  let ps := filter (λ p, p_key p = k) proximity_df in
  let os := filter (λ o, o_key o = k) overlap_df in
  match ps, os with
  | [], _ => join_right <$> os
  | _, [] => join_left <$> ps
  | _, _ => p ← ps; join_both p <$> os
  end.

(** [Series.max()] of a column without NaN; NaN for no rows. *)
Definition series_max (xs : list Q) : option Q :=
  match xs with
  | [] => None
  | x :: xs' => Some (foldl Qmax x xs')
  end.

(** [Series.min()], likewise. *)
Definition series_min (xs : list Q) : option Q :=
  match xs with
  | [] => None
  | x :: xs' => Some (foldl Qmin x xs')
  end.

(** Descending order on (combined_score, proximity_score, n_overlap). *)
Definition rank_ge (a b : combined) : Prop :=
  match (c_combined_score a ?= c_combined_score b)%Q with
  | Gt => True
  | Lt => False
  | Eq =>
      match (c_proximity_score a ?= c_proximity_score b)%Q with
      | Gt => True
      | Lt => False
      | Eq => (c_n_overlap b <= c_n_overlap a)%Q
      end
  end.

#[global] Instance rank_ge_dec : RelDecision rank_ge.
Proof.
  intros a b. unfold rank_ge.
  destruct (_ ?= _)%Q; [|apply _..]. destruct (_ ?= _)%Q; apply _.
Defined.

(** [sort_values] on several columns is a stable sort: rows that tie on
    every column keep the order they had.  [R x y] says that [x] may
    come before [y]. *)
Fixpoint insert_row {A : Type} (R : relation A) `{!RelDecision R}
    (x : A) (l : list A) : list A :=
  match l with
  | [] => [x]
  | y :: l' => if decide (R x y) then x :: l else y :: insert_row R x l'
  end.

Definition sort_values {A : Type} (R : relation A) `{!RelDecision R}
    (l : list A) : list A :=
  foldr (insert_row R) [] l.

(** Both frames come with their columns, so that [n_overlap] and
    [proximity_score] are columns of the joined frame. *)
Definition combine_overlap_and_proximity (overlap_df : list overlap_row)
    (proximity_df : list prox_row) (alpha beta : Q) : list combined :=
  let df := merge_outer proximity_df overlap_df in
  (* df["n_overlap"].fillna(0) *)
  let n_overlap := (λ r, default 0%Q (j_n_overlap r)) <$> df in
  (* the column is all NaN only when the frame has no rows *)
  let max_overlap := default 0%Q (series_max n_overlap) in
  let norm_overlap (n : Q) : Q :=
    if decide (0 < max_overlap)%Q then Qred (n / max_overlap) else 0%Q in
  let rows :=
    (λ r,
       let n := default 0%Q (j_n_overlap r) in
       let prox := default 0%Q (j_proximity_score r) in
       MkCombined (j_drug_id r) (j_disease_id r) (j_mean_distance r)
         prox n (j_overlapping_genes r) (j_jaccard r) (norm_overlap n)
         (Qred (alpha * norm_overlap n + beta * prox))) <$> df in
  sort_values rank_ge rows.

(** *** The overlap tables *)

Record DrugTargetAssoc : Type := MkDrugTarget {
  dt_drug_id : string;
  dt_gene_id : string;
  dt_source : string;
  dt_score : option Q
}.

Record GeneDiseaseAssoc : Type := MkGeneDisease {
  gd_gene_id : string;
  gd_disease_id : string;
  gd_source : string;
  gd_score : option Q
}.

(** [if k not in mapping: mapping[k] = set()] and [mapping[k].add(g)] on a
    dictionary kept in insertion order. *)
Fixpoint add_to_set (k g : string) (mapping : list (string * gset string))
    : list (string * gset string) :=
  match mapping with
  | [] => [(k, {[g]})]
  | (k', s) :: mapping' =>
      if decide (k' = k) then (k', s ∪ {[g]}) :: mapping'
      else (k', s) :: add_to_set k g mapping'
  end.

Definition build_drug_target_map (drug_targets : list DrugTargetAssoc)
    : list (string * gset string) :=
  foldl (λ mapping assoc,
           add_to_set (dt_drug_id assoc) (dt_gene_id assoc) mapping)
    [] drug_targets.

Definition build_disease_gene_map (gene_diseases : list GeneDiseaseAssoc)
    : list (string * gset string) :=
  foldl (λ mapping assoc,
           add_to_set (gd_disease_id assoc) (gd_gene_id assoc) mapping)
    [] gene_diseases.

(** [";".join(sorted(genes))] *)
Definition join_sorted (genes : gset string) : string :=
  String.concat ";" (merge_sort str_le (elements genes)).

(** [sort_values(by=["n_overlap", "jaccard", "drug_id", "disease_id"],
    ascending=[False, False, True, True])]; NaN sorts last. *)
Definition jaccard_ge (a b : option Q) : comparison :=
  match a, b with
  | Some x, Some y => (y ?= x)%Q
  | Some _, None => Lt
  | None, Some _ => Gt
  | None, None => Eq
  end.

Definition overlap_order (a b : overlap_row) : Prop :=
  match (o_n_overlap b ?= o_n_overlap a)%Z with
  | Lt => True
  | Gt => False
  | Eq =>
      match jaccard_ge (o_jaccard a) (o_jaccard b) with
      | Lt => True
      | Gt => False
      | Eq => key_le (o_key a) (o_key b)
      end
  end.

#[global] Instance overlap_order_dec : RelDecision overlap_order.
Proof.
  intros a b. unfold overlap_order.
  destruct (_ ?= _)%Z; [|apply _..]. destruct (jaccard_ge _ _); apply _.
Defined.

(** A data frame: its column labels and its rows. *)
Record DataFrame (A : Type) : Type := MkDataFrame {
  df_columns : list string;
  df_rows : list A
}.
Arguments MkDataFrame {A} _ _.
Arguments df_columns {A} _.
Arguments df_rows {A} _.

(** [pd.DataFrame(rows)] for a list of dictionaries with the keys
    [keys]: the columns are the keys of the rows, and a frame made of no
    rows has no columns. *)
Definition DataFrame_of_dicts {A : Type} (keys : list string)
    (rows : list A) : DataFrame A :=
  MkDataFrame (match rows with [] => [] | _ => keys end) rows.

(** [df.empty]: one of the axes has length 0. *)
Definition df_empty {A : Type} (df : DataFrame A) : bool :=
  match df_columns df, df_rows df with
  | [], _ | _, [] => true
  | _, _ => false
  end.

(** The columns of an overlap table. *)
Definition overlap_columns : list string :=
  ["drug_id"; "disease_id"; "n_overlap"; "overlapping_genes"; "jaccard"].

(** The frame has the columns [drug_id] and [disease_id]. *)
Definition has_key_columns {A : Type} (df : DataFrame A) : bool :=
  bool_decide ("drug_id" ∈ df_columns df ∧ "disease_id" ∈ df_columns df).

Definition compute_overlap_table
    (drug_to_genes disease_to_genes : list (string * gset string))
    : DataFrame overlap_row :=
  let rows :=
    '(drug_id, drug_genes) ← drug_to_genes;
    '(disease_id, disease_genes) ← disease_to_genes;
    let inter := drug_genes ∩ disease_genes in
    if decide (inter = ∅) then []
    else
      let union := drug_genes ∪ disease_genes in
      let n_overlap := Z.of_nat (size inter) in
      let jaccard :=
        if decide (union = ∅) then 0%Q
        else true_div n_overlap (Z.of_nat (size union)) in
      [MkOverlap drug_id disease_id n_overlap (join_sorted inter)
         (Some jaccard)] in
  let df := DataFrame_of_dicts overlap_columns rows in
  if df_empty df then df
  else MkDataFrame (df_columns df) (merge_sort overlap_order (df_rows df)).

(** [Series.nunique()] *)
Definition nunique (xs : list string) : nat :=
  size (list_to_set xs : gset string).

(** [df.groupby(key)[value].nunique()] for rows (key, value): the keys
    in sorted order, each with the number of its distinct values. *)
Definition groupby_nunique (df : list (string * string))
    : list (string * nat) :=
  (λ k, (k, nunique (snd <$> filter (λ r, r.1 = k) df))) <$>
    merge_sort str_le (remove_dups (fst <$> df)).

(** The count a left merge attaches to a row with key [k]; NaN when the
    key is missing. *)
Definition merged_count (counts : list (string * nat)) (k : string)
    : option nat :=
  (λ ic, ic.2.2) <$> list_find (λ c, c.1 = k) counts.

(** [dt_df.merge(gd_df, on="gene_id", how="inner")]: the triples
    (drug, gene, disease). *)
Definition merge_inner (dt_df gd_df : list (string * string))
    : list (string * string * string) :=
  dg ← dt_df;
  (λ gs, (dg.1, dg.2, gs.2)) <$> filter (λ gs, gs.1 = dg.2) gd_df.

(** The aggregation of the triples by (drug, disease), the gene counts
    attached, the Jaccard index computed and the rows sorted. *)
Definition aggregate_overlaps (dt_df gd_df : list (string * string))
    (merged : list (string * string * string)) : list overlap_row :=
  let n_genes_per_drug := groupby_nunique dt_df in
  let n_genes_per_disease := groupby_nunique ((λ r, (r.2, r.1)) <$> gd_df) in
  let overlap_df :=
    (λ k,
       let genes := (λ t, t.1.2) <$> filter (λ t, (t.1.1, t.2) = k) merged in
       let n_overlap := nunique genes in
       let union_size :=
         nd ← merged_count n_genes_per_drug k.1;
         ns ← merged_count n_genes_per_disease k.2;
         Some (Z.of_nat nd + Z.of_nat ns - Z.of_nat n_overlap) in
       (* union_size.replace({0: pd.NA}) *)
       let jaccard :=
         u ← union_size;
         if decide (u = 0) then None
         else Some (true_div (Z.of_nat n_overlap) u) in
       MkOverlap k.1 k.2 (Z.of_nat n_overlap)
         (join_sorted (list_to_set genes)) jaccard) <$>
    merge_sort key_le (remove_dups ((λ t, (t.1.1, t.2)) <$> merged)) in
  merge_sort overlap_order overlap_df.

Definition compute_overlap_table_fast (drug_targets : list DrugTargetAssoc)
    (gene_diseases : list GeneDiseaseAssoc) : DataFrame overlap_row :=
  match drug_targets, gene_diseases with
  | [], _ | _, [] => MkDataFrame overlap_columns []
  | _, _ =>
      let dt_df := (λ a, (dt_drug_id a, dt_gene_id a)) <$> drug_targets in
      let gd_df := (λ a, (gd_gene_id a, gd_disease_id a)) <$> gene_diseases in
      let merged := merge_inner dt_df gd_df in
      match merged with
      | [] => MkDataFrame overlap_columns []
      | _ => MkDataFrame overlap_columns
               (aggregate_overlaps dt_df gd_df merged)
      end
  end.

End Scoring.

(** ** scripts/annotate_pairs_with_ppi_from_matrix.py: [add_combined_score] *)

(** The normalisation of a column: (x - min) / (max - min) when the
    maximum is above the minimum, [x * 0.0] otherwise. *)
Definition min_max (xs : list Q) (x : Q) : Q :=
  match Scoring.series_min xs, Scoring.series_max xs with
  | Some lo, Some hi =>
      if decide (lo < hi)%Q then Qred ((x - lo) / (hi - lo)) else (x * 0)%Q
  | _, _ => (x * 0)%Q
  end.

(** The column [combined_score] for the columns [n_overlap], when the
    frame has it, and [proximity_score]. *)
Definition add_combined_score (n_overlap : option (list Q))
    (proximity_score : list Q) (alpha beta : Q) : list Q :=
  let prox_norm := min_max proximity_score <$> proximity_score in
  match n_overlap with
  | Some ov =>
      let ov_norm := min_max ov <$> ov in
      zip_with (λ o p, Qred (alpha * o + beta * p)) ov_norm prox_norm
  | None => (λ p, Qred (beta * p)) <$> prox_norm
  end.

(** ** The score combiner in the words of the specification *)

(** Min-max normalisation across the batch, 0 for every row when the
    maximum equals the minimum. *)
Definition min_max_normalized (batch : list Q) (x : Q) : Q :=
  match Scoring.series_min batch, Scoring.series_max batch with
  | Some lo, Some hi =>
      if decide (hi == lo)%Q then 0%Q else ((x - lo) / (hi - lo))%Q
  | _, _ => 0%Q
  end.

(** Every row of the result has its overlap count min-max-normalised
    across the result and is scored alpha * normalized_overlap +
    beta * proximity_score. *)
Definition combiner_min_max (alpha beta : Q) (out : list Scoring.combined)
    : Prop :=
  ∀ r, r ∈ out →
    (Scoring.c_norm_overlap r ==
       min_max_normalized (Scoring.c_n_overlap <$> out) (Scoring.c_n_overlap r))%Q ∧
    (Scoring.c_combined_score r ==
       alpha * min_max_normalized (Scoring.c_n_overlap <$> out)
                 (Scoring.c_n_overlap r)
       + beta * Scoring.c_proximity_score r)%Q.

(** [M] is the largest value of the batch (0 for an empty batch). *)
Definition is_batch_max (M : Q) (batch : list Q) : Prop :=
  (M ∈ batch ∨ (batch = [] ∧ M = 0%Q)) ∧ Forall (λ x, (x <= M)%Q) batch.

(** One pair, two shared genes. *)
Definition one_overlap : list Scoring.overlap_row :=
  [Scoring.MkOverlap "D1" "X1" 2 "G1;G2" (Some 1%Q)].

Definition one_proximity : list Scoring.prox_row :=
  [Scoring.MkProx "D1" "X1" (Finite 1) (1 # 2)].

(** The round trip of the specification: overlaps 0, 2, 4 and proximity
    scores 0.1, 0.5, 0.9; pair 1 has no overlap row. *)
Definition rt_overlap : list Scoring.overlap_row :=
  [Scoring.MkOverlap "D2" "X2" 2 "G1;G2" (Some (1 # 2));
   Scoring.MkOverlap "D3" "X3" 4 "G1;G2;G3;G4" (Some 1%Q)].

Definition rt_proximity : list Scoring.prox_row :=
  [Scoring.MkProx "D1" "X1" (Finite 9) (1 # 10);
   Scoring.MkProx "D2" "X2" (Finite 1) (1 # 2);
   Scoring.MkProx "D3" "X3" (Finite (1 # 9)) (9 # 10)].

(** ** [networkx.Graph] *)

(** The graph is its adjacency [G._adj]: a dictionary from nodes to the
    dictionary of their neighbours, which holds the attributes of each
    edge.  [A] is the type of the attributes. *)
Module Nx.

Section graph.
Context {A : Type}.

(** [G.add_edge(u, v, **attr)]: both end points become nodes, and the
    attributes of the edge, updated with [attr], are stored under
    [adj[u][v]] and [adj[v][u]]. *)
Definition add_edge (u v : string) (attr : A) (adj : gmap string (gmap string A))
    : gmap string (gmap string A) :=
  let adj1 := <[u := <[v := attr]> (default ∅ (adj !! u))]> adj in
  <[v := <[u := attr]> (default ∅ (adj1 !! v))]> adj1.

(** [G[u][v]], [None] where the lookup raises [KeyError]. *)
Definition edge_data (G : gmap string (gmap string A)) (u v : string)
    : option A :=
  nbrs ← G !! u; nbrs !! v.

(** [G.has_edge(u, v)] *)
Definition has_edge (G : gmap string (gmap string A)) (u v : string) : bool :=
  bool_decide (is_Some (edge_data G u v)).

(** [g in G] *)
Definition has_node (G : gmap string (gmap string A)) (g : string) : bool :=
  bool_decide (is_Some (G !! g)).

(** The degree of a node with neighbours [nbrs]; a self-loop counts twice. *)
Definition degree (n : string) (nbrs : gmap string A) : nat :=
  size nbrs + (if nbrs !! n is Some _ then 1 else 0).

Definition degree_sum (G : gmap string (gmap string A)) : nat :=
  map_fold (λ n nbrs acc, degree n nbrs + acc)%nat 0%nat G.

(** [G.number_of_edges()]: half the sum of the degrees. *)
Definition number_of_edges (G : gmap string (gmap string A)) : nat :=
  (degree_sum G `div` 2)%nat.

(** The keys of [adj[v]]. *)
Definition neighbors (G : gmap string (gmap string A)) (v : string)
    : gset string :=
  dom (default ∅ (G !! v)).

(** The nodes found from [thislevel] that were not seen before. *)
Definition next_level (G : gmap string (gmap string A))
    (seen thislevel : gset string) : gset string :=
  ⋃ (neighbors G <$> elements thislevel) ∖ seen.

(** [cutoff > level]; no cutoff is [float("inf")]. *)
Definition below_cutoff (cutoff : option Z) (level : nat) : Prop :=
  match cutoff with
  | None => True
  | Some c => Z.of_nat level < c
  end.

#[global] Instance below_cutoff_dec cutoff level :
  Decision (below_cutoff cutoff level).
Proof. destruct cutoff; simpl; apply _. Defined.

(** The loop of the breadth-first search of networkx 3, level by level:
    [seen] and [nextlevel] as sets, [lengths] collecting what the
    generator yields.  The loop ends by itself within [len(adj)] rounds;
    [fuel] bounds the recursion by more. *)
Fixpoint bfs_loop (fuel : nat) (G : gmap string (gmap string A))
    (cutoff : option Z) (seen nextlevel : gset string) (level : nat)
    (lengths : gmap string nat) : gmap string nat :=
  match fuel with
  | O => lengths
  | S fuel' =>
      if decide (nextlevel ≠ ∅ ∧ below_cutoff cutoff level) then
        let level' := S level in
        let found := next_level G seen nextlevel in
        let seen' := seen ∪ found in
        let lengths' := lengths ∪ gset_to_gmap level' found in
        if decide (size seen' = size G) then lengths'
        else bfs_loop fuel' G cutoff seen' found level' lengths'
      else lengths
  end.

(** [nx.single_source_shortest_path_length(G, source, cutoff)] *)
Definition single_source_shortest_path_length (G : gmap string (gmap string A))
    (source : string) (cutoff : option Z) : result (gmap string nat) :=
  if has_node G source then
    Ok (bfs_loop (S (size G)) G cutoff {[source]} {[source]} 0
          {[source := 0%nat]})
  else Raise NodeNotFound.

End graph.

End Nx.

(** ** src/ddh/graphs.py *)

Module Graphs.

Record GeneGeneInteraction : Type := MkInteraction {
  gene1_id : string;
  gene2_id : string;
  weight : option Q;
  source : string
}.

(** The attribute dictionary of an edge holds the weight only. *)
Definition build_ppi_graph (interactions : list GeneGeneInteraction)
    : gmap string (gmap string Q) :=
  foldl
    (λ G inter,
       let w := match weight inter with Some w => w | None => 1%Q end in
       Nx.add_edge (gene1_id inter) (gene2_id inter) w G)
    ∅ interactions.

End Graphs.

(** ** The graph builder in the words of the specification *)

(** The interaction joins [a] and [b], in either direction. *)
Definition joins (a b : string) (inter : Graphs.GeneGeneInteraction) : Prop :=
  (Graphs.gene1_id inter = a ∧ Graphs.gene2_id inter = b) ∨
  (Graphs.gene1_id inter = b ∧ Graphs.gene2_id inter = a).

#[global] Instance joins_dec a b inter : Decision (joins a b inter).
Proof. unfold joins. apply _. Defined.

(** The weights observed for the unordered pair, in list order. *)
Definition observed_weights (a b : string)
    (interactions : list Graphs.GeneGeneInteraction) : list Q :=
  (λ inter, default 1%Q (Graphs.weight inter)) <$>
    filter (joins a b) interactions.

(** The unordered pair as an ordered one. *)
Definition unordered (a b : string) : string * string :=
  if decide (str_le a b) then (a, b) else (b, a).

Definition unordered_pairs (interactions : list Graphs.GeneGeneInteraction)
    : gset (string * string) :=
  list_to_set
    ((λ inter, unordered (Graphs.gene1_id inter) (Graphs.gene2_id inter))
       <$> interactions).

(** Every edge carries the maximum weight observed among its duplicates. *)
Definition weights_are_maxima
    (interactions : list Graphs.GeneGeneInteraction) : Prop :=
  ∀ a b,
    match Nx.edge_data (Graphs.build_ppi_graph interactions) a b,
          Scoring.series_max (observed_weights a b interactions) with
    | Some w, Some m => (w == m)%Q
    | None, None => True
    | _, _ => False
    end.

(** An edge and its reversed duplicate with a smaller weight. *)
Definition reversed_duplicate : list Graphs.GeneGeneInteraction :=
  [Graphs.MkInteraction "A" "B" (Some (4 # 5)) "ppi";
   Graphs.MkInteraction "B" "A" (Some (1 # 2)) "ppi"].

(** ** scripts/precompute_gene_distance_matrix.py *)

Module Precompute.

(** The gene columns after [astype(str).str.strip()], as sets, and their
    union. *)
Definition build_gene_universe (strip : string → string)
    (ppi : list (string * string)) (dt_genes gd_genes : list string)
    : gset string :=
  let genes_ppi : gset string :=
    list_to_set (strip ∘ fst <$> ppi) ∪ list_to_set (strip ∘ snd <$> ppi) in
  let genes_dt : gset string := list_to_set (strip <$> dt_genes) in
  let genes_gd : gset string := list_to_set (strip <$> gd_genes) in
  genes_ppi ∪ genes_dt ∪ genes_gd.

(** [G.add_edges_from(edges)]: the edges carry no attribute. *)
Definition build_ppi_graph (strip : string → string)
    (ppi : list (string * string)) : gmap string (gmap string ()) :=
  foldl (λ G e, Nx.add_edge (strip e.1) (strip e.2) () G) ∅ ppi.

(** [{g: i for i, g in enumerate(all_genes)}] *)
Definition enumerate_index (all_genes : list string) : gmap string nat :=
  foldl (λ m ig, <[ig.2 := ig.1]> m) ∅ (imap pair all_genes).

(** [dist[i, j] = d] for a position inside the array. *)
Definition set_cell (dist : list (list Z)) (i j : nat) (d : Z)
    : list (list Z) :=
  alter (λ row, <[j := d]> row) i dist.

(** [dist[:] = max_uint16] on the freshly mapped [N x N] array. *)
Definition fill_sentinel (N : nat) : list (list Z) :=
  replicate N (replicate N max_uint16).

(** [for i in range(N): dist[i, i] = 0] *)
Definition zero_diagonal (N : nat) (dist : list (list Z)) : list (list Z) :=
  foldl (λ m i, set_cell m i i 0) dist (seq 0 N).

(** The loop over [lengths.items()] for the source of row [i]. *)
Definition write_lengths (gene_to_idx : gmap string nat) (i : nat)
    (lengths : gmap string nat) (dist : list (list Z)) : list (list Z) :=
  map_fold
    (λ h d m,
       match gene_to_idx !! h with
       | None => m
       | Some j =>
           if decide (Z.of_nat d ≤ max_uint16)
           then set_cell m i j (Z.of_nat d)
           else m
       end)
    dist lengths.

(** The loop over [genes_in_graph]; the array as it stands comes back
    with the exception when one is raised. *)
Fixpoint bfs_sweep (G : gmap string (gmap string ()))
    (gene_to_idx : gmap string nat) (cutoff : option Z)
    (genes_in_graph : list string) (dist : list (list Z))
    : list (list Z) * result () :=
  match genes_in_graph with
  | [] => (dist, Ok ())
  | g :: genes =>
      match gene_to_idx !! g with
      | None => (dist, Raise KeyError)
      | Some i =>
          match Nx.single_source_shortest_path_length G g cutoff with
          | Raise e => (dist, Raise e)
          | Ok lengths =>
              bfs_sweep G gene_to_idx cutoff genes
                (write_lengths gene_to_idx i lengths dist)
          end
      end
  end.

(** What a run leaves behind: the index file and the matrix file, when
    they were created, and how the run ended. *)
Record run : Type := MkRun {
  index_file : option (list (string * nat));
  matrix_file : option (list (list Z));
  outcome : result ()
}.

(** [main].  [set_iter] is the iteration order of a set; [mmap_empty_ok]
    tells whether [np.memmap] accepts the shape (0, 0) or raises
    [ValueError] after it has created the file. *)
Definition main (set_iter : gset string → list string)
    (strip : string → string) (mmap_empty_ok : bool)
    (ppi : list (string * string)) (dt_genes gd_genes : list string)
    (cutoff : option Z) : run :=
  (* 1. gene universe and index *)
  let all_genes :=
    merge_sort str_le
      (set_iter (build_gene_universe strip ppi dt_genes gd_genes)) in
  let N := length all_genes in
  let gene_to_idx := enumerate_index all_genes in
  let df_index := zip all_genes (seq 0 N) in
  (* 2. PPI graph *)
  let G := build_ppi_graph strip ppi in
  (* 3. memmap distance matrix *)
  if decide (N = 0%nat ∧ mmap_empty_ok = false)
  then MkRun (Some df_index) (Some []) (Raise ValueError)
  else
    let dist := zero_diagonal N (fill_sentinel N) in
    (* 4. BFS from each gene of the graph *)
    let genes_in_graph := filter (λ g, Nx.has_node G g = true) all_genes in
    let '(dist, status) :=
      bfs_sweep G gene_to_idx cutoff genes_in_graph dist in
    MkRun (Some df_index) (Some dist) status.

End Precompute.

(** ** The precomputation in the words of the specification *)

(** The run aborts before any output file is allocated or written. *)
Definition aborts_before_output (r : Precompute.run) : Prop :=
  (∃ e, Precompute.outcome r = Raise e) ∧
  Precompute.index_file r = None ∧ Precompute.matrix_file r = None.

(** A walk of [n] edges. *)
Inductive walk {A : Type} (G : gmap string (gmap string A))
    : nat → string → string → Prop :=
| walk_here a : walk G 0 a a
| walk_step n a u b :
    u ∈ Nx.neighbors G a → walk G n u b → walk G (S n) a b.

(** [d] is the length of a shortest path from [a] to [b]. *)
Definition shortest {A : Type} (G : gmap string (gmap string A))
    (a b : string) (d : nat) : Prop :=
  walk G d a b ∧ ∀ d', walk G d' a b → (d ≤ d')%nat.

(** [d] is within the cutoff of the traversal. *)
Definition within_cutoff (cutoff : option Z) (d : nat) : Prop :=
  match cutoff with
  | None => True
  | Some c => d = 0%nat ∨ Z.of_nat d ≤ c
  end.

(** Some walk of at most [k] edges. *)
Definition within {A : Type} (G : gmap string (gmap string A)) (k : nat)
    (a b : string) : Prop :=
  ∃ j, (j ≤ k)%nat ∧ walk G j a b.

(** The graph as [networkx] keeps it: neighbours are nodes, and an edge is
    seen from both ends. *)
Definition closed {A : Type} (G : gmap string (gmap string A)) : Prop :=
  ∀ a b, b ∈ Nx.neighbors G a → is_Some (G !! b).

Definition symmetric {A : Type} (G : gmap string (gmap string A)) : Prop :=
  ∀ a b, b ∈ Nx.neighbors G a → a ∈ Nx.neighbors G b.

(** What the loop of the search maintains for the source [s]: the nodes
    seen are those within [level] edges, the current level holds those at
    distance [level], the lengths are the distances up to [level], and
    [level] is within the cutoff. *)
Definition bfs_inv {A : Type} (G : gmap string (gmap string A))
    (cutoff : option Z) (s : string) (seen nextlevel : gset string)
    (level : nat) (lengths : gmap string nat) : Prop :=
  (∀ t, t ∈ seen ↔ within G level s t) ∧
  (∀ t, t ∈ nextlevel ↔ shortest G s t level) ∧
  (∀ t d, lengths !! t = Some d ↔ shortest G s t d ∧ (d ≤ level)%nat) ∧
  within_cutoff cutoff level.

(** The entry a row gets for the gene [h] from the lengths found: the
    length when there is one that fits, the entry it had otherwise. *)
Definition written (lengths : gmap string nat) (h : string) (old : Z) : Z :=
  match lengths !! h with
  | Some d => if decide (Z.of_nat d ≤ max_uint16) then Z.of_nat d else old
  | None => old
  end.

(** The row of the edge list joins [a] and [b], in either direction. *)
Definition row_joins (strip : string → string) (a b : string)
    (e : string * string) : Prop :=
  (strip e.1 = a ∧ strip e.2 = b) ∨ (strip e.1 = b ∧ strip e.2 = a).

(** The array before the traversals. *)
Definition initial_cell (i j : nat) : Z :=
  if decide (i = j) then 0 else max_uint16.

(** An iteration order of sets other than the canonical one. *)
Definition reversed_iter (X : gset string) : list string :=
  reverse (elements X).

(** ** The overlap tables by sets *)

(** The values the rows (key, value) give for a key. *)
Definition values_of (df : list (string * string)) (k : string) : gset string :=
  list_to_set (snd <$> filter (λ r, r.1 = k) df).

(** The dictionary of sets the rows (key, value) build up. *)
Definition grouped (df : list (string * string)) : list (string * gset string) :=
  foldl (λ mapping r, Scoring.add_to_set r.1 r.2 mapping) [] df.

(** The row of the overlap table for a drug with targets [D] and a
    disease with genes [S]. *)
Definition overlap_row_of (d : string) (D : gset string) (s : string)
    (S : gset string) : Scoring.overlap_row :=
  Scoring.MkOverlap d s (Z.of_nat (size (D ∩ S)))
    (Scoring.join_sorted (D ∩ S))
    (Some (true_div (Z.of_nat (size (D ∩ S))) (Z.of_nat (size (D ∪ S))))).

(** The rows an overlap table of the frames (drug, gene) and
    (gene, disease) consists of. *)
Definition is_overlap_row (dt_df gd_df : list (string * string))
    (r : Scoring.overlap_row) : Prop :=
  let D := values_of dt_df in
  let S := values_of ((λ r : string * string, (r.2, r.1)) <$> gd_df) in
  ∃ d s, D d ∩ S s ≠ ∅ ∧ r = overlap_row_of d (D d) s (S s).

(** The body of the nested loops of [compute_overlap_table]. *)
Definition overlap_rows_of_pair (drug : string * gset string)
    (disease : string * gset string) : list Scoring.overlap_row :=
  let inter := drug.2 ∩ disease.2 in
  if decide (inter = ∅) then []
  else
    let union := drug.2 ∪ disease.2 in
    let n_overlap := Z.of_nat (size inter) in
    let jaccard :=
      if decide (union = ∅) then 0%Q
      else true_div n_overlap (Z.of_nat (size union)) in
    [Scoring.MkOverlap drug.1 disease.1 n_overlap (Scoring.join_sorted inter)
       (Some jaccard)].

(** [jaccard_ge] as an order: larger values first, NaN last. *)
Definition jaccard_before (a b : option Q) : Prop :=
  match a, b with
  | Some x, Some y => (y < x)%Q
  | Some _, None => True
  | None, _ => False
  end.

Definition jaccard_same (a b : option Q) : Prop :=
  match a, b with
  | Some x, Some y => (x == y)%Q
  | None, None => True
  | _, _ => False
  end.

(** The associations of a small example. *)
Definition ex_drug_targets : list Scoring.DrugTargetAssoc :=
  [Scoring.MkDrugTarget "D1" "G1" "toy" None;
   Scoring.MkDrugTarget "D2" "G3" "toy" None;
   Scoring.MkDrugTarget "D1" "G2" "toy" (Some 1%Q);
   Scoring.MkDrugTarget "D1" "G1" "toy" None].

Definition ex_gene_diseases : list Scoring.GeneDiseaseAssoc :=
  [Scoring.MkGeneDisease "G2" "DIS1" "toy" None;
   Scoring.MkGeneDisease "G1" "DIS1" "toy" None;
   Scoring.MkGeneDisease "G3" "DIS2" "toy" None;
   Scoring.MkGeneDisease "G4" "DIS1" "toy" None;
   Scoring.MkGeneDisease "G3" "DIS1" "toy" None].

(** A small run: the path A - B - C and the isolated target gene T. *)
Definition ex_ppi : list (string * string) :=
  [("A", "B"); ("B", "C"); ("B", "A")]%string.

(** ** scripts/annotate_pairs_with_ppi_from_matrix.py: the inputs *)

(** [df.groupby(key)[value].apply(list).to_dict()] for rows (key, value):
    every key with its values in row order. *)
Definition groupby_apply_list (df : list (string * string))
    : gmap string (list string) :=
  foldl (λ m r, <[r.1 := default [] (m !! r.1) ++ [r.2]]> m) ∅ df.

(** [build_gene_maps] on the rows (drug_id, gene_id) and
    (gene_id, disease_id) of the two tables; [strip] is
    [astype(str).str.strip()]. *)
Definition build_gene_maps (strip : string → string)
    (dt gd : list (string * string))
    : gmap string (list string) * gmap string (list string) :=
  let dt := (λ r, (strip r.1, strip r.2)) <$> dt in
  let gd := (λ r, (strip r.1, strip r.2)) <$> gd in
  (groupby_apply_list dt, groupby_apply_list ((λ r, (r.2, r.1)) <$> gd)).

(** [dict(zip(keys, values))]: a later row replaces an earlier one with
    the same key. *)
Definition dict_zip (rows : list (string * Z)) : gmap string Z :=
  foldl (λ m r, <[r.1 := r.2]> m) ∅ rows.

(** [np.memmap(path, dtype=np.uint16, mode="r", shape=(N, N))] on a file
    of 16-bit cells: the first [N * N] cells, row by row.  A file that is
    too short raises [ValueError]; so does an empty file when the array
    library does not map empty files. *)
Definition memmap_r (mmap_empty_ok : bool) (file : list Z) (N : nat)
    : result (list (list Z)) :=
  if decide (length file < N * N)%nat then Raise ValueError
  else if decide (file = [] ∧ mmap_empty_ok = false) then Raise ValueError
  else Ok (reshape (replicate N N) file).

(** [load_distance_matrix] on the rows (gene_id, index) of the index file
    and the cells of the matrix file. *)
Definition load_distance_matrix (strip : string → string)
    (mmap_empty_ok : bool) (idx_df : list (string * Z)) (file : list Z)
    : result (gmap string Z * list (list Z) * Z) :=
  let idx_df := (λ r, (strip r.1, r.2)) <$> idx_df in
  let gene_to_idx := dict_zip idx_df in
  let N := length idx_df in
  dist ← memmap_r mmap_empty_ok file N;
  Ok (gene_to_idx, dist, max_uint16).

(** The rows of the index file and the cells of the matrix file as a run
    of the precomputation writes them. *)
Definition index_rows (idx : list (string * nat)) : list (string * Z) :=
  (λ r, (r.1, Z.of_nat r.2)) <$> idx.

Definition matrix_cells (dist : list (list Z)) : list Z := concat dist.

(** [d1 <= d2] on floats that may be [inf]. *)
Definition distance_le (d1 d2 : distance) : Prop :=
  match d1, d2 with
  | Finite q1, Finite q2 => (q1 <= q2)%Q
  | _, Inf => True
  | Inf, Finite _ => False
  end.

(** ** src/ddh/scoring.py: the joined table *)

(** The key of a row of the joined frame. *)
Definition j_key (j : Scoring.joined) : string * string :=
  (Scoring.j_drug_id j, Scoring.j_disease_id j).

(** ** src/ddh/data_models.py: drugs and diseases *)

Module Drug.
Record t : Type := Mk { id : string; name : string }.
End Drug.

Module Disease.
Record t : Type := Mk { id : string; name : string }.
End Disease.

(** ** src/ddh/scoring.py: network proximity and entity names *)

(** [nx.shortest_path_length(G, t, g)] for two nodes of the graph: the
    number of edges of a shortest path, found here by the breadth-first
    search from [t]; [None] where the call raises [NetworkXNoPath]. *)
Definition shortest_path_length {A : Type} (G : gmap string (gmap string A))
    (t g : string) : option nat :=
  match Nx.single_source_shortest_path_length G t None with
  | Ok lengths => lengths !! g
  | Raise _ => None
  end.

(** The list [distances] of a pair: the loops over the two gene sets. *)
Definition pair_distances {A : Type} (set_iter : gset string → list string)
    (G : gmap string (gmap string A)) (drug_genes dis_genes : gset string)
    : list nat :=
  t ← set_iter drug_genes;
  g ← set_iter dis_genes;
  if Nx.has_node G t && Nx.has_node G g
  then option_list (shortest_path_length G t g)
  else [].

(** [float(np.mean(distances))] *)
Definition np_mean (distances : list nat) : Q :=
  true_div (Z.of_nat (sum_list distances)) (Z.of_nat (length distances)).

(** [sort_values(by=["proximity_score", "drug_id", "disease_id"],
    ascending=[False, True, True])] *)
Definition prox_order (a b : Scoring.prox_row) : Prop :=
  match (Scoring.p_proximity_score b ?= Scoring.p_proximity_score a)%Q with
  | Lt => True
  | Gt => False
  | Eq => key_le (Scoring.p_key a) (Scoring.p_key b)
  end.

#[global] Instance prox_order_dec : RelDecision prox_order.
Proof. intros a b. unfold prox_order. destruct (_ ?= _)%Q; apply _. Defined.

(** The row of a pair of dictionary items; [None] where the division
    [1.0 / (1.0 + mean_distance)] raises [ZeroDivisionError]. *)
Definition proximity_row {A : Type} (set_iter : gset string → list string)
    (G : gmap string (gmap string A)) (default_distance : Q)
    (drug disease : string * gset string) : option Scoring.prox_row :=
  let distances := pair_distances set_iter G drug.2 disease.2 in
  let mean_distance :=
    match distances with
    | [] => default_distance
    | _ => np_mean distances
    end in
  if decide (1 + mean_distance == 0)%Q then None
  else Some (Scoring.MkProx drug.1 disease.1 (Finite mean_distance)
               (Qred (1 / (1 + mean_distance)))).

(** [compute_network_proximity] for a finite [default_distance]; the
    dictionaries are lists of items in insertion order.  A frame without
    rows has no columns. *)
Definition compute_network_proximity {A : Type}
    (set_iter : gset string → list string) (G : gmap string (gmap string A))
    (drug_to_genes disease_to_genes : list (string * gset string))
    (default_distance : Q) : option (list Scoring.prox_row) :=
  rows ← mapM (λ items, proximity_row set_iter G default_distance
                          items.1 items.2)
         (list_prod drug_to_genes disease_to_genes);
  Some (merge_sort prox_order rows).

(** A row with the two name columns; [None] is NaN. *)
Record named (A : Type) : Type := MkNamed {
  n_row : A;
  n_drug_name : option string;
  n_disease_name : option string
}.

Arguments MkNamed {A} _ _ _.
Arguments n_row {A} _.
Arguments n_drug_name {A} _.
Arguments n_disease_name {A} _.

(** [{d.id: d.name for d in drugs}] *)
Definition drug_names (drugs : list Drug.t) : gmap string string :=
  foldl (λ m d, <[Drug.id d := Drug.name d]> m) ∅ drugs.

Definition disease_names (diseases : list Disease.t) : gmap string string :=
  foldl (λ m d, <[Disease.id d := Disease.name d]> m) ∅ diseases.

(** [attach_entity_names] on a frame with the columns [drug_id] and
    [disease_id], which [key] reads. *)
Definition attach_entity_names {A : Type} (key : A → string * string)
    (df : list A) (drugs : list Drug.t) (diseases : list Disease.t)
    : list (named A) :=
  let drug_map := drug_names drugs in
  let disease_map := disease_names diseases in
  (λ r, MkNamed r (drug_map !! (key r).1) (disease_map !! (key r).2)) <$> df.

(** ** src/ddh/pipeline.py *)

Module Pipeline.

Inductive error : Type :=
| KeyError
| ZeroDivisionError.

(** [combine_overlap_and_proximity] as the pipelines call it: the merge
    on [drug_id] and [disease_id] raises [KeyError] for a frame without
    these columns, which a proximity frame without rows is. *)
Definition combine (overlap_df : Scoring.DataFrame Scoring.overlap_row)
    (prox_df : list Scoring.prox_row) (alpha beta : Q)
    : error + list Scoring.combined :=
  match prox_df with
  | [] => inl KeyError
  | _ =>
      if Scoring.has_key_columns overlap_df then
        inr (Scoring.combine_overlap_and_proximity
               (Scoring.df_rows overlap_df) prox_df alpha beta)
      else inl KeyError
  end.

(** [run_toy_pipeline] on the loaded data. *)
Definition run_toy_pipeline (set_iter : gset string → list string)
    (drugs : list Drug.t) (diseases : list Disease.t)
    (dts : list Scoring.DrugTargetAssoc) (gds : list Scoring.GeneDiseaseAssoc)
    (ppis : list Graphs.GeneGeneInteraction) (alpha beta : Q)
    : error + list (named Scoring.combined) :=
  (* 2. maps *)
  let drug_to_genes := Scoring.build_drug_target_map dts in
  let disease_to_genes := Scoring.build_disease_gene_map gds in
  (* 3. overlap *)
  let overlap_df := Scoring.compute_overlap_table_fast dts gds in
  (* 4. network proximity *)
  let G := Graphs.build_ppi_graph ppis in
  match compute_network_proximity set_iter G drug_to_genes disease_to_genes 5
  with
  | None => inl ZeroDivisionError
  | Some prox_df =>
      (* 5. combine *)
      match combine overlap_df prox_df alpha beta with
      | inl e => inl e
      | inr combined_df =>
          (* 6. names *)
          inr (attach_entity_names Scoring.c_key combined_df drugs diseases)
      end
  end.

(** [run_csv_pipeline] on the loaded data. *)
Definition run_csv_pipeline (set_iter : gset string → list string)
    (drugs : list Drug.t) (diseases : list Disease.t)
    (dts : list Scoring.DrugTargetAssoc) (gds : list Scoring.GeneDiseaseAssoc)
    (ppis : list Graphs.GeneGeneInteraction) (alpha beta : Q)
    : error + list (named Scoring.combined) :=
  let drug_to_genes := Scoring.build_drug_target_map dts in
  let disease_to_genes := Scoring.build_disease_gene_map gds in
  let overlap_df := Scoring.compute_overlap_table_fast dts gds in
  match ppis with
  | _ :: _ =>
      (* real PPI: network proximity for all pairs *)
      let G := Graphs.build_ppi_graph ppis in
      match compute_network_proximity set_iter G drug_to_genes
              disease_to_genes 5
      with
      | None => inl ZeroDivisionError
      | Some prox_df =>
          match combine overlap_df prox_df alpha beta with
          | inl e => inl e
          | inr combined_df =>
              inr (attach_entity_names Scoring.c_key combined_df drugs
                     diseases)
          end
      end
  | [] =>
      (* no PPI: proximity only for the pairs that overlap *)
      if Scoring.df_empty overlap_df then
        (* nothing to score: the names are attached to the frame as it is *)
        if Scoring.has_key_columns overlap_df then inr [] else inl KeyError
      else
        let prox_df :=
          (λ o, Scoring.MkProx (Scoring.o_drug_id o) (Scoring.o_disease_id o)
                  Inf 0) <$> Scoring.df_rows overlap_df in
        match combine overlap_df prox_df alpha beta with
        | inl e => inl e
        | inr combined_df =>
            inr (attach_entity_names Scoring.c_key combined_df drugs
                   diseases)
        end
  end.

End Pipeline.

(** ** Network proximity in canonical order *)

(** The mean distance of a pair of gene sets, the sets read in their
    canonical order. *)
Definition network_mean_distance {A : Type} (G : gmap string (gmap string A))
    (default_distance : Q) (drug_genes dis_genes : gset string) : Q :=
  let distances := pair_distances elements G drug_genes dis_genes in
  match distances with
  | [] => default_distance
  | _ => np_mean distances
  end.

(** The row of a pair of dictionary items. *)
Definition network_row {A : Type} (G : gmap string (gmap string A))
    (default_distance : Q) (items : (string * gset string) * (string * gset string))
    : Scoring.prox_row :=
  let mean_distance :=
    network_mean_distance G default_distance items.1.2 items.2.2 in
  Scoring.MkProx items.1.1 items.2.1 (Finite mean_distance)
    (Qred (1 / (1 + mean_distance))).

(* ================================================================== *)
(** * Part II: properties *)
(* ================================================================== *)

(** ** The matrix store *)

Lemma np_index_nonneg n i :
  0 ≤ i < Z.of_nat n → np_index n i = Ok (Z.to_nat i).
Proof. intros H. unfold np_index. by rewrite decide_True. Qed.

Lemma np_index_negative n i :
  - Z.of_nat n ≤ i < 0 → np_index n i = Ok (Z.to_nat (i + Z.of_nat n)).
Proof.
  intros H. unfold np_index.
  rewrite decide_False by lia. by rewrite decide_True.
Qed.

Lemma np_index_outside n i :
  ¬ (- Z.of_nat n ≤ i < Z.of_nat n) → np_index n i = Raise IndexError.
Proof. intros H. unfold np_index. by rewrite !decide_False by lia. Qed.

Lemma np_index_Ok n i k : np_index n i = Ok k → (k < n)%nat.
Proof. unfold np_index. repeat case_decide; intros [= <-]; lia. Qed.

Lemma np_index_wrap n i :
  - Z.of_nat n ≤ i < Z.of_nat n → np_index n i = Ok (wrap n i).
Proof.
  intros H. unfold wrap. case_decide.
  - apply np_index_negative. lia.
  - apply np_index_nonneg. lia.
Qed.

Lemma row_get_nonneg row j :
  0 ≤ j < Z.of_nat (length row) →
  row_get row j = Ok (default 0 (row !! Z.to_nat j)).
Proof.
  intros H. unfold row_get. rewrite np_index_nonneg by done. simpl.
  destruct (lookup_lt_is_Some_2 row (Z.to_nat j)) as [d ->]; [lia|done].
Qed.

Lemma matrix_row_nonneg dist i :
  0 ≤ i < Z.of_nat (length dist) →
  matrix_row dist i = Ok (default [] (dist !! Z.to_nat i)).
Proof.
  intros H. unfold matrix_row. rewrite np_index_nonneg by done. simpl.
  destruct (lookup_lt_is_Some_2 dist (Z.to_nat i)) as [d ->]; [lia|done].
Qed.

Lemma square_row N dist k row :
  square N dist → dist !! k = Some row → length row = N.
Proof.
  intros [_ Hrows] Hk. eapply Forall_forall in Hrows; [done|].
  apply list_elem_of_lookup; eauto.
Qed.

Lemma matrix_get_wrap N dist i j :
  square N dist →
  - Z.of_nat N ≤ i < Z.of_nat N → - Z.of_nat N ≤ j < Z.of_nat N →
  matrix_get dist i j = Ok (cell dist (wrap N i) (wrap N j)).
Proof.
  intros Hsq Hi Hj. pose proof Hsq as [Hlen _].
  unfold matrix_get, matrix_row, cell. rewrite Hlen, np_index_wrap by done.
  simpl. destruct (lookup_lt_is_Some_2 dist (wrap N i)) as [row Hrow].
  { rewrite Hlen. unfold wrap. case_decide; lia. }
  rewrite Hrow. simpl. unfold row_get.
  rewrite (square_row _ _ _ _ Hsq Hrow), np_index_wrap by done. simpl.
  destruct (lookup_lt_is_Some_2 row (wrap N j)) as [d ->]; [|done].
  rewrite (square_row _ _ _ _ Hsq Hrow). unfold wrap. case_decide; lia.
Qed.

Lemma matrix_get_outside N dist i j :
  square N dist →
  ¬ (- Z.of_nat N ≤ i < Z.of_nat N ∧ - Z.of_nat N ≤ j < Z.of_nat N) →
  matrix_get dist i j = Raise IndexError.
Proof.
  intros Hsq Hout. pose proof Hsq as [Hlen _].
  unfold matrix_get, matrix_row. rewrite Hlen.
  destruct (decide (- Z.of_nat N ≤ i < Z.of_nat N)) as [Hi|Hi].
  - rewrite np_index_wrap by done. simpl.
    destruct (dist !! wrap N i) as [row|] eqn:Hrow; [|done]. simpl.
    unfold row_get. rewrite (square_row _ _ _ _ Hsq Hrow).
    rewrite np_index_outside; [done|]. tauto.
  - by rewrite np_index_outside.
Qed.

(** C4, as the code has it: on an N x N store a lookup raises
    [IndexError] exactly for a row or column index outside [-N, N); an
    index in [-N, 0) is read from the end of its axis and returns the
    entry at position index + N, one in [0, N) returns its own entry.
    No index is clamped and no sentinel is substituted. *)
Theorem matrix_get_index_range (N : nat) (dist : list (list Z)) (i j : Z) :
  square N dist →
  (matrix_get dist i j = Raise IndexError ↔
     ¬ (- Z.of_nat N ≤ i < Z.of_nat N ∧ - Z.of_nat N ≤ j < Z.of_nat N)) ∧
  (- Z.of_nat N ≤ i < Z.of_nat N → - Z.of_nat N ≤ j < Z.of_nat N →
     matrix_get dist i j = Ok (cell dist (wrap N i) (wrap N j))).
Proof.
  intros Hsq. split; [split|].
  - intros Hraise [Hi Hj].
    by rewrite (matrix_get_wrap N) in Hraise.
  - by apply matrix_get_outside.
  - by apply matrix_get_wrap.
Qed.

Lemma matrix_get_index_range_witness :
  matrix_get dist2 2 0 = Raise IndexError ∧
  matrix_get dist2 (-1) 0 = Ok 1.
Proof.
  assert (Hsq : square 2 dist2).
  { split; [reflexivity|]. repeat constructor. }
  split.
  - apply (matrix_get_index_range 2 dist2 2 0 Hsq). lia.
  - apply (matrix_get_index_range 2 dist2 (-1) 0 Hsq); lia.
Defined.

(** C4, as stated, fails: row index -1 lies outside [0, 2), and the
    lookup returns the entry of the last row. *)
Lemma matrix_get_negative_index_returns : ¬ fails_outside_0_N 2 dist2.
Proof.
  intros H. specialize (H (-1) 0). discriminate H. lia.
Qed.

(** ** The proximity scorer *)

Section scorer.
Context (set_iter : gset string → list string).
Context (set_iter_perm : ∀ s, set_iter s ≡ₚ elements s).
Context (gene_to_idx : gmap string Z) (dist : list (list Z)) (N : nat).

Lemma present_indices_perm genes :
  Annotate.present_indices set_iter gene_to_idx genes
  ≡ₚ gene_indices gene_to_idx genes.
Proof.
  unfold Annotate.present_indices, gene_indices.
  by rewrite set_iter_perm.
Qed.

Lemma elem_of_gene_indices genes i :
  i ∈ gene_indices gene_to_idx genes ↔
  ∃ g, g ∈ genes ∧ gene_to_idx !! g = Some i.
Proof.
  unfold gene_indices. rewrite list_elem_of_omap.
  setoid_rewrite elem_of_elements. by setoid_rewrite elem_of_list_to_set.
Qed.

Lemma gene_indices_in_range genes :
  indices_in_range N gene_to_idx →
  Forall (λ i, 0 ≤ i < Z.of_nat N) (gene_indices gene_to_idx genes).
Proof.
  intros Hrange. apply Forall_forall. intros i Hi.
  apply elem_of_gene_indices in Hi as (g & _ & Hg).
  by apply (Hrange g).
Qed.

Lemma elem_of_entries idx_d idx_s d :
  d ∈ entries dist idx_d idx_s ↔
  ∃ i j, i ∈ idx_d ∧ j ∈ idx_s ∧ d = cell dist (Z.to_nat i) (Z.to_nat j).
Proof.
  unfold entries. rewrite list_elem_of_bind. split.
  - intros (i & Hd & Hi). apply list_elem_of_fmap in Hd as (j & -> & Hj).
    eauto.
  - intros (i & j & Hi & Hj & ->). exists i. split; [|done].
    apply list_elem_of_fmap. eauto.
Qed.

Lemma entries_perm idx_d idx_d' idx_s idx_s' :
  idx_d ≡ₚ idx_d' → idx_s ≡ₚ idx_s' →
  entries dist idx_d idx_s ≡ₚ entries dist idx_d' idx_s'.
Proof.
  intros Hd Hs. unfold entries. rewrite Hd. clear Hd idx_d.
  induction idx_d' as [|i idx_d' IH]; [done|].
  simpl. by rewrite IH, Hs.
Qed.

Lemma cell_uint16 i j : uint16_cells dist → is_uint16 (cell dist i j).
Proof.
  intros Hcells. unfold cell.
  destruct (dist !! i) as [row|] eqn:Hrow; simpl;
    [|unfold is_uint16, max_uint16; lia].
  destruct (row !! j) as [d|] eqn:Hd; simpl;
    [|unfold is_uint16, max_uint16; lia].
  eapply Forall_forall in Hcells; [|by eapply list_elem_of_lookup_2].
  eapply Forall_forall in Hcells; [done|by eapply list_elem_of_lookup_2].
Qed.

Lemma entries_uint16 idx_d idx_s :
  uint16_cells dist → Forall is_uint16 (entries dist idx_d idx_s).
Proof.
  intros Hcells. apply Forall_forall. intros d Hd.
  apply elem_of_entries in Hd as (i & j & _ & _ & ->). by apply cell_uint16.
Qed.

Lemma scan_row_in_range row max_val idx_s dists :
  Forall (λ j, 0 ≤ j < Z.of_nat (length row)) idx_s →
  Annotate.scan_row row max_val idx_s dists =
  Ok (dists ++ filter (λ d, d < max_val)
                 ((λ j, default 0 (row !! Z.to_nat j)) <$> idx_s)).
Proof.
  intros Hrange. revert dists.
  induction Hrange as [|j idx_s Hj _ IH]; intros dists; simpl.
  - by rewrite app_nil_r.
  - rewrite row_get_nonneg by done. simpl. rewrite IH.
    rewrite filter_cons. case_decide; [|done].
    by rewrite <- app_assoc.
Qed.

Lemma scan_rows_in_range max_val idx_d idx_s dists :
  square N dist →
  Forall (λ i, 0 ≤ i < Z.of_nat N) idx_d →
  Forall (λ j, 0 ≤ j < Z.of_nat N) idx_s →
  Annotate.scan_rows dist max_val idx_d idx_s dists =
  Ok (dists ++ filter (λ d, d < max_val) (entries dist idx_d idx_s)).
Proof.
  intros Hsq Hd Hs. pose proof Hsq as [Hlen _]. revert dists.
  induction Hd as [|i idx_d Hi _ IH]; intros dists; simpl.
  - by rewrite app_nil_r.
  - rewrite matrix_row_nonneg by (by rewrite Hlen). simpl.
    destruct (lookup_lt_is_Some_2 dist (Z.to_nat i)) as [row Hrow]; [lia|].
    rewrite Hrow. simpl. rewrite scan_row_in_range.
    2:{ by rewrite (square_row _ _ _ _ Hsq Hrow). }
    simpl. rewrite IH. unfold entries at 2. simpl.
    rewrite filter_app, app_assoc.
    assert ((λ j, default 0 (row !! Z.to_nat j)) <$> idx_s =
            (λ j, cell dist (Z.to_nat i) (Z.to_nat j)) <$> idx_s) as ->; [|done].
    apply list_fmap_ext. intros _ j _. unfold cell. by rewrite Hrow.
Qed.

Lemma filter_below_sentinel ds :
  Forall is_uint16 ds →
  filter (λ d, d < max_uint16) ds = filter (λ d, d ≠ max_uint16) ds.
Proof.
  intros Hds. induction Hds as [|d ds Hd _ IH]; [done|].
  rewrite !filter_cons, IH. unfold is_uint16 in Hd.
  repeat case_decide; done || lia.
Qed.

Lemma sum_perm ds ds' : ds ≡ₚ ds' → Annotate.sum ds = Annotate.sum ds'.
Proof.
  induction 1; simpl; unfold Annotate.sum in *; simpl; lia.
Qed.

Lemma mean_perm ds ds' : ds ≡ₚ ds' → mean ds = mean ds'.
Proof.
  intros Hp. unfold mean.
  destruct ds as [|d ds].
  { apply Permutation_nil_l in Hp. by subst. }
  destruct ds' as [|d' ds'].
  { by apply Permutation_nil_r in Hp. }
  by rewrite (sum_perm _ _ Hp), (Permutation_length Hp).
Qed.

Lemma entries_nil_r idx_d : entries dist idx_d [] = [].
Proof. unfold entries. induction idx_d as [|i idx_d IH]; [done|]. by simpl. Qed.

Lemma in_range_perm (idx idx' : list Z) :
  idx ≡ₚ idx' →
  Forall (λ i, 0 ≤ i < Z.of_nat N) idx' → Forall (λ i, 0 ≤ i < Z.of_nat N) idx.
Proof. intros Hp. by rewrite Hp. Qed.

(** The scorer on a well-formed store, for gene sets that are present. *)
Lemma mean_distance_for_pair_present drug_id disease_id
    (drug_to_genes disease_to_genes : gmap string (list string)) genes_d genes_s :
  square N dist → uint16_cells dist → indices_in_range N gene_to_idx →
  drug_to_genes !! drug_id = Some genes_d →
  disease_to_genes !! disease_id = Some genes_s →
  Annotate.mean_distance_for_pair set_iter drug_id disease_id
    drug_to_genes disease_to_genes gene_to_idx dist max_uint16
  = Ok (mean (valid_entries gene_to_idx dist genes_d genes_s)).
Proof.
  intros Hsq Hcells Hrange Hd Hs.
  unfold Annotate.mean_distance_for_pair, valid_entries. rewrite Hd, Hs.
  simpl.
  pose proof (present_indices_perm genes_d) as Hpd.
  pose proof (present_indices_perm genes_s) as Hps.
  assert (Hnil_d : genes_d = [] → gene_indices gene_to_idx genes_d = []).
  { intros ->. unfold gene_indices. simpl. by rewrite elements_empty. }
  assert (Hnil_s : genes_s = [] → gene_indices gene_to_idx genes_s = []).
  { intros ->. unfold gene_indices. simpl. by rewrite elements_empty. }
  destruct genes_d as [|gd genes_d]; simpl.
  { by rewrite Hnil_d. }
  destruct genes_s as [|gs genes_s]; simpl.
  { by rewrite Hnil_s, entries_nil_r. }
  clear Hnil_d Hnil_s.
  destruct (Annotate.present_indices set_iter gene_to_idx (gd :: genes_d))
    as [|i idx_d].
  { apply Permutation_nil_l in Hpd. by rewrite <- Hpd. }
  destruct (Annotate.present_indices set_iter gene_to_idx (gs :: genes_s))
    as [|j idx_s].
  { apply Permutation_nil_l in Hps. by rewrite <- Hps, entries_nil_r. }
  rewrite (scan_rows_in_range _ _ _ _ Hsq).
  2:{ eapply in_range_perm; [exact Hpd|]. by apply gene_indices_in_range. }
  2:{ eapply in_range_perm; [exact Hps|]. by apply gene_indices_in_range. }
  simpl.
  rewrite <- (filter_below_sentinel (entries dist _ _))
    by (by apply entries_uint16).
  rewrite <- (mean_perm
    (filter (λ d, d < max_uint16) (entries dist (i :: idx_d) (j :: idx_s)))).
  2:{ apply filter_Permutation. by apply entries_perm. }
  by destruct (filter _ _).
Qed.

End scorer.

Section chunks.
Context (set_iter : gset string → list string).
Context (drug_to_genes disease_to_genes : gmap string (list string)).
Context (gene_to_idx : gmap string Z) (dist : list (list Z)) (max_val : Z).

Lemma score_rows_app chunk1 chunk2 :
  Annotate.score_rows set_iter (chunk1 ++ chunk2) drug_to_genes
    disease_to_genes gene_to_idx dist max_val =
  mds1 ← Annotate.score_rows set_iter chunk1 drug_to_genes disease_to_genes
           gene_to_idx dist max_val;
  mds2 ← Annotate.score_rows set_iter chunk2 drug_to_genes disease_to_genes
           gene_to_idx dist max_val;
  Ok (mds1 ++ mds2).
Proof.
  induction chunk1 as [|[d s] chunk1 IH]; simpl.
  { by destruct (Annotate.score_rows _ chunk2 _ _ _ _ _). }
  destruct (Annotate.mean_distance_for_pair _ _ _ _ _ _ _ _) as [md|];
    [simpl|done].
  rewrite IH.
  destruct (Annotate.score_rows _ chunk1 _ _ _ _ _) as [mds|]; [simpl|done].
  by destruct (Annotate.score_rows _ chunk2 _ _ _ _ _).
Qed.

(** With a positive chunk size the chunks together are the rows from
    [start] on. *)
Lemma chunk_loop_all fuel pairs chunk_size start :
  (0 < chunk_size)%nat → (length pairs < fuel + start)%nat →
  Annotate.chunk_loop fuel set_iter pairs chunk_size start drug_to_genes
    disease_to_genes gene_to_idx dist max_val =
  Annotate.score_rows set_iter (drop start pairs) drug_to_genes
    disease_to_genes gene_to_idx dist max_val.
Proof.
  intros Hc. revert start.
  induction fuel as [|fuel IH]; intros start Hfuel; simpl.
  { by rewrite drop_ge by lia. }
  case_decide as Hstart.
  2:{ by rewrite drop_ge by lia. }
  rewrite IH by lia.
  set (k := ((start + chunk_size) `min` length pairs - start)%nat).
  rewrite <- (take_drop k (drop start pairs)) at 2.
  rewrite score_rows_app, drop_drop.
  assert (drop (start + k) pairs = drop (start + chunk_size) pairs) as ->;
    [|done].
  destruct (decide (start + chunk_size ≤ length pairs)%nat).
  - f_equal. lia.
  - by rewrite !drop_ge by lia.
Qed.

End chunks.

(** C1: for a pair whose gene sets are both present, on a well-formed
    store, the scorer returns the arithmetic mean of the matrix entries of
    all (drug-gene-index, disease-gene-index) combinations of the
    deduplicated gene sets, genes absent from the index dropped and
    entries equal to the sentinel 65535 discarded (+infinity when none
    remains), whatever the iteration order of the sets; a frame of such
    pairs is annotated, row by row, with that mean and the proximity
    1 / (1 + mean). *)
Theorem scorer_returns_mean_of_valid_entries
    (set_iter : gset string → list string) (strip : string → string)
    (pairs_df : list (string * string))
    (drug_to_genes disease_to_genes : gmap string (list string))
    (gene_to_idx : gmap string Z) (dist : list (list Z)) (N : nat)
    (chunk_size : Z) :
  (∀ X, set_iter X ≡ₚ elements X) →
  square N dist → uint16_cells dist → indices_in_range N gene_to_idx →
  0 < chunk_size →
  (∀ d s genes_d genes_s,
     drug_to_genes !! d = Some genes_d →
     disease_to_genes !! s = Some genes_s →
     Annotate.mean_distance_for_pair set_iter d s
       drug_to_genes disease_to_genes gene_to_idx dist max_uint16
     = Ok (mean (valid_entries gene_to_idx dist genes_d genes_s))) ∧
  (Forall (λ p, is_Some (drug_to_genes !! strip p.1) ∧
                is_Some (disease_to_genes !! strip p.2)) pairs_df →
   Annotate.annotate_pairs set_iter strip pairs_df
     drug_to_genes disease_to_genes gene_to_idx dist max_uint16 chunk_size
   = Ok ((λ p, scored_row drug_to_genes disease_to_genes gene_to_idx dist
                 (strip p.1, strip p.2)) <$> pairs_df)).
Proof.
  intros Hperm Hsq Hcells Hrange Hchunk.
  assert (Hpair : ∀ d s genes_d genes_s,
     drug_to_genes !! d = Some genes_d →
     disease_to_genes !! s = Some genes_s →
     Annotate.mean_distance_for_pair set_iter d s
       drug_to_genes disease_to_genes gene_to_idx dist max_uint16
     = Ok (mean (valid_entries gene_to_idx dist genes_d genes_s))).
  { intros d s genes_d genes_s Hd Hs.
    by eapply mean_distance_for_pair_present. }
  split; [done|]. intros Hpresent.
  unfold Annotate.annotate_pairs.
  rewrite decide_False by lia. rewrite decide_False by lia.
  set (pairs := (λ p, (strip p.1, strip p.2)) <$> pairs_df).
  set (mds := (λ p, Annotate.a_mean_distance
                 (scored_row drug_to_genes disease_to_genes gene_to_idx dist
                    p)) <$> pairs).
  assert (Hrows : Annotate.score_rows set_iter pairs drug_to_genes
            disease_to_genes gene_to_idx dist max_uint16 = Ok mds).
  { unfold mds, pairs. clear mds pairs.
    induction Hpresent as [|[d s] ps [[gd Hd] [gs Hs]] _ IH]; [done|].
    csimpl in *. rewrite (Hpair _ _ gd gs Hd Hs). csimpl. rewrite IH. csimpl.
    unfold scored_row. csimpl. by rewrite Hd, Hs. }
  rewrite chunk_loop_all by lia. rewrite drop_0, Hrows.
  simpl. rewrite decide_True by (unfold mds; by rewrite length_fmap).
  f_equal. unfold mds, pairs. clear.
  induction pairs_df as [|[d s] ps IH]; [done|].
  csimpl. f_equal. exact IH.
Qed.

(** The example of the specification: mean distance 1.5, proximity 0.4. *)
Lemma scorer_returns_mean_of_valid_entries_witness :
  Annotate.mean_distance_for_pair elements "D" "X"
    ex_drug_to_genes ex_disease_to_genes ex_gene_to_idx ex_dist max_uint16
  = Ok (Finite (3 # 2)) ∧
  Annotate.annotate_pairs elements id [("D", "X")]
    ex_drug_to_genes ex_disease_to_genes ex_gene_to_idx ex_dist max_uint16
    10000
  = Ok [Annotate.MkAnnotated "D" "X" (Finite (3 # 2)) (2 # 5)].
Proof.
  destruct (scorer_returns_mean_of_valid_entries elements id [("D", "X")]
              ex_drug_to_genes ex_disease_to_genes ex_gene_to_idx ex_dist 3
              10000) as [Hpair Hframe].
  - reflexivity.
  - split; [reflexivity|]. repeat constructor.
  - unfold uint16_cells, is_uint16, max_uint16.
    repeat constructor; lia.
  - unfold indices_in_range, ex_gene_to_idx.
    intros g i Hg.
    repeat (apply lookup_insert_Some in Hg as [[_ <-]|[_ Hg]]; [lia|]).
    by rewrite lookup_empty in Hg.
  - lia.
  - split.
    + apply (Hpair "D" "X" ["A"; "B"] ["B"; "C"])%string; reflexivity.
    + apply Hframe. repeat constructor; by eexists.
Defined.

Section no_evidence.
Context (set_iter : gset string → list string).
Context (set_iter_perm : ∀ s, set_iter s ≡ₚ elements s).
Context (drug_to_genes disease_to_genes : gmap string (list string)).
Context (gene_to_idx : gmap string Z).

Lemma falsy_missing_or_empty genes :
  Annotate.falsy genes = true ↔ missing_or_empty genes.
Proof.
  unfold missing_or_empty.
  destruct genes as [[|g genes]|]; simpl; split; auto; try done.
  by intros [|].
Qed.

Lemma present_indices_nil genes :
  Annotate.present_indices set_iter gene_to_idx genes = [] ↔
  none_indexed gene_to_idx (Some genes).
Proof.
  unfold none_indexed. simpl. split.
  - intros Hnil g Hg.
    destruct (gene_to_idx !! g) as [i|] eqn:Hi; [|done].
    assert (i ∈ Annotate.present_indices set_iter gene_to_idx genes) as Hin.
    { rewrite present_indices_perm by done.
      apply elem_of_gene_indices. eauto. }
    rewrite Hnil in Hin. by apply elem_of_nil in Hin.
  - intros Hnone.
    destruct (Annotate.present_indices set_iter gene_to_idx genes)
      as [|i idx] eqn:Heq; [done|].
    assert (i ∈ gene_indices gene_to_idx genes) as Hin.
    { rewrite <- (present_indices_perm set_iter) by done.
      rewrite Heq. by left. }
    apply elem_of_gene_indices in Hin as (g & Hg & Hi).
    by rewrite (Hnone g Hg) in Hi.
Qed.

(** Without genes, or without indexed genes, the scorer returns before it
    touches the matrix. *)
Lemma mean_distance_no_lookup drug_id disease_id dist max_val :
  no_lookup gene_to_idx (drug_to_genes !! drug_id)
    (disease_to_genes !! disease_id) →
  Annotate.mean_distance_for_pair set_iter drug_id disease_id
    drug_to_genes disease_to_genes gene_to_idx dist max_val = Ok Inf.
Proof.
  unfold no_lookup, Annotate.mean_distance_for_pair.
  destruct (drug_to_genes !! drug_id) as [genes_d|] eqn:Hd; [|done].
  destruct (disease_to_genes !! disease_id) as [genes_s|] eqn:Hs.
  2:{ by rewrite orb_true_r. }
  destruct (Annotate.falsy (Some genes_d)) eqn:Hfd; [done|].
  destruct (Annotate.falsy (Some genes_s)) eqn:Hfs; [done|].
  simpl. intros [H|[H|[H|H]]].
  - apply falsy_missing_or_empty in H. congruence.
  - apply falsy_missing_or_empty in H. congruence.
  - apply present_indices_nil in H. by rewrite H.
  - apply present_indices_nil in H. rewrite H.
    by destruct (Annotate.present_indices _ _ genes_d).
Qed.

Lemma mean_Inf ds : mean ds = Inf ↔ ds = [].
Proof. by destruct ds. Qed.

Lemma filter_nil_Forall {A} (P : A → Prop) `{!∀ x, Decision (P x)} (l : list A) :
  filter P l = [] ↔ Forall (λ x, ¬ P x) l.
Proof.
  induction l as [|x l IH]; [by split|].
  rewrite filter_cons, Forall_cons. case_decide.
  - split; [done|]. by intros [? _].
  - rewrite IH. split; [done|]. by intros [_ ?].
Qed.

Lemma valid_entries_nil dist genes_d genes_s :
  valid_entries gene_to_idx dist genes_d genes_s = [] ↔
  all_sentinel gene_to_idx dist (Some genes_d) (Some genes_s).
Proof.
  unfold valid_entries, all_sentinel. rewrite filter_nil_Forall, Forall_forall.
  simpl. split.
  - intros Hall g h i j Hg Hh Hi Hj.
    destruct (decide (cell dist (Z.to_nat i) (Z.to_nat j) = max_uint16))
      as [|Hne]; [done|].
    exfalso. eapply Hall; [|exact Hne].
    apply elem_of_entries. exists i, j.
    rewrite !elem_of_gene_indices. eauto 10.
  - intros Hall d Hd Hne. apply Hne.
    apply elem_of_entries in Hd as (i & j & Hi & Hj & ->).
    apply elem_of_gene_indices in Hi as (g & Hg & Hi).
    apply elem_of_gene_indices in Hj as (h & Hh & Hj).
    by eapply Hall.
Qed.

Lemma no_lookup_all_sentinel dist genes_d genes_s :
  no_lookup gene_to_idx genes_d genes_s →
  all_sentinel gene_to_idx dist genes_d genes_s.
Proof.
  unfold no_lookup, missing_or_empty, none_indexed, all_sentinel.
  intros H g h i j Hg Hh Hi Hj.
  destruct H as [[->| ->]|[[->| ->]|[H|H]]]; simpl in *;
    try (by apply elem_of_nil in Hg); try (by apply elem_of_nil in Hh).
  - by rewrite (H g Hg) in Hi.
  - by rewrite (H h Hh) in Hj.
Qed.

Lemma sum_nonneg ds : Forall is_uint16 ds → 0 ≤ Annotate.sum ds.
Proof.
  unfold Annotate.sum, is_uint16.
  induction 1 as [|d ds Hd _ IH]; simpl; lia.
Qed.

Lemma true_div_nonneg a b : 0 ≤ a → 0 < b → (0 <= true_div a b)%Q.
Proof.
  intros Ha Hb. unfold true_div. rewrite Qred_correct.
  apply Qle_shift_div_l.
  - replace 0%Q with (inject_Z 0) by done. by rewrite <- Zlt_Qlt.
  - rewrite Qmult_0_l. replace 0%Q with (inject_Z 0) by done.
    by rewrite <- Zle_Qle.
Qed.

Lemma proximity_score_zero md :
  (∀ q, md = Finite q → (0 <= q)%Q) →
  md = Inf ↔ (Annotate.proximity_score md == 0)%Q.
Proof.
  intros Hq. destruct md as [q|]; simpl; [|done].
  split; [done|]. intros H0. exfalso.
  rewrite Qred_correct in H0.
  specialize (Hq q eq_refl).
  assert (0 < 1 + q)%Q as Hpos.
  { apply Qlt_le_trans with (1 + 0)%Q; [done|].
    by apply Qplus_le_r. }
  assert (0 < 1 / (1 + q))%Q as Hinv.
  { apply Qlt_shift_div_l; [done|]. by rewrite Qmult_0_l. }
  rewrite H0 in Hinv. by apply Qlt_irrefl in Hinv.
Qed.

Lemma mean_nonneg ds q :
  Forall is_uint16 ds → mean ds = Finite q → (0 <= q)%Q.
Proof.
  intros Hds. destruct ds as [|d ds]; [done|].
  unfold mean. intros [= <-].
  apply true_div_nonneg; [by apply (sum_nonneg (d :: ds))|]. simpl. lia.
Qed.

End no_evidence.

(** C2: on a well-formed store the scorer always returns normally, and
    it returns +infinity (proximity 0) exactly when there is no finite
    distance evidence: a gene set is missing or empty, or has no gene in
    the gene-to-index map, or every looked-up entry is the sentinel.  In
    the first two cases it returns +infinity whatever the matrix is: the
    matrix is not read. *)
Theorem infinite_iff_no_evidence
    (set_iter : gset string → list string) (drug_id disease_id : string)
    (drug_to_genes disease_to_genes : gmap string (list string))
    (gene_to_idx : gmap string Z) (dist : list (list Z)) (N : nat) :
  (∀ X, set_iter X ≡ₚ elements X) →
  square N dist → uint16_cells dist → indices_in_range N gene_to_idx →
  let genes_d := drug_to_genes !! drug_id in
  let genes_s := disease_to_genes !! disease_id in
  let score := Annotate.mean_distance_for_pair set_iter drug_id disease_id
                 drug_to_genes disease_to_genes gene_to_idx in
  (∃ md, score dist max_uint16 = Ok md ∧
         (md = Inf ↔ (Annotate.proximity_score md == 0)%Q)) ∧
  (score dist max_uint16 = Ok Inf ↔
     no_evidence gene_to_idx dist genes_d genes_s) ∧
  (no_lookup gene_to_idx genes_d genes_s →
     ∀ dist' max_val', score dist' max_val' = Ok Inf).
Proof.
  intros Hperm Hsq Hcells Hrange genes_d genes_s score.
  assert (Hno : no_lookup gene_to_idx genes_d genes_s →
                ∀ dist' max_val', score dist' max_val' = Ok Inf).
  { intros H dist' max_val'. by apply mean_distance_no_lookup. }
  destruct genes_d as [gd|] eqn:Hd.
  2:{ assert (no_lookup gene_to_idx None genes_s) as H by (by left; left).
      split; [|split; [|done]].
      - exists Inf. split; [by apply Hno|done].
      - split; [by left|]. intros _. by apply Hno. }
  destruct genes_s as [gs|] eqn:Hs.
  2:{ assert (no_lookup gene_to_idx (Some gd) None) as H
        by (by right; left; left).
      split; [|split; [|done]].
      - exists Inf. split; [by apply Hno|done].
      - split; [by left|]. intros _. by apply Hno. }
  assert (score dist max_uint16
          = Ok (mean (valid_entries gene_to_idx dist gd gs))) as Hscore.
  { by eapply mean_distance_for_pair_present. }
  split; [|split; [|done]].
  - eexists. split; [exact Hscore|].
    apply proximity_score_zero. intros q. apply mean_nonneg.
    unfold valid_entries. apply Forall_forall.
    intros d [_ Hin]%list_elem_of_filter. revert d Hin. apply Forall_forall.
    by apply entries_uint16.
  - rewrite Hscore. split.
    + intros [= Hmean]. right.
      by apply valid_entries_nil, mean_Inf.
    + intros Hev. f_equal. apply mean_Inf, valid_entries_nil.
      destruct Hev as [Hev|Hev]; [|done].
      by apply no_lookup_all_sentinel.
Qed.

Lemma infinite_iff_no_evidence_witness :
  Annotate.mean_distance_for_pair elements "Q" "X"
    ex_drug_to_genes ex_disease_to_genes ex_gene_to_idx ex_dist max_uint16
  = Ok Inf.
Proof.
  apply (infinite_iff_no_evidence elements "Q" "X"
           ex_drug_to_genes ex_disease_to_genes ex_gene_to_idx ex_dist 3).
  - reflexivity.
  - split; [reflexivity|]. repeat constructor.
  - unfold uint16_cells, is_uint16, max_uint16.
    repeat constructor; lia.
  - unfold indices_in_range, ex_gene_to_idx.
    intros g i Hg. repeat (apply lookup_insert_Some in Hg as [[_ <-]|[_ Hg]]; [lia|]).
    by rewrite lookup_empty in Hg.
  - left. left. reflexivity.
Defined.

(** ** The score combiner *)

(** *** The stable sort *)

Section sort_values.
Context {A : Type} (R : relation A) `{!RelDecision R}.

Lemma insert_row_Permutation x l : Scoring.insert_row R x l ≡ₚ x :: l.
Proof.
  induction l as [|y l IH]; [done|]. simpl. case_decide; [done|].
  by rewrite IH, Permutation_swap.
Qed.

Lemma sort_values_Permutation l : Scoring.sort_values R l ≡ₚ l.
Proof.
  induction l as [|x l IH]; [done|].
  unfold Scoring.sort_values in *. simpl.
  by rewrite insert_row_Permutation, IH.
Qed.

Lemma StronglySorted_insert_row `{!Total R, !Transitive R} x l :
  StronglySorted R l → StronglySorted R (Scoring.insert_row R x l).
Proof.
  induction 1 as [|y l Hl IH Hy]; simpl.
  { repeat constructor. }
  case_decide as Hxy.
  - constructor; [by constructor|]. constructor; [done|].
    eapply Forall_impl; [exact Hy|]. intros z Hz. by trans y.
  - constructor; [done|].
    rewrite insert_row_Permutation. constructor; [|done].
    by destruct (total R x y).
Qed.

Lemma StronglySorted_sort_values `{!Total R, !Transitive R} l :
  StronglySorted R (Scoring.sort_values R l).
Proof.
  induction l as [|x l IH]; [constructor|].
  by apply StronglySorted_insert_row.
Qed.

(** Rows that tie keep their order: a row that may come before every
    row of a sorted frame is put in front of it. *)
Lemma insert_row_stable x y l :
  R x y → Scoring.insert_row R x (y :: l) = x :: y :: l.
Proof. intros Hxy. simpl. by rewrite decide_True. Qed.

End sort_values.

Lemma Qmax_cases x y : Qmax x y = x ∨ Qmax x y = y.
Proof.
  unfold Qmax, GenericMinMax.gmax. destruct (x ?= y)%Q; auto.
Qed.

Lemma foldl_Qmax_elem x xs : foldl Qmax x xs ∈ x :: xs.
Proof.
  revert x. induction xs as [|y xs IH]; intros x; simpl; [by left|].
  specialize (IH (Qmax x y)). apply elem_of_cons in IH as [->|IH].
  - destruct (Qmax_cases x y) as [-> | ->]; [by left|by right; left].
  - by do 2 right.
Qed.

Lemma foldl_Qmax_ge_init x xs : (x <= foldl Qmax x xs)%Q.
Proof.
  revert x. induction xs as [|y xs IH]; intros x; simpl; [apply Qle_refl|].
  eapply Qle_trans; [apply Q.le_max_l|apply IH].
Qed.

Lemma foldl_Qmax_upper x xs :
  Forall (λ y, (y <= foldl Qmax x xs)%Q) (x :: xs).
Proof.
  revert x. induction xs as [|y xs IH]; intros x; simpl.
  - repeat constructor. apply Qle_refl.
  - specialize (IH (Qmax x y)). apply Forall_cons in IH as [Hm IH].
    repeat constructor; [| |done].
    + eapply Qle_trans; [apply Q.le_max_l|done].
    + eapply Qle_trans; [apply Q.le_max_r|done].
Qed.

Lemma series_max_is_batch_max xs :
  is_batch_max (default 0%Q (Scoring.series_max xs)) xs.
Proof.
  destruct xs as [|x xs]; simpl.
  - split; [by right|constructor].
  - split; [left; apply foldl_Qmax_elem|apply foldl_Qmax_upper].
Qed.

Lemma is_batch_max_perm M xs ys :
  xs ≡ₚ ys → is_batch_max M xs → is_batch_max M ys.
Proof.
  intros Hp [Hin Hub]. split.
  - destruct Hin as [Hin|[-> ->]].
    + left. by rewrite <- Hp.
    + right. by apply Permutation_nil_l in Hp.
  - by rewrite <- Hp.
Qed.

Section merge_outer.
Context (proximity_df : list Scoring.prox_row).
Context (overlap_df : list Scoring.overlap_row).

(** Where a row of the outer join comes from. *)
Lemma elem_of_merge_outer j :
  j ∈ Scoring.merge_outer proximity_df overlap_df →
  (∃ p o, p ∈ proximity_df ∧ o ∈ overlap_df ∧
          Scoring.p_key p = Scoring.o_key o ∧ j = Scoring.join_both p o) ∨
  (∃ p, p ∈ proximity_df ∧
        (∀ o, o ∈ overlap_df → Scoring.o_key o ≠ Scoring.p_key p) ∧
        j = Scoring.join_left p) ∨
  (∃ o, o ∈ overlap_df ∧
        (∀ p, p ∈ proximity_df → Scoring.p_key p ≠ Scoring.o_key o) ∧
        j = Scoring.join_right o).
Proof.
  unfold Scoring.merge_outer. intros (k & Hj & _)%list_elem_of_bind.
  destruct (filter (λ p, Scoring.p_key p = k) proximity_df)
    as [|p0 ps] eqn:Hps.
  - right. right.
    apply list_elem_of_fmap in Hj as (o & -> & [Hk Ho]%list_elem_of_filter).
    exists o. split; [done|]. split; [|done].
    intros p Hp Hpk.
    eapply (filter_nil_not_elem_of _ _ p); [exact Hps| |done].
    simpl. congruence.
  - destruct (filter (λ o, Scoring.o_key o = k) overlap_df)
      as [|o0 os] eqn:Hos.
    + right. left.
      apply list_elem_of_fmap in Hj as (p & -> & Hp).
      rewrite <- Hps in Hp. apply list_elem_of_filter in Hp as [Hk Hp].
      exists p. split; [done|]. split; [|done].
      intros o Ho Hok.
      eapply (filter_nil_not_elem_of _ _ o); [exact Hos| |done].
      simpl. congruence.
    + left.
      apply list_elem_of_bind in Hj as (p & Hj & Hp).
      apply list_elem_of_fmap in Hj as (o & -> & Ho).
      rewrite <- Hps in Hp. rewrite <- Hos in Ho.
      apply list_elem_of_filter in Hp as [Hpk Hp].
      apply list_elem_of_filter in Ho as [Hok Ho].
      exists p, o. repeat split; try done. congruence.
Qed.

End merge_outer.

Lemma joined_n_overlap_nonneg proximity_df overlap_df j :
  Forall (λ o, 0 ≤ Scoring.o_n_overlap o) overlap_df →
  j ∈ Scoring.merge_outer proximity_df overlap_df →
  (0 <= default 0 (Scoring.j_n_overlap j))%Q.
Proof.
  intros Hnn Hj.
  assert (∀ o, o ∈ overlap_df → (0 <= inject_Z (Scoring.o_n_overlap o))%Q)
    as Ho.
  { intros o Ho. eapply Forall_forall in Hnn; [|done].
    replace 0%Q with (inject_Z 0) by done. by rewrite <- Zle_Qle. }
  apply elem_of_merge_outer in Hj
    as [(p & o & _ & Hin & _ & ->)|[(p & _ & _ & ->)|(o & Hin & _ & ->)]];
    simpl; auto. apply Qle_refl.
Qed.

Lemma joined_proximity_source proximity_df overlap_df j :
  j ∈ Scoring.merge_outer proximity_df overlap_df →
  (∃ p, p ∈ proximity_df ∧
        Scoring.p_key p = (Scoring.j_drug_id j, Scoring.j_disease_id j) ∧
        default 0%Q (Scoring.j_proximity_score j) = Scoring.p_proximity_score p) ∨
  ((∀ p, p ∈ proximity_df →
         Scoring.p_key p ≠ (Scoring.j_drug_id j, Scoring.j_disease_id j)) ∧
   default 0%Q (Scoring.j_proximity_score j) = 0%Q).
Proof.
  intros Hj. apply elem_of_merge_outer in Hj
    as [(p & o & Hp & _ & _ & ->)|[(p & Hp & _ & ->)|(o & _ & Hnone & ->)]];
    simpl.
  - left. by exists p.
  - left. by exists p.
  - right. split; [|done]. intros p Hp. by apply Hnone.
Qed.

Lemma Qdiv_unit_interval n M :
  (0 <= n)%Q → (n <= M)%Q → (0 < M)%Q → (0 <= n / M <= 1)%Q.
Proof.
  intros Hn HnM HM. split.
  - apply Qle_shift_div_l; [done|]. by rewrite Qmult_0_l.
  - apply Qle_shift_div_r; [done|]. by rewrite Qmult_1_l.
Qed.

(** C3, as the code has it: the combiner divides n_overlap by the
    largest n_overlap [M] of the joined batch, which puts non-negative
    counts into [0,1]; every row maps to 0 only when that maximum is 0.
    The combined score is alpha * normalized_overlap + beta *
    proximity_score, where proximity_score is the score of the pair in the
    proximity table as it came in (0.0 for a pair without one). *)
Theorem combiner_divides_by_batch_max
    (overlap_df : list Scoring.overlap_row)
    (proximity_df : list Scoring.prox_row) (alpha beta : Q) :
  Forall (λ o, 0 ≤ Scoring.o_n_overlap o) overlap_df →
  let out :=
    Scoring.combine_overlap_and_proximity overlap_df proximity_df alpha beta in
  ∃ M, is_batch_max M (Scoring.c_n_overlap <$> out) ∧
    ∀ r, r ∈ out →
      (Scoring.c_norm_overlap r ==
         if decide (0 < M)%Q then Scoring.c_n_overlap r / M else 0)%Q ∧
      (0 <= Scoring.c_norm_overlap r <= 1)%Q ∧
      (Scoring.c_combined_score r ==
         alpha * Scoring.c_norm_overlap r
         + beta * Scoring.c_proximity_score r)%Q ∧
      ((∃ p, p ∈ proximity_df ∧ Scoring.p_key p = Scoring.c_key r ∧
             Scoring.c_proximity_score r = Scoring.p_proximity_score p) ∨
       ((∀ p, p ∈ proximity_df → Scoring.p_key p ≠ Scoring.c_key r) ∧
        Scoring.c_proximity_score r = 0%Q)).
Proof.
  intros Hnn out. unfold Scoring.combine_overlap_and_proximity in out.
  set (df := Scoring.merge_outer proximity_df overlap_df) in *.
  set (ns := (λ r, default 0%Q (Scoring.j_n_overlap r)) <$> df) in *.
  set (M := default 0%Q (Scoring.series_max ns)) in *.
  pose proof (series_max_is_batch_max ns) as HM. fold M in HM.
  assert (Hperm : out ≡ₚ _) by apply sort_values_Permutation.
  exists M. split.
  - eapply is_batch_max_perm; [|exact HM].
    rewrite Hperm. unfold ns. rewrite <- list_fmap_compose. done.
  - intros r Hr. rewrite Hperm in Hr.
    apply list_elem_of_fmap in Hr as (j & -> & Hj). simpl.
    assert (0 <= default 0 (Scoring.j_n_overlap j))%Q as Hn0
      by (by eapply joined_n_overlap_nonneg).
    assert (default 0 (Scoring.j_n_overlap j) <= M)%Q as HnM.
    { destruct HM as [_ Hub]. eapply Forall_forall in Hub; [exact Hub|].
      unfold ns. apply list_elem_of_fmap. eauto. }
    split; [|split; [|split]].
    + case_decide; [apply Qred_correct|reflexivity].
    + case_decide.
      * rewrite Qred_correct. by apply Qdiv_unit_interval.
      * done.
    + apply Qred_correct.
    + exact (joined_proximity_source proximity_df overlap_df j Hj).
Qed.

(** The round trip of the specification, where the smallest overlap is 0. *)
Lemma combiner_divides_by_batch_max_witness :
  Scoring.c_key <$> Scoring.combine_overlap_and_proximity
                      rt_overlap rt_proximity 1 1
    = [("D3", "X3"); ("D2", "X2"); ("D1", "X1")]%string ∧
  let out := Scoring.combine_overlap_and_proximity rt_overlap rt_proximity 1 1 in
  ∃ M, is_batch_max M (Scoring.c_n_overlap <$> out) ∧
    ∀ r, r ∈ out →
      (Scoring.c_norm_overlap r ==
         if decide (0 < M)%Q then Scoring.c_n_overlap r / M else 0)%Q ∧
      (0 <= Scoring.c_norm_overlap r <= 1)%Q ∧
      (Scoring.c_combined_score r ==
         1 * Scoring.c_norm_overlap r + 1 * Scoring.c_proximity_score r)%Q ∧
      ((∃ p, p ∈ rt_proximity ∧ Scoring.p_key p = Scoring.c_key r ∧
             Scoring.c_proximity_score r = Scoring.p_proximity_score p) ∨
       ((∀ p, p ∈ rt_proximity → Scoring.p_key p ≠ Scoring.c_key r) ∧
        Scoring.c_proximity_score r = 0%Q)).
Proof.
  split; [reflexivity|].
  apply (combiner_divides_by_batch_max rt_overlap rt_proximity 1 1).
  unfold rt_overlap. repeat constructor; simpl; lia.
Defined.

(** C3, as stated, fails: with one pair of overlap 2 the maximum equals
    the minimum, and the row is normalised to 1, not to 0. *)
Lemma combiner_degenerate_batch_not_zero :
  ¬ combiner_min_max 1 1
      (Scoring.combine_overlap_and_proximity one_overlap one_proximity 1 1).
Proof.
  intros H.
  destruct (H (Scoring.MkCombined "D1" "X1" (Some (Finite 1)) (1 # 2) 2
                 (Some "G1;G2"%string) (Some 1%Q) 1 (3 # 2))) as [Hnorm _].
  { vm_compute. by left. }
  vm_compute in Hnorm. discriminate Hnorm.
Qed.

(** The script's [add_combined_score] on the same round trip: it
    min-max-normalises the proximity scores as well, so the scores are
    0, 1 and 2 and not 0.1, 1.0 and 1.9. *)
Example add_combined_score_round_trip :
  add_combined_score (Some [0; 2; 4]%Q) [1 # 10; 1 # 2; 9 # 10]%Q 1 1
  = [0; 1; 2]%Q.
Proof. reflexivity. Qed.

(** ** The graph builder *)

Section nx_graph.
Import Nx.

Context {A : Type}.
Implicit Types (G : gmap string (gmap string A)).

Lemma edge_data_add_edge G u v w a b :
  edge_data (add_edge u v w G) a b =
  if decide ((u = a ∧ v = b) ∨ (u = b ∧ v = a)) then Some w
  else edge_data G a b.
Proof.
  unfold edge_data, add_edge.
  destruct (decide (a = v)) as [->|Hav].
  - rewrite lookup_insert_eq. simpl.
    destruct (decide (b = u)) as [->|Hbu].
    + rewrite lookup_insert_eq. rewrite decide_True; [done|]. auto.
    + rewrite lookup_insert_ne by done.
      destruct (decide (u = v)) as [->|Huv].
      * rewrite lookup_insert_eq. simpl.
        rewrite lookup_insert_ne by done.
        rewrite decide_False by (intros [[? ?]|[? ?]]; congruence).
        by destruct (G !! v).
      * rewrite lookup_insert_ne by done.
        rewrite decide_False by (intros [[? ?]|[? ?]]; congruence).
        by destruct (G !! v).
  - rewrite lookup_insert_ne by done.
    destruct (decide (a = u)) as [->|Hau].
    + rewrite lookup_insert_eq. simpl.
      destruct (decide (b = v)) as [->|Hbv].
      * rewrite lookup_insert_eq. rewrite decide_True; [done|]. auto.
      * rewrite lookup_insert_ne by done.
        rewrite decide_False by (intros [[? ?]|[? ?]]; congruence).
        by destruct (G !! u).
    + rewrite lookup_insert_ne by done.
      rewrite decide_False by (intros [[? ?]|[? ?]]; congruence). done.
Qed.

Lemma degree_empty n : degree n (∅ : gmap string A) = 0%nat.
Proof. unfold degree. by rewrite map_size_empty, lookup_empty. Qed.

Lemma degree_sum_insert G n nbrs :
  (degree_sum (<[n := nbrs]> G) + degree n (default ∅ (G !! n)) =
   degree_sum G + degree n nbrs)%nat.
Proof.
  unfold degree_sum.
  destruct (G !! n) as [old|] eqn:Hn; simpl.
  - rewrite (map_fold_delete_L _ _ n old G); [|intros; lia|done].
    rewrite <- (insert_delete_eq G).
    rewrite map_fold_insert_L; [lia|intros; lia|apply lookup_delete_eq].
  - rewrite map_fold_insert_L; [|intros; lia|done].
    rewrite degree_empty. lia.
Qed.

Lemma degree_insert_other n v (w : A) (nbrs : gmap string A) :
  n ≠ v →
  degree n (<[v := w]> nbrs) =
  (degree n nbrs + if nbrs !! v is Some _ then 0 else 1)%nat.
Proof.
  intros Hne. unfold degree.
  rewrite map_size_insert, lookup_insert_ne by done.
  destruct (nbrs !! v); simpl; lia.
Qed.

Lemma degree_insert_self n (w : A) (nbrs : gmap string A) :
  degree n (<[n := w]> nbrs) =
  (degree n nbrs + if nbrs !! n is Some _ then 0 else 2)%nat.
Proof.
  unfold degree. rewrite map_size_insert, lookup_insert_eq.
  destruct (nbrs !! n); simpl; lia.
Qed.

Lemma edge_data_default G u v :
  edge_data G u v = default ∅ (G !! u) !! v.
Proof. unfold edge_data. by destruct (G !! u). Qed.

Lemma degree_sum_add_edge G u v w :
  (is_Some (edge_data G u v) ↔ is_Some (edge_data G v u)) →
  degree_sum (add_edge u v w G) =
  (degree_sum G + if edge_data G u v is Some _ then 0 else 2)%nat.
Proof.
  intros Hsym. unfold add_edge.
  pose proof (degree_sum_insert G u (<[v := w]> (default ∅ (G !! u)))) as H1.
  set (G1 := <[u := <[v := w]> (default ∅ (G !! u))]> G) in *.
  destruct (decide (u = v)) as [<-|Hne].
  - assert (G1 !! u = Some (<[u := w]> (default ∅ (G !! u)))) as ->
      by apply lookup_insert_eq.
    simpl. rewrite insert_insert_eq. unfold G1 at 1. rewrite insert_insert_eq.
    fold G1. rewrite degree_insert_self in H1.
    rewrite edge_data_default.
    destruct (default ∅ (G !! u) !! u); lia.
  - pose proof (degree_sum_insert G1 v (<[u := w]> (default ∅ (G1 !! v))))
      as H2.
    assert (G1 !! v = G !! v) as Hv by (by apply lookup_insert_ne).
    rewrite Hv in *.
    rewrite degree_insert_other in H1 by done.
    rewrite degree_insert_other in H2 by done.
    rewrite !edge_data_default in Hsym. rewrite edge_data_default.
    destruct (default ∅ (G !! u) !! v) as [x|] eqn:Hx,
             (default ∅ (G !! v) !! u) as [y|] eqn:Hy; try lia.
    + destruct Hsym as [Hsym _]. destruct Hsym as [? [=]]. by eexists.
    + destruct Hsym as [_ Hsym]. destruct Hsym as [? [=]]. by eexists.
Qed.

End nx_graph.

Section graph_builder.
Import Nx Graphs.

Implicit Types (l : list GeneGeneInteraction).

Lemma build_ppi_graph_snoc l inter :
  build_ppi_graph (l ++ [inter]) =
  add_edge (gene1_id inter) (gene2_id inter) (default 1%Q (weight inter))
    (build_ppi_graph l).
Proof.
  unfold build_ppi_graph. rewrite foldl_app. simpl. by destruct (weight inter).
Qed.

Lemma observed_weights_snoc a b l inter :
  observed_weights a b (l ++ [inter]) =
  observed_weights a b l ++
    (if decide (joins a b inter) then [default 1%Q (weight inter)] else []).
Proof.
  unfold observed_weights. rewrite filter_app, fmap_app. f_equal.
  rewrite filter_cons, filter_nil. by case_decide.
Qed.

(** The weight of an edge is the one of the last interaction that joins
    its end points. *)
Lemma edge_data_build l a b :
  edge_data (build_ppi_graph l) a b = last (observed_weights a b l).
Proof.
  induction l as [|inter l IH] using rev_ind; [done|].
  rewrite build_ppi_graph_snoc, edge_data_add_edge, observed_weights_snoc.
  destruct (decide (joins a b inter)) as [Hj|Hj].
  - rewrite decide_True by exact Hj. by rewrite last_snoc.
  - rewrite decide_False by exact Hj. by rewrite app_nil_r.
Qed.

Lemma observed_weights_sym a b l :
  observed_weights a b l = observed_weights b a l.
Proof.
  unfold observed_weights. f_equal. apply list_filter_iff.
  intros inter. unfold joins. tauto.
Qed.

Lemma edge_data_build_sym l a b :
  edge_data (build_ppi_graph l) a b = edge_data (build_ppi_graph l) b a.
Proof. by rewrite !edge_data_build, observed_weights_sym. Qed.

(** *** Counting edges *)

Lemma str_le_total a b : str_le a b ∨ str_le b a.
Proof. apply String.leb_total. Qed.

Lemma str_le_antisym a b : str_le a b → str_le b a → a = b.
Proof. apply String.leb_antisym. Qed.

Lemma unordered_eq_iff a b c d :
  unordered a b = unordered c d ↔ (c = a ∧ d = b) ∨ (c = b ∧ d = a).
Proof.
  unfold unordered. split.
  - repeat case_decide; intros [= -> ->]; auto.
  - intros [[-> ->]|[-> ->]]; [done|].
    repeat case_decide; try done.
    + f_equal; by apply str_le_antisym.
    + destruct (str_le_total a b); done.
Qed.

Lemma elem_of_unordered_pairs l a b :
  unordered a b ∈ unordered_pairs l ↔ ∃ inter, inter ∈ l ∧ joins a b inter.
Proof.
  unfold unordered_pairs. rewrite elem_of_list_to_set, list_elem_of_fmap.
  split.
  - intros (inter & Heq & Hin). exists inter. split; [done|].
    apply unordered_eq_iff in Heq. exact Heq.
  - intros (inter & Hin & Hj). exists inter. split; [|done].
    apply unordered_eq_iff. exact Hj.
Qed.

Lemma has_edge_build l a b :
  is_Some (edge_data (build_ppi_graph l) a b) ↔
  unordered a b ∈ unordered_pairs l.
Proof.
  rewrite edge_data_build, elem_of_unordered_pairs.
  unfold observed_weights. rewrite last_is_Some. split.
  - intros Hne.
    destruct (filter (joins a b) l) as [|inter rest] eqn:Hf; [done|].
    assert (inter ∈ filter (joins a b) l) as Hin by (rewrite Hf; by left).
    apply list_elem_of_filter in Hin as [? ?]. by exists inter.
  - intros (inter & Hin & Hj) Hnil. apply fmap_nil_inv in Hnil.
    by eapply (filter_nil_not_elem_of _ _ inter).
Qed.

Lemma unordered_pairs_snoc l inter :
  unordered_pairs (l ++ [inter]) =
  unordered_pairs l ∪ {[unordered (gene1_id inter) (gene2_id inter)]}.
Proof.
  unfold unordered_pairs. rewrite fmap_app, list_to_set_app_L. simpl.
  by rewrite union_empty_r_L.
Qed.

Lemma degree_sum_build l :
  degree_sum (build_ppi_graph l) = (2 * size (unordered_pairs l))%nat.
Proof.
  induction l as [|inter l IH] using rev_ind; [done|].
  rewrite build_ppi_graph_snoc, degree_sum_add_edge, IH.
  2:{ by rewrite edge_data_build_sym. }
  rewrite unordered_pairs_snoc.
  pose proof (has_edge_build l (gene1_id inter) (gene2_id inter)) as Hedge.
  destruct (edge_data (build_ppi_graph l) (gene1_id inter) (gene2_id inter))
    as [w|].
  - assert (unordered (gene1_id inter) (gene2_id inter) ∈ unordered_pairs l)
      as Hin by (apply Hedge; by eexists).
    rewrite (union_comm_L (unordered_pairs l)).
    rewrite subseteq_union_1_L by (by apply singleton_subseteq_l).
    lia.
  - assert (unordered (gene1_id inter) (gene2_id inter) ∉ unordered_pairs l)
      as Hin.
    { intros Hin. apply Hedge in Hin. by destruct Hin. }
    rewrite size_union by (by apply disjoint_singleton_r).
    rewrite size_singleton. lia.
Qed.

Lemma number_of_edges_build l :
  number_of_edges (build_ppi_graph l) = size (unordered_pairs l).
Proof.
  unfold number_of_edges. rewrite degree_sum_build. rewrite Nat.mul_comm. apply Nat.div_mul. done.
Qed.

End graph_builder.

(** C6, as the code has it: the graph has exactly one edge per unordered
    pair of the edge list, a reversed duplicate included; the edge is the
    same seen from either end; and its weight is the weight of the last
    interaction of the list that joins the two genes. *)
Theorem build_ppi_graph_collapses_duplicates
    (interactions : list Graphs.GeneGeneInteraction) (a b : string) :
  let G := Graphs.build_ppi_graph interactions in
  Nx.number_of_edges G = size (unordered_pairs interactions) ∧
  (Nx.has_edge G a b = true ↔
     ∃ inter, inter ∈ interactions ∧ joins a b inter) ∧
  Nx.edge_data G a b = Nx.edge_data G b a ∧
  Nx.edge_data G a b = last (observed_weights a b interactions).
Proof.
  intros G. unfold G. split; [|split; [|split]].
  - apply number_of_edges_build.
  - unfold Nx.has_edge. rewrite bool_decide_eq_true.
    by rewrite has_edge_build, elem_of_unordered_pairs.
  - apply edge_data_build_sym.
  - apply edge_data_build.
Qed.

(** The reversed duplicate: one edge, carrying the later weight 0.5. *)
Example build_ppi_graph_reversed_duplicate :
  let G := Graphs.build_ppi_graph reversed_duplicate in
  Nx.number_of_edges G = 1%nat ∧
  Nx.edge_data G "A" "B" = Some (1 # 2) ∧
  Nx.edge_data G "B" "A" = Some (1 # 2).
Proof. by vm_compute. Qed.

(** C6, as stated, fails: of the weights 0.8 and 0.5 observed for the
    pair, the edge keeps 0.5. *)
Lemma build_ppi_graph_keeps_last_weight :
  ¬ weights_are_maxima reversed_duplicate.
Proof.
  intros H. specialize (H "A" "B"%string). vm_compute in H. discriminate H.
Qed.

(** ** The order of gene identifiers *)

Lemma string_compare_refl (a : string) : String.compare a a = Eq.
Proof.
  induction a as [|x a IH]; [done|]. simpl.
  unfold Ascii.compare. by rewrite N.compare_refl.
Qed.

Lemma str_le_trans (a b c : string) : str_le a b → str_le b c → str_le a c.
Proof.
  unfold str_le, String.leb. revert b c.
  induction a as [|x a IH]; intros [|y b] [|z c]; simpl; try done.
  specialize (IH b c). unfold Ascii.compare in *.
  destruct (N.compare_spec (Ascii.N_of_ascii x) (Ascii.N_of_ascii y)) as [Hxy|Hxy|Hxy];
    destruct (N.compare_spec (Ascii.N_of_ascii y) (Ascii.N_of_ascii z)) as [Hyz|Hyz|Hyz];
    destruct (N.compare_spec (Ascii.N_of_ascii x) (Ascii.N_of_ascii z)) as [Hxz|Hxz|Hxz];
    try done; try lia.
Qed.

#[global] Instance str_le_transitive : Transitive str_le.
Proof. exact str_le_trans. Qed.

#[global] Instance str_le_total_inst : Total str_le.
Proof. exact str_le_total. Qed.

#[global] Instance str_le_antisymm : AntiSymm eq str_le.
Proof. exact str_le_antisym. Qed.

(** Sorting the elements of a set gives one list, whatever the order the
    elements come in. *)
Lemma sorted_set_unique (l1 l2 : list string) :
  l1 ≡ₚ l2 → merge_sort str_le l1 = merge_sort str_le l2.
Proof.
  intros Hp. apply (Sorted_unique str_le).
  - apply Sorted_merge_sort, _.
  - apply Sorted_merge_sort, _.
  - by rewrite !merge_sort_Permutation.
Qed.

(** ** The gene index *)

Lemma enumerate_index_snoc (l : list string) (g : string) :
  Precompute.enumerate_index (l ++ [g]) =
  <[g := length l]> (Precompute.enumerate_index l).
Proof.
  unfold Precompute.enumerate_index. rewrite imap_app, foldl_app. simpl.
  by rewrite Nat.add_0_r.
Qed.

(** The dictionary maps a gene to its position in the list. *)
Lemma enumerate_index_lookup (l : list string) (g : string) (i : nat) :
  NoDup l → Precompute.enumerate_index l !! g = Some i ↔ l !! i = Some g.
Proof.
  induction l as [|x l IH] using rev_ind; intros Hnd.
  { unfold Precompute.enumerate_index. simpl. by rewrite lookup_empty. }
  apply NoDup_app in Hnd as (Hnd & Hx & _).
  rewrite enumerate_index_snoc, lookup_snoc_Some.
  destruct (decide (x = g)) as [->|Hne].
  - rewrite lookup_insert_eq. split.
    + intros [= <-]. by right.
    + intros [[_ Hl]|[-> _]]; [|done].
      exfalso. eapply Hx; [by eapply list_elem_of_lookup_2|by left].
  - rewrite lookup_insert_ne by done. rewrite IH by done. split.
    + intros Hl. left. split; [|done]. by eapply lookup_lt_Some.
    + by intros [[_ Hl]|[_ ?]].
Qed.

Lemma elem_of_zip_seq (l : list string) (g : string) (i : nat) :
  (g, i) ∈ zip l (seq 0 (length l)) ↔ l !! i = Some g.
Proof.
  rewrite list_elem_of_lookup. split.
  - intros (k & Hk).
    apply lookup_zip_with_Some in Hk as (x & y & [= -> ->] & Hx & Hy).
    apply lookup_seq in Hy as [-> _]. done.
  - intros Hl. exists i. apply lookup_zip_with_Some.
    exists g, i. split; [done|]. split; [done|].
    apply lookup_seq. split; [done|]. by eapply lookup_lt_Some.
Qed.

(** ** Writing cells *)

Section cells.
Implicit Types (m : list (list Z)).

Lemma set_cell_square N m i j d :
  square N m → square N (Precompute.set_cell m i j d).
Proof.
  intros [Hlen Hrows]. unfold Precompute.set_cell. split.
  - by rewrite length_alter.
  - apply Forall_forall. intros row Hrow.
    apply list_elem_of_lookup in Hrow as (k & Hk).
    rewrite list_lookup_alter in Hk. case_decide as Hik.
    + subst k. destruct (m !! i) as [row0|] eqn:Hi; [|done].
      injection Hk as <-. rewrite length_insert.
      eapply Forall_forall in Hrows; [done|].
      by eapply list_elem_of_lookup_2.
    + eapply Forall_forall in Hrows; [done|].
      by eapply list_elem_of_lookup_2.
Qed.

Lemma cell_set_cell N m i j d i' j' :
  square N m → (i < N)%nat → (j < N)%nat →
  cell (Precompute.set_cell m i j d) i' j' =
  if decide (i' = i ∧ j' = j) then d else cell m i' j'.
Proof.
  intros Hsq Hi Hj. pose proof Hsq as [Hlen Hrows].
  unfold cell, Precompute.set_cell. rewrite list_lookup_alter.
  destruct (decide (i = i')) as [<-|Hne].
  - destruct (lookup_lt_is_Some_2 m i) as [row Hrow]; [lia|].
    rewrite Hrow. simpl.
    assert (length row = N) as Hrl by (by eapply square_row).
    destruct (decide (j' = j)) as [->|Hnej].
    + rewrite decide_True by done.
      by rewrite list_lookup_insert_eq by lia.
    + rewrite decide_False by (by intros [_ ?]).
      by rewrite list_lookup_insert_ne by done.
  - rewrite decide_False; [done|]. intros [? _]. congruence.
Qed.

Lemma fill_sentinel_square N : square N (Precompute.fill_sentinel N).
Proof.
  unfold Precompute.fill_sentinel. split.
  - by rewrite length_replicate.
  - apply Forall_replicate. by rewrite length_replicate.
Qed.

Lemma cell_fill_sentinel N i j :
  (i < N)%nat → (j < N)%nat → cell (Precompute.fill_sentinel N) i j = max_uint16.
Proof.
  intros Hi Hj. unfold cell, Precompute.fill_sentinel.
  rewrite lookup_replicate_2 by done. simpl.
  by rewrite lookup_replicate_2 by done.
Qed.

Lemma zero_diagonal_prefix N m k :
  square N m → (k ≤ N)%nat →
  square N (foldl (λ m i, Precompute.set_cell m i i 0) m (seq 0 k)) ∧
  ∀ i j, cell (foldl (λ m i, Precompute.set_cell m i i 0) m (seq 0 k)) i j =
         if decide (i = j ∧ (i < k)%nat) then 0 else cell m i j.
Proof.
  intros Hsq. induction k as [|k IH]; intros Hk.
  - simpl. split; [done|]. intros i j.
    rewrite decide_False; [done|]. intros [_ ?]. lia.
  - destruct IH as [IHsq IH]; [lia|].
    rewrite seq_S, foldl_app. simpl. split.
    + by apply set_cell_square.
    + intros i j. rewrite (cell_set_cell N) by (done || lia).
      rewrite IH. repeat case_decide; try done; lia.
Qed.

(** The array before the traversals: 0 on the diagonal, the sentinel
    elsewhere. *)
Lemma zero_diagonal_fill_sentinel N :
  square N (Precompute.zero_diagonal N (Precompute.fill_sentinel N)) ∧
  ∀ i j, (i < N)%nat → (j < N)%nat →
    cell (Precompute.zero_diagonal N (Precompute.fill_sentinel N)) i j =
    if decide (i = j) then 0 else max_uint16.
Proof.
  destruct (zero_diagonal_prefix N (Precompute.fill_sentinel N) N)
    as [Hsq Hcell]; [apply fill_sentinel_square|done|].
  split; [done|]. intros i j Hi Hj.
  unfold Precompute.zero_diagonal. rewrite Hcell.
  rewrite cell_fill_sentinel by done.
  repeat case_decide; try done; lia.
Qed.

End cells.

(** ** Filling the rows *)

Section rows.
Context (gene_to_idx : gmap string nat) (N : nat).
Context (idx_inj : ∀ g h j,
  gene_to_idx !! g = Some j → gene_to_idx !! h = Some j → g = h).
Context (idx_range : ∀ g j, gene_to_idx !! g = Some j → (j < N)%nat).

Lemma write_lengths_cells i lengths m :
  square N m → (i < N)%nat →
  square N (Precompute.write_lengths gene_to_idx i lengths m) ∧
  (∀ i' j', i' ≠ i →
     cell (Precompute.write_lengths gene_to_idx i lengths m) i' j' =
     cell m i' j') ∧
  (∀ h j', gene_to_idx !! h = Some j' →
     cell (Precompute.write_lengths gene_to_idx i lengths m) i j' =
     written lengths h (cell m i j')).
Proof.
  intros Hsq Hi. unfold Precompute.write_lengths.
  apply (map_fold_weak_ind (λ r lengths,
    square N r ∧
    (∀ i' j', i' ≠ i → cell r i' j' = cell m i' j') ∧
    (∀ h j', gene_to_idx !! h = Some j' →
       cell r i j' = written lengths h (cell m i j')))).
  - split; [done|]. split; [done|]. intros h j' _. unfold written.
    by rewrite lookup_empty.
  - intros k d ls r Hk (Hrsq & Hother & Hrow).
    destruct (gene_to_idx !! k) as [j|] eqn:Hkj.
    2:{ split; [done|]. split; [done|]. intros h j' Hh.
        unfold written. rewrite lookup_insert_ne by congruence.
        by apply Hrow. }
    case_decide as Hd.
    2:{ split; [done|]. split; [done|]. intros h j' Hh.
        unfold written. destruct (decide (k = h)) as [<-|Hne].
        - rewrite lookup_insert_eq, decide_False by done.
          rewrite (Hrow k j' Hh). unfold written. by rewrite Hk.
        - rewrite lookup_insert_ne by done. by apply Hrow. }
    pose proof (idx_range _ _ Hkj) as Hj.
    split; [by apply set_cell_square|]. split.
    + intros i' j' Hne. rewrite (cell_set_cell N) by done.
      rewrite decide_False by (by intros [? _]). by apply Hother.
    + intros h j' Hh. rewrite (cell_set_cell N) by done.
      unfold written. destruct (decide (k = h)) as [<-|Hne].
      * assert (j' = j) as -> by congruence.
        rewrite decide_True by done.
        by rewrite lookup_insert_eq, decide_True by done.
      * rewrite decide_False.
        2:{ intros [_ ->]. apply Hne. by eapply idx_inj. }
        rewrite lookup_insert_ne by done. by apply Hrow.
Qed.

End rows.

(** ** Walks and shortest paths *)

Local Open Scope nat_scope.

Section walks.
Context {A : Type} (G : gmap string (gmap string A)).

Lemma walk_snoc n a u b :
  walk G n a u → b ∈ Nx.neighbors G u → walk G (S n) a b.
Proof.
  induction 1 as [a|n a v u Hav _ IH]; intros Hb.
  - eapply walk_step; [done|constructor].
  - eapply walk_step; [done|by apply IH].
Qed.

Lemma walk_snoc_inv n a b :
  walk G (S n) a b → ∃ u, walk G n a u ∧ b ∈ Nx.neighbors G u.
Proof.
  revert a. induction n as [|n IH]; intros a Hw.
  - inversion Hw as [|? ? u ? Hau Hub]; subst.
    inversion Hub; subst. exists a. split; [constructor|done].
  - inversion Hw as [|? ? u ? Hau Hub]; subst.
    apply IH in Hub as (v & Huv & Hvb).
    exists v. split; [|done]. by eapply walk_step.
Qed.

Lemma walk_app n k a u b :
  walk G n a u → walk G k u b → walk G (n + k) a b.
Proof.
  induction 1 as [a|n a v u Hav _ IH]; intros Hb; [done|].
  simpl. eapply walk_step; [done|by apply IH].
Qed.

Lemma walk_split n k a b :
  walk G (n + k) a b → ∃ u, walk G n a u ∧ walk G k u b.
Proof.
  revert a. induction n as [|n IH]; intros a Hw.
  - exists a. split; [constructor|done].
  - inversion Hw as [|? ? v ? Hav Hvb]; subst.
    apply IH in Hvb as (u & Hvu & Hub).
    exists u. split; [|done]. by eapply walk_step.
Qed.

Lemma walk_rev n a b : symmetric G → walk G n a b → walk G n b a.
Proof.
  intros Hsym. induction 1 as [a|n a u b Hau _ IH]; [constructor|].
  eapply walk_snoc; [done|]. by apply Hsym.
Qed.

Lemma walk_node n a b :
  closed G → is_Some (G !! a) → walk G n a b → is_Some (G !! b).
Proof.
  intros Hcl Ha. induction 1 as [a|n a u b Hau _ IH]; [done|].
  apply IH. by eapply Hcl.
Qed.

Lemma within_mono k k' a b : k ≤ k' → within G k a b → within G k' a b.
Proof. intros Hk (j & Hj & Hw). exists j. split; [lia|done]. Qed.

Lemma shortest_unique a b d d' : shortest G a b d → shortest G a b d' → d = d'.
Proof.
  intros [Hw Hmin] [Hw' Hmin'].
  apply Hmin in Hw'. apply Hmin' in Hw. lia.
Qed.

Lemma shortest_zero a b : shortest G a b 0 ↔ b = a.
Proof.
  split.
  - intros [Hw _]. by inversion Hw.
  - intros ->. split; [constructor|]. intros; lia.
Qed.

(** A shortest path passes only nodes at their shortest distance. *)
Lemma shortest_prefix a b d k :
  shortest G a b d → k ≤ d → ∃ u, shortest G a u k.
Proof.
  intros [Hw Hmin] Hk.
  replace d with (k + (d - k)) in Hw by lia.
  apply walk_split in Hw as (u & Hau & Hub).
  exists u. split; [done|]. intros k' Hk'.
  pose proof (walk_app _ _ _ _ _ Hk' Hub) as Hab.
  apply Hmin in Hab. lia.
Qed.

Lemma shortest_sym a b d : symmetric G → shortest G a b d → shortest G b a d.
Proof.
  intros Hsym [Hw Hmin]. split; [by apply walk_rev|].
  intros d' Hw'. apply Hmin. by apply walk_rev.
Qed.

End walks.

(** ** The breadth-first search *)

Section bfs.
Context {A : Type} (G : gmap string (gmap string A)).
Context (G_closed : closed G).
Context (cutoff : option Z) (s : string) (s_node : is_Some (G !! s)).

Lemma elem_of_next_level (seen thislevel : gset string) t :
  t ∈ Nx.next_level G seen thislevel ↔
  (∃ u, u ∈ thislevel ∧ t ∈ Nx.neighbors G u) ∧ t ∉ seen.
Proof.
  unfold Nx.next_level. rewrite elem_of_difference, elem_of_union_list.
  split; intros [Hex Hseen]; (split; [|done]).
  - destruct Hex as (X & HX & Ht).
    apply list_elem_of_fmap in HX as (u & -> & Hu).
    apply elem_of_elements in Hu. eauto.
  - destruct Hex as (u & Hu & Ht). exists (Nx.neighbors G u).
    split; [|done]. apply list_elem_of_fmap. exists u.
    split; [done|]. by apply elem_of_elements.
Qed.

Lemma bfs_inv_init : bfs_inv G cutoff s {[s]} {[s]} 0 {[s := 0]}.
Proof.
  split; [|split; [|split]].
  - intros t. rewrite elem_of_singleton. split.
    + intros ->. exists 0. split; [done|constructor].
    + intros (j & Hj & Hw). assert (j = 0) as -> by lia. by inversion Hw.
  - intros t. by rewrite elem_of_singleton, shortest_zero.
  - intros t d. rewrite lookup_singleton_Some. split.
    + intros [<- <-]. split; [by apply shortest_zero|done].
    + intros [Hsh Hd]. assert (d = 0) as -> by lia.
      apply shortest_zero in Hsh. by subst.
  - destruct cutoff; simpl; auto.
Qed.

Lemma bfs_inv_step seen thislevel level lengths :
  bfs_inv G cutoff s seen thislevel level lengths →
  Nx.below_cutoff cutoff level →
  let found := Nx.next_level G seen thislevel in
  bfs_inv G cutoff s (seen ∪ found) found (S level)
    (lengths ∪ gset_to_gmap (S level) found).
Proof.
  intros (Hseen & Hlevel & Hlengths & Hcut) Hbelow found.
  assert (Hfound : ∀ t, t ∈ found ↔ shortest G s t (S level)).
  { intros t. unfold found. rewrite elem_of_next_level. split.
    - intros [(u & Hu & Ht) Hns].
      apply Hlevel in Hu as [Hwu _]. split; [by eapply walk_snoc|].
      intros d' Hw'. destruct (decide (S level ≤ d')) as [|Hlt]; [done|].
      exfalso. apply Hns, Hseen. exists d'. split; [lia|done].
    - intros [Hw Hmin]. split.
      + apply walk_snoc_inv in Hw as (u & Hwu & Ht).
        exists u. split; [|done]. apply Hlevel. split; [done|].
        intros d' Hw'. pose proof (walk_snoc _ _ _ _ _ Hw' Ht) as Hw''.
        apply Hmin in Hw''. lia.
      + intros (j & Hj & Hwj)%Hseen. apply Hmin in Hwj. lia. }
  split; [|split; [|split]].
  - intros t. rewrite elem_of_union, Hseen, Hfound. split.
    + intros [Hin|[Hw _]]; [by eapply within_mono; [|done]; lia|].
      exists (S level). by split.
    + intros (j & Hj & Hw).
      destruct (decide (t ∈ seen)) as [Hin|Hnin]; [left; by apply Hseen|].
      right. assert (j = S level) as ->.
      { destruct (decide (j = S level)) as [|Hne]; [done|].
        exfalso. apply Hnin, Hseen. exists j. split; [lia|done]. }
      split; [done|]. intros d' Hw'.
      destruct (decide (S level ≤ d')) as [|Hlt]; [done|].
      exfalso. apply Hnin, Hseen. exists d'. split; [lia|done].
  - done.
  - intros t d. rewrite lookup_union_Some_raw, lookup_gset_to_gmap_Some.
    rewrite Hlengths, Hfound. split.
    + intros [[Hsh Hd]|(_ & Hsh & <-)]; (split; [done|lia]).
    + intros [Hsh Hd]. destruct (decide (d ≤ level)) as [|Hgt]; [by left|].
      right. assert (d = S level) as -> by lia.
      split; [|done].
      destruct (lengths !! t) as [d'|] eqn:Hl; [|done].
      apply Hlengths in Hl as [Hsh' Hd'].
      pose proof (shortest_unique _ _ _ _ _ Hsh Hsh'). lia.
  - destruct cutoff as [c|]; simpl in *; [|done]. right. lia.
Qed.

(** The nodes seen are nodes of the graph. *)
Lemma bfs_inv_seen_nodes seen thislevel level lengths :
  bfs_inv G cutoff s seen thislevel level lengths → seen ⊆ dom G.
Proof.
  intros (Hseen & _) t (j & _ & Hw)%Hseen.
  apply elem_of_dom. by eapply walk_node.
Qed.

(** When the loop ends, the lengths are the shortest distances within the
    cutoff. *)
Lemma bfs_inv_final seen thislevel level lengths :
  bfs_inv G cutoff s seen thislevel level lengths →
  thislevel = ∅ ∨ ¬ Nx.below_cutoff cutoff level ∨ seen = dom G →
  ∀ t d, lengths !! t = Some d ↔ shortest G s t d ∧ within_cutoff cutoff d.
Proof.
  intros (Hseen & Hlevel & Hlengths & Hcut) Hend t d.
  rewrite Hlengths. split.
  - intros [Hsh Hd]. split; [done|].
    destruct cutoff as [c|]; simpl in *; [|done].
    destruct Hcut as [-> | Hc]; [left; lia|right; lia].
  - intros [Hsh Hwc]. split; [done|].
    destruct Hend as [-> | [Hnb | ->]].
    + destruct (decide (d ≤ level)) as [|Hgt]; [done|]. exfalso.
      destruct (shortest_prefix G s t d level Hsh) as (u & Hu); [lia|].
      apply Hlevel in Hu. by apply elem_of_empty in Hu.
    + destruct cutoff as [c|]; simpl in *; [|done].
      destruct Hwc as [-> | Hc]; lia.
    + destruct Hsh as [Hw Hmin].
      assert (t ∈ dom G) as Ht.
      { apply elem_of_dom. by eapply walk_node. }
      apply Hseen in Ht as (j & Hj & Hwj). apply Hmin in Hwj. lia.
Qed.

Lemma bfs_loop_lengths fuel seen thislevel level lengths :
  bfs_inv G cutoff s seen thislevel level lengths →
  (thislevel ≠ ∅ → level + 1 ≤ size seen) →
  size G + 1 ≤ fuel + level →
  ∀ t d,
    Nx.bfs_loop fuel G cutoff seen thislevel level lengths !! t = Some d ↔
    shortest G s t d ∧ within_cutoff cutoff d.
Proof.
  revert seen thislevel level lengths.
  induction fuel as [|fuel IH]; intros seen thislevel level lengths
    Hinv Hsize Hfuel; simpl.
  - apply (bfs_inv_final _ _ _ _ Hinv). left.
    destruct (decide (thislevel = ∅)) as [|Hne]; [done|]. exfalso.
    apply Hsize in Hne.
    pose proof (subseteq_size _ _ (bfs_inv_seen_nodes _ _ _ _ Hinv)) as Hle.
    rewrite size_dom in Hle. lia.
  - case_decide as Hcond.
    2:{ apply (bfs_inv_final _ _ _ _ Hinv).
        destruct (decide (thislevel = ∅)) as [|Hne]; [by left|].
        right. left. intros Hb. by apply Hcond. }
    destruct Hcond as [Hne Hbelow].
    pose proof (bfs_inv_step _ _ _ _ Hinv Hbelow) as Hinv'. simpl in Hinv'.
    case_decide as Hall.
    + apply (bfs_inv_final _ _ _ _ Hinv'). right. right.
      apply set_subseteq_size_eq; [by eapply bfs_inv_seen_nodes|].
      rewrite size_dom. lia.
    + apply (IH _ _ _ _ Hinv'); [|lia].
      intros Hfne. rewrite size_union.
      2:{ intros t Ht [_ Hns]%elem_of_next_level. done. }
      assert (size (Nx.next_level G seen thislevel) ≠ 0).
      { apply size_non_empty_iff. by intros ?%leibniz_equiv. }
      specialize (Hsize Hne). lia.
Qed.

(** [single_source_shortest_path_length] returns the shortest distances
    from the source that are within the cutoff. *)
Lemma single_source_lengths :
  ∃ lengths,
    Nx.single_source_shortest_path_length G s cutoff = Ok lengths ∧
    ∀ t d, lengths !! t = Some d ↔
           shortest G s t d ∧ within_cutoff cutoff d.
Proof.
  unfold Nx.single_source_shortest_path_length, Nx.has_node.
  rewrite bool_decide_eq_true_2 by done.
  eexists. split; [done|].
  apply bfs_loop_lengths.
  - apply bfs_inv_init.
  - intros _. rewrite size_singleton. lia.
  - lia.
Qed.

End bfs.

Local Close Scope nat_scope.

(** ** The graph of the precomputation *)

Section nx_nodes.
Context {A : Type}.
Implicit Types (G : gmap string (gmap string A)).

Lemma elem_of_neighbors G a b :
  b ∈ Nx.neighbors G a ↔ is_Some (Nx.edge_data G a b).
Proof.
  unfold Nx.neighbors. by rewrite elem_of_dom, edge_data_default.
Qed.

Lemma edge_data_node G a b : is_Some (Nx.edge_data G a b) → is_Some (G !! a).
Proof.
  unfold Nx.edge_data. destruct (G !! a); [by eexists|]. by intros [? ?].
Qed.

Lemma node_add_edge G u v (x : A) a :
  is_Some (Nx.add_edge u v x G !! a) ↔ a = u ∨ a = v ∨ is_Some (G !! a).
Proof.
  unfold Nx.add_edge.
  destruct (decide (a = v)) as [->|Hav].
  { rewrite lookup_insert_eq. split; [auto|by eexists]. }
  rewrite lookup_insert_ne by done.
  destruct (decide (a = u)) as [->|Hau].
  { rewrite lookup_insert_eq. split; [auto|by eexists]. }
  rewrite lookup_insert_ne by done.
  split; [auto|]. by intros [?|[?|?]].
Qed.

(** A graph in which every edge is seen from both ends is closed. *)
Lemma symmetric_closed G : symmetric G → closed G.
Proof.
  intros Hsym a b Hab. apply Hsym in Hab.
  apply elem_of_neighbors in Hab. by eapply edge_data_node.
Qed.

Lemma symmetric_empty : symmetric (∅ : gmap string (gmap string A)).
Proof.
  intros a b Hab. apply elem_of_neighbors in Hab as [x Hx].
  unfold Nx.edge_data in Hx. by rewrite lookup_empty in Hx.
Qed.

Lemma symmetric_add_edge G u v (x : A) :
  symmetric G → symmetric (Nx.add_edge u v x G).
Proof.
  intros Hsym a b. rewrite !elem_of_neighbors, !edge_data_add_edge.
  case_decide as Hab.
  - intros _. rewrite decide_True; [by eexists|]. tauto.
  - intros Hedge. rewrite decide_False by tauto.
    by apply elem_of_neighbors, Hsym, elem_of_neighbors.
Qed.

(** Two graphs with the same nodes and the same edge data are equal. *)
Lemma graph_ext G1 G2 :
  (∀ a, is_Some (G1 !! a) ↔ is_Some (G2 !! a)) →
  (∀ a b, Nx.edge_data G1 a b = Nx.edge_data G2 a b) →
  G1 = G2.
Proof.
  intros Hnodes Hedges. apply map_eq. intros a.
  specialize (Hnodes a). pose proof (Hedges a) as Ha.
  unfold Nx.edge_data in Ha.
  destruct (G1 !! a) as [n1|], (G2 !! a) as [n2|]; simpl in *.
  - f_equal. apply map_eq. exact Ha.
  - destruct Hnodes as [Hn _]. by destruct Hn as [? ?]; [eexists|].
  - destruct Hnodes as [_ Hn]. by destruct Hn as [? ?]; [eexists|].
  - done.
Qed.

End nx_nodes.

Section ppi_graph.
Context (strip : string → string).
Implicit Types (ppi : list (string * string)).

Lemma precompute_graph_snoc ppi e :
  Precompute.build_ppi_graph strip (ppi ++ [e]) =
  Nx.add_edge (strip e.1) (strip e.2) ()
    (Precompute.build_ppi_graph strip ppi).
Proof. unfold Precompute.build_ppi_graph. by rewrite foldl_app. Qed.

Lemma precompute_graph_symmetric ppi :
  symmetric (Precompute.build_ppi_graph strip ppi).
Proof.
  induction ppi as [|e ppi IH] using rev_ind; [apply symmetric_empty|].
  rewrite precompute_graph_snoc. by apply symmetric_add_edge.
Qed.

Lemma precompute_graph_nodes ppi a :
  is_Some (Precompute.build_ppi_graph strip ppi !! a) ↔
  ∃ e, e ∈ ppi ∧ (strip e.1 = a ∨ strip e.2 = a).
Proof.
  induction ppi as [|e ppi IH] using rev_ind.
  - unfold Precompute.build_ppi_graph. simpl. rewrite lookup_empty. split.
    + by intros [? ?].
    + intros (e & He & _). by apply elem_of_nil in He.
  - rewrite precompute_graph_snoc, node_add_edge, IH. split.
    + intros [->|[->|(e' & He' & Ha)]].
      * exists e. split; [|by left]. apply elem_of_app. right. by left.
      * exists e. split; [|by right]. apply elem_of_app. right. by left.
      * exists e'. split; [|done]. apply elem_of_app. by left.
    + intros (e' & He' & Ha). apply elem_of_app in He' as [He'|He'].
      * right. right. eauto.
      * apply list_elem_of_singleton in He' as ->.
        destruct Ha as [<-|<-]; auto.
Qed.

Lemma precompute_graph_edges ppi a b :
  is_Some (Nx.edge_data (Precompute.build_ppi_graph strip ppi) a b) ↔
  ∃ e, e ∈ ppi ∧ row_joins strip a b e.
Proof.
  induction ppi as [|e ppi IH] using rev_ind.
  - unfold Precompute.build_ppi_graph, Nx.edge_data. simpl.
    rewrite lookup_empty. split.
    + by intros [? ?].
    + intros (e & He & _). by apply elem_of_nil in He.
  - rewrite precompute_graph_snoc, edge_data_add_edge.
    case_decide as Hj.
    + split; [|by eexists]. intros _. exists e.
      split; [|exact Hj]. apply elem_of_app. right. by left.
    + rewrite IH. split.
      * intros (e' & He' & Hj'). exists e'. split; [|done].
        apply elem_of_app. by left.
      * intros (e' & He' & Hj'). apply elem_of_app in He' as [He'|He'].
        -- eauto.
        -- apply list_elem_of_singleton in He' as ->. by destruct Hj.
Qed.

(** The graph does not depend on the order of the rows. *)
Lemma precompute_graph_perm ppi1 ppi2 :
  ppi1 ≡ₚ ppi2 →
  Precompute.build_ppi_graph strip ppi1 = Precompute.build_ppi_graph strip ppi2.
Proof.
  intros Hp. apply graph_ext.
  - intros a. rewrite !precompute_graph_nodes.
    split; intros (e & He & Ha); exists e; (split; [|done]).
    + by rewrite <- Hp.
    + by rewrite Hp.
  - intros a b.
    assert (is_Some (Nx.edge_data (Precompute.build_ppi_graph strip ppi1) a b)
            ↔ is_Some (Nx.edge_data (Precompute.build_ppi_graph strip ppi2) a b))
      as H1.
    { rewrite !precompute_graph_edges.
      split; intros (e & He & Ha); exists e; (split; [|done]).
      - by rewrite <- Hp.
      - by rewrite Hp. }
    destruct (Nx.edge_data (Precompute.build_ppi_graph strip ppi1) a b)
      as [[]|],
      (Nx.edge_data (Precompute.build_ppi_graph strip ppi2) a b)
      as [[]|]; try done.
    + destruct H1 as [H1 _]. by destruct H1 as [? ?]; [eexists|].
    + destruct H1 as [_ H1]. by destruct H1 as [? ?]; [eexists|].
Qed.

(** Every node of the graph is a gene of the universe. *)
Lemma precompute_graph_nodes_universe ppi dt_genes gd_genes a :
  is_Some (Precompute.build_ppi_graph strip ppi !! a) →
  a ∈ Precompute.build_gene_universe strip ppi dt_genes gd_genes.
Proof.
  intros (e & He & Ha)%precompute_graph_nodes.
  unfold Precompute.build_gene_universe.
  apply elem_of_union_l, elem_of_union_l.
  destruct Ha as [<-|<-].
  - apply elem_of_union_l, elem_of_list_to_set, list_elem_of_fmap.
    by exists e.
  - apply elem_of_union_r, elem_of_list_to_set, list_elem_of_fmap.
    by exists e.
Qed.

Lemma universe_perm ppi1 ppi2 dt1 dt2 gd1 gd2 :
  ppi1 ≡ₚ ppi2 → dt1 ≡ₚ dt2 → gd1 ≡ₚ gd2 →
  Precompute.build_gene_universe strip ppi1 dt1 gd1 =
  Precompute.build_gene_universe strip ppi2 dt2 gd2.
Proof.
  intros Hppi Hdt Hgd. unfold Precompute.build_gene_universe.
  apply set_eq. intros g.
  rewrite !elem_of_union, !elem_of_list_to_set.
  by rewrite Hppi, Hdt, Hgd.
Qed.

End ppi_graph.

(** ** The sweep over the genes of the graph *)

Section sweep.
Context (G : gmap string (gmap string ())) (G_sym : symmetric G).
Context (cutoff : option Z).
Context (gene_to_idx : gmap string nat) (N : nat).
Context (idx_inj : ∀ g h j,
  gene_to_idx !! g = Some j → gene_to_idx !! h = Some j → g = h).
Context (idx_range : ∀ g j, gene_to_idx !! g = Some j → (j < N)%nat).

Lemma bfs_sweep_cells genes m :
  square N m → NoDup genes →
  (∀ g, g ∈ genes → is_Some (G !! g) ∧ is_Some (gene_to_idx !! g)) →
  ∃ m',
    Precompute.bfs_sweep G gene_to_idx cutoff genes m = (m', Ok ()) ∧
    square N m' ∧
    (∀ i j, (∀ g, g ∈ genes → gene_to_idx !! g ≠ Some i) →
       cell m' i j = cell m i j) ∧
    (∀ g i h j lengths,
       g ∈ genes → gene_to_idx !! g = Some i → gene_to_idx !! h = Some j →
       Nx.single_source_shortest_path_length G g cutoff = Ok lengths →
       cell m' i j = written lengths h (cell m i j)).
Proof.
  intros Hsq Hnd. revert m Hsq.
  induction Hnd as [|g genes Hg Hnd IH]; intros m Hsq Hgenes; simpl.
  { exists m. split; [done|]. split; [done|]. split; [done|].
    intros g i h j lengths Hin. by apply elem_of_nil in Hin. }
  destruct (Hgenes g) as [Hnode [i0 Hi0]]; [by left|].
  rewrite Hi0.
  destruct (single_source_lengths G (symmetric_closed G G_sym) cutoff g Hnode)
    as (lengths0 & Hl0 & _).
  rewrite Hl0.
  pose proof (idx_range _ _ Hi0) as Hi0N.
  destruct (write_lengths_cells gene_to_idx N idx_inj idx_range
              i0 lengths0 m Hsq Hi0N) as (Hsq1 & Hother1 & Hrow1).
  destruct (IH _ Hsq1) as (m' & Hrun & Hsq' & Hother & Hrows).
  { intros g' Hg'. apply Hgenes. by right. }
  exists m'. split; [done|]. split; [done|]. split.
  - intros i j Hnone. rewrite Hother.
    2:{ intros g' Hg'. apply Hnone. by right. }
    apply Hother1. intros ->. by apply (Hnone g); [left|].
  - intros g' i h j lengths Hin Hi Hj Hl.
    apply elem_of_cons in Hin as [->|Hin].
    + assert (i = i0) as -> by congruence.
      assert (lengths = lengths0) as -> by congruence.
      rewrite Hother.
      2:{ intros g' Hg' Hg'i. apply Hg.
          by rewrite (idx_inj _ _ _ Hi0 Hg'i). }
      by apply Hrow1.
    + rewrite (Hrows g' i h j lengths) by done. f_equal.
      apply Hother1. intros ->. apply Hg.
      by rewrite (idx_inj _ _ _ Hi0 Hi).
Qed.

End sweep.

(** ** A run of the precomputation *)

Section run.
Context (set_iter : gset string → list string).
Context (set_iter_perm : ∀ X, set_iter X ≡ₚ elements X).
Context (strip : string → string) (mmap_empty_ok : bool).
Context (ppi : list (string * string)) (dt_genes gd_genes : list string).
Context (cutoff : option Z).

Local Abbreviation U := (Precompute.build_gene_universe strip ppi dt_genes gd_genes).
Local Abbreviation all_genes := (merge_sort str_le (set_iter U)).
Local Abbreviation N := (length all_genes).
Local Abbreviation G := (Precompute.build_ppi_graph strip ppi).

Lemma all_genes_perm : all_genes ≡ₚ elements U.
Proof. by rewrite merge_sort_Permutation. Qed.

Lemma all_genes_NoDup : NoDup all_genes.
Proof. rewrite all_genes_perm. apply NoDup_elements. Qed.

Lemma elem_of_all_genes g : g ∈ all_genes ↔ g ∈ U.
Proof. by rewrite all_genes_perm, elem_of_elements. Qed.

Lemma index_inj g h j :
  Precompute.enumerate_index all_genes !! g = Some j →
  Precompute.enumerate_index all_genes !! h = Some j → g = h.
Proof.
  rewrite !enumerate_index_lookup by apply all_genes_NoDup. congruence.
Qed.

Lemma index_range g j :
  Precompute.enumerate_index all_genes !! g = Some j → (j < N)%nat.
Proof.
  rewrite enumerate_index_lookup by apply all_genes_NoDup.
  apply lookup_lt_Some.
Qed.

(** A run over a universe that is not empty, or with an array library
    that maps empty files, ends normally; the index file lists the sorted
    genes with their positions, and each row of the matrix file is the
    initial row overwritten with the lengths found from its gene. *)
Lemma main_run :
  N ≠ 0%nat ∨ mmap_empty_ok = true →
  ∃ M,
    Precompute.main set_iter strip mmap_empty_ok ppi dt_genes gd_genes cutoff
    = Precompute.MkRun (Some (zip all_genes (seq 0 N))) (Some M) (Ok ()) ∧
    square N M ∧
    ∀ g i h j, all_genes !! i = Some g → all_genes !! j = Some h →
      (G !! g = None → cell M i j = initial_cell i j) ∧
      (∀ lengths,
         Nx.single_source_shortest_path_length G g cutoff = Ok lengths →
         cell M i j = written lengths h (initial_cell i j)).
Proof.
  intros Hrun. unfold Precompute.main.
  rewrite decide_False.
  2:{ intros [HN Hok]. destruct Hrun; congruence. }
  destruct (zero_diagonal_fill_sentinel N) as [Hsq0 Hcell0].
  pose proof all_genes_NoDup as Hnd.
  destruct (bfs_sweep_cells G (precompute_graph_symmetric strip ppi) cutoff
              (Precompute.enumerate_index all_genes) N index_inj index_range
              (filter (λ g, Nx.has_node G g = true) all_genes)
              (Precompute.zero_diagonal N (Precompute.fill_sentinel N)))
    as (M & HM & Hsq & Hother & Hrows).
  { done. }
  { by apply NoDup_filter. }
  { intros g [Hnode Hg]%list_elem_of_filter. split.
    - unfold Nx.has_node in Hnode. by apply bool_decide_eq_true in Hnode.
    - apply list_elem_of_lookup in Hg as [i Hi]. exists i.
      by apply enumerate_index_lookup. }
  rewrite HM. exists M. split; [done|]. split; [done|].
  intros g i h j Hi Hj.
  pose proof (lookup_lt_Some _ _ _ Hi) as HiN.
  pose proof (lookup_lt_Some _ _ _ Hj) as HjN.
  assert (cell (Precompute.zero_diagonal N (Precompute.fill_sentinel N)) i j
          = initial_cell i j) as Hinit by (by apply Hcell0).
  split.
  - intros Hnone. rewrite Hother; [done|].
    intros g' [Hnode _]%list_elem_of_filter Hg'.
    apply enumerate_index_lookup in Hg'; [|done].
    assert (g' = g) as -> by congruence.
    unfold Nx.has_node in Hnode. apply bool_decide_eq_true in Hnode.
    rewrite Hnone in Hnode. by destruct Hnode.
  - intros lengths Hl. rewrite <- Hinit.
    apply (Hrows g i h j lengths); try done.
    + apply list_elem_of_filter. split.
      * unfold Nx.single_source_shortest_path_length in Hl.
        by destruct (Nx.has_node G g).
      * by eapply list_elem_of_lookup_2.
    + by apply enumerate_index_lookup.
    + by apply enumerate_index_lookup.
Qed.

End run.

(** Inside an [N x N] array every position holds a stored entry, which
    is the one [cell] reads. *)
Lemma stored_entry N (M : list (list Z)) (i j : nat) :
  square N M → (i < N)%nat → (j < N)%nat →
  (row ← M !! i; row !! j) = Some (cell M i j).
Proof.
  intros Hsq Hi Hj. unfold cell.
  destruct (lookup_lt_is_Some_2 M i) as [row Hrow]; [by rewrite (proj1 Hsq)|].
  rewrite Hrow. simpl.
  destruct (lookup_lt_is_Some_2 row j) as [d Hd];
    [by rewrite (square_row N M i row Hsq Hrow)|].
  by rewrite Hd.
Qed.

(** C8: when the run has completed, the matrix is an N x N array, N the
    number of genes of the universe, and the diagonal entry of every gene
    of the universe is a stored entry of the array and is 0, whether or
    not the gene is a node of the graph; the array is 0 on the diagonal
    already before the traversals. *)
Theorem diagonal_is_zero
    (set_iter : gset string → list string) (strip : string → string)
    (mmap_empty_ok : bool) (ppi : list (string * string))
    (dt_genes gd_genes : list string) (cutoff : option Z) (g : string) :
  (∀ X, set_iter X ≡ₚ elements X) →
  g ∈ Precompute.build_gene_universe strip ppi dt_genes gd_genes →
  ∃ idx M,
    Precompute.main set_iter strip mmap_empty_ok ppi dt_genes gd_genes cutoff
    = Precompute.MkRun (Some idx) (Some M) (Ok ()) ∧
    length idx
    = size (Precompute.build_gene_universe strip ppi dt_genes gd_genes) ∧
    square (length idx) M ∧
    (∃ i, (g, i) ∈ idx) ∧
    ∀ i, (g, i) ∈ idx →
      (i < length idx)%nat ∧
      (row ← Precompute.zero_diagonal (length idx)
               (Precompute.fill_sentinel (length idx)) !! i;
       row !! i) = Some 0 ∧
      (row ← M !! i; row !! i) = Some 0.
Proof.
  intros Hperm Hg.
  set (all := merge_sort str_le (set_iter
    (Precompute.build_gene_universe strip ppi dt_genes gd_genes))).
  assert (g ∈ all) as Hin by (by apply elem_of_all_genes).
  apply list_elem_of_lookup in Hin as [i0 Hi0].
  pose proof (lookup_lt_Some _ _ _ Hi0) as Hi0N.
  destruct (main_run set_iter Hperm strip mmap_empty_ok ppi dt_genes
              gd_genes cutoff) as (M & Hrun & Hsq & Hcells).
  { left. fold all. lia. }
  fold all in Hrun, Hsq, Hcells.
  exists (zip all (seq 0 (length all))), M.
  assert (length (zip all (seq 0 (length all))) = length all) as Hlen
    by (by rewrite length_zip_with, length_seq, Nat.min_id).
  rewrite !Hlen.
  split; [done|].
  split.
  { unfold all.
    by rewrite (Permutation_length (all_genes_perm set_iter Hperm strip
                                      ppi dt_genes gd_genes)). }
  split; [done|].
  split; [exists i0; by apply elem_of_zip_seq|].
  intros i Hi%elem_of_zip_seq.
  pose proof (lookup_lt_Some _ _ _ Hi) as HiN.
  split; [done|]. split.
  - destruct (zero_diagonal_fill_sentinel (length all)) as [Hsq0 Hcell0].
    rewrite (stored_entry _ _ i i Hsq0 HiN HiN), Hcell0 by done.
    by rewrite decide_True.
  - rewrite (stored_entry _ _ i i Hsq HiN HiN). f_equal.
    destruct (Hcells g i g i Hi Hi) as [Hnone Hsome].
    destruct (Precompute.build_ppi_graph strip ppi !! g) as [nbrs|] eqn:Hnode.
    2:{ rewrite Hnone by done. unfold initial_cell. by rewrite decide_True. }
    destruct (single_source_lengths (Precompute.build_ppi_graph strip ppi)
                (symmetric_closed _ (precompute_graph_symmetric strip ppi))
                cutoff g) as (lengths & Hl & Hspec); [by eexists|].
    rewrite (Hsome lengths Hl). unfold written.
    assert (lengths !! g = Some 0%nat) as ->.
    { apply Hspec. split; [by apply shortest_zero|].
      destruct cutoff; simpl; auto. }
    rewrite decide_True; [done|]. unfold max_uint16. lia.
Qed.

(** The isolated gene T of the small run. *)
Lemma diagonal_is_zero_witness :
  ∃ idx M,
    Precompute.main elements id true ex_ppi ["T"; "A"]%string ["C"]%string None
    = Precompute.MkRun (Some idx) (Some M) (Ok ()) ∧
    length idx
    = size (Precompute.build_gene_universe id ex_ppi ["T"; "A"]%string
              ["C"]%string) ∧
    square (length idx) M ∧
    (∃ i, ("T"%string, i) ∈ idx) ∧
    ∀ i, ("T"%string, i) ∈ idx →
      (i < length idx)%nat ∧
      (row ← Precompute.zero_diagonal (length idx)
               (Precompute.fill_sentinel (length idx)) !! i;
       row !! i) = Some 0 ∧
      (row ← M !! i; row !! i) = Some 0.
Proof.
  apply (diagonal_is_zero elements id true ex_ppi ["T"; "A"]%string
           ["C"]%string None "T").
  - reflexivity.
  - vm_compute. reflexivity.
Defined.

(** C7: for two nodes a and b of the graph, with or without a cutoff,
    the entry of (a, b) equals the entry of (b, a); when b is reachable
    from a within the cutoff and the length d of a shortest path fits
    16 bits, both entries are d.  No entry is copied from one to the
    other: each comes from the traversal of its own row. *)
Theorem matrix_is_symmetric
    (set_iter : gset string → list string) (strip : string → string)
    (mmap_empty_ok : bool) (ppi : list (string * string))
    (dt_genes gd_genes : list string) (cutoff : option Z) (a b : string) :
  (∀ X, set_iter X ≡ₚ elements X) →
  is_Some (Precompute.build_ppi_graph strip ppi !! a) →
  is_Some (Precompute.build_ppi_graph strip ppi !! b) →
  ∃ idx M,
    Precompute.main set_iter strip mmap_empty_ok ppi dt_genes gd_genes cutoff
    = Precompute.MkRun (Some idx) (Some M) (Ok ()) ∧
    (∃ i, (a, i) ∈ idx) ∧ (∃ j, (b, j) ∈ idx) ∧
    ∀ i j, (a, i) ∈ idx → (b, j) ∈ idx →
      cell M i j = cell M j i ∧
      ∀ d, shortest (Precompute.build_ppi_graph strip ppi) a b d →
           within_cutoff cutoff d → Z.of_nat d ≤ max_uint16 →
           cell M i j = Z.of_nat d ∧ cell M j i = Z.of_nat d.
Proof.
  intros Hperm Ha Hb.
  set (G := Precompute.build_ppi_graph strip ppi) in *.
  set (all := merge_sort str_le (set_iter
    (Precompute.build_gene_universe strip ppi dt_genes gd_genes))).
  assert (a ∈ all) as Hina.
  { apply elem_of_all_genes; [done|]. by apply precompute_graph_nodes_universe. }
  assert (b ∈ all) as Hinb.
  { apply elem_of_all_genes; [done|]. by apply precompute_graph_nodes_universe. }
  apply list_elem_of_lookup in Hina as [i0 Hi0].
  apply list_elem_of_lookup in Hinb as [j0 Hj0].
  pose proof (lookup_lt_Some _ _ _ Hi0) as Hi0N.
  destruct (main_run set_iter Hperm strip mmap_empty_ok ppi dt_genes
              gd_genes cutoff) as (M & Hrun & Hsq & Hcells).
  { left. fold all. lia. }
  fold all in Hrun, Hsq, Hcells. fold G in Hcells.
  pose proof (precompute_graph_symmetric strip ppi) as Hsym. fold G in Hsym.
  destruct (single_source_lengths G (symmetric_closed _ Hsym) cutoff a Ha)
    as (la & Hla & Hspeca).
  destruct (single_source_lengths G (symmetric_closed _ Hsym) cutoff b Hb)
    as (lb & Hlb & Hspecb).
  assert (Hlen : la !! b = lb !! a).
  { apply option_eq. intros d. rewrite Hspeca, Hspecb.
    split; intros [Hsh Hc]; (split; [by apply shortest_sym|done]). }
  exists (zip all (seq 0 (length all))), M.
  split; [done|]. split; [exists i0; by apply elem_of_zip_seq|].
  split; [exists j0; by apply elem_of_zip_seq|].
  intros i j Hi%elem_of_zip_seq Hj%elem_of_zip_seq.
  destruct (Hcells a i b j Hi Hj) as [_ Hab]. specialize (Hab la Hla).
  destruct (Hcells b j a i Hj Hi) as [_ Hba]. specialize (Hba lb Hlb).
  assert (Hinit : initial_cell i j = initial_cell j i).
  { unfold initial_cell. repeat case_decide; congruence. }
  split.
  - rewrite Hab, Hba. unfold written. by rewrite Hlen, Hinit.
  - intros d Hsh Hc Hd.
    assert (la !! b = Some d) as Hlab by (by apply Hspeca).
    rewrite Hab, Hba. unfold written. rewrite <- Hlen, Hlab. simpl.
    destruct (decide (Z.of_nat d ≤ max_uint16)); [by split|done].
Qed.

(** The ends A and C of the path of the small run, with cutoff 1. *)
Lemma matrix_is_symmetric_witness :
  ∃ idx M,
    Precompute.main elements id true ex_ppi ["T"; "A"]%string ["C"]%string
      (Some 1)
    = Precompute.MkRun (Some idx) (Some M) (Ok ()) ∧
    (∃ i, ("A"%string, i) ∈ idx) ∧ (∃ j, ("C"%string, j) ∈ idx) ∧
    ∀ i j, ("A"%string, i) ∈ idx → ("C"%string, j) ∈ idx →
      cell M i j = cell M j i ∧
      ∀ d, shortest (Precompute.build_ppi_graph id ex_ppi) "A" "C" d →
           within_cutoff (Some 1) d → Z.of_nat d ≤ max_uint16 →
           cell M i j = Z.of_nat d ∧ cell M j i = Z.of_nat d.
Proof.
  apply (matrix_is_symmetric elements id true ex_ppi ["T"; "A"]%string
           ["C"]%string (Some 1) "A" "C").
  - reflexivity.
  - vm_compute. by eexists.
  - vm_compute. by eexists.
Defined.

(** C9: the run is a function of its inputs, and a function of them as
    sets of rows: two runs whose inputs agree up to the order of the rows,
    under any two iteration orders of sets, leave the same index file and
    the same matrix file and end the same way.  The index file lists the
    genes of the universe in lexicographic order, each with its position,
    counted from 0. *)
Theorem run_is_deterministic
    (set_iter1 set_iter2 : gset string → list string)
    (strip : string → string) (mmap_empty_ok : bool)
    (ppi1 ppi2 : list (string * string))
    (dt_genes1 dt_genes2 gd_genes1 gd_genes2 : list string)
    (cutoff : option Z) :
  (∀ X, set_iter1 X ≡ₚ elements X) → (∀ X, set_iter2 X ≡ₚ elements X) →
  ppi1 ≡ₚ ppi2 → dt_genes1 ≡ₚ dt_genes2 → gd_genes1 ≡ₚ gd_genes2 →
  let run1 := Precompute.main set_iter1 strip mmap_empty_ok
                ppi1 dt_genes1 gd_genes1 cutoff in
  let run2 := Precompute.main set_iter2 strip mmap_empty_ok
                ppi2 dt_genes2 gd_genes2 cutoff in
  let sorted_universe :=
    merge_sort str_le
      (elements (Precompute.build_gene_universe strip ppi1 dt_genes1 gd_genes1)) in
  run1 = run2 ∧
  Precompute.index_file run1
  = Some (zip sorted_universe (seq 0 (length sorted_universe))) ∧
  Sorted str_le sorted_universe ∧ NoDup sorted_universe.
Proof.
  intros Hperm1 Hperm2 Hppi Hdt Hgd run1 run2 sorted_universe.
  assert (Hall1 : merge_sort str_le (set_iter1
            (Precompute.build_gene_universe strip ppi1 dt_genes1 gd_genes1))
          = sorted_universe).
  { apply sorted_set_unique. apply Hperm1. }
  assert (Hall2 : merge_sort str_le (set_iter2
            (Precompute.build_gene_universe strip ppi2 dt_genes2 gd_genes2))
          = sorted_universe).
  { rewrite <- (universe_perm strip _ _ _ _ _ _ Hppi Hdt Hgd).
    apply sorted_set_unique. apply Hperm2. }
  assert (HG : Precompute.build_ppi_graph strip ppi1
               = Precompute.build_ppi_graph strip ppi2)
    by (by apply precompute_graph_perm).
  split; [|split; [|split]].
  - unfold run1, run2, Precompute.main. by rewrite Hall1, Hall2, HG.
  - unfold run1, Precompute.main. rewrite Hall1.
    case_decide; [done|]. by destruct (Precompute.bfs_sweep _ _ _ _ _).
  - apply Sorted_merge_sort, _.
  - unfold sorted_universe. rewrite merge_sort_Permutation.
    apply NoDup_elements.
Qed.

Lemma run_is_deterministic_witness :
  Precompute.main elements id true ex_ppi ["T"; "A"]%string ["C"]%string None
  = Precompute.main reversed_iter id true (reverse ex_ppi)
      ["A"; "T"]%string ["C"]%string None.
Proof.
  apply (run_is_deterministic elements reversed_iter id true
           ex_ppi (reverse ex_ppi) ["T"; "A"]%string ["A"; "T"]%string
           ["C"]%string ["C"]%string None).
  - reflexivity.
  - intros X. unfold reversed_iter. apply reverse_Permutation.
  - symmetry. apply reverse_Permutation.
  - apply perm_swap.
  - reflexivity.
Defined.

(** C5, as the code has it: the run has no check for an empty universe.
    It writes the index file, with no rows, and creates the matrix file;
    it ends normally, or with the [ValueError] of an array library that
    does not map empty files, raised after both files exist. *)
Theorem empty_universe_writes_files
    (set_iter : gset string → list string) (strip : string → string)
    (mmap_empty_ok : bool) (ppi : list (string * string))
    (dt_genes gd_genes : list string) (cutoff : option Z) :
  (∀ X, set_iter X ≡ₚ elements X) →
  Precompute.build_gene_universe strip ppi dt_genes gd_genes = ∅ →
  Precompute.main set_iter strip mmap_empty_ok ppi dt_genes gd_genes cutoff
  = Precompute.MkRun (Some []) (Some [])
      (if mmap_empty_ok then Ok () else Raise ValueError).
Proof.
  intros Hperm Hempty. unfold Precompute.main. rewrite Hempty.
  assert (set_iter ∅ = []) as ->.
  { apply Permutation_nil_r. by rewrite Hperm, elements_empty. }
  simpl. destruct mmap_empty_ok; by vm_compute.
Qed.

Lemma empty_universe_writes_files_witness :
  Precompute.main elements id false [] [] [] None
  = Precompute.MkRun (Some []) (Some []) (Raise ValueError).
Proof.
  apply (empty_universe_writes_files elements id false [] [] [] None).
  - reflexivity.
  - reflexivity.
Defined.

(** C5, as stated, fails: on empty inputs the index file is written,
    whether the array library then maps the empty matrix file or not. *)
Lemma empty_universe_index_file_written :
  ¬ aborts_before_output
      (Precompute.main elements id true [] [] [] None) ∧
  ¬ aborts_before_output
      (Precompute.main elements id false [] [] [] None).
Proof.
  split; intros (_ & Hidx & _); vm_compute in Hidx; discriminate Hidx.
Qed.

(** ** The overlap tables *)

Section grouping.
Implicit Types (m : list (string * gset string)).
Implicit Types (df : list (string * string)).

Lemma add_to_set_keys k g m :
  (Scoring.add_to_set k g m).*1 =
  if decide (k ∈ m.*1) then m.*1 else m.*1 ++ [k].
Proof.
  induction m as [|[k' S] m IH].
  { done. }
  cbn [Scoring.add_to_set]. destruct (decide (k' = k)) as [->|Hk].
  - rewrite decide_True by (by left). done.
  - rewrite fmap_cons, IH. destruct (decide (k ∈ m.*1)) as [Hin|Hin].
    + rewrite decide_True by (by right). done.
    + rewrite decide_False; [done|].
      intros [?|?]%elem_of_cons; simpl in *; [congruence|done].
Qed.

Lemma elem_of_add_to_set k g m k' S' :
  NoDup (m.*1) →
  (k', S') ∈ Scoring.add_to_set k g m →
  (k' ≠ k ∧ (k', S') ∈ m) ∨
  (k' = k ∧ ∃ S, S' = S ∪ {[g]} ∧ ((k, S) ∈ m ∨ (¬ k ∈ fst <$> m) ∧ S = ∅)).
Proof.
  induction m as [|[k0 S0] m IH]; intros Hnd Hin.
  - simpl in Hin. apply list_elem_of_singleton in Hin.
    injection Hin as -> ->. right. split; [done|]. exists ∅.
    split; [by rewrite union_empty_l_L|]. right. split; [|done].
    by intros ?%elem_of_nil.
  - apply NoDup_cons in Hnd as [Hk0 Hnd]. cbn [Scoring.add_to_set] in Hin.
    destruct (decide (k0 = k)) as [->|Hne].
    + apply elem_of_cons in Hin as [Heq|Hin].
      * injection Heq as -> ->. right. split; [done|]. exists S0.
        split; [done|]. left. by left.
      * left. split; [|by right]. intros ->. apply Hk0.
        apply list_elem_of_fmap. by exists (k, S').
    + apply elem_of_cons in Hin as [Heq|Hin].
      * injection Heq as -> ->. left. split; [done|by left].
      * destruct (IH Hnd Hin) as [[Hne' Hin']|[-> (S & -> & Hcase)]].
        -- left. split; [done|by right].
        -- right. split; [done|]. exists S. split; [done|].
           destruct Hcase as [Hin'|[Hnin ->]].
           ++ left. by right.
           ++ right. split; [|done].
              intros [?|?]%elem_of_cons; simpl in *; [congruence|done].
Qed.

Lemma grouped_snoc df r :
  grouped (df ++ [r]) = Scoring.add_to_set r.1 r.2 (grouped df).
Proof. unfold grouped. by rewrite foldl_app. Qed.

Lemma values_of_snoc df r k :
  values_of (df ++ [r]) k =
  values_of df k ∪ (if decide (r.1 = k) then {[r.2]} else ∅).
Proof.
  unfold values_of. rewrite filter_app, fmap_app, list_to_set_app_L.
  f_equal. rewrite filter_cons, filter_nil. case_decide; simpl; [|done].
  by rewrite union_empty_r_L.
Qed.

Lemma elem_of_values_of df k g : g ∈ values_of df k ↔ (k, g) ∈ df.
Proof.
  unfold values_of. rewrite elem_of_list_to_set, list_elem_of_fmap. split.
  - intros ([k' g'] & -> & [Hk Hin]%list_elem_of_filter). simpl in *.
    by subst.
  - intros Hin. exists (k, g). split; [done|].
    by apply list_elem_of_filter.
Qed.

Lemma values_of_empty df k : ¬ k ∈ fst <$> df → values_of df k = ∅.
Proof.
  intros Hk. apply set_eq. intros g. rewrite elem_of_values_of. split.
  - intros Hin. exfalso. apply Hk. apply list_elem_of_fmap. by exists (k, g).
  - by intros ?%elem_of_empty.
Qed.

(** The dictionary has one entry per key, in the order in which the keys
    first occur, and the entry of a key is the set of its values. *)
Lemma grouped_spec df :
  NoDup (grouped df).*1 ∧
  (∀ k, k ∈ (grouped df).*1 ↔ k ∈ df.*1) ∧
  (∀ k S, (k, S) ∈ grouped df → S = values_of df k).
Proof.
  induction df as [|[k g] df (Hnd & Hkeys & Hvals)] using rev_ind.
  { split; [constructor|]. split; [done|]. by intros k S ?%elem_of_nil. }
  rewrite grouped_snoc. simpl. split; [|split].
  - rewrite add_to_set_keys. case_decide as Hin; [done|].
    apply NoDup_app. split; [done|]. split; [|apply NoDup_singleton].
    intros k' Hk' ->%list_elem_of_singleton. done.
  - intros k'. rewrite add_to_set_keys, fmap_app, elem_of_app. simpl.
    rewrite list_elem_of_singleton, <- Hkeys.
    case_decide as Hin; [|by rewrite elem_of_app, list_elem_of_singleton].
    split; [by left|]. by intros [?| ->].
  - intros k' S' Hin. apply elem_of_add_to_set in Hin; [|done].
    rewrite values_of_snoc. simpl.
    destruct Hin as [[Hne Hin]|[-> (S & -> & [Hin|[Hnin ->]])]].
    + rewrite decide_False by done. rewrite union_empty_r_L. by apply Hvals.
    + rewrite decide_True by done. f_equal. by apply Hvals.
    + rewrite decide_True by done. f_equal. symmetry.
      apply values_of_empty. by rewrite <- Hkeys.
Qed.

Lemma build_drug_target_map_grouped dts :
  Scoring.build_drug_target_map dts =
  grouped ((λ a, (Scoring.dt_drug_id a, Scoring.dt_gene_id a)) <$> dts).
Proof.
  unfold Scoring.build_drug_target_map, grouped. by rewrite foldl_fmap.
Qed.

Lemma build_disease_gene_map_grouped gds :
  Scoring.build_disease_gene_map gds =
  grouped ((λ a, (Scoring.gd_disease_id a, Scoring.gd_gene_id a)) <$> gds).
Proof.
  unfold Scoring.build_disease_gene_map, grouped. by rewrite foldl_fmap.
Qed.

End grouping.

(** *** The sort order of the overlap table *)

Section overlap_order.
Import Scoring.

Lemma string_compare_Eq a b : String.compare a b = Eq ↔ a = b.
Proof.
  split; [apply String.compare_eq_iff|]. intros ->. apply string_compare_refl.
Qed.

Lemma string_compare_Gt a b : String.compare a b = Gt ↔ String.compare b a = Lt.
Proof.
  rewrite (String.compare_antisym b a). by destruct (String.compare a b).
Qed.

Lemma string_compare_Lt_le a b : String.compare a b = Lt → str_le a b.
Proof. unfold str_le, String.leb. by intros ->. Qed.

Lemma string_compare_Lt_trans a b c :
  String.compare a b = Lt → String.compare b c = Lt → String.compare a c = Lt.
Proof.
  intros Hab Hbc.
  pose proof (str_le_trans _ _ _ (string_compare_Lt_le _ _ Hab)
                (string_compare_Lt_le _ _ Hbc)) as Hac.
  unfold str_le, String.leb in Hac.
  destruct (String.compare a c) eqn:Hc; [|done..].
  apply string_compare_Eq in Hc as ->.
  apply string_compare_Gt in Hbc. congruence.
Qed.

Lemma key_le_total a b : key_le a b ∨ key_le b a.
Proof.
  unfold key_le. rewrite (String.compare_antisym b.1 a.1).
  destruct (String.compare a.1 b.1); simpl; auto. apply str_le_total.
Qed.

Lemma key_le_antisym a b : key_le a b → key_le b a → a = b.
Proof.
  unfold key_le. rewrite (String.compare_antisym b.1 a.1).
  destruct (String.compare a.1 b.1) eqn:Hc; simpl; try done.
  apply string_compare_Eq in Hc. intros H1 H2.
  destruct a, b; simpl in *. f_equal; [done|]. by apply str_le_antisym.
Qed.

Lemma key_le_trans a b c : key_le a b → key_le b c → key_le a c.
Proof.
  unfold key_le.
  destruct (String.compare a.1 b.1) eqn:Hab; [| |done];
    destruct (String.compare b.1 c.1) eqn:Hbc; try done.
  - apply string_compare_Eq in Hab, Hbc. rewrite Hab, Hbc.
    rewrite string_compare_refl. apply str_le_trans.
  - apply string_compare_Eq in Hab. by rewrite Hab, Hbc.
  - apply string_compare_Eq in Hbc. by rewrite <- Hbc, Hab.
  - by rewrite (string_compare_Lt_trans _ _ _ Hab Hbc).
Qed.

Lemma jaccard_ge_Lt a b : jaccard_ge a b = Lt ↔ jaccard_before a b.
Proof.
  destruct a as [x|], b as [y|]; simpl; try done.
Qed.

Lemma jaccard_ge_Eq a b : jaccard_ge a b = Eq ↔ jaccard_same a b.
Proof.
  destruct a as [x|], b as [y|]; simpl; try done.
  rewrite <- Qeq_alt. split; intros H; by symmetry.
Qed.

Lemma jaccard_ge_Gt a b : jaccard_ge a b = Gt ↔ jaccard_before b a.
Proof.
  destruct a as [x|], b as [y|]; simpl; try done.
  symmetry. apply Qgt_alt.
Qed.

(** The order in the form of a lexicographic comparison. *)
Lemma overlap_order_lex a b :
  overlap_order a b ↔
  o_n_overlap b < o_n_overlap a ∨
  (o_n_overlap b = o_n_overlap a ∧
   (jaccard_before (o_jaccard a) (o_jaccard b) ∨
    (jaccard_same (o_jaccard a) (o_jaccard b) ∧ key_le (o_key a) (o_key b)))).
Proof.
  unfold overlap_order.
  destruct (Z.compare_spec (o_n_overlap b) (o_n_overlap a)) as [Hn|Hn|Hn].
  - destruct (jaccard_ge (o_jaccard a) (o_jaccard b)) eqn:Hj.
    + apply jaccard_ge_Eq in Hj. split; [auto|].
      intros [?|[_ [Hb|[_ ?]]]]; [lia| |done].
      destruct (o_jaccard a), (o_jaccard b); simpl in *; try done.
      rewrite Hj in Hb. by apply Qlt_irrefl in Hb.
    + apply jaccard_ge_Lt in Hj. split; auto.
    + apply jaccard_ge_Gt in Hj. split; [done|].
      intros [?|[_ [Hb|[Hs _]]]]; [lia| |].
      * destruct (o_jaccard a), (o_jaccard b); simpl in *; try done.
        by apply (Qlt_irrefl q), (Qlt_trans _ q0).
      * destruct (o_jaccard a), (o_jaccard b); simpl in *; try done.
        rewrite Hs in Hj. by apply Qlt_irrefl in Hj.
  - split; auto.
  - split; [done|]. intros [?|[? _]]; lia.
Qed.

#[global] Instance overlap_order_total : Total overlap_order.
Proof.
  intros a b. rewrite !overlap_order_lex.
  destruct (Z.lt_trichotomy (o_n_overlap a) (o_n_overlap b)) as [?|[Hn|?]];
    [auto|rewrite Hn|auto].
  destruct (jaccard_ge (o_jaccard a) (o_jaccard b)) eqn:Hj.
  - apply jaccard_ge_Eq in Hj.
    assert (jaccard_same (o_jaccard b) (o_jaccard a)) as Hj'.
    { destruct (o_jaccard a), (o_jaccard b); simpl in *; try done;
        by symmetry. }
    destruct (key_le_total (o_key a) (o_key b)); [left|right]; right; auto.
  - apply jaccard_ge_Lt in Hj. left. right. auto.
  - apply jaccard_ge_Gt in Hj. right. right. auto.
Qed.

Lemma jaccard_before_trans a b c :
  jaccard_before a b → jaccard_before b c → jaccard_before a c.
Proof.
  destruct a, b, c; simpl; try done. intros H1 H2. by eapply Qlt_trans.
Qed.

Lemma jaccard_same_trans a b c :
  jaccard_same a b → jaccard_same b c → jaccard_same a c.
Proof.
  destruct a, b, c; simpl; try done. intros H1 H2. by rewrite H1.
Qed.

Lemma jaccard_same_before a b c :
  jaccard_same a b → jaccard_before b c → jaccard_before a c.
Proof.
  destruct a, b, c; simpl; try done. intros H1 H2. by rewrite H1.
Qed.

Lemma jaccard_before_same a b c :
  jaccard_before a b → jaccard_same b c → jaccard_before a c.
Proof.
  destruct a, b, c; simpl; try done. intros H1 H2. by rewrite <- H2.
Qed.

#[global] Instance overlap_order_trans : Transitive overlap_order.
Proof.
  intros a b c. rewrite !overlap_order_lex.
  intros [Hab|[Hab Hjab]] [Hbc|[Hbc Hjbc]]; [left; lia..|].
  right. split; [lia|].
  destruct Hjab as [Hjab|[Hjab Hkab]], Hjbc as [Hjbc|[Hjbc Hkbc]].
  - left. by eapply jaccard_before_trans.
  - left. by eapply jaccard_before_same.
  - left. by eapply jaccard_same_before.
  - right. split; [by eapply jaccard_same_trans|by eapply key_le_trans].
Qed.

(** Two rows that precede each other have the same key. *)
Lemma overlap_order_same_key a b :
  overlap_order a b → overlap_order b a → o_key a = o_key b.
Proof.
  rewrite !overlap_order_lex.
  intros [Hab|[Hab Hjab]] [Hba|[Hba Hjba]]; try lia.
  destruct Hjab as [Hjab|[Hjab Hkab]], Hjba as [Hjba|[Hjba Hkba]].
  - exfalso. destruct (o_jaccard a), (o_jaccard b); simpl in *; try done.
    by apply (Qlt_irrefl q), (Qlt_trans _ q0).
  - exfalso. destruct (o_jaccard a), (o_jaccard b); simpl in *; try done.
    rewrite Hjba in Hjab. by apply Qlt_irrefl in Hjab.
  - exfalso. destruct (o_jaccard a), (o_jaccard b); simpl in *; try done.
    rewrite Hjab in Hjba. by apply Qlt_irrefl in Hjba.
  - by apply key_le_antisym.
Qed.

End overlap_order.

(** *** The two computations build the same rows *)

Section tables.
Import Scoring.
Context (dt_df gd_df : list (string * string)).

Local Abbreviation gd_rev := ((λ r : string * string, (r.2, r.1)) <$> gd_df).
Local Abbreviation D := (values_of dt_df).
Local Abbreviation S := (values_of gd_rev).

Lemma elem_of_D d g : g ∈ D d ↔ (d, g) ∈ dt_df.
Proof. apply elem_of_values_of. Qed.

Lemma elem_of_S s g : g ∈ S s ↔ (g, s) ∈ gd_df.
Proof.
  rewrite elem_of_values_of, list_elem_of_fmap. split.
  - by intros ([g' s'] & [= -> ->] & Hin).
  - intros Hin. by exists (g, s).
Qed.

Lemma is_overlap_row_key r1 r2 :
  is_overlap_row dt_df gd_df r1 → is_overlap_row dt_df gd_df r2 →
  o_key r1 = o_key r2 → r1 = r2.
Proof.
  intros (d1 & s1 & _ & ->) (d2 & s2 & _ & ->) [= -> ->]. done.
Qed.

Lemma size_union_inter (X Y : gset string) :
  (size (X ∪ Y) + size (X ∩ Y) = size X + size Y)%nat.
Proof.
  rewrite size_union_alt.
  assert (size Y = size (Y ∖ X) + size (X ∩ Y))%nat as ->; [|lia].
  rewrite <- size_union.
  2:{ intros g [? ?]%elem_of_difference [? ?]%elem_of_intersection. done. }
  f_equal. apply set_eq. intros g.
  rewrite elem_of_union, elem_of_difference, elem_of_intersection.
  destruct (decide (g ∈ X)); tauto.
Qed.

(** **** The nested loops *)

(** The frame of the nested loops: the sorted rows, with the columns the
    rows bring along. *)
Lemma compute_overlap_table_frame m1 m2 :
  compute_overlap_table m1 m2 =
  DataFrame_of_dicts overlap_columns
    (merge_sort overlap_order (x ← m1; y ← m2; overlap_rows_of_pair x y)).
Proof.
  unfold compute_overlap_table.
  match goal with
  | |- context [DataFrame_of_dicts overlap_columns ?rows] =>
      assert (rows = (x ← m1; y ← m2; overlap_rows_of_pair x y)) as ->
  end.
  { apply list_bind_ext; [|done]. intros [d Dg].
    apply list_bind_ext; [|done]. by intros [s Sg]. }
  destruct (m1 ≫= _) as [|r rows] eqn:Hrows; [done|].
  cbn [DataFrame_of_dicts df_empty df_columns df_rows overlap_columns].
  unfold DataFrame_of_dicts.
  destruct (merge_sort overlap_order (r :: rows)) as [|r' rows'] eqn:Hsort;
    [|done].
  pose proof (merge_sort_Permutation overlap_order (r :: rows)) as Hperm.
  rewrite Hsort in Hperm. by apply Permutation_nil_cons in Hperm.
Qed.

Lemma compute_overlap_table_rows m1 m2 :
  df_rows (compute_overlap_table m1 m2) =
  merge_sort overlap_order (x ← m1; y ← m2; overlap_rows_of_pair x y).
Proof. by rewrite compute_overlap_table_frame. Qed.

Lemma overlap_rows_of_pair_spec d s r :
  r ∈ overlap_rows_of_pair (d, D d) (s, S s) ↔
  D d ∩ S s ≠ ∅ ∧ r = overlap_row_of d (D d) s (S s).
Proof.
  unfold overlap_rows_of_pair, overlap_row_of. simpl.
  case_decide as Hinter.
  { rewrite elem_of_nil. split; [done|]. by intros [? _]. }
  rewrite list_elem_of_singleton, decide_False; [split; [done|by intros [_ ?]]|].
  intros Hun. apply Hinter.
  apply set_eq. intros g. rewrite elem_of_intersection. split.
  - intros [Hg _]. rewrite <- Hun. by apply elem_of_union_l.
  - by intros ?%elem_of_empty.
Qed.

Lemma naive_rows_spec r :
  r ∈ (x ← grouped dt_df; y ← grouped gd_rev; overlap_rows_of_pair x y)
  ↔ is_overlap_row dt_df gd_df r.
Proof.
  destruct (grouped_spec dt_df) as (Hnd1 & Hkeys1 & Hvals1).
  destruct (grouped_spec gd_rev) as (Hnd2 & Hkeys2 & Hvals2).
  rewrite list_elem_of_bind. split.
  - intros ([d Dg] & Hr & Hd).
    apply list_elem_of_bind in Hr as ([s Sg] & Hr & Hs).
    apply Hvals1 in Hd as ->. apply Hvals2 in Hs as ->.
    apply overlap_rows_of_pair_spec in Hr. by exists d, s.
  - intros (d & s & Hinter & ->).
    assert (∃ g, g ∈ D d ∩ S s) as [g [Hgd Hgs]%elem_of_intersection].
    { by apply set_choose_L. }
    assert (d ∈ (grouped dt_df).*1) as Hd.
    { apply Hkeys1, list_elem_of_fmap. exists (d, g). split; [done|].
      by apply elem_of_D. }
    assert (s ∈ (grouped gd_rev).*1) as Hs.
    { apply Hkeys2, list_elem_of_fmap. exists (s, g). split; [done|].
      by apply elem_of_values_of. }
    apply list_elem_of_fmap in Hd as ([d' Dg] & -> & Hd).
    apply list_elem_of_fmap in Hs as ([s' Sg] & -> & Hs).
    exists (d', Dg). split; [|done]. apply list_elem_of_bind.
    exists (s', Sg). split; [|done]. simpl in *.
    apply Hvals1 in Hd as ->. apply Hvals2 in Hs as ->.
    by apply overlap_rows_of_pair_spec.
Qed.

Lemma grouped_entry_unique df (x1 x2 : string * gset string) :
  x1 ∈ grouped df → x2 ∈ grouped df → x1.1 = x2.1 → x1 = x2.
Proof.
  destruct (grouped_spec df) as (_ & _ & Hvals).
  destruct x1 as [k1 S1], x2 as [k2 S2]. simpl.
  intros ->%Hvals ->%Hvals ->. done.
Qed.

Lemma grouped_NoDup df : NoDup (grouped df).
Proof.
  destruct (grouped_spec df) as (Hnd & _ & _). by eapply NoDup_fmap_1.
Qed.

Lemma overlap_rows_of_pair_key x y r :
  r ∈ overlap_rows_of_pair x y → o_key r = (x.1, y.1).
Proof.
  unfold overlap_rows_of_pair. case_decide; [by intros ?%elem_of_nil|].
  by intros ->%list_elem_of_singleton.
Qed.

Lemma naive_rows_NoDup :
  NoDup (x ← grouped dt_df; y ← grouped gd_rev; overlap_rows_of_pair x y).
Proof.
  apply NoDup_bind; [| |apply grouped_NoDup].
  - intros x1 x2 r Hx1 Hx2 Hr1 Hr2.
    apply list_elem_of_bind in Hr1 as (y1 & Hr1%overlap_rows_of_pair_key & _).
    apply list_elem_of_bind in Hr2 as (y2 & Hr2%overlap_rows_of_pair_key & _).
    apply (grouped_entry_unique dt_df); [done..|]. congruence.
  - intros x Hx. apply NoDup_bind; [| |apply grouped_NoDup].
    + intros y1 y2 r Hy1 Hy2 Hr1%overlap_rows_of_pair_key
        Hr2%overlap_rows_of_pair_key.
      apply (grouped_entry_unique gd_rev); [done..|]. congruence.
    + intros y Hy. unfold overlap_rows_of_pair.
      case_decide; [constructor|apply NoDup_singleton].
Qed.

(** **** The join and the aggregation *)

Lemma elem_of_merge_inner t :
  t ∈ merge_inner dt_df gd_df ↔ (t.1.1, t.1.2) ∈ dt_df ∧ (t.1.2, t.2) ∈ gd_df.
Proof.
  unfold merge_inner. rewrite list_elem_of_bind. split.
  - intros ([d g] & Ht & Hdg).
    apply list_elem_of_fmap in Ht as ([g' s] & -> & [Hg Hgs]%list_elem_of_filter).
    simpl in *. by subst.
  - destruct t as [[d g] s]. simpl. intros [Hdg Hgs].
    exists (d, g). split; [|done]. apply list_elem_of_fmap.
    exists (g, s). split; [done|]. by apply list_elem_of_filter.
Qed.

Lemma group_genes k :
  list_to_set ((λ t : string * string * string, t.1.2) <$>
               filter (λ t, (t.1.1, t.2) = k) (merge_inner dt_df gd_df))
  = D k.1 ∩ S k.2.
Proof.
  apply set_eq. intros g.
  rewrite elem_of_list_to_set, list_elem_of_fmap, elem_of_intersection.
  rewrite elem_of_D, elem_of_S. split.
  - intros (t & -> & [<- [Hdg Hgs]%elem_of_merge_inner]%list_elem_of_filter).
    done.
  - intros [Hdg Hgs]. exists (k.1, g, k.2). split; [done|].
    apply list_elem_of_filter. split; [by destruct k|].
    by apply elem_of_merge_inner.
Qed.

Lemma elem_of_group_keys k :
  k ∈ merge_sort key_le
        (remove_dups ((λ t : string * string * string, (t.1.1, t.2)) <$>
                      merge_inner dt_df gd_df))
  ↔ D k.1 ∩ S k.2 ≠ ∅.
Proof.
  rewrite merge_sort_Permutation, elem_of_remove_dups, list_elem_of_fmap.
  split.
  - intros (t & -> & [Hdg Hgs]%elem_of_merge_inner) Hempty. simpl in Hempty.
    assert (t.1.2 ∈ D t.1.1 ∩ S t.2) as Hin.
    { apply elem_of_intersection. by rewrite elem_of_D, elem_of_S. }
    rewrite Hempty in Hin. by apply elem_of_empty in Hin.
  - intros [g [Hgd Hgs]%elem_of_intersection]%set_choose_L.
    exists (k.1, g, k.2). split; [by destruct k|].
    apply elem_of_merge_inner. simpl. by rewrite <- elem_of_D, <- elem_of_S.
Qed.

Lemma merged_count_groupby df k :
  k ∈ df.*1 →
  merged_count (groupby_nunique df) k = Some (size (values_of df k)).
Proof.
  intros Hk. unfold merged_count, groupby_nunique.
  set (f := λ k, (k, nunique (snd <$> filter (λ r : string * string, r.1 = k) df))).
  destruct (list_find_elem_of (λ c : string * nat, c.1 = k)
              (f <$> merge_sort str_le (remove_dups (df.*1))) (f k))
    as [[i c] Hfind]; [|done|].
  { apply list_elem_of_fmap. exists k. split; [done|].
    by rewrite merge_sort_Permutation, elem_of_remove_dups. }
  rewrite Hfind. simpl.
  apply list_find_Some in Hfind as (Hc & Hck & _).
  apply list_elem_of_lookup_2, list_elem_of_fmap in Hc as (k' & -> & _).
  simpl in Hck. by subst k'.
Qed.

(** The aggregated row of a key is the row of the nested loops. *)
Lemma aggregated_row k :
  D k.1 ∩ S k.2 ≠ ∅ →
  (let genes := (λ t : string * string * string, t.1.2) <$>
                filter (λ t, (t.1.1, t.2) = k) (merge_inner dt_df gd_df) in
   let n_overlap := nunique genes in
   let union_size :=
     nd ← merged_count (groupby_nunique dt_df) k.1;
     ns ← merged_count (groupby_nunique gd_rev) k.2;
     Some (Z.of_nat nd + Z.of_nat ns - Z.of_nat n_overlap) in
   let jaccard :=
     u ← union_size;
     if decide (u = 0) then None
     else Some (true_div (Z.of_nat n_overlap) u) in
   MkOverlap k.1 k.2 (Z.of_nat n_overlap)
     (join_sorted (list_to_set genes)) jaccard)
  = overlap_row_of k.1 (D k.1) k.2 (S k.2).
Proof.
  intros Hinter. simpl. unfold nunique. rewrite group_genes.
  assert (∃ g, g ∈ D k.1 ∩ S k.2) as [g [Hgd Hgs]%elem_of_intersection].
  { by apply set_choose_L. }
  rewrite (merged_count_groupby dt_df).
  2:{ apply list_elem_of_fmap. exists (k.1, g). split; [done|].
      by apply elem_of_D. }
  rewrite (merged_count_groupby gd_rev).
  2:{ apply list_elem_of_fmap. exists (k.2, g). split; [done|].
      by apply elem_of_values_of. }
  simpl. unfold overlap_row_of. f_equal.
  pose proof (size_union_inter (D k.1) (S k.2)) as Hsize.
  assert (size (D k.1 ∩ S k.2) ≠ 0%nat) as Hpos.
  { apply size_non_empty_iff. by intros ?%leibniz_equiv. }
  assert (size (D k.1 ∩ S k.2) ≤ size (D k.1 ∪ S k.2))%nat as Hle.
  { apply subseteq_size. intros g' [? _]%elem_of_intersection.
    by apply elem_of_union_l. }
  rewrite decide_False by lia. do 2 f_equal. lia.
Qed.

Lemma aggregate_overlaps_rows :
  aggregate_overlaps dt_df gd_df (merge_inner dt_df gd_df) =
  merge_sort overlap_order
    ((λ k, overlap_row_of k.1 (D k.1) k.2 (S k.2)) <$>
     merge_sort key_le
       (remove_dups ((λ t : string * string * string, (t.1.1, t.2)) <$>
                     merge_inner dt_df gd_df))).
Proof.
  unfold aggregate_overlaps. f_equal. apply list_fmap_ext.
  intros i k Hk. apply aggregated_row, elem_of_group_keys.
  by eapply list_elem_of_lookup_2.
Qed.

Lemma fast_rows_spec r :
  r ∈ (λ k, overlap_row_of k.1 (D k.1) k.2 (S k.2)) <$>
      merge_sort key_le
        (remove_dups ((λ t : string * string * string, (t.1.1, t.2)) <$>
                      merge_inner dt_df gd_df))
  ↔ is_overlap_row dt_df gd_df r.
Proof.
  rewrite list_elem_of_fmap. split.
  - intros (k & -> & Hk%elem_of_group_keys). by exists k.1, k.2.
  - intros (d & s & Hinter & ->). exists (d, s). split; [done|].
    by apply elem_of_group_keys.
Qed.

Lemma fast_rows_NoDup :
  NoDup ((λ k, overlap_row_of k.1 (D k.1) k.2 (S k.2)) <$>
         merge_sort key_le
           (remove_dups ((λ t : string * string * string, (t.1.1, t.2)) <$>
                         merge_inner dt_df gd_df))).
Proof.
  apply NoDup_fmap_2_strong.
  - intros [d1 s1] [d2 s2] _ _ [= -> ->]. done.
  - rewrite merge_sort_Permutation. apply NoDup_remove_dups.
Qed.

Lemma elem_of_merge_sort {A} (R : relation A) `{!RelDecision R} (l : list A) x :
  x ∈ merge_sort R l ↔ x ∈ l.
Proof. by rewrite merge_sort_Permutation. Qed.

(** The aggregation of the join is the table of the nested loops. *)
Lemma aggregate_overlaps_naive :
  aggregate_overlaps dt_df gd_df (merge_inner dt_df gd_df) =
  df_rows (compute_overlap_table (grouped dt_df) (grouped gd_rev)).
Proof.
  rewrite aggregate_overlaps_rows, compute_overlap_table_rows.
  apply (Sorted_unique_strong overlap_order).
  - intros r1 r2 Hr1 Hr2 H12 H21.
    apply elem_of_merge_sort in Hr1, Hr2.
    apply fast_rows_spec in Hr1. apply naive_rows_spec in Hr2.
    apply is_overlap_row_key; [done..|]. by apply overlap_order_same_key.
  - apply Sorted_merge_sort, _.
  - apply Sorted_merge_sort, _.
  - etrans; [apply merge_sort_Permutation|].
    symmetry. etrans; [apply merge_sort_Permutation|]. symmetry.
    apply NoDup_Permutation;
      [apply fast_rows_NoDup|apply naive_rows_NoDup|].
    intros r. by rewrite fast_rows_spec, naive_rows_spec.
Qed.

(** The table of the nested loops has a row exactly when a row of the
    one frame and a row of the other name the same gene. *)
Lemma naive_rows_non_empty :
  df_rows (compute_overlap_table (grouped dt_df) (grouped gd_rev)) ≠ [] ↔
  ∃ d g s, (d, g) ∈ dt_df ∧ (g, s) ∈ gd_df.
Proof.
  rewrite compute_overlap_table_rows. split.
  - intros Hne.
    destruct (merge_sort overlap_order _) as [|r rows] eqn:Hsort; [done|].
    assert (r ∈ r :: rows) as Hr by (by left).
    rewrite <- Hsort, elem_of_merge_sort, naive_rows_spec in Hr.
    destruct Hr as (d & s & Hds & _).
    apply set_choose_L in Hds as [g [Hd Hs]%elem_of_intersection].
    exists d, g, s. by rewrite <- elem_of_D, <- elem_of_S.
  - intros (d & g & s & Hd & Hs) Hnil.
    assert (overlap_row_of d (D d) s (S s) ∈ @nil overlap_row) as Hr;
      [|by apply elem_of_nil in Hr].
    rewrite <- Hnil, elem_of_merge_sort, naive_rows_spec.
    exists d, s. split; [|done].
    apply (non_empty_inhabited_L g), elem_of_intersection.
    by rewrite elem_of_D, elem_of_S.
Qed.

End tables.

Lemma merge_inner_nil_r (dt_df : list (string * string)) :
  Scoring.merge_inner dt_df [] = [].
Proof.
  unfold Scoring.merge_inner. induction dt_df as [|r dt_df IH]; [done|].
  by simpl.
Qed.

(** The frame of the vectorized computation: the rows of the table of
    the nested loops, always with the five columns. *)
Lemma compute_overlap_table_fast_frame
    (drug_targets : list Scoring.DrugTargetAssoc)
    (gene_diseases : list Scoring.GeneDiseaseAssoc) :
  Scoring.compute_overlap_table_fast drug_targets gene_diseases =
  Scoring.MkDataFrame Scoring.overlap_columns
    (Scoring.df_rows
       (Scoring.compute_overlap_table
          (Scoring.build_drug_target_map drug_targets)
          (Scoring.build_disease_gene_map gene_diseases))).
Proof.
  rewrite build_drug_target_map_grouped, build_disease_gene_map_grouped.
  set (dt_df := (λ a, (Scoring.dt_drug_id a, Scoring.dt_gene_id a))
                  <$> drug_targets).
  set (gd_df := (λ a, (Scoring.gd_gene_id a, Scoring.gd_disease_id a))
                  <$> gene_diseases).
  assert ((λ a, (Scoring.gd_disease_id a, Scoring.gd_gene_id a))
            <$> gene_diseases
          = (λ r : string * string, (r.2, r.1)) <$> gd_df) as ->.
  { unfold gd_df. by rewrite <- list_fmap_compose. }
  rewrite <- aggregate_overlaps_naive.
  unfold Scoring.compute_overlap_table_fast.
  destruct drug_targets as [|a dts]; [done|].
  destruct gene_diseases as [|b gds].
  { unfold gd_df. simpl. by rewrite merge_inner_nil_r. }
  fold dt_df gd_df. by destruct (Scoring.merge_inner dt_df gd_df).
Qed.

(** On associations whose identifiers are strings, the vectorized
    computation returns the rows of the table of the nested loops over
    the grouped maps (drug_id, disease_id, n_overlap, overlapping_genes,
    jaccard), in the same order, and its frame always has these five
    columns.  The table has a row exactly when an association of the one
    list and an association of the other name the same gene; then the two
    frames are equal.  When there is none, the frame of the nested loops
    has no columns, and the two frames differ. *)
Theorem compute_overlap_table_fast_refines
    (drug_targets : list Scoring.DrugTargetAssoc)
    (gene_diseases : list Scoring.GeneDiseaseAssoc) :
  let fast := Scoring.compute_overlap_table_fast drug_targets gene_diseases in
  let naive :=
    Scoring.compute_overlap_table
      (Scoring.build_drug_target_map drug_targets)
      (Scoring.build_disease_gene_map gene_diseases) in
  let share_a_gene :=
    ∃ a b, a ∈ drug_targets ∧ b ∈ gene_diseases ∧
           Scoring.dt_gene_id a = Scoring.gd_gene_id b in
  Scoring.df_rows fast = Scoring.df_rows naive ∧
  Scoring.df_columns fast = Scoring.overlap_columns ∧
  (Scoring.df_rows naive ≠ [] ↔ share_a_gene) ∧
  (share_a_gene → fast = naive) ∧
  (¬ share_a_gene →
   fast = Scoring.MkDataFrame Scoring.overlap_columns [] ∧
   naive = Scoring.MkDataFrame [] []).
Proof.
  intros fast naive share_a_gene.
  assert (fast = Scoring.MkDataFrame Scoring.overlap_columns
                   (Scoring.df_rows naive)) as Hfast
    by apply compute_overlap_table_fast_frame.
  assert (Scoring.df_rows naive ≠ [] ↔ share_a_gene) as Hrows.
  { unfold naive, share_a_gene.
    rewrite build_drug_target_map_grouped, build_disease_gene_map_grouped.
    set (dt_df := (λ a, (Scoring.dt_drug_id a, Scoring.dt_gene_id a))
                    <$> drug_targets).
    set (gd_df := (λ a, (Scoring.gd_gene_id a, Scoring.gd_disease_id a))
                    <$> gene_diseases).
    assert ((λ a, (Scoring.gd_disease_id a, Scoring.gd_gene_id a))
              <$> gene_diseases
            = (λ r : string * string, (r.2, r.1)) <$> gd_df) as ->.
    { unfold gd_df. by rewrite <- list_fmap_compose. }
    rewrite naive_rows_non_empty. unfold dt_df, gd_df. split.
    - intros (d & g & s & (a & Ha & Hin_a)%list_elem_of_fmap
                          & (b & Hb & Hin_b)%list_elem_of_fmap).
      exists a, b. split; [done|]. split; [done|]. congruence.
    - intros (a & b & Ha & Hb & Hab).
      exists (Scoring.dt_drug_id a), (Scoring.dt_gene_id a),
        (Scoring.gd_disease_id b).
      split; apply list_elem_of_fmap; [by exists a|].
      exists b. by rewrite Hab. }
  assert (naive = Scoring.DataFrame_of_dicts Scoring.overlap_columns
                    (Scoring.df_rows naive)) as Hnaive.
  { unfold naive. by rewrite compute_overlap_table_frame. }
  split; [by rewrite Hfast|]. split; [by rewrite Hfast|].
  split; [done|]. split.
  - intros Hne%Hrows. rewrite Hfast.
    etrans; [|symmetry; exact Hnaive].
    by destruct (Scoring.df_rows naive).
  - intros Hnone.
    destruct (Scoring.df_rows naive) as [|r rows] eqn:Hnil.
    + by split.
    + destruct Hnone. by apply Hrows.
Qed.

(** Both computations on the example, where drugs and diseases share
    genes: the frames are equal, and the duplicate association and the
    order of the records make no difference. *)
Lemma compute_overlap_table_fast_refines_witness :
  Scoring.compute_overlap_table_fast ex_drug_targets ex_gene_diseases
  = Scoring.compute_overlap_table
      (Scoring.build_drug_target_map ex_drug_targets)
      (Scoring.build_disease_gene_map ex_gene_diseases).
Proof.
  apply (compute_overlap_table_fast_refines ex_drug_targets
           ex_gene_diseases).
  exists (Scoring.MkDrugTarget "D1" "G1" "toy" None),
    (Scoring.MkGeneDisease "G1" "DIS1" "toy" None).
  split; [by left|]. split; [by right; left|]. reflexivity.
Defined.

(** C10: the two computations do not return the same table for a drug
    and a disease without a common gene.  The vectorized computation
    returns the empty frame with the five columns; the nested loops build
    no rows, and [pd.DataFrame(rows)] then is a frame without columns,
    where the docstring of [compute_overlap_table] names the five. *)
Lemma compute_overlap_table_frames_differ :
  let drug_targets := [Scoring.MkDrugTarget "D1" "G1" "toy" None] in
  let gene_diseases := [Scoring.MkGeneDisease "G2" "DIS1" "toy" None] in
  Scoring.compute_overlap_table_fast drug_targets gene_diseases
  = Scoring.MkDataFrame Scoring.overlap_columns [] ∧
  Scoring.compute_overlap_table
    (Scoring.build_drug_target_map drug_targets)
    (Scoring.build_disease_gene_map gene_diseases)
  = Scoring.MkDataFrame [] [] ∧
  Scoring.compute_overlap_table_fast drug_targets gene_diseases
  ≠ Scoring.compute_overlap_table
      (Scoring.build_drug_target_map drug_targets)
      (Scoring.build_disease_gene_map gene_diseases).
Proof.
  split; [by vm_compute|]. split; [by vm_compute|].
  intros H. vm_compute in H. discriminate H.
Qed.

(** The table of the example. *)
Example compute_overlap_table_example :
  Scoring.df_rows
    (Scoring.compute_overlap_table_fast ex_drug_targets ex_gene_diseases)
  = [Scoring.MkOverlap "D1" "DIS1" 2 "G1;G2" (Some (1 # 2));
     Scoring.MkOverlap "D2" "DIS2" 1 "G3" (Some 1%Q);
     Scoring.MkOverlap "D2" "DIS1" 1 "G3" (Some (1 # 4))].
Proof. by vm_compute. Qed.

(** ** The entries of the distance matrix *)

Lemma uint16_cells_of_cell N M :
  square N M →
  (∀ i j, (i < N)%nat → (j < N)%nat → is_uint16 (cell M i j)) →
  uint16_cells M.
Proof.
  intros [Hlen Hrows] Hcell. apply Forall_forall. intros row Hrow.
  apply list_elem_of_lookup in Hrow as [i Hi].
  apply Forall_forall. intros x Hx.
  apply list_elem_of_lookup in Hx as [j Hj].
  assert (length row = N) as Hrl.
  { eapply Forall_forall in Hrows; [exact Hrows|].
    by eapply list_elem_of_lookup_2. }
  pose proof (lookup_lt_Some _ _ _ Hi) as HiN.
  pose proof (lookup_lt_Some _ _ _ Hj) as HjN.
  specialize (Hcell i j ltac:(lia) ltac:(lia)).
  unfold cell in Hcell. rewrite Hi in Hcell. simpl in Hcell.
  by rewrite Hj in Hcell.
Qed.

Lemma initial_cell_uint16 i j : is_uint16 (initial_cell i j).
Proof.
  unfold initial_cell, is_uint16, max_uint16. case_decide; lia.
Qed.

Lemma written_uint16 lengths h old :
  is_uint16 old → is_uint16 (written lengths h old).
Proof.
  intros Hold. unfold written. destruct (lengths !! h) as [d|]; [|done].
  case_decide; [|done]. unfold is_uint16. lia.
Qed.

Section outside.
Context {A : Type} (G : gmap string (gmap string A)).

(** No walk leaves a gene that is not a node of the graph. *)
Lemma walk_from_outside g h d :
  G !! g = None → walk G d g h → d = 0%nat ∧ h = g.
Proof.
  intros Hg Hw. inversion Hw as [|n ? u ? Hu _]; subst; [done|].
  unfold Nx.neighbors in Hu. rewrite Hg in Hu. simpl in Hu.
  rewrite dom_empty_L in Hu. by apply elem_of_empty in Hu.
Qed.

End outside.

(** ** What a completed run leaves behind *)

Section store.
Context (set_iter : gset string → list string).
Context (set_iter_perm : ∀ X, set_iter X ≡ₚ elements X).
Context (strip : string → string) (mmap_empty_ok : bool).
Context (ppi : list (string * string)) (dt_genes gd_genes : list string).

Local Abbreviation U := (Precompute.build_gene_universe strip ppi dt_genes gd_genes).
Local Abbreviation all_genes := (merge_sort str_le (set_iter U)).
Local Abbreviation N := (length all_genes).
Local Abbreviation G := (Precompute.build_ppi_graph strip ppi).

Lemma length_all_genes : N = size U.
Proof.
  rewrite (Permutation_length (all_genes_perm set_iter set_iter_perm strip
                                 ppi dt_genes gd_genes)).
  done.
Qed.

Lemma universe_non_empty :
  U ≠ ∅ ∨ mmap_empty_ok = true → N ≠ 0%nat ∨ mmap_empty_ok = true.
Proof.
  intros [Hne|Hok]; [left|by right].
  rewrite length_all_genes. apply size_non_empty_iff.
  by intros ?%leibniz_equiv.
Qed.

Lemma all_genes_distinct i j g h :
  all_genes !! i = Some g → all_genes !! j = Some h → g = h → i = j.
Proof.
  intros Hi Hj ->.
  eapply NoDup_lookup; [|exact Hi|exact Hj].
  by apply all_genes_NoDup.
Qed.

(** The entries of a completed run. *)
Lemma main_entries cutoff :
  N ≠ 0%nat ∨ mmap_empty_ok = true →
  ∃ M,
    Precompute.main set_iter strip mmap_empty_ok ppi dt_genes gd_genes cutoff
    = Precompute.MkRun (Some (zip all_genes (seq 0 N))) (Some M) (Ok ()) ∧
    square N M ∧
    ∀ g i h j, all_genes !! i = Some g → all_genes !! j = Some h →
      is_uint16 (cell M i j) ∧
      (i = j → cell M i j = 0) ∧
      (i ≠ j → cell M i j ≠ max_uint16 →
         ∃ d, shortest G g h d ∧ within_cutoff cutoff d ∧ d ≠ 0%nat ∧
              cell M i j = Z.of_nat d) ∧
      (∀ d, shortest G g h d → within_cutoff cutoff d →
            Z.of_nat d ≤ max_uint16 → cell M i j = Z.of_nat d).
Proof.
  intros Hrun.
  destruct (main_run set_iter set_iter_perm strip mmap_empty_ok ppi dt_genes
              gd_genes cutoff Hrun) as (M & HM & Hsq & Hcells).
  exists M. split; [done|]. split; [done|].
  intros g i h j Hi Hj.
  destruct (Hcells g i h j Hi Hj) as [Hnone Hsome].
  destruct (G !! g) as [nbrs|] eqn:Hnode.
  - destruct (single_source_lengths G
                (symmetric_closed _ (precompute_graph_symmetric strip ppi))
                cutoff g) as (lengths & Hl & Hspec); [by eexists|].
    rewrite (Hsome lengths Hl). unfold written.
    destruct (lengths !! h) as [d|] eqn:Hd.
    + apply Hspec in Hd as [Hsh Hc].
      assert (d = 0%nat ↔ i = j) as Hd0.
      { split.
        - intros ->. apply shortest_zero in Hsh.
          by eapply all_genes_distinct.
        - intros ->. assert (h = g) as -> by congruence.
          eapply shortest_unique; [exact Hsh|]. by apply shortest_zero. }
      case_decide as Hfit.
      * split; [unfold is_uint16; lia|]. split; [|split].
        -- intros Hij. apply Hd0 in Hij. lia.
        -- intros Hij _. exists d. split; [done|]. split; [done|].
           split; [|done]. by rewrite Hd0.
        -- intros d' Hsh' _ _.
           by rewrite (shortest_unique _ _ _ _ _ Hsh' Hsh).
      * split; [apply initial_cell_uint16|]. split; [|split].
        -- intros Hij. apply Hd0 in Hij. unfold max_uint16 in Hfit. lia.
        -- intros Hij Hmax. unfold initial_cell in Hmax.
           by rewrite decide_False in Hmax.
        -- intros d' Hsh' _ Hfit'.
           rewrite (shortest_unique _ _ _ _ _ Hsh' Hsh) in Hfit'. lia.
    + split; [apply initial_cell_uint16|]. split; [|split].
      * intros ->. unfold initial_cell. by rewrite decide_True.
      * intros Hij Hmax. unfold initial_cell in Hmax.
        by rewrite decide_False in Hmax.
      * intros d Hsh Hc _.
        assert (lengths !! h = Some d) as Hd' by (by apply Hspec).
        congruence.
  - rewrite Hnone by done.
    split; [apply initial_cell_uint16|]. split; [|split].
    + intros ->. unfold initial_cell. by rewrite decide_True.
    + intros Hij Hmax. unfold initial_cell in Hmax.
      by rewrite decide_False in Hmax.
    + intros d [Hw _] _ _.
      apply (walk_from_outside G) in Hw as [-> ->]; [|done].
      assert (i = j) as -> by (by eapply all_genes_distinct).
      unfold initial_cell. by rewrite decide_True.
Qed.

(** An entry that is the sentinel when no walk is within the cutoff. *)
Lemma main_entry_sentinel cutoff M g i h j :
  N ≠ 0%nat ∨ mmap_empty_ok = true →
  Precompute.main set_iter strip mmap_empty_ok ppi dt_genes gd_genes cutoff
  = Precompute.MkRun (Some (zip all_genes (seq 0 N))) (Some M) (Ok ()) →
  all_genes !! i = Some g → all_genes !! j = Some h → i ≠ j →
  (∀ d, walk G d g h → ¬ within_cutoff cutoff d) →
  cell M i j = max_uint16.
Proof.
  intros Hrun HM Hi Hj Hij Hno.
  destruct (main_entries cutoff Hrun) as (M' & HM' & _ & Hcells).
  assert (M' = M) as -> by congruence.
  destruct (Hcells g i h j Hi Hj) as (_ & _ & Hfin & _).
  destruct (decide (cell M i j = max_uint16)) as [|Hne]; [done|].
  destruct (Hfin Hij Hne) as (d & [Hw _] & Hc & _).
  by destruct (Hno d Hw).
Qed.

End store.

(** A run over a universe that is not empty, or with an array library
    that maps empty files, never fails: no [KeyError] for a node of the
    graph, no [NodeNotFound] for a source.  It leaves an index file with
    one row per gene of the universe, the positions below their number
    [N], and an [N x N] matrix of 16-bit cells. *)
Theorem run_leaves_well_formed_store
    (set_iter : gset string → list string) (strip : string → string)
    (mmap_empty_ok : bool) (ppi : list (string * string))
    (dt_genes gd_genes : list string) (cutoff : option Z) :
  (∀ X, set_iter X ≡ₚ elements X) →
  Precompute.build_gene_universe strip ppi dt_genes gd_genes ≠ ∅
    ∨ mmap_empty_ok = true →
  let U := Precompute.build_gene_universe strip ppi dt_genes gd_genes in
  ∃ idx M,
    Precompute.main set_iter strip mmap_empty_ok ppi dt_genes gd_genes cutoff
    = Precompute.MkRun (Some idx) (Some M) (Ok ()) ∧
    length idx = size U ∧
    (∀ g, g ∈ U ↔ ∃ i, (g, i) ∈ idx) ∧
    (∀ g i, (g, i) ∈ idx → (i < size U)%nat) ∧
    square (size U) M ∧ uint16_cells M.
Proof.
  intros Hperm Hne U. subst U.
  set (all := merge_sort str_le (set_iter
    (Precompute.build_gene_universe strip ppi dt_genes gd_genes))).
  pose proof (length_all_genes set_iter Hperm strip ppi dt_genes gd_genes)
    as Hlen. fold all in Hlen.
  destruct (main_entries set_iter Hperm strip mmap_empty_ok ppi dt_genes
              gd_genes cutoff) as (M & HM & Hsq & Hcells).
  { by apply universe_non_empty. }
  fold all in HM, Hsq, Hcells.
  exists (zip all (seq 0 (length all))), M.
  split; [done|]. split; [|split; [|split; [|split]]].
  - rewrite length_zip_with, length_seq, Nat.min_id. exact Hlen.
  - intros g. rewrite <- (elem_of_all_genes set_iter Hperm strip ppi dt_genes
                            gd_genes). fold all.
    rewrite list_elem_of_lookup. by setoid_rewrite elem_of_zip_seq.
  - intros g i Hi%elem_of_zip_seq. rewrite <- Hlen.
    by eapply lookup_lt_Some.
  - by rewrite <- Hlen.
  - apply (uint16_cells_of_cell (length all)); [done|].
    intros i j Hi Hj.
    destruct (lookup_lt_is_Some_2 all i Hi) as [g Hg].
    destruct (lookup_lt_is_Some_2 all j Hj) as [h Hh].
    by destruct (Hcells g i h j Hg Hh) as [? _].
Qed.

Lemma run_leaves_well_formed_store_witness :
  ∃ idx M,
    Precompute.main elements id false ex_ppi ["T"; "A"]%string ["C"]%string
      (Some 1)
    = Precompute.MkRun (Some idx) (Some M) (Ok ()) ∧
    length idx = 4%nat ∧ square 4 M ∧ uint16_cells M.
Proof.
  destruct (run_leaves_well_formed_store elements id false ex_ppi
              ["T"; "A"]%string ["C"]%string (Some 1))
    as (idx & M & HM & Hlen & _ & _ & Hsq & Hcells).
  - reflexivity.
  - left. vm_compute. discriminate.
  - exists idx, M. split; [exact HM|]. split; [exact Hlen|].
    split; [exact Hsq|exact Hcells].
Defined.

(** Two different genes of the universe without a walk between them that
    is within the cutoff (no path at all, a gene that is no node of the
    graph, or a path longer than the cutoff) have the sentinel 65535 in
    both of their entries. *)
Theorem no_path_entry_is_sentinel
    (set_iter : gset string → list string) (strip : string → string)
    (mmap_empty_ok : bool) (ppi : list (string * string))
    (dt_genes gd_genes : list string) (cutoff : option Z) (a b : string) :
  (∀ X, set_iter X ≡ₚ elements X) →
  a ∈ Precompute.build_gene_universe strip ppi dt_genes gd_genes →
  b ∈ Precompute.build_gene_universe strip ppi dt_genes gd_genes →
  a ≠ b →
  (∀ d, walk (Precompute.build_ppi_graph strip ppi) d a b →
        ¬ within_cutoff cutoff d) →
  ∃ idx M,
    Precompute.main set_iter strip mmap_empty_ok ppi dt_genes gd_genes cutoff
    = Precompute.MkRun (Some idx) (Some M) (Ok ()) ∧
    (∃ i, (a, i) ∈ idx) ∧ (∃ j, (b, j) ∈ idx) ∧
    ∀ i j, (a, i) ∈ idx → (b, j) ∈ idx →
      cell M i j = max_uint16 ∧ cell M j i = max_uint16.
Proof.
  intros Hperm Ha Hb Hab Hno.
  set (all := merge_sort str_le (set_iter
    (Precompute.build_gene_universe strip ppi dt_genes gd_genes))).
  assert (a ∈ all) as Hina by (by apply elem_of_all_genes).
  assert (b ∈ all) as Hinb by (by apply elem_of_all_genes).
  apply list_elem_of_lookup in Hina as [i0 Hi0].
  apply list_elem_of_lookup in Hinb as [j0 Hj0].
  pose proof (lookup_lt_Some _ _ _ Hi0) as Hi0N.
  assert (length all ≠ 0%nat ∨ mmap_empty_ok = true) as Hrun by (left; lia).
  destruct (main_entries set_iter Hperm strip mmap_empty_ok ppi dt_genes
              gd_genes cutoff Hrun) as (M & HM & _ & _).
  fold all in HM.
  exists (zip all (seq 0 (length all))), M.
  split; [done|]. split; [exists i0; by apply elem_of_zip_seq|].
  split; [exists j0; by apply elem_of_zip_seq|].
  intros i j Hi%elem_of_zip_seq Hj%elem_of_zip_seq.
  assert (i ≠ j) as Hij.
  { intros ->. apply Hab. congruence. }
  split.
  - by eapply (main_entry_sentinel set_iter Hperm strip mmap_empty_ok ppi
                 dt_genes gd_genes cutoff M a i b j).
  - eapply (main_entry_sentinel set_iter Hperm strip mmap_empty_ok ppi
              dt_genes gd_genes cutoff M b j a i); try done.
    intros d Hw. apply Hno.
    by apply walk_rev; [apply precompute_graph_symmetric|].
Qed.

(** The target gene T, which is in no interaction, and the gene A. *)
Lemma no_path_entry_is_sentinel_witness :
  ∃ idx M,
    Precompute.main elements id true ex_ppi ["T"; "A"]%string ["C"]%string None
    = Precompute.MkRun (Some idx) (Some M) (Ok ()) ∧
    (∃ i, ("T"%string, i) ∈ idx) ∧ (∃ j, ("A"%string, j) ∈ idx) ∧
    ∀ i j, ("T"%string, i) ∈ idx → ("A"%string, j) ∈ idx →
      cell M i j = max_uint16 ∧ cell M j i = max_uint16.
Proof.
  apply (no_path_entry_is_sentinel elements id true ex_ppi ["T"; "A"]%string
           ["C"]%string None "T" "A").
  - reflexivity.
  - vm_compute. reflexivity.
  - vm_compute. reflexivity.
  - discriminate.
  - intros d Hw.
    apply (walk_from_outside (Precompute.build_ppi_graph id ex_ppi)) in Hw
      as [_ Heq]; [discriminate Heq|reflexivity].
Defined.

(** Two different genes joined by a row of the interaction table, in
    either direction and with surrounding blanks stripped, are at distance
    1 in both entries, unless the cutoff is below 1. *)
Theorem interacting_genes_at_distance_one
    (set_iter : gset string → list string) (strip : string → string)
    (mmap_empty_ok : bool) (ppi : list (string * string))
    (dt_genes gd_genes : list string) (cutoff : option Z)
    (e : string * string) :
  (∀ X, set_iter X ≡ₚ elements X) →
  e ∈ ppi → strip e.1 ≠ strip e.2 → within_cutoff cutoff 1 →
  ∃ idx M,
    Precompute.main set_iter strip mmap_empty_ok ppi dt_genes gd_genes cutoff
    = Precompute.MkRun (Some idx) (Some M) (Ok ()) ∧
    (∃ i, (strip e.1, i) ∈ idx) ∧ (∃ j, (strip e.2, j) ∈ idx) ∧
    ∀ i j, (strip e.1, i) ∈ idx → (strip e.2, j) ∈ idx →
      cell M i j = 1 ∧ cell M j i = 1.
Proof.
  intros Hperm He Hab Hc.
  set (a := strip e.1) in *. set (b := strip e.2) in *.
  set (G := Precompute.build_ppi_graph strip ppi).
  set (all := merge_sort str_le (set_iter
    (Precompute.build_gene_universe strip ppi dt_genes gd_genes))).
  assert (Hnb : b ∈ Nx.neighbors G a).
  { apply elem_of_neighbors, precompute_graph_edges.
    exists e. split; [done|]. by left. }
  assert (Hsym : symmetric G) by apply precompute_graph_symmetric.
  assert (Hsh : shortest G a b 1).
  { split.
    - eapply walk_step; [exact Hnb|constructor].
    - intros d' Hw. destruct d' as [|d']; [|lia].
      inversion Hw; subst. by destruct Hab. }
  assert (a ∈ all) as Hina.
  { apply elem_of_all_genes; [done|].
    apply precompute_graph_nodes_universe, precompute_graph_nodes.
    exists e. split; [done|]. by left. }
  assert (b ∈ all) as Hinb.
  { apply elem_of_all_genes; [done|].
    apply precompute_graph_nodes_universe, precompute_graph_nodes.
    exists e. split; [done|]. by right. }
  apply list_elem_of_lookup in Hina as [i0 Hi0].
  apply list_elem_of_lookup in Hinb as [j0 Hj0].
  pose proof (lookup_lt_Some _ _ _ Hi0) as Hi0N.
  assert (length all ≠ 0%nat ∨ mmap_empty_ok = true) as Hrun by (left; lia).
  destruct (main_entries set_iter Hperm strip mmap_empty_ok ppi dt_genes
              gd_genes cutoff Hrun) as (M & HM & _ & Hcells).
  fold all G in HM, Hcells.
  exists (zip all (seq 0 (length all))), M.
  split; [done|]. split; [exists i0; by apply elem_of_zip_seq|].
  split; [exists j0; by apply elem_of_zip_seq|].
  intros i j Hi%elem_of_zip_seq Hj%elem_of_zip_seq. split.
  - destruct (Hcells a i b j Hi Hj) as (_ & _ & _ & Hd).
    by rewrite (Hd 1%nat Hsh Hc).
  - destruct (Hcells b j a i Hj Hi) as (_ & _ & _ & Hd).
    rewrite (Hd 1%nat); [done| |done|done].
    by apply shortest_sym.
Qed.

(** The row (B, C) of the small run, with cutoff 1. *)
Lemma interacting_genes_at_distance_one_witness :
  ∃ idx M,
    Precompute.main elements id true ex_ppi ["T"; "A"]%string ["C"]%string
      (Some 1)
    = Precompute.MkRun (Some idx) (Some M) (Ok ()) ∧
    (∃ i, ("B"%string, i) ∈ idx) ∧ (∃ j, ("C"%string, j) ∈ idx) ∧
    ∀ i j, ("B"%string, i) ∈ idx → ("C"%string, j) ∈ idx →
      cell M i j = 1 ∧ cell M j i = 1.
Proof.
  apply (interacting_genes_at_distance_one elements id true ex_ppi
           ["T"; "A"]%string ["C"]%string (Some 1) ("B", "C")%string).
  - reflexivity.
  - unfold ex_ppi. right. left.
  - discriminate.
  - right. reflexivity.
Defined.

(** In the matrix of a completed run 0 stands on the diagonal only:
    every entry off the diagonal is between 1 and 65535. *)
Theorem off_diagonal_entries_positive
    (set_iter : gset string → list string) (strip : string → string)
    (mmap_empty_ok : bool) (ppi : list (string * string))
    (dt_genes gd_genes : list string) (cutoff : option Z) :
  (∀ X, set_iter X ≡ₚ elements X) →
  Precompute.build_gene_universe strip ppi dt_genes gd_genes ≠ ∅
    ∨ mmap_empty_ok = true →
  ∃ idx M,
    Precompute.main set_iter strip mmap_empty_ok ppi dt_genes gd_genes cutoff
    = Precompute.MkRun (Some idx) (Some M) (Ok ()) ∧
    ∀ i j, (i < length idx)%nat → (j < length idx)%nat →
      (i = j → cell M i j = 0) ∧
      (i ≠ j → 1 ≤ cell M i j ≤ max_uint16).
Proof.
  intros Hperm Hne.
  set (all := merge_sort str_le (set_iter
    (Precompute.build_gene_universe strip ppi dt_genes gd_genes))).
  destruct (main_entries set_iter Hperm strip mmap_empty_ok ppi dt_genes
              gd_genes cutoff) as (M & HM & _ & Hcells).
  { by apply universe_non_empty. }
  fold all in HM, Hcells.
  exists (zip all (seq 0 (length all))), M. split; [done|].
  rewrite length_zip_with, length_seq, Nat.min_id.
  intros i j Hi Hj.
  destruct (lookup_lt_is_Some_2 all i Hi) as [g Hg].
  destruct (lookup_lt_is_Some_2 all j Hj) as [h Hh].
  destruct (Hcells g i h j Hg Hh) as (Hu & Hdiag & Hfin & _).
  split; [done|]. intros Hij.
  destruct (decide (cell M i j = max_uint16)) as [->|Hmax].
  { unfold max_uint16. lia. }
  destruct (Hfin Hij Hmax) as (d & _ & _ & Hd & Hcell).
  unfold is_uint16 in Hu. lia.
Qed.

Lemma off_diagonal_entries_positive_witness :
  ∃ idx M,
    Precompute.main elements id true ex_ppi ["T"; "A"]%string ["C"]%string None
    = Precompute.MkRun (Some idx) (Some M) (Ok ()) ∧
    ∀ i j, (i < length idx)%nat → (j < length idx)%nat →
      (i = j → cell M i j = 0) ∧
      (i ≠ j → 1 ≤ cell M i j ≤ max_uint16).
Proof.
  apply (off_diagonal_entries_positive elements id true ex_ppi
           ["T"; "A"]%string ["C"]%string None).
  - reflexivity.
  - right. reflexivity.
Defined.

(** A cutoff only truncates: the run with the cutoff [c] writes the same
    index file as the run without one, and its matrix keeps every entry
    of the full matrix that is at most [c], keeps the diagonal, and has
    the sentinel everywhere else. *)
Theorem cutoff_only_truncates
    (set_iter : gset string → list string) (strip : string → string)
    (mmap_empty_ok : bool) (ppi : list (string * string))
    (dt_genes gd_genes : list string) (c : Z) :
  (∀ X, set_iter X ≡ₚ elements X) →
  Precompute.build_gene_universe strip ppi dt_genes gd_genes ≠ ∅
    ∨ mmap_empty_ok = true →
  ∃ idx M Mc,
    Precompute.main set_iter strip mmap_empty_ok ppi dt_genes gd_genes None
    = Precompute.MkRun (Some idx) (Some M) (Ok ()) ∧
    Precompute.main set_iter strip mmap_empty_ok ppi dt_genes gd_genes (Some c)
    = Precompute.MkRun (Some idx) (Some Mc) (Ok ()) ∧
    ∀ i j, (i < length idx)%nat → (j < length idx)%nat →
      cell Mc i j =
      if decide (i = j ∨ cell M i j ≤ c) then cell M i j else max_uint16.
Proof.
  intros Hperm Hne.
  set (all := merge_sort str_le (set_iter
    (Precompute.build_gene_universe strip ppi dt_genes gd_genes))).
  pose proof (universe_non_empty set_iter Hperm strip mmap_empty_ok ppi
                dt_genes gd_genes Hne) as Hrun.
  destruct (main_entries set_iter Hperm strip mmap_empty_ok ppi dt_genes
              gd_genes None Hrun) as (M & HM & _ & Hcells).
  destruct (main_entries set_iter Hperm strip mmap_empty_ok ppi dt_genes
              gd_genes (Some c) Hrun) as (Mc & HMc & _ & Hcellsc).
  fold all in HM, Hcells, HMc, Hcellsc.
  exists (zip all (seq 0 (length all))), M, Mc.
  split; [done|]. split; [done|].
  rewrite length_zip_with, length_seq, Nat.min_id.
  intros i j Hi Hj.
  destruct (lookup_lt_is_Some_2 all i Hi) as [g Hg].
  destruct (lookup_lt_is_Some_2 all j Hj) as [h Hh].
  destruct (Hcells g i h j Hg Hh) as (Hu & Hdiag & Hfin & Hval).
  destruct (Hcellsc g i h j Hg Hh) as (Huc & Hdiagc & Hfinc & Hvalc).
  destruct (decide (i = j)) as [Hij|Hij].
  { rewrite decide_True by (by left). by rewrite Hdiag, Hdiagc. }
  destruct (decide (cell Mc i j = max_uint16)) as [Hmaxc|Hmaxc].
  - rewrite Hmaxc. case_decide as Hle; [|done].
    destruct Hle as [?|Hle]; [done|].
    destruct (decide (cell M i j = max_uint16)) as [|Hmax]; [done|].
    destruct (Hfin Hij Hmax) as (d & Hsh & _ & Hd & Hcell).
    rewrite Hcell in *. unfold is_uint16 in Hu.
    rewrite (Hvalc d Hsh) in Hmaxc; [done| |lia].
    right. lia.
  - destruct (Hfinc Hij Hmaxc) as (d & Hsh & Hc & Hd & Hcell).
    destruct Hc as [?|Hc]; [done|].
    rewrite Hcell in *. unfold is_uint16 in Huc.
    rewrite (Hval d Hsh) by (done || lia).
    rewrite decide_True; [done|]. by right.
Qed.

(** The small run: with cutoff 1 the entry of the ends A and C of the
    path, 2 in the full matrix, is the sentinel. *)
Lemma cutoff_only_truncates_witness :
  ∃ idx M Mc,
    Precompute.main elements id true ex_ppi ["T"; "A"]%string ["C"]%string None
    = Precompute.MkRun (Some idx) (Some M) (Ok ()) ∧
    Precompute.main elements id true ex_ppi ["T"; "A"]%string ["C"]%string
      (Some 1)
    = Precompute.MkRun (Some idx) (Some Mc) (Ok ()) ∧
    ∀ i j, (i < length idx)%nat → (j < length idx)%nat →
      cell Mc i j =
      if decide (i = j ∨ cell M i j ≤ 1) then cell M i j else max_uint16.
Proof.
  apply (cutoff_only_truncates elements id true ex_ppi ["T"; "A"]%string
           ["C"]%string 1).
  - reflexivity.
  - right. reflexivity.
Defined.

(** ** The frame of annotated pairs *)

Section frame.
Context (set_iter : gset string → list string).
Context (drug_to_genes disease_to_genes : gmap string (list string)).
Context (gene_to_idx : gmap string Z) (dist : list (list Z)) (max_val : Z).

Local Abbreviation score_rows := (λ chunk,
  Annotate.score_rows set_iter chunk drug_to_genes disease_to_genes
    gene_to_idx dist max_val).

Lemma score_rows_length chunk mds :
  score_rows chunk = Ok mds → length mds = length chunk.
Proof.
  revert mds. induction chunk as [|[d s] chunk IH]; intros mds; simpl.
  { by intros [= <-]. }
  destruct (Annotate.mean_distance_for_pair _ _ _ _ _ _ _ _); [simpl|done].
  destruct (Annotate.score_rows _ chunk _ _ _ _ _) as [mds'|]; [simpl|done].
  intros [= <-]. simpl. f_equal. by apply IH.
Qed.

Lemma score_rows_take k chunk mds :
  score_rows chunk = Ok mds → score_rows (take k chunk) = Ok (take k mds).
Proof.
  revert k mds. induction chunk as [|[d s] chunk IH]; intros k mds; simpl.
  { intros [= <-]. by destruct k. }
  destruct (Annotate.mean_distance_for_pair _ _ _ _ _ _ _ _) as [md|] eqn:Hmd;
    [simpl|done].
  destruct (Annotate.score_rows _ chunk _ _ _ _ _) as [mds'|] eqn:Hmds;
    [simpl|done].
  intros [= <-]. destruct k as [|k]; [done|]. simpl.
  rewrite Hmd. simpl. by rewrite (IH k mds').
Qed.

(** With a positive chunk size the frame is scored row by row. *)
Lemma annotate_pairs_rows strip pairs_df chunk_size :
  0 < chunk_size →
  Annotate.annotate_pairs set_iter strip pairs_df drug_to_genes
    disease_to_genes gene_to_idx dist max_val chunk_size =
  let pairs := (λ p, (strip p.1, strip p.2)) <$> pairs_df in
  mds ← score_rows pairs;
  Ok (zip_with (λ p md,
        Annotate.MkAnnotated p.1 p.2 md (Annotate.proximity_score md))
        pairs mds).
Proof.
  intros Hc. unfold Annotate.annotate_pairs.
  rewrite decide_False by lia. rewrite decide_False by lia.
  rewrite chunk_loop_all by lia. rewrite drop_0. simpl.
  destruct (Annotate.score_rows _ _ _ _ _ _ _) as [mds|] eqn:Hmds; [simpl|done].
  rewrite decide_True; [done|]. by apply score_rows_length.
Qed.

End frame.

(** The size of the chunks has no effect on the result, and rows do not
    influence each other: for any two positive chunk sizes the frame is the
    same, errors included; a frame that is returned has the rows of the
    input in their order, with the stripped identifiers; and the first [k]
    rows of the input alone give the first [k] rows of the result. *)
Theorem annotate_pairs_row_by_row
    (set_iter : gset string → list string) (strip : string → string)
    (pairs_df : list (string * string))
    (drug_to_genes disease_to_genes : gmap string (list string))
    (gene_to_idx : gmap string Z) (dist : list (list Z)) (max_val : Z)
    (chunk_size chunk_size' : Z) :
  0 < chunk_size → 0 < chunk_size' →
  let annotate df c :=
    Annotate.annotate_pairs set_iter strip df drug_to_genes disease_to_genes
      gene_to_idx dist max_val c in
  annotate pairs_df chunk_size = annotate pairs_df chunk_size' ∧
  ∀ out, annotate pairs_df chunk_size = Ok out →
    (λ r, (Annotate.a_drug_id r, Annotate.a_disease_id r)) <$> out
      = (λ p, (strip p.1, strip p.2)) <$> pairs_df ∧
    ∀ k, annotate (take k pairs_df) chunk_size = Ok (take k out).
Proof.
  intros Hc Hc' annotate. unfold annotate. split.
  { by rewrite !annotate_pairs_rows by done. }
  intros out. rewrite annotate_pairs_rows by done. simpl.
  set (pairs := (λ p, (strip p.1, strip p.2)) <$> pairs_df).
  destruct (Annotate.score_rows _ pairs _ _ _ _ _) as [mds|] eqn:Hmds;
    [simpl|done].
  intros [= <-].
  pose proof (score_rows_length _ _ _ _ _ _ _ _ Hmds) as Hlen.
  split.
  - clear Hmds. revert mds Hlen.
    induction pairs as [|[d s] pairs IH]; intros [|md mds] Hlen; try done.
    csimpl. f_equal. apply IH. simpl in Hlen. lia.
  - intros k. rewrite annotate_pairs_rows by done. simpl.
    rewrite fmap_take. fold pairs.
    rewrite (score_rows_take _ _ _ _ _ _ k _ _ Hmds). simpl.
    f_equal. clear. revert k mds.
    induction pairs as [|p pairs IH]; intros [|k] [|md mds]; try done.
    simpl. f_equal. apply IH.
Qed.

Lemma annotate_pairs_row_by_row_witness :
  Annotate.annotate_pairs elements id [("D", "X"); ("Q", "X")]%string
    ex_drug_to_genes ex_disease_to_genes ex_gene_to_idx ex_dist max_uint16 1
  = Annotate.annotate_pairs elements id [("D", "X"); ("Q", "X")]%string
      ex_drug_to_genes ex_disease_to_genes ex_gene_to_idx ex_dist max_uint16
      10000.
Proof.
  apply (annotate_pairs_row_by_row elements id
           [("D", "X"); ("Q", "X")]%string
           ex_drug_to_genes ex_disease_to_genes ex_gene_to_idx ex_dist
           max_uint16 1 10000); reflexivity.
Defined.

(** ** The proximity of a distance *)

Lemma Qinv_le_contravar a b :
  (0 < a)%Q → (0 < b)%Q → (a <= b)%Q ↔ (/ b <= / a)%Q.
Proof.
  intros Ha Hb. split; intros H; apply Qnot_lt_le; intros Hlt.
  - apply Qinv_lt_contravar in Hlt; [|done..].
    by apply (Qlt_not_le _ _ Hlt).
  - apply (Qinv_lt_contravar b a) in Hlt; [|done..].
    by apply (Qlt_not_le _ _ Hlt).
Qed.

Lemma one_plus_pos q : (0 <= q)%Q → (0 < 1 + q)%Q.
Proof.
  intros Hq. apply Qlt_le_trans with (1 + 0)%Q; [done|].
  by apply Qplus_le_r.
Qed.

Lemma proximity_score_finite q :
  (0 <= q)%Q →
  (0 < Annotate.proximity_score (Finite q))%Q ∧
  (Annotate.proximity_score (Finite q) <= 1)%Q.
Proof.
  intros Hq. simpl. rewrite Qred_correct.
  pose proof (one_plus_pos q Hq) as Hpos. split.
  - apply Qlt_shift_div_l; [done|]. by rewrite Qmult_0_l.
  - apply Qle_shift_div_r; [done|]. rewrite Qmult_1_l.
    rewrite <- (Qplus_0_r 1) at 1. by apply Qplus_le_r.
Qed.

Lemma proximity_score_antitone d1 d2 :
  (∀ q, d1 = Finite q → (0 <= q)%Q) → (∀ q, d2 = Finite q → (0 <= q)%Q) →
  distance_le d1 d2 ↔
  (Annotate.proximity_score d2 <= Annotate.proximity_score d1)%Q.
Proof.
  intros H1 H2. destruct d1 as [q1|], d2 as [q2|].
  - specialize (H1 q1 eq_refl). specialize (H2 q2 eq_refl).
    simpl. rewrite !Qred_correct. unfold Qdiv. rewrite !Qmult_1_l.
    rewrite <- Qinv_le_contravar by (by apply one_plus_pos).
    by rewrite Qplus_le_r.
  - split; [|done]. intros _.
    destruct (proximity_score_finite q1 (H1 q1 eq_refl)) as [Hpos _].
    by apply Qlt_le_weak.
  - split; [done|]. intros Hle.
    destruct (proximity_score_finite q2 (H2 q2 eq_refl)) as [Hpos _].
    by apply (Qlt_not_le _ _ Hpos).
  - done.
Qed.

Section well_formed.
Context (set_iter : gset string → list string).
Context (set_iter_perm : ∀ X, set_iter X ≡ₚ elements X).
Context (drug_to_genes disease_to_genes : gmap string (list string)).
Context (gene_to_idx : gmap string Z) (dist : list (list Z)) (N : nat).
Context (dist_square : square N dist) (dist_cells : uint16_cells dist).
Context (idx_range : indices_in_range N gene_to_idx).

(** On a well-formed store the scorer returns for every pair, and a
    finite mean is not negative. *)
Lemma mean_distance_total drug_id disease_id :
  ∃ md,
    Annotate.mean_distance_for_pair set_iter drug_id disease_id
      drug_to_genes disease_to_genes gene_to_idx dist max_uint16 = Ok md ∧
    ∀ q, md = Finite q → (0 <= q)%Q.
Proof.
  destruct (drug_to_genes !! drug_id) as [genes_d|] eqn:Hd.
  2:{ exists Inf. split; [|done]. apply mean_distance_no_lookup; [done|].
      rewrite Hd. by left; left. }
  destruct (disease_to_genes !! disease_id) as [genes_s|] eqn:Hs.
  2:{ exists Inf. split; [|done]. apply mean_distance_no_lookup; [done|].
      rewrite Hs. by right; left; left. }
  eexists. split.
  { by eapply (mean_distance_for_pair_present set_iter set_iter_perm
                 gene_to_idx dist N). }
  intros q. apply mean_nonneg.
  unfold valid_entries. apply Forall_forall.
  intros d [_ Hin]%list_elem_of_filter. revert d Hin. apply Forall_forall.
  by apply entries_uint16.
Qed.

Lemma score_rows_total chunk :
  ∃ mds,
    Annotate.score_rows set_iter chunk drug_to_genes disease_to_genes
      gene_to_idx dist max_uint16 = Ok mds ∧
    Forall (λ md, ∀ q, md = Finite q → (0 <= q)%Q) mds.
Proof.
  induction chunk as [|[d s] chunk (mds & Hmds & Hall)]; simpl.
  { by exists []. }
  destruct (mean_distance_total d s) as (md & Hmd & Hq).
  rewrite Hmd, Hmds. simpl. exists (md :: mds). split; [done|].
  by constructor.
Qed.

(** The rows of the frame: the proximity of each is that of its mean
    distance, which is not negative. *)
Lemma annotate_pairs_total strip pairs_df chunk_size :
  0 < chunk_size →
  ∃ out,
    Annotate.annotate_pairs set_iter strip pairs_df drug_to_genes
      disease_to_genes gene_to_idx dist max_uint16 chunk_size = Ok out ∧
    length out = length pairs_df ∧
    Forall (λ r,
      Annotate.a_proximity_score r
        = Annotate.proximity_score (Annotate.a_mean_distance r) ∧
      ∀ q, Annotate.a_mean_distance r = Finite q → (0 <= q)%Q) out.
Proof.
  intros Hc. rewrite annotate_pairs_rows by done. simpl.
  set (pairs := (λ p, (strip p.1, strip p.2)) <$> pairs_df).
  destruct (score_rows_total pairs) as (mds & Hmds & Hall).
  rewrite Hmds. simpl. eexists. split; [done|].
  pose proof (score_rows_length _ _ _ _ _ _ _ _ Hmds) as Hlen.
  split.
  - rewrite length_zip_with, Hlen, Nat.min_id. unfold pairs.
    by rewrite length_fmap.
  - clear Hmds Hlen. clearbody pairs. revert pairs.
    induction Hall as [|md mds Hmd _ IH]; intros [|p pairs]; simpl;
      [constructor..|].
    constructor; [by split|apply IH].
Qed.

(** The scorer returns the mean of the valid entries of the pair, a gene
    set that is missing counting as an empty one. *)
Lemma mean_distance_scored drug_id disease_id :
  Annotate.mean_distance_for_pair set_iter drug_id disease_id
    drug_to_genes disease_to_genes gene_to_idx dist max_uint16
  = Ok (mean (valid_entries gene_to_idx dist
                (default [] (drug_to_genes !! drug_id))
                (default [] (disease_to_genes !! disease_id)))).
Proof.
  destruct (drug_to_genes !! drug_id) as [genes_d|] eqn:Hd.
  2:{ rewrite mean_distance_no_lookup; [done..|].
      rewrite Hd. by left; left. }
  destruct (disease_to_genes !! disease_id) as [genes_s|] eqn:Hs.
  2:{ rewrite mean_distance_no_lookup; [|done|rewrite Hs; by right; left; left].
      simpl. unfold valid_entries. simpl. by rewrite entries_nil_r. }
  by eapply (mean_distance_for_pair_present set_iter set_iter_perm
               gene_to_idx dist N).
Qed.

(** Every frame is annotated with the scored rows of its pairs. *)
Lemma annotate_pairs_scored strip pairs_df chunk_size :
  0 < chunk_size →
  Annotate.annotate_pairs set_iter strip pairs_df drug_to_genes
    disease_to_genes gene_to_idx dist max_uint16 chunk_size
  = Ok ((λ p, scored_row drug_to_genes disease_to_genes gene_to_idx dist
                (strip p.1, strip p.2)) <$> pairs_df).
Proof.
  intros Hc. rewrite annotate_pairs_rows by done. cbv zeta.
  assert (Annotate.score_rows set_iter
            ((λ p, (strip p.1, strip p.2)) <$> pairs_df) drug_to_genes
            disease_to_genes gene_to_idx dist max_uint16
          = Ok ((λ p, Annotate.a_mean_distance
                        (scored_row drug_to_genes disease_to_genes
                           gene_to_idx dist (strip p.1, strip p.2)))
                  <$> pairs_df)) as ->.
  { induction pairs_df as [|[d s] ps IH]; [done|].
    csimpl. rewrite mean_distance_scored. csimpl. rewrite IH. by csimpl. }
  csimpl. f_equal.
  induction pairs_df as [|[d s] ps IH]; [done|].
  csimpl. f_equal. exact IH.
Qed.

(** A pair has no evidence exactly when it has no valid entry. *)
Lemma no_evidence_valid_entries genes_d genes_s :
  no_evidence gene_to_idx dist genes_d genes_s ↔
  valid_entries gene_to_idx dist (default [] genes_d) (default [] genes_s)
  = [].
Proof.
  rewrite valid_entries_nil. split.
  - intros [Hno | Hall]; [|exact Hall].
    exact (no_lookup_all_sentinel gene_to_idx dist genes_d genes_s Hno).
  - intros Hall. right. exact Hall.
Qed.

End well_formed.

(** On a well-formed store, and with a positive chunk size, a frame of
    any pairs is annotated without an error, row for row: the row of a
    pair has its stripped identifiers; when the pair has no evidence (a
    gene set missing or empty, or without an indexed gene, or every
    looked-up entry the sentinel) its mean distance is +infinity and its
    proximity 0; every other pair has a finite mean distance that is not
    negative, and a proximity above 0 and at most 1. *)
Theorem annotate_pairs_never_fails
    (set_iter : gset string → list string) (strip : string → string)
    (pairs_df : list (string * string))
    (drug_to_genes disease_to_genes : gmap string (list string))
    (gene_to_idx : gmap string Z) (dist : list (list Z)) (N : nat)
    (chunk_size : Z) :
  (∀ X, set_iter X ≡ₚ elements X) →
  square N dist → uint16_cells dist → indices_in_range N gene_to_idx →
  0 < chunk_size →
  ∃ out,
    Annotate.annotate_pairs set_iter strip pairs_df drug_to_genes
      disease_to_genes gene_to_idx dist max_uint16 chunk_size = Ok out ∧
    length out = length pairs_df ∧
    ∀ k p, pairs_df !! k = Some p →
      ∃ r, out !! k = Some r ∧
        Annotate.a_drug_id r = strip p.1 ∧
        Annotate.a_disease_id r = strip p.2 ∧
        let genes_d := drug_to_genes !! strip p.1 in
        let genes_s := disease_to_genes !! strip p.2 in
        (no_evidence gene_to_idx dist genes_d genes_s →
           Annotate.a_mean_distance r = Inf ∧
           Annotate.a_proximity_score r = 0%Q) ∧
        (¬ no_evidence gene_to_idx dist genes_d genes_s →
           ∃ q, Annotate.a_mean_distance r = Finite q ∧
                (0 <= q)%Q ∧
                (0 < Annotate.a_proximity_score r)%Q ∧
                (Annotate.a_proximity_score r <= 1)%Q).
Proof.
  intros Hperm Hsq Hcells Hrange Hc.
  rewrite (annotate_pairs_scored set_iter Hperm drug_to_genes
             disease_to_genes gene_to_idx dist N Hsq Hcells Hrange strip
             pairs_df chunk_size Hc).
  eexists. split; [done|]. split; [by rewrite length_fmap|].
  intros k p Hp. eexists. split; [by rewrite list_lookup_fmap, Hp|].
  split; [done|]. split; [done|]. cbv zeta.
  rewrite (no_evidence_valid_entries gene_to_idx dist).
  unfold scored_row. simpl.
  set (ve := valid_entries gene_to_idx dist _ _).
  assert (Forall is_uint16 ve) as Hve.
  { unfold ve, valid_entries. apply Forall_forall.
    intros d [_ Hin]%list_elem_of_filter. revert d Hin. apply Forall_forall.
    by apply entries_uint16. }
  split.
  - by intros ->.
  - intros Hne. destruct (mean ve) as [q|] eqn:Hmean.
    2:{ by apply mean_Inf in Hmean. }
    exists q. split; [done|].
    assert (0 <= q)%Q as Hq by (by eapply mean_nonneg).
    split; [done|]. by apply proximity_score_finite.
Qed.

(** A pair with evidence and a pair of unknown identifiers. *)
Lemma annotate_pairs_never_fails_witness :
  ∃ out,
    Annotate.annotate_pairs elements id [("D", "X"); ("Q", "Y")]%string
      ex_drug_to_genes ex_disease_to_genes ex_gene_to_idx ex_dist
      max_uint16 1 = Ok out ∧
    length out = 2%nat ∧
    (∃ r, out !! 0%nat = Some r ∧
          ∃ q, Annotate.a_mean_distance r = Finite q ∧
               (0 < Annotate.a_proximity_score r)%Q).
Proof.
  destruct (annotate_pairs_never_fails elements id
              [("D", "X"); ("Q", "Y")]%string
              ex_drug_to_genes ex_disease_to_genes ex_gene_to_idx ex_dist 3 1)
    as (out & Hout & Hlen & Hrows).
  - reflexivity.
  - split; [reflexivity|]. repeat constructor.
  - unfold uint16_cells, is_uint16, max_uint16. repeat constructor; lia.
  - unfold indices_in_range, ex_gene_to_idx. intros g i Hg.
    repeat (apply lookup_insert_Some in Hg as [[_ <-]|[_ Hg]]; [lia|]).
    by rewrite lookup_empty in Hg.
  - lia.
  - exists out. split; [exact Hout|]. split; [exact Hlen|].
    destruct (Hrows 0%nat ("D", "X")%string eq_refl)
      as (r & Hr & _ & _ & _ & Hev).
    exists r. split; [exact Hr|].
    destruct Hev as (q & Hq & _ & Hpos & _).
    + intros [[[H | H] | [[H | H] | [H | H]]] | H].
      * discriminate H.
      * discriminate H.
      * discriminate H.
      * discriminate H.
      * specialize (H "A"%string (list_elem_of_here _ _)). discriminate H.
      * specialize (H "B"%string (list_elem_of_here _ _)). discriminate H.
      * specialize (H "A"%string "B"%string 0 1 (list_elem_of_here _ _)
                      (list_elem_of_here _ _) eq_refl eq_refl).
        discriminate H.
    + exists q. split; [exact Hq|exact Hpos].
Defined.

(** Ranking by proximity is ranking by distance: of two rows of an
    annotated frame, the one with the smaller mean distance (+infinity
    being the largest) has the larger proximity score, and conversely. *)
Theorem proximity_reverses_distance
    (set_iter : gset string → list string) (strip : string → string)
    (pairs_df : list (string * string))
    (drug_to_genes disease_to_genes : gmap string (list string))
    (gene_to_idx : gmap string Z) (dist : list (list Z)) (N : nat)
    (chunk_size : Z) (out : list Annotate.annotated)
    (r1 r2 : Annotate.annotated) :
  (∀ X, set_iter X ≡ₚ elements X) →
  square N dist → uint16_cells dist → indices_in_range N gene_to_idx →
  0 < chunk_size →
  Annotate.annotate_pairs set_iter strip pairs_df drug_to_genes
    disease_to_genes gene_to_idx dist max_uint16 chunk_size = Ok out →
  r1 ∈ out → r2 ∈ out →
  distance_le (Annotate.a_mean_distance r1) (Annotate.a_mean_distance r2) ↔
  (Annotate.a_proximity_score r2 <= Annotate.a_proximity_score r1)%Q.
Proof.
  intros Hperm Hsq Hcells Hrange Hc Hout Hr1 Hr2.
  destruct (annotate_pairs_total set_iter Hperm drug_to_genes
              disease_to_genes gene_to_idx dist N Hsq Hcells Hrange
              strip pairs_df chunk_size Hc) as (out' & Hout' & _ & Hall).
  assert (out' = out) as -> by congruence.
  rewrite Forall_forall in Hall.
  destruct (Hall r1 Hr1) as [-> Hq1]. destruct (Hall r2 Hr2) as [-> Hq2].
  by apply proximity_score_antitone.
Qed.

Lemma proximity_reverses_distance_witness :
  distance_le (Finite (3 # 2)) Inf ↔ (0 <= 2 # 5)%Q.
Proof.
  apply (proximity_reverses_distance elements id
           [("D", "X"); ("Q", "Y")]%string
           ex_drug_to_genes ex_disease_to_genes ex_gene_to_idx ex_dist 3 1
           [Annotate.MkAnnotated "D" "X" (Finite (3 # 2)) (2 # 5);
            Annotate.MkAnnotated "Q" "Y" Inf 0]
           (Annotate.MkAnnotated "D" "X" (Finite (3 # 2)) (2 # 5))
           (Annotate.MkAnnotated "Q" "Y" Inf 0)).
  - reflexivity.
  - split; [reflexivity|]. repeat constructor.
  - unfold uint16_cells, is_uint16, max_uint16. repeat constructor; lia.
  - unfold indices_in_range, ex_gene_to_idx. intros g i Hg.
    repeat (apply lookup_insert_Some in Hg as [[_ <-]|[_ Hg]]; [lia|]).
    by rewrite lookup_empty in Hg.
  - lia.
  - reflexivity.
  - by left.
  - right. by left.
Defined.

(** ** The combined score of the annotated frame *)

Lemma foldl_Qmin_lower x xs :
  Forall (λ y, (foldl Qmin x xs <= y)%Q) (x :: xs).
Proof.
  revert x. induction xs as [|y xs IH]; intros x; simpl.
  - repeat constructor. apply Qle_refl.
  - specialize (IH (Qmin x y)). apply Forall_cons in IH as [Hm IH].
    repeat constructor; [| |done].
    + eapply Qle_trans; [done|apply Q.le_min_l].
    + eapply Qle_trans; [done|apply Q.le_min_r].
Qed.

Lemma series_min_max_bounds xs x :
  x ∈ xs →
  ∃ lo hi, Scoring.series_min xs = Some lo ∧ Scoring.series_max xs = Some hi ∧
           (lo <= x)%Q ∧ (x <= hi)%Q.
Proof.
  destruct xs as [|y xs]; [by intros ?%elem_of_nil|]. intros Hx. simpl.
  do 2 eexists. split; [done|]. split; [done|]. split.
  - pose proof (foldl_Qmin_lower y xs) as H.
    by eapply Forall_forall in H.
  - pose proof (foldl_Qmax_upper y xs) as H.
    by eapply Forall_forall in H.
Qed.

Lemma Qmult_0_r_le x : (0 <= x * 0)%Q ∧ (x * 0 <= 0)%Q.
Proof. rewrite Qmult_0_r. split; apply Qle_refl. Qed.

(** A normalised value of the column is in [0, 1]. *)
Lemma min_max_unit_interval xs x :
  x ∈ xs → (0 <= min_max xs x)%Q ∧ (min_max xs x <= 1)%Q.
Proof.
  intros Hx.
  destruct (series_min_max_bounds xs x Hx) as (lo & hi & Hlo & Hhi & H1 & H2).
  unfold min_max. rewrite Hlo, Hhi. case_decide as Hlt.
  - rewrite Qred_correct.
    assert (0 < hi - lo)%Q as Hpos.
    { by rewrite <- (Qlt_minus_iff lo hi). }
    split.
    + apply Qle_shift_div_l; [done|]. rewrite Qmult_0_l.
      by rewrite <- (Qle_minus_iff lo x).
    + apply Qle_shift_div_r; [done|]. rewrite Qmult_1_l.
      unfold Qminus. by apply Qplus_le_l.
  - destruct (Qmult_0_r_le x) as [H0 H0']. split; [done|].
    by eapply Qle_trans.
Qed.

(** The normalisation keeps the order of the values. *)
Lemma min_max_monotone xs x y :
  (x <= y)%Q → (min_max xs x <= min_max xs y)%Q.
Proof.
  intros Hxy. unfold min_max.
  assert (x * 0 <= y * 0)%Q as H0.
  { rewrite !Qmult_0_r. apply Qle_refl. }
  destruct (Scoring.series_min xs) as [lo|]; [|done].
  destruct (Scoring.series_max xs) as [hi|]; [|done].
  case_decide as Hlt; [|done].
  rewrite !Qred_correct.
  assert (0 < hi - lo)%Q as Hpos.
  { by rewrite <- (Qlt_minus_iff lo hi). }
  unfold Qdiv. apply Qmult_le_compat_r.
  - unfold Qminus. by apply Qplus_le_l.
  - apply Qlt_le_weak. by apply Qinv_lt_0_compat.
Qed.

Lemma weighted_sum_bounds alpha beta o p :
  (0 <= alpha)%Q → (0 <= beta)%Q →
  (0 <= o)%Q → (o <= 1)%Q → (0 <= p)%Q → (p <= 1)%Q →
  (0 <= alpha * o + beta * p)%Q ∧ (alpha * o + beta * p <= alpha + beta)%Q.
Proof.
  intros Ha Hb Ho0 Ho1 Hp0 Hp1. split.
  - rewrite <- (Qplus_0_r 0).
    apply Qplus_le_compat; by apply Qmult_le_0_compat.
  - apply Qplus_le_compat.
    + rewrite <- (Qmult_1_r alpha) at 2.
      rewrite (Qmult_comm alpha o), (Qmult_comm alpha 1).
      by apply Qmult_le_compat_r.
    + rewrite <- (Qmult_1_r beta) at 2.
      rewrite (Qmult_comm beta p), (Qmult_comm beta 1).
      by apply Qmult_le_compat_r.
Qed.

Lemma weighted_sum_monotone alpha beta o o' p p' :
  (0 <= alpha)%Q → (0 <= beta)%Q → (o <= o')%Q → (p <= p')%Q →
  (alpha * o + beta * p <= alpha * o' + beta * p')%Q.
Proof.
  intros Ha Hb Ho Hp. apply Qplus_le_compat.
  - rewrite (Qmult_comm alpha o), (Qmult_comm alpha o').
    by apply Qmult_le_compat_r.
  - rewrite (Qmult_comm beta p), (Qmult_comm beta p').
    by apply Qmult_le_compat_r.
Qed.

(** With weights that are not negative, the combined score of every row
    is between 0 and [alpha + beta] when the frame has the column
    [n_overlap], and between 0 and [beta] when it has not; there is one
    score per row. *)
Theorem add_combined_score_bounds
    (n_overlap : option (list Q)) (proximity_score : list Q)
    (alpha beta : Q) :
  (0 <= alpha)%Q → (0 <= beta)%Q →
  (∀ ov, n_overlap = Some ov → length ov = length proximity_score) →
  let out := add_combined_score n_overlap proximity_score alpha beta in
  length out = length proximity_score ∧
  ∀ s, s ∈ out →
    (0 <= s)%Q ∧
    (s <= match n_overlap with Some _ => alpha + beta | None => beta end)%Q.
Proof.
  intros Ha Hb Hlen out. unfold out, add_combined_score.
  destruct n_overlap as [ov|].
  - specialize (Hlen ov eq_refl). split.
    + by rewrite length_zip_with, !length_fmap, Hlen, Nat.min_id.
    + intros s Hs. apply list_elem_of_lookup in Hs as [i Hi].
      rewrite lookup_zip_with in Hi.
      rewrite !list_lookup_fmap in Hi.
      destruct (ov !! i) as [o|] eqn:Ho; [simpl in Hi|done].
      destruct (proximity_score !! i) as [p|] eqn:Hp; [simpl in Hi|done].
      injection Hi as <-. rewrite Qred_correct.
      destruct (min_max_unit_interval ov o) as [Ho0 Ho1].
      { by eapply list_elem_of_lookup_2. }
      destruct (min_max_unit_interval proximity_score p) as [Hp0 Hp1].
      { by eapply list_elem_of_lookup_2. }
      by apply weighted_sum_bounds.
  - split; [by rewrite !length_fmap|].
    intros s Hs. rewrite <- list_fmap_compose in Hs.
    apply list_elem_of_fmap in Hs as (p & -> & Hp). simpl.
    rewrite Qred_correct.
    destruct (min_max_unit_interval proximity_score p Hp) as [Hp0 Hp1].
    split; [by apply Qmult_le_0_compat|].
    rewrite <- (Qmult_1_r beta) at 2.
    rewrite (Qmult_comm beta _), (Qmult_comm beta 1).
    by apply Qmult_le_compat_r.
Qed.

Lemma add_combined_score_bounds_witness :
  let out :=
    add_combined_score (Some [0; 2; 4]%Q) [1 # 10; 1 # 2; 9 # 10]%Q 1 1 in
  length out = 3%nat ∧ ∀ s, s ∈ out → (0 <= s)%Q ∧ (s <= 1 + 1)%Q.
Proof.
  apply (add_combined_score_bounds (Some [0; 2; 4]%Q)
           [1 # 10; 1 # 2; 9 # 10]%Q 1 1).
  - discriminate.
  - discriminate.
  - intros ov [= <-]. reflexivity.
Defined.

(** With weights that are not negative, the combined score respects the
    order of the inputs within the batch: a row whose overlap count and
    proximity score are both at most those of another row has a combined
    score that is at most that of the other row. *)
Theorem add_combined_score_monotone
    (ov proximity_score : list Q) (alpha beta : Q) (i j : nat)
    (oi oj pi pj : Q) :
  (0 <= alpha)%Q → (0 <= beta)%Q →
  ov !! i = Some oi → ov !! j = Some oj →
  proximity_score !! i = Some pi → proximity_score !! j = Some pj →
  (oi <= oj)%Q → (pi <= pj)%Q →
  (∃ si sj,
     add_combined_score (Some ov) proximity_score alpha beta !! i = Some si ∧
     add_combined_score (Some ov) proximity_score alpha beta !! j = Some sj ∧
     (si <= sj)%Q) ∧
  (∃ si sj,
     add_combined_score None proximity_score alpha beta !! i = Some si ∧
     add_combined_score None proximity_score alpha beta !! j = Some sj ∧
     (si <= sj)%Q).
Proof.
  intros Ha Hb Hoi Hoj Hpi Hpj Ho Hp. unfold add_combined_score. split.
  - do 2 eexists.
    rewrite !lookup_zip_with, !list_lookup_fmap, Hoi, Hoj, Hpi, Hpj. simpl.
    split; [done|]. split; [done|]. rewrite !Qred_correct.
    apply weighted_sum_monotone; try done; by apply min_max_monotone.
  - do 2 eexists.
    rewrite !list_lookup_fmap, Hpi, Hpj. simpl.
    split; [done|]. split; [done|]. rewrite !Qred_correct.
    rewrite (Qmult_comm beta _), (Qmult_comm beta (min_max _ pj)).
    apply Qmult_le_compat_r; [|done]. by apply min_max_monotone.
Qed.

Lemma add_combined_score_monotone_witness :
  ∃ si sj,
    add_combined_score (Some [0; 2; 4]%Q) [1 # 10; 1 # 2; 9 # 10]%Q 1 1 !! 0%nat
      = Some si ∧
    add_combined_score (Some [0; 2; 4]%Q) [1 # 10; 1 # 2; 9 # 10]%Q 1 1 !! 2%nat
      = Some sj ∧
    (si <= sj)%Q.
Proof.
  apply (add_combined_score_monotone [0; 2; 4]%Q [1 # 10; 1 # 2; 9 # 10]%Q
           1 1 0 2 0 4 (1 # 10) (9 # 10)); try reflexivity; discriminate.
Defined.

(** ** The inputs of the annotation *)

Lemma groupby_apply_list_snoc df r :
  groupby_apply_list (df ++ [r])
  = <[r.1 := default [] (groupby_apply_list df !! r.1) ++ [r.2]]>
      (groupby_apply_list df).
Proof. unfold groupby_apply_list. by rewrite foldl_app. Qed.

(** The list of a key: the values of its rows, in row order. *)
Lemma groupby_apply_list_lookup df k :
  groupby_apply_list df !! k =
  match snd <$> filter (λ r, r.1 = k) df with
  | [] => None
  | genes => Some genes
  end.
Proof.
  induction df as [|r df IH] using rev_ind; [done|].
  rewrite groupby_apply_list_snoc, filter_app, fmap_app.
  rewrite filter_cons, filter_nil.
  destruct (decide (r.1 = k)) as [<-|Hne].
  - rewrite lookup_insert_eq, IH. simpl.
    by destruct (snd <$> filter _ df).
  - rewrite lookup_insert_ne by done. rewrite IH. simpl.
    by rewrite app_nil_r.
Qed.

Lemma filter_fmap_strip {A B} (f : A → B) (P : B → Prop)
    `{!∀ x, Decision (P x)} (l : list A) :
  filter P (f <$> l) = f <$> filter (P ∘ f) l.
Proof.
  induction l as [|x l IH]; [done|]. csimpl.
  rewrite !filter_cons. simpl. case_decide; csimpl; by rewrite IH.
Qed.

Lemma falsy_no_row {A} (f : A → string) (P : A → Prop)
    `{!∀ x, Decision (P x)} (l : list A) :
  Annotate.falsy
    (match f <$> filter P l with [] => None | g :: gs => Some (g :: gs) end)
    = true
  ↔ ∀ r, r ∈ l → ¬ P r.
Proof.
  split.
  - intros Hf r Hr HP.
    assert (r ∈ filter P l) as Hin by (by apply list_elem_of_filter).
    destruct (filter P l) as [|x l']; [by apply elem_of_nil in Hin|].
    done.
  - intros Hno. destruct (filter P l) as [|x l'] eqn:Hfl; [done|].
    exfalso. assert (x ∈ filter P l) as Hin by (rewrite Hfl; by left).
    apply list_elem_of_filter in Hin as [HP Hin]. by apply (Hno x).
Qed.

(** [build_gene_maps]: a drug has the genes of its rows, in row order and
    with repetitions; a drug without a row has no entry, and no entry is
    an empty list, so that the scorer takes a drug for one without genes
    exactly when the table has no row for it.  Likewise for diseases. *)
Theorem build_gene_maps_lookup (strip : string → string)
    (dt gd : list (string * string)) (d s : string) :
  let '(drug_to_genes, disease_to_genes) := build_gene_maps strip dt gd in
  let genes_d := (strip ∘ snd) <$> filter (λ r, strip r.1 = d) dt in
  let genes_s := (strip ∘ fst) <$> filter (λ r, strip r.2 = s) gd in
  drug_to_genes !! d = (if genes_d is [] then None else Some genes_d) ∧
  disease_to_genes !! s = (if genes_s is [] then None else Some genes_s) ∧
  (Annotate.falsy (drug_to_genes !! d) = true ↔
     ∀ r, r ∈ dt → strip r.1 ≠ d) ∧
  (Annotate.falsy (disease_to_genes !! s) = true ↔
     ∀ r, r ∈ gd → strip r.2 ≠ s).
Proof.
  unfold build_gene_maps. simpl.
  assert (Hd : snd <$> filter (λ r : string * string, r.1 = d)
                 ((λ r, (strip r.1, strip r.2)) <$> dt)
               = (strip ∘ snd) <$> filter (λ r, strip r.1 = d) dt).
  { rewrite (filter_fmap_strip _ (λ r : string * string, r.1 = d)).
    by rewrite <- list_fmap_compose. }
  assert (Hs : snd <$> filter (λ r : string * string, r.1 = s)
                 ((λ r : string * string, (r.2, r.1)) <$>
                    ((λ r, (strip r.1, strip r.2)) <$> gd))
               = (strip ∘ fst) <$> filter (λ r, strip r.2 = s) gd).
  { rewrite <- list_fmap_compose.
    rewrite (filter_fmap_strip _ (λ r : string * string, r.1 = s)).
    by rewrite <- list_fmap_compose. }
  rewrite !groupby_apply_list_lookup, Hd, Hs.
  split; [by destruct (_ <$> filter _ dt)|].
  split; [by destruct (_ <$> filter _ gd)|].
  split.
  - rewrite <- (falsy_no_row (strip ∘ snd) (λ r, strip r.1 = d) dt).
    by destruct (_ <$> filter _ dt).
  - rewrite <- (falsy_no_row (strip ∘ fst) (λ r, strip r.2 = s) gd).
    by destruct (_ <$> filter _ gd).
Qed.

(** ** Reading back what the precomputation wrote *)

Lemma dict_zip_snoc rows r :
  dict_zip (rows ++ [r]) = <[r.1 := r.2]> (dict_zip rows).
Proof. unfold dict_zip. by rewrite foldl_app. Qed.

Lemma dict_zip_lookup rows k v :
  NoDup (fst <$> rows) → dict_zip rows !! k = Some v ↔ (k, v) ∈ rows.
Proof.
  induction rows as [|[k' v'] rows IH] using rev_ind; intros Hnd.
  { unfold dict_zip. simpl. rewrite lookup_empty. split; [done|].
    by intros ?%elem_of_nil. }
  rewrite fmap_app in Hnd. apply NoDup_app in Hnd as (Hnd & Hfresh & _).
  rewrite dict_zip_snoc, elem_of_app, list_elem_of_singleton. simpl.
  destruct (decide (k' = k)) as [->|Hne].
  - rewrite lookup_insert_eq. split.
    + intros [= ->]. by right.
    + intros [Hin|[= ->]]; [|done]. exfalso.
      apply (Hfresh k); [|by left].
      apply list_elem_of_fmap. by exists (k, v).
  - rewrite lookup_insert_ne by done. rewrite IH by done.
    split; [by left|]. intros [?|[= -> ->]]; [done|]. by destruct Hne.
Qed.

Lemma reshape_concat {A} (n : nat) (M : list (list A)) :
  Forall (λ row, length row = n) M →
  reshape (replicate (length M) n) (concat M) = M.
Proof.
  induction 1 as [|row M Hrow _ IH]; [done|]. simpl.
  rewrite take_app_length' by done. f_equal.
  rewrite drop_app_length' by done. exact IH.
Qed.

Lemma length_concat_square {A} (n : nat) (M : list (list A)) :
  Forall (λ row, length row = n) M →
  length (concat M) = (length M * n)%nat.
Proof.
  induction 1 as [|row M Hrow _ IH]; [done|]. simpl.
  rewrite length_app, IH. lia.
Qed.

(** Every gene of the universe is a stripped identifier. *)
Lemma universe_stripped (strip : string → string)
    (ppi : list (string * string)) (dt_genes gd_genes : list string) g :
  g ∈ Precompute.build_gene_universe strip ppi dt_genes gd_genes →
  ∃ x, g = strip x.
Proof.
  unfold Precompute.build_gene_universe.
  rewrite !elem_of_union, !elem_of_list_to_set, !list_elem_of_fmap.
  intros [[[(e & -> & _)|(e & -> & _)]|(x & -> & _)]|(x & -> & _)]; eauto.
Qed.

Section reload.
Context (set_iter : gset string → list string).
Context (set_iter_perm : ∀ X, set_iter X ≡ₚ elements X).
Context (strip : string → string).
Context (strip_idemp : ∀ x, strip (strip x) = strip x).
Context (mmap_empty_ok : bool).
Context (ppi : list (string * string)) (dt_genes gd_genes : list string).
Context (cutoff : option Z).

Local Abbreviation U := (Precompute.build_gene_universe strip ppi dt_genes gd_genes).
Local Abbreviation all_genes := (merge_sort str_le (set_iter U)).
Local Abbreviation N := (length all_genes).
Local Abbreviation idx := (zip all_genes (seq 0 N)).

Lemma strip_index_rows :
  (λ r : string * Z, (strip r.1, r.2)) <$> index_rows idx = index_rows idx.
Proof.
  unfold index_rows. rewrite <- list_fmap_compose.
  apply list_fmap_ext. intros i [g k] Hgk. simpl. f_equal.
  apply list_elem_of_lookup_2, elem_of_zip_seq in Hgk.
  apply list_elem_of_lookup_2 in Hgk.
  apply (elem_of_all_genes set_iter set_iter_perm) in Hgk.
  apply universe_stripped in Hgk as [x ->]. apply strip_idemp.
Qed.

Lemma fst_index_rows : fst <$> index_rows idx = all_genes.
Proof.
  unfold index_rows. rewrite <- list_fmap_compose.
  change (fst ∘ (λ r : string * nat, (r.1, Z.of_nat r.2))) with (@fst string nat).
  apply fst_zip. by rewrite length_seq.
Qed.

Lemma length_index_rows : length (index_rows idx) = N.
Proof.
  unfold index_rows.
  by rewrite length_fmap, length_zip_with, length_seq, Nat.min_id.
Qed.

Lemma dict_zip_index_rows g i :
  dict_zip (index_rows idx) !! g = Some i ↔
  ∃ k, i = Z.of_nat k ∧ all_genes !! k = Some g.
Proof.
  rewrite dict_zip_lookup.
  2:{ rewrite fst_index_rows.
      by apply (all_genes_NoDup set_iter set_iter_perm). }
  unfold index_rows. rewrite list_elem_of_fmap. split.
  - intros ([g' k] & [= -> ->] & Hin). exists k. split; [done|].
    by apply elem_of_zip_seq.
  - intros (k & -> & Hk). exists (g, k). split; [done|].
    by apply elem_of_zip_seq.
Qed.

(** The store a completed run leaves is read back as it was written,
    and it is well formed. *)
Lemma load_after_run :
  U ≠ ∅ ∨ mmap_empty_ok = true →
  ∃ M,
    Precompute.main set_iter strip mmap_empty_ok ppi dt_genes gd_genes cutoff
    = Precompute.MkRun (Some idx) (Some M) (Ok ()) ∧
    load_distance_matrix strip mmap_empty_ok (index_rows idx) (matrix_cells M)
    = Ok (dict_zip (index_rows idx), M, max_uint16) ∧
    square N M ∧ uint16_cells M ∧
    indices_in_range N (dict_zip (index_rows idx)).
Proof.
  intros Hne.
  pose proof (universe_non_empty set_iter set_iter_perm strip mmap_empty_ok
                ppi dt_genes gd_genes Hne) as Hrun.
  destruct (main_entries set_iter set_iter_perm strip mmap_empty_ok ppi
              dt_genes gd_genes cutoff Hrun) as (M & HM & Hsq & Hcells).
  exists M. split; [done|].
  assert (uint16_cells M) as Hu.
  { apply (uint16_cells_of_cell N); [done|]. intros i j Hi Hj.
    destruct (lookup_lt_is_Some_2 all_genes i Hi) as [g Hg].
    destruct (lookup_lt_is_Some_2 all_genes j Hj) as [h Hh].
    by destruct (Hcells g i h j Hg Hh) as [? _]. }
  split; [|split; [done|split; [done|]]].
  - unfold load_distance_matrix. rewrite strip_index_rows, length_index_rows.
    unfold memmap_r, matrix_cells. destruct Hsq as [Hlen Hrows].
    rewrite (length_concat_square N) by done.
    rewrite decide_False by (rewrite Hlen; lia).
    rewrite decide_False.
    2:{ intros [Hnil Hok]. destruct Hrun as [HN|Hok']; [|congruence].
        apply (f_equal length) in Hnil.
        rewrite (length_concat_square N), Hlen in Hnil by done.
        simpl in Hnil. nia. }
    simpl. pose proof (reshape_concat N M Hrows) as Hr.
    rewrite Hlen in Hr. by rewrite Hr.
  - intros g i (k & -> & Hk)%dict_zip_index_rows.
    apply lookup_lt_Some in Hk. lia.
Qed.

End reload.

(** What a completed run wrote is what [load_distance_matrix] reads, when
    stripping a stripped identifier changes nothing: the matrix comes
    back cell for cell, the dictionary maps every gene of the index file
    to its position, and the store is well formed, an [N x N] array of
    16-bit cells with all positions inside it. *)
Theorem load_distance_matrix_round_trip
    (set_iter : gset string → list string) (strip : string → string)
    (mmap_empty_ok : bool) (ppi : list (string * string))
    (dt_genes gd_genes : list string) (cutoff : option Z) :
  (∀ X, set_iter X ≡ₚ elements X) →
  (∀ x, strip (strip x) = strip x) →
  Precompute.build_gene_universe strip ppi dt_genes gd_genes ≠ ∅
    ∨ mmap_empty_ok = true →
  ∃ idx M gene_to_idx,
    Precompute.main set_iter strip mmap_empty_ok ppi dt_genes gd_genes cutoff
    = Precompute.MkRun (Some idx) (Some M) (Ok ()) ∧
    load_distance_matrix strip mmap_empty_ok (index_rows idx) (matrix_cells M)
    = Ok (gene_to_idx, M, max_uint16) ∧
    (∀ g i, gene_to_idx !! g = Some i ↔ ∃ k, i = Z.of_nat k ∧ (g, k) ∈ idx) ∧
    indices_in_range (length idx) gene_to_idx ∧
    square (length idx) M ∧ uint16_cells M.
Proof.
  intros Hperm Hstrip Hne.
  set (all := merge_sort str_le (set_iter
    (Precompute.build_gene_universe strip ppi dt_genes gd_genes))).
  destruct (load_after_run set_iter Hperm strip Hstrip mmap_empty_ok ppi
              dt_genes gd_genes cutoff Hne) as (M & HM & Hload & Hsq & Hu & Hr).
  fold all in HM, Hload, Hsq, Hu, Hr.
  exists (zip all (seq 0 (length all))), M, (dict_zip (index_rows
    (zip all (seq 0 (length all))))).
  rewrite length_zip_with, length_seq, Nat.min_id.
  split; [done|]. split; [done|]. split; [|done].
  intros g i.
  etrans; [apply (dict_zip_index_rows set_iter Hperm strip ppi dt_genes
                    gd_genes)|].
  fold all. by setoid_rewrite elem_of_zip_seq.
Qed.

Lemma load_distance_matrix_round_trip_witness :
  ∃ idx M gene_to_idx,
    Precompute.main elements id false ex_ppi ["T"; "A"]%string ["C"]%string None
    = Precompute.MkRun (Some idx) (Some M) (Ok ()) ∧
    load_distance_matrix id false (index_rows idx) (matrix_cells M)
    = Ok (gene_to_idx, M, max_uint16).
Proof.
  destruct (load_distance_matrix_round_trip elements id false ex_ppi
              ["T"; "A"]%string ["C"]%string None)
    as (idx & M & gene_to_idx & HM & Hload & _).
  - reflexivity.
  - reflexivity.
  - left. vm_compute. discriminate.
  - exists idx, M, gene_to_idx. split; [exact HM|exact Hload].
Defined.

Lemma gene_indices_singleton (gene_to_idx : gmap string Z) g :
  gene_indices gene_to_idx [g] = option_list (gene_to_idx !! g).
Proof.
  unfold gene_indices. simpl. rewrite (right_id_L ∅ (∪)).
  rewrite elements_singleton. simpl. by destruct (gene_to_idx !! g).
Qed.

Lemma true_div_one a : (true_div a 1 == inject_Z a)%Q.
Proof.
  unfold true_div. rewrite Qred_correct. unfold Qdiv.
  change (/ inject_Z 1)%Q with 1%Q. apply Qmult_1_r.
Qed.

(** The two scripts together, for a drug with the one target [a] and a
    disease with the one gene [b], both genes of the universe: scored
    against the store a run has written, the pair gets the length of a
    shortest path from [a] to [b] as its mean distance when there is one
    within the cutoff and below 65535, and +infinity when the genes
    differ and no walk between them is within the cutoff. *)
Theorem scorer_on_precomputed_store
    (set_iter set_iter' : gset string → list string)
    (strip : string → string) (mmap_empty_ok : bool)
    (ppi : list (string * string)) (dt_genes gd_genes : list string)
    (cutoff : option Z)
    (drug_to_genes disease_to_genes : gmap string (list string))
    (drug_id disease_id a b : string) :
  (∀ X, set_iter X ≡ₚ elements X) → (∀ X, set_iter' X ≡ₚ elements X) →
  (∀ x, strip (strip x) = strip x) →
  a ∈ Precompute.build_gene_universe strip ppi dt_genes gd_genes →
  b ∈ Precompute.build_gene_universe strip ppi dt_genes gd_genes →
  drug_to_genes !! drug_id = Some [a] →
  disease_to_genes !! disease_id = Some [b] →
  ∃ idx M gene_to_idx dist max_val,
    Precompute.main set_iter strip mmap_empty_ok ppi dt_genes gd_genes cutoff
    = Precompute.MkRun (Some idx) (Some M) (Ok ()) ∧
    load_distance_matrix strip mmap_empty_ok (index_rows idx) (matrix_cells M)
    = Ok (gene_to_idx, dist, max_val) ∧
    let score :=
      Annotate.mean_distance_for_pair set_iter' drug_id disease_id
        drug_to_genes disease_to_genes gene_to_idx dist max_val in
    (∀ d, shortest (Precompute.build_ppi_graph strip ppi) a b d →
          within_cutoff cutoff d → Z.of_nat d < max_uint16 →
          ∃ q, score = Ok (Finite q) ∧ (q == inject_Z (Z.of_nat d))%Q) ∧
    (a ≠ b →
     (∀ d, walk (Precompute.build_ppi_graph strip ppi) d a b →
           ¬ within_cutoff cutoff d) →
     score = Ok Inf).
Proof.
  intros Hperm Hperm' Hstrip Ha Hb Hd Hs.
  set (all := merge_sort str_le (set_iter
    (Precompute.build_gene_universe strip ppi dt_genes gd_genes))).
  set (G := Precompute.build_ppi_graph strip ppi).
  assert (a ∈ all) as Hina by (by apply elem_of_all_genes).
  assert (b ∈ all) as Hinb by (by apply elem_of_all_genes).
  apply list_elem_of_lookup in Hina as [i Hi].
  apply list_elem_of_lookup in Hinb as [j Hj].
  pose proof (lookup_lt_Some _ _ _ Hi) as HiN.
  assert (Precompute.build_gene_universe strip ppi dt_genes gd_genes ≠ ∅
          ∨ mmap_empty_ok = true) as Hne.
  { left. intros Hempty. rewrite Hempty in Ha. by apply elem_of_empty in Ha. }
  destruct (load_after_run set_iter Hperm strip Hstrip mmap_empty_ok ppi
              dt_genes gd_genes cutoff Hne) as (M & HM & Hload & Hsq & Hu & Hr).
  pose proof (universe_non_empty set_iter Hperm strip mmap_empty_ok ppi
                dt_genes gd_genes Hne) as Hrun.
  destruct (main_entries set_iter Hperm strip mmap_empty_ok ppi dt_genes
              gd_genes cutoff Hrun) as (M' & HM' & _ & Hcells).
  assert (M' = M) as -> by congruence.
  fold all G in HM, Hload, Hsq, Hu, Hr, Hcells.
  set (gene_to_idx := dict_zip (index_rows (zip all (seq 0 (length all))))) in *.
  exists (zip all (seq 0 (length all))), M, gene_to_idx, M, max_uint16.
  split; [done|]. split; [done|]. simpl.
  assert (Hia : gene_to_idx !! a = Some (Z.of_nat i)).
  { apply (dict_zip_index_rows set_iter Hperm strip ppi dt_genes gd_genes).
    by exists i. }
  assert (Hjb : gene_to_idx !! b = Some (Z.of_nat j)).
  { apply (dict_zip_index_rows set_iter Hperm strip ppi dt_genes gd_genes).
    by exists j. }
  rewrite (mean_distance_for_pair_present set_iter' Hperm' gene_to_idx M
             (length all) drug_id disease_id drug_to_genes disease_to_genes
             [a] [b] Hsq Hu Hr Hd Hs).
  unfold valid_entries. rewrite !gene_indices_singleton, Hia, Hjb.
  unfold entries. simpl. rewrite !Nat2Z.id.
  destruct (Hcells a i b j Hi Hj) as (_ & _ & _ & Hval).
  split.
  - intros d Hsh Hc Hfit. rewrite (Hval d Hsh Hc) by lia.
    rewrite filter_cons, decide_True by lia. rewrite filter_nil.
    eexists. split; [done|]. simpl. rewrite Z.add_0_r. apply true_div_one.
  - intros Hab Hno.
    rewrite (main_entry_sentinel set_iter Hperm strip mmap_empty_ok ppi
               dt_genes gd_genes cutoff M a i b j Hrun HM Hi Hj); [done| |done].
    intros ->. apply Hab. congruence.
Qed.

(** The interacting genes A and B of the small run: distance 1. *)
Lemma scorer_on_precomputed_store_witness :
  ∃ idx M gene_to_idx dist max_val q,
    Precompute.main elements id true ex_ppi ["T"; "A"]%string ["C"]%string None
    = Precompute.MkRun (Some idx) (Some M) (Ok ()) ∧
    load_distance_matrix id true (index_rows idx) (matrix_cells M)
    = Ok (gene_to_idx, dist, max_val) ∧
    Annotate.mean_distance_for_pair elements "D" "X"
      (<["D" := ["A"]%string]> ∅) (<["X" := ["B"]%string]> ∅)
      gene_to_idx dist max_val
    = Ok (Finite q) ∧
    (q == 1)%Q.
Proof.
  destruct (scorer_on_precomputed_store elements elements id true ex_ppi
              ["T"; "A"]%string ["C"]%string None
              (<["D" := ["A"]%string]> ∅) (<["X" := ["B"]%string]> ∅)
              "D" "X" "A" "B")
    as (idx & M & gene_to_idx & dist & max_val & HM & Hload & Hfin & _).
  - reflexivity.
  - reflexivity.
  - reflexivity.
  - vm_compute. reflexivity.
  - vm_compute. reflexivity.
  - reflexivity.
  - reflexivity.
  - destruct (Hfin 1%nat) as (q & Hq & Heq).
    + split.
      * eapply walk_step; [|constructor]. vm_compute. reflexivity.
      * intros d' Hw. destruct d' as [|d']; [|lia]. inversion Hw.
    + exact I.
    + reflexivity.
    + exists idx, M, gene_to_idx, dist, max_val, q.
      split; [exact HM|]. split; [exact Hload|]. split; [exact Hq|exact Heq].
Defined.

(** ** The grouped maps and the overlap table *)

Lemma StronglySorted_lookup {A} (R : relation A) (l : list A) i j x y :
  StronglySorted R l → (i < j)%nat →
  l !! i = Some x → l !! j = Some y → R x y.
Proof.
  intros Hs. revert i j. induction Hs as [|a l _ IH Hall]; intros i j Hij Hi Hj.
  { by rewrite lookup_nil in Hi. }
  destruct j as [|j]; [lia|]. simpl in Hj.
  destruct i as [|i]; simpl in Hi.
  - injection Hi as ->. eapply Forall_forall in Hall; [exact Hall|].
    by eapply list_elem_of_lookup_2.
  - apply (IH i j); [lia|done..].
Qed.

Lemma grouped_values_non_empty df k S :
  (k, S) ∈ grouped df → S ≠ ∅.
Proof.
  destruct (grouped_spec df) as (_ & Hkeys & Hvals). intros Hin.
  assert (k ∈ (grouped df).*1) as Hk.
  { apply list_elem_of_fmap. by exists (k, S). }
  apply Hkeys in Hk. apply list_elem_of_fmap in Hk as ([k' g] & Hk' & Hg).
  simpl in Hk'. subst k'.
  rewrite (Hvals _ _ Hin). intros Hempty.
  assert (g ∈ values_of df k) as Hgin by (by apply elem_of_values_of).
  rewrite Hempty in Hgin. by apply elem_of_empty in Hgin.
Qed.

Lemma build_maps_keys (drug_targets : list Scoring.DrugTargetAssoc)
    (gene_diseases : list Scoring.GeneDiseaseAssoc) :
  NoDup (Scoring.build_drug_target_map drug_targets).*1 ∧
  NoDup (Scoring.build_disease_gene_map gene_diseases).*1 ∧
  (∀ d, d ∈ (Scoring.build_drug_target_map drug_targets).*1 ↔
        ∃ a, a ∈ drug_targets ∧ Scoring.dt_drug_id a = d) ∧
  (∀ s, s ∈ (Scoring.build_disease_gene_map gene_diseases).*1 ↔
        ∃ a, a ∈ gene_diseases ∧ Scoring.gd_disease_id a = s).
Proof.
  rewrite build_drug_target_map_grouped, build_disease_gene_map_grouped.
  set (dt_df := (λ a, (Scoring.dt_drug_id a, Scoring.dt_gene_id a))
                  <$> drug_targets).
  set (gd_df := (λ a, (Scoring.gd_disease_id a, Scoring.gd_gene_id a))
                  <$> gene_diseases).
  destruct (grouped_spec dt_df) as (Hnd1 & Hkeys1 & _).
  destruct (grouped_spec gd_df) as (Hnd2 & Hkeys2 & _).
  split; [done|]. split; [done|]. split.
  - intros d. rewrite Hkeys1. unfold dt_df.
    rewrite <- list_fmap_compose, list_elem_of_fmap. split.
    + intros (a & -> & Ha). by exists a.
    + intros (a & Ha & <-). by exists a.
  - intros s. rewrite Hkeys2. unfold gd_df.
    rewrite <- list_fmap_compose, list_elem_of_fmap. split.
    + intros (a & -> & Ha). by exists a.
    + intros (a & Ha & <-). by exists a.
Qed.

(** [build_drug_target_map] and [build_disease_gene_map]: the dictionary
    has one entry for every drug (disease) of the association list and for
    no other; the entry is the set of the genes associated with it,
    duplicates collapsed, and is never empty. *)
Theorem build_maps_collect_genes
    (drug_targets : list Scoring.DrugTargetAssoc)
    (gene_diseases : list Scoring.GeneDiseaseAssoc) :
  let drug_to_genes := Scoring.build_drug_target_map drug_targets in
  let disease_to_genes := Scoring.build_disease_gene_map gene_diseases in
  NoDup drug_to_genes.*1 ∧ NoDup disease_to_genes.*1 ∧
  (∀ d, d ∈ drug_to_genes.*1 ↔
        ∃ a, a ∈ drug_targets ∧ Scoring.dt_drug_id a = d) ∧
  (∀ s, s ∈ disease_to_genes.*1 ↔
        ∃ a, a ∈ gene_diseases ∧ Scoring.gd_disease_id a = s) ∧
  (∀ d genes, (d, genes) ∈ drug_to_genes →
     genes ≠ ∅ ∧
     ∀ g, g ∈ genes ↔
          ∃ a, a ∈ drug_targets ∧
               Scoring.dt_drug_id a = d ∧ Scoring.dt_gene_id a = g) ∧
  (∀ s genes, (s, genes) ∈ disease_to_genes →
     genes ≠ ∅ ∧
     ∀ g, g ∈ genes ↔
          ∃ a, a ∈ gene_diseases ∧
               Scoring.gd_disease_id a = s ∧ Scoring.gd_gene_id a = g).
Proof.
  simpl. rewrite build_drug_target_map_grouped, build_disease_gene_map_grouped.
  set (dt_df := (λ a, (Scoring.dt_drug_id a, Scoring.dt_gene_id a))
                  <$> drug_targets).
  set (gd_df := (λ a, (Scoring.gd_disease_id a, Scoring.gd_gene_id a))
                  <$> gene_diseases).
  destruct (grouped_spec dt_df) as (Hnd1 & Hkeys1 & Hvals1).
  destruct (grouped_spec gd_df) as (Hnd2 & Hkeys2 & Hvals2).
  split; [done|]. split; [done|]. split; [|split; [|split]].
  - intros d. rewrite Hkeys1. unfold dt_df.
    rewrite <- list_fmap_compose, list_elem_of_fmap. split.
    + intros (a & -> & Ha). by exists a.
    + intros (a & Ha & <-). by exists a.
  - intros s. rewrite Hkeys2. unfold gd_df.
    rewrite <- list_fmap_compose, list_elem_of_fmap. split.
    + intros (a & -> & Ha). by exists a.
    + intros (a & Ha & <-). by exists a.
  - intros d genes Hin. split; [by eapply grouped_values_non_empty|].
    intros g. rewrite (Hvals1 _ _ Hin), elem_of_values_of. unfold dt_df.
    rewrite list_elem_of_fmap. split.
    + intros (a & [= -> ->] & Ha). by exists a.
    + intros (a & Ha & <- & <-). by exists a.
  - intros s genes Hin. split; [by eapply grouped_values_non_empty|].
    intros g. rewrite (Hvals2 _ _ Hin), elem_of_values_of. unfold gd_df.
    rewrite list_elem_of_fmap. split.
    + intros (a & [= -> ->] & Ha). by exists a.
    + intros (a & Ha & <- & <-). by exists a.
Qed.

Section overlap_table.
Context (drug_targets : list Scoring.DrugTargetAssoc).
Context (gene_diseases : list Scoring.GeneDiseaseAssoc).

Local Abbreviation dt_df :=
  ((λ a, (Scoring.dt_drug_id a, Scoring.dt_gene_id a)) <$> drug_targets).
Local Abbreviation gd_df :=
  ((λ a, (Scoring.gd_gene_id a, Scoring.gd_disease_id a)) <$> gene_diseases).
Local Abbreviation gd_rev :=
  ((λ a, (Scoring.gd_disease_id a, Scoring.gd_gene_id a)) <$> gene_diseases).
Local Abbreviation table :=
  (Scoring.df_rows
     (Scoring.compute_overlap_table
        (Scoring.build_drug_target_map drug_targets)
        (Scoring.build_disease_gene_map gene_diseases))).

Lemma gd_rev_swap :
  gd_rev = (λ r : string * string, (r.2, r.1)) <$> gd_df.
Proof. by rewrite <- list_fmap_compose. Qed.

Lemma table_rows :
  table ≡ₚ
  (x ← grouped dt_df;
   y ← grouped ((λ r : string * string, (r.2, r.1)) <$> gd_df);
   overlap_rows_of_pair x y).
Proof.
  rewrite build_drug_target_map_grouped, build_disease_gene_map_grouped.
  rewrite gd_rev_swap, compute_overlap_table_rows.
  apply merge_sort_Permutation.
Qed.

Lemma elem_of_table r :
  r ∈ table ↔ is_overlap_row dt_df gd_df r.
Proof. rewrite table_rows. apply naive_rows_spec. Qed.

Lemma table_keys_NoDup : NoDup (Scoring.o_key <$> table).
Proof.
  apply NoDup_fmap_2_strong.
  - intros r1 r2 Hr1%elem_of_table Hr2%elem_of_table.
    by apply (is_overlap_row_key dt_df gd_df).
  - rewrite table_rows. apply naive_rows_NoDup.
Qed.

Lemma table_sorted : StronglySorted Scoring.overlap_order table.
Proof.
  rewrite compute_overlap_table_rows.
  apply StronglySorted_merge_sort; apply _.
Qed.

End overlap_table.

(** The naive overlap table on the grouped maps: a pair has a row
    exactly when the drug and the disease share a gene, and then one row
    only; the row carries the number of shared genes, their sorted names
    joined by semicolons, and the Jaccard index of the two gene sets. *)
Theorem overlap_table_rows
    (drug_targets : list Scoring.DrugTargetAssoc)
    (gene_diseases : list Scoring.GeneDiseaseAssoc) :
  let out :=
    Scoring.df_rows
      (Scoring.compute_overlap_table
         (Scoring.build_drug_target_map drug_targets)
         (Scoring.build_disease_gene_map gene_diseases)) in
  let D := values_of ((λ a, (Scoring.dt_drug_id a, Scoring.dt_gene_id a))
                        <$> drug_targets) in
  let S := values_of ((λ a, (Scoring.gd_disease_id a, Scoring.gd_gene_id a))
                        <$> gene_diseases) in
  NoDup (Scoring.o_key <$> out) ∧
  (∀ d s, (d, s) ∈ Scoring.o_key <$> out ↔ D d ∩ S s ≠ ∅) ∧
  (∀ r, r ∈ out →
     r = Scoring.MkOverlap (Scoring.o_drug_id r) (Scoring.o_disease_id r)
           (Z.of_nat (size (D (Scoring.o_drug_id r)
                            ∩ S (Scoring.o_disease_id r))))
           (Scoring.join_sorted (D (Scoring.o_drug_id r)
                                 ∩ S (Scoring.o_disease_id r)))
           (Some (true_div
                    (Z.of_nat (size (D (Scoring.o_drug_id r)
                                     ∩ S (Scoring.o_disease_id r))))
                    (Z.of_nat (size (D (Scoring.o_drug_id r)
                                     ∪ S (Scoring.o_disease_id r))))))).
Proof.
  intros out D S. subst out D S.
  split; [apply table_keys_NoDup|]. split.
  - intros d s. rewrite list_elem_of_fmap. split.
    + intros (r & Hk & Hr). apply elem_of_table in Hr
        as (d' & s' & Hne & ->). rewrite gd_rev_swap.
      unfold overlap_row_of, Scoring.o_key in Hk. simpl in Hk.
      by injection Hk as -> ->.
    + intros Hne. eexists. split; [|apply elem_of_table].
      2:{ exists d, s. split; [|done]. by rewrite <- gd_rev_swap. }
      done.
  - intros r Hr. apply elem_of_table in Hr as (d & s & Hne & ->).
    rewrite gd_rev_swap. done.
Qed.

(** Every row of the overlap table counts at least one shared gene, and
    at most as many as the drug has targets or the disease has genes; its
    Jaccard index is above 0 and at most 1, and it is 1 exactly when the
    drug and the disease have the same gene set. *)
Theorem overlap_table_values
    (drug_targets : list Scoring.DrugTargetAssoc)
    (gene_diseases : list Scoring.GeneDiseaseAssoc) (r : Scoring.overlap_row) :
  r ∈ Scoring.df_rows
        (Scoring.compute_overlap_table
           (Scoring.build_drug_target_map drug_targets)
           (Scoring.build_disease_gene_map gene_diseases)) →
  let D := values_of ((λ a, (Scoring.dt_drug_id a, Scoring.dt_gene_id a))
                        <$> drug_targets) (Scoring.o_drug_id r) in
  let S := values_of ((λ a, (Scoring.gd_disease_id a, Scoring.gd_gene_id a))
                        <$> gene_diseases) (Scoring.o_disease_id r) in
  1 ≤ Scoring.o_n_overlap r ∧
  Scoring.o_n_overlap r ≤ Z.of_nat (size D) ∧
  Scoring.o_n_overlap r ≤ Z.of_nat (size S) ∧
  ∃ j, Scoring.o_jaccard r = Some j ∧ (0 < j)%Q ∧ (j <= 1)%Q ∧
       ((j == 1)%Q ↔ D = S).
Proof.
  intros Hr D S. subst D S.
  apply elem_of_table in Hr as (d & s & Hne & ->).
  rewrite <- gd_rev_swap in *. unfold overlap_row_of. simpl.
  set (D := values_of _ d) in *. set (S := values_of _ s) in *.
  assert (size (D ∩ S) ≠ 0)%nat as Hpos.
  { apply size_non_empty_iff. by intros ?%leibniz_equiv. }
  assert (size (D ∩ S) ≤ size D)%nat as HD.
  { apply subseteq_size, intersection_subseteq_l. }
  assert (size (D ∩ S) ≤ size S)%nat as HS.
  { apply subseteq_size, intersection_subseteq_r. }
  assert (size (D ∩ S) ≤ size (D ∪ S))%nat as HU.
  { apply subseteq_size. etrans; [apply intersection_subseteq_l|].
    apply union_subseteq_l. }
  split; [lia|]. split; [lia|]. split; [lia|].
  eexists. split; [done|].
  unfold true_div. rewrite Qred_correct.
  assert (0 < inject_Z (Z.of_nat (size (D ∪ S))))%Q as HposU.
  { replace 0%Q with (inject_Z 0) by done. rewrite <- Zlt_Qlt. lia. }
  split; [|split].
  - apply Qlt_shift_div_l; [done|]. rewrite Qmult_0_l.
    replace 0%Q with (inject_Z 0) by done. rewrite <- Zlt_Qlt. lia.
  - apply Qle_shift_div_r; [done|]. rewrite Qmult_1_l.
    rewrite <- Zle_Qle. lia.
  - split.
    + intros Heq.
      assert (size (D ∩ S) = size (D ∪ S)) as Hsz.
      { apply Nat2Z.inj, inject_Z_injective.
        rewrite <- (Qmult_1_l (inject_Z (Z.of_nat (size (D ∪ S))))).
        rewrite <- Heq. symmetry. rewrite Qmult_comm. apply Qmult_div_r.
        intros H0. rewrite H0 in HposU. by apply Qlt_irrefl in HposU. }
      assert (D ∩ S = D ∪ S) as Hsets.
      { apply set_subseteq_size_eq; [|lia].
        etrans; [apply intersection_subseteq_l|apply union_subseteq_l]. }
      apply set_eq. intros g. split; intros Hg.
      * assert (g ∈ D ∪ S) as Hin by (by apply elem_of_union_l).
        rewrite <- Hsets in Hin. by apply elem_of_intersection in Hin as [_ ?].
      * assert (g ∈ D ∪ S) as Hin by (by apply elem_of_union_r).
        rewrite <- Hsets in Hin. by apply elem_of_intersection in Hin as [? _].
    + intros ->. rewrite (idemp_L (∩)), (idemp_L (∪)).
      apply Qmult_inv_r. intros H0.
      rewrite (idemp_L (∪)) in HposU. rewrite H0 in HposU.
      by apply Qlt_irrefl in HposU.
Qed.

Lemma overlap_table_values_witness :
  1 ≤ 2 ∧ 2 ≤ 2 ∧ 2 ≤ 4 ∧
  ∃ j, Some (1 # 2) = Some j ∧ (0 < j)%Q ∧ (j <= 1)%Q ∧
       ((j == 1)%Q ↔
        values_of ((λ a, (Scoring.dt_drug_id a, Scoring.dt_gene_id a))
                     <$> ex_drug_targets) "D1"
        = values_of ((λ a, (Scoring.gd_disease_id a, Scoring.gd_gene_id a))
                       <$> ex_gene_diseases) "DIS1").
Proof.
  apply (overlap_table_values ex_drug_targets ex_gene_diseases
           (Scoring.MkOverlap "D1" "DIS1" 2 "G1;G2" (Some (1 # 2)))).
  vm_compute. by left.
Defined.

(** The overlap table is ranked: down the table the number of shared
    genes never grows, and among rows with the same number the Jaccard
    index never grows. *)
Theorem overlap_table_ranked
    (drug_targets : list Scoring.DrugTargetAssoc)
    (gene_diseases : list Scoring.GeneDiseaseAssoc)
    (i j : nat) (ri rj : Scoring.overlap_row) :
  let out :=
    Scoring.df_rows
      (Scoring.compute_overlap_table
         (Scoring.build_drug_target_map drug_targets)
         (Scoring.build_disease_gene_map gene_diseases)) in
  (i < j)%nat → out !! i = Some ri → out !! j = Some rj →
  Scoring.o_n_overlap rj ≤ Scoring.o_n_overlap ri ∧
  (Scoring.o_n_overlap rj = Scoring.o_n_overlap ri →
   ∃ ji jj, Scoring.o_jaccard ri = Some ji ∧ Scoring.o_jaccard rj = Some jj ∧
            (jj <= ji)%Q).
Proof.
  intros out Hij Hi Hj.
  pose proof (StronglySorted_lookup _ _ _ _ _ _
                (table_sorted drug_targets gene_diseases) Hij Hi Hj) as Hord.
  assert (∃ ji, Scoring.o_jaccard ri = Some ji) as [ji Hji].
  { apply list_elem_of_lookup_2, elem_of_table in Hi as (? & ? & _ & ->).
    by eexists. }
  assert (∃ jj, Scoring.o_jaccard rj = Some jj) as [jj Hjj].
  { apply list_elem_of_lookup_2, elem_of_table in Hj as (? & ? & _ & ->).
    by eexists. }
  unfold Scoring.overlap_order in Hord. rewrite Hji, Hjj in Hord.
  simpl in Hord.
  destruct (Z.compare_spec (Scoring.o_n_overlap rj) (Scoring.o_n_overlap ri))
    as [Heq|Hlt|Hgt]; [| |done].
  - split; [lia|]. intros _. exists ji, jj. split; [done|]. split; [done|].
    destruct (jj ?= ji)%Q eqn:Hc.
    + apply Qeq_alt in Hc. rewrite Hc. apply Qle_refl.
    + apply Qlt_alt in Hc. by apply Qlt_le_weak.
    + done.
  - split; [lia|]. intros Heq. lia.
Qed.

Lemma overlap_table_ranked_witness :
  1 ≤ 2 ∧
  (1 = 2 →
   ∃ ji jj, Some (1 # 2) = Some ji ∧ Some 1%Q = Some jj ∧ (jj <= ji)%Q).
Proof.
  apply (overlap_table_ranked ex_drug_targets ex_gene_diseases 0 1
           (Scoring.MkOverlap "D1" "DIS1" 2 "G1;G2" (Some (1 # 2)))
           (Scoring.MkOverlap "D2" "DIS2" 1 "G3" (Some 1%Q))).
  - lia.
  - by vm_compute.
  - by vm_compute.
Defined.

(** ** The joined and ranked table *)

Section rank.

Lemma Qcompare_Gt x y : (x ?= y)%Q = Gt ↔ (y < x)%Q.
Proof. symmetry. apply Qgt_alt. Qed.

Lemma Qcompare_Lt x y : (x ?= y)%Q = Lt ↔ (x < y)%Q.
Proof. symmetry. apply Qlt_alt. Qed.

Lemma Qcompare_Eq x y : (x ?= y)%Q = Eq ↔ (x == y)%Q.
Proof. symmetry. apply Qeq_alt. Qed.

(** [rank_ge] is the lexicographic order, descending, on the combined
    score, the proximity score and the overlap count. *)
Lemma rank_ge_lex a b :
  Scoring.rank_ge a b ↔
  (Scoring.c_combined_score b < Scoring.c_combined_score a)%Q ∨
  ((Scoring.c_combined_score a == Scoring.c_combined_score b)%Q ∧
   ((Scoring.c_proximity_score b < Scoring.c_proximity_score a)%Q ∨
    ((Scoring.c_proximity_score a == Scoring.c_proximity_score b)%Q ∧
     (Scoring.c_n_overlap b <= Scoring.c_n_overlap a)%Q))).
Proof.
  unfold Scoring.rank_ge.
  destruct (_ ?= _)%Q eqn:Hs.
  - apply Qcompare_Eq in Hs.
    destruct (Scoring.c_proximity_score a ?= _)%Q eqn:Hp.
    + apply Qcompare_Eq in Hp. split.
      * intros Hn. right. split; [done|]. right. by split.
      * intros [Hlt|[_ [Hlt|[_ Hn]]]]; [| |done].
        -- rewrite Hs in Hlt. by apply Qlt_irrefl in Hlt.
        -- rewrite Hp in Hlt. by apply Qlt_irrefl in Hlt.
    + apply Qcompare_Lt in Hp. split; [done|].
      intros [Hlt|[_ [Hlt|[Heq _]]]].
      * rewrite Hs in Hlt. by apply Qlt_irrefl in Hlt.
      * by apply (Qlt_irrefl _ (Qlt_trans _ _ _ Hlt Hp)).
      * rewrite Heq in Hp. by apply Qlt_irrefl in Hp.
    + apply Qcompare_Gt in Hp. split; [|done].
      intros _. right. split; [done|]. by left.
  - apply Qcompare_Lt in Hs. split; [done|].
    intros [Hlt|[Heq _]].
    + by apply (Qlt_irrefl _ (Qlt_trans _ _ _ Hlt Hs)).
    + rewrite Heq in Hs. by apply Qlt_irrefl in Hs.
  - apply Qcompare_Gt in Hs. split; [|done]. intros _. by left.
Qed.

#[global] Instance rank_ge_total : Total Scoring.rank_ge.
Proof.
  intros a b. rewrite !rank_ge_lex.
  destruct (Q_dec (Scoring.c_combined_score a) (Scoring.c_combined_score b))
    as [[Hlt|Hgt]|Heq]; [right; by left|left; by left|].
  destruct (Q_dec (Scoring.c_proximity_score a) (Scoring.c_proximity_score b))
    as [[Hlt|Hgt]|Heq'].
  - right. right. split; [by symmetry|]. by left.
  - left. right. split; [done|]. by left.
  - destruct (Qlt_le_dec (Scoring.c_n_overlap a) (Scoring.c_n_overlap b))
      as [Hlt|Hle].
    + right. right. split; [by symmetry|]. right.
      split; [by symmetry|]. by apply Qlt_le_weak.
    + left. right. split; [done|]. right. by split.
Qed.

#[global] Instance rank_ge_trans : Transitive Scoring.rank_ge.
Proof.
  intros a b c. rewrite !rank_ge_lex.
  intros [Hab|[Hab [Hab'|[Hab' Hab'']]]] [Hbc|[Hbc [Hbc'|[Hbc' Hbc'']]]].
  - left. by eapply Qlt_trans.
  - left. by rewrite <- Hbc.
  - left. by rewrite <- Hbc.
  - left. by rewrite Hab.
  - right. split; [by rewrite Hab|]. left. by eapply Qlt_trans.
  - right. split; [by rewrite Hab|]. left. by rewrite <- Hbc'.
  - left. by rewrite Hab.
  - right. split; [by rewrite Hab|]. left. by rewrite Hab'.
  - right. split; [by rewrite Hab|]. right.
    split; [by rewrite Hab'|]. by eapply Qle_trans.
Qed.

Lemma rank_ge_score a b :
  Scoring.rank_ge a b →
  (Scoring.c_combined_score b <= Scoring.c_combined_score a)%Q.
Proof.
  rewrite rank_ge_lex. intros [Hlt|[Heq _]].
  - by apply Qlt_le_weak.
  - rewrite Heq. apply Qle_refl.
Qed.

End rank.

(** The combined table is ranked: down the table the combined score
    never grows, and among rows with equal combined scores the proximity
    score never grows. *)
Theorem combined_table_ranked
    (overlap_df : list Scoring.overlap_row)
    (proximity_df : list Scoring.prox_row) (alpha beta : Q)
    (i j : nat) (ri rj : Scoring.combined) :
  let out :=
    Scoring.combine_overlap_and_proximity overlap_df proximity_df alpha beta in
  (i < j)%nat → out !! i = Some ri → out !! j = Some rj →
  (Scoring.c_combined_score rj <= Scoring.c_combined_score ri)%Q ∧
  ((Scoring.c_combined_score rj == Scoring.c_combined_score ri)%Q →
   (Scoring.c_proximity_score rj <= Scoring.c_proximity_score ri)%Q).
Proof.
  intros out Hij Hi Hj.
  assert (StronglySorted Scoring.rank_ge out) as Hs.
  { apply StronglySorted_sort_values; apply _. }
  pose proof (StronglySorted_lookup _ _ _ _ _ _ Hs Hij Hi Hj) as Hord.
  split; [by apply rank_ge_score|].
  intros Heq. apply rank_ge_lex in Hord as [Hlt|[_ [Hlt|[Heq' _]]]].
  - rewrite Heq in Hlt. by apply Qlt_irrefl in Hlt.
  - by apply Qlt_le_weak.
  - rewrite Heq'. apply Qle_refl.
Qed.

Lemma combined_table_ranked_witness :
  (1 # 10 <= 19 # 10)%Q ∧
  ((1 # 10 == 19 # 10)%Q → (1 # 10 <= 9 # 10)%Q).
Proof.
  apply (combined_table_ranked rt_overlap rt_proximity 1 1 0 2
           (Scoring.MkCombined "D3" "X3" (Some (Finite (1 # 9))) (9 # 10) 4
              (Some "G1;G2;G3;G4"%string) (Some 1%Q) 1 (19 # 10))
           (Scoring.MkCombined "D1" "X1" (Some (Finite 9)) (1 # 10) 0
              None None 0 (1 # 10))).
  - lia.
  - by vm_compute.
  - by vm_compute.
Defined.

(** ** The outer join of the two tables *)

Lemma NoDup_fmap_elem_inj {A B} (f : A → B) (l : list A) x y :
  NoDup (f <$> l) → x ∈ l → y ∈ l → f x = f y → x = y.
Proof.
  induction l as [|z l IH]; [by intros _ ?%elem_of_nil|].
  rewrite fmap_cons, NoDup_cons, !elem_of_cons.
  intros [Hz Hnd] [->|Hx] [->|Hy] Hf; [done| | |by apply IH].
  - exfalso. apply Hz. rewrite Hf. by apply list_elem_of_fmap_2.
  - exfalso. apply Hz. rewrite <- Hf. by apply list_elem_of_fmap_2.
Qed.

Lemma filter_key_unique {A B} `{EqDecision B} (f : A → B) (l : list A) k :
  NoDup (f <$> l) →
  filter (λ x, f x = k) l = [] ∨ ∃ x, filter (λ x, f x = k) l = [x].
Proof.
  induction l as [|z l IH]; [by left|].
  rewrite fmap_cons, NoDup_cons. intros [Hz Hnd].
  rewrite filter_cons. case_decide as Hk; [|by apply IH].
  right. exists z. f_equal.
  destruct (filter (λ x, f x = k) l) as [|y ys] eqn:Hfl; [done|].
  exfalso. apply Hz.
  assert (y ∈ filter (λ x, f x = k) l) as Hy by (rewrite Hfl; by left).
  apply list_elem_of_filter in Hy as [Hfy Hy]. simpl in Hfy.
  rewrite Hk, <- Hfy. by apply list_elem_of_fmap_2.
Qed.

Lemma fmap_bind_singleton {A B} (f : B → A) (block : A → list B)
    (keys : list A) :
  (∀ k, k ∈ keys → f <$> block k = [k]) → f <$> (keys ≫= block) = keys.
Proof.
  induction keys as [|k keys IH]; intros Hblock; [done|].
  csimpl. rewrite fmap_app, Hblock by (by left). simpl. f_equal.
  apply IH. intros k' Hk'. apply Hblock. by right.
Qed.

Section outer.
Context (proximity_df : list Scoring.prox_row).
Context (overlap_df : list Scoring.overlap_row).
Context (prox_keys : NoDup (Scoring.p_key <$> proximity_df)).
Context (overlap_keys : NoDup (Scoring.o_key <$> overlap_df)).

Local Abbreviation keys :=
  (merge_sort key_le
     (remove_dups ((Scoring.p_key <$> proximity_df)
                   ++ (Scoring.o_key <$> overlap_df)))).

Lemma elem_of_keys k :
  k ∈ keys ↔
  k ∈ Scoring.p_key <$> proximity_df ∨ k ∈ Scoring.o_key <$> overlap_df.
Proof.
  by rewrite merge_sort_Permutation, elem_of_remove_dups, elem_of_app.
Qed.

Lemma keys_NoDup : NoDup keys.
Proof. rewrite merge_sort_Permutation. apply NoDup_remove_dups. Qed.

(** With unique keys on both sides the join has one row per key. *)
Lemma merge_outer_keys :
  j_key <$> Scoring.merge_outer proximity_df overlap_df = keys.
Proof.
  unfold Scoring.merge_outer. apply fmap_bind_singleton.
  intros k Hk. apply elem_of_keys in Hk.
  destruct (filter_key_unique Scoring.p_key proximity_df k prox_keys)
    as [Hps|[p Hps]];
  destruct (filter_key_unique Scoring.o_key overlap_df k overlap_keys)
    as [Hos|[o Hos]]; rewrite Hps, Hos; simpl.
  - exfalso. destruct Hk as [Hk|Hk].
    + apply list_elem_of_fmap in Hk as (p & -> & Hp).
      eapply (filter_nil_not_elem_of _ _ p); [exact Hps|done|done].
    + apply list_elem_of_fmap in Hk as (o & -> & Ho).
      eapply (filter_nil_not_elem_of _ _ o); [exact Hos|done|done].
  - assert (o ∈ filter (λ o, Scoring.o_key o = k) overlap_df) as Ho
      by (rewrite Hos; by left).
    apply list_elem_of_filter in Ho as [<- _]. done.
  - assert (p ∈ filter (λ p, Scoring.p_key p = k) proximity_df) as Hp
      by (rewrite Hps; by left).
    apply list_elem_of_filter in Hp as [<- _]. done.
  - assert (p ∈ filter (λ p, Scoring.p_key p = k) proximity_df) as Hp
      by (rewrite Hps; by left).
    apply list_elem_of_filter in Hp as [<- _]. done.
Qed.

End outer.

(** The rows of the combination of two tables with unique keys. *)
Lemma combine_unique_keys
    (overlap_df : list Scoring.overlap_row)
    (proximity_df : list Scoring.prox_row) (alpha beta : Q) :
  NoDup (Scoring.p_key <$> proximity_df) →
  NoDup (Scoring.o_key <$> overlap_df) →
  let out :=
    Scoring.combine_overlap_and_proximity overlap_df proximity_df alpha beta in
  NoDup (Scoring.c_key <$> out) ∧
  (∀ k, k ∈ Scoring.c_key <$> out ↔
        k ∈ Scoring.p_key <$> proximity_df ∨
        k ∈ Scoring.o_key <$> overlap_df) ∧
  ∀ r, r ∈ out →
    (∀ o, o ∈ overlap_df → Scoring.o_key o = Scoring.c_key r →
       Scoring.c_n_overlap r = inject_Z (Scoring.o_n_overlap o) ∧
       Scoring.c_overlapping_genes r = Some (Scoring.o_overlapping_genes o) ∧
       Scoring.c_jaccard r = Scoring.o_jaccard o) ∧
    ((∀ o, o ∈ overlap_df → Scoring.o_key o ≠ Scoring.c_key r) →
       Scoring.c_n_overlap r = 0%Q ∧
       Scoring.c_overlapping_genes r = None ∧
       Scoring.c_jaccard r = None) ∧
    (∀ p, p ∈ proximity_df → Scoring.p_key p = Scoring.c_key r →
       Scoring.c_mean_distance r = Some (Scoring.p_mean_distance p) ∧
       Scoring.c_proximity_score r = Scoring.p_proximity_score p) ∧
    ((∀ p, p ∈ proximity_df → Scoring.p_key p ≠ Scoring.c_key r) →
       Scoring.c_mean_distance r = None ∧
       Scoring.c_proximity_score r = 0%Q).
Proof.
  intros Hpk Hok out. unfold out, Scoring.combine_overlap_and_proximity.
  set (df := Scoring.merge_outer proximity_df overlap_df).
  set (row := λ r : Scoring.joined, Scoring.MkCombined _ _ _ _ _ _ _ _ _).
  assert (Hkeys : Scoring.c_key <$> Scoring.sort_values Scoring.rank_ge
                                      (row <$> df)
                  ≡ₚ j_key <$> df).
  { rewrite sort_values_Permutation, <- list_fmap_compose. done. }
  split; [|split].
  - rewrite Hkeys. unfold df. rewrite merge_outer_keys by done.
    apply keys_NoDup.
  - intros k. rewrite Hkeys. unfold df. rewrite merge_outer_keys by done.
    apply elem_of_keys.
  - intros r Hr. rewrite sort_values_Permutation in Hr.
    apply list_elem_of_fmap in Hr as (j & -> & Hj).
    unfold Scoring.c_key. simpl.
    apply elem_of_merge_outer in Hj
      as [(p & o & Hp & Ho & Hkey & ->)|[(p & Hp & Hnone & ->)
          |(o & Ho & Hnone & ->)]]; simpl.
    + split; [|split; [|split]].
      * intros o' Ho' Hk'.
        assert (o' = o) as ->; [|done].
        apply (NoDup_fmap_elem_inj Scoring.o_key overlap_df); try done.
        rewrite Hk', <- Hkey. done.
      * intros Hno. destruct (Hno o Ho). by rewrite <- Hkey.
      * intros p' Hp' Hk'.
        assert (p' = p) as ->; [|done].
        by apply (NoDup_fmap_elem_inj Scoring.p_key proximity_df).
      * intros Hno. by destruct (Hno p Hp).
    + split; [|split; [|split]].
      * intros o Ho Hk. by destruct (Hnone o Ho).
      * done.
      * intros p' Hp' Hk'.
        assert (p' = p) as ->; [|done].
        by apply (NoDup_fmap_elem_inj Scoring.p_key proximity_df).
      * intros Hno. by destruct (Hno p Hp).
    + split; [|split; [|split]].
      * intros o' Ho' Hk'.
        assert (o' = o) as ->; [|done].
        by apply (NoDup_fmap_elem_inj Scoring.o_key overlap_df).
      * intros Hno. by destruct (Hno o Ho).
      * intros p Hp Hk. by destruct (Hnone p Hp).
      * done.
Qed.

(** The combination keeps every pair of either table, once: with unique
    keys in both tables the result has exactly one row for every pair
    that has a proximity row or an overlap row.  A row takes its overlap
    columns from the overlap row of its pair, or has the count 0 and no
    gene list and no Jaccard index; it takes its distance columns from
    the proximity row of its pair, or has no mean distance and the
    proximity score 0. *)
Theorem combine_keeps_every_pair
    (overlap_df : list Scoring.overlap_row)
    (proximity_df : list Scoring.prox_row) (alpha beta : Q) :
  NoDup (Scoring.p_key <$> proximity_df) →
  NoDup (Scoring.o_key <$> overlap_df) →
  let out :=
    Scoring.combine_overlap_and_proximity overlap_df proximity_df alpha beta in
  NoDup (Scoring.c_key <$> out) ∧
  (∀ k, k ∈ Scoring.c_key <$> out ↔
        k ∈ Scoring.p_key <$> proximity_df ∨
        k ∈ Scoring.o_key <$> overlap_df) ∧
  ∀ r, r ∈ out →
    (∀ o, o ∈ overlap_df → Scoring.o_key o = Scoring.c_key r →
       Scoring.c_n_overlap r = inject_Z (Scoring.o_n_overlap o) ∧
       Scoring.c_overlapping_genes r = Some (Scoring.o_overlapping_genes o) ∧
       Scoring.c_jaccard r = Scoring.o_jaccard o) ∧
    ((∀ o, o ∈ overlap_df → Scoring.o_key o ≠ Scoring.c_key r) →
       Scoring.c_n_overlap r = 0%Q ∧
       Scoring.c_overlapping_genes r = None ∧
       Scoring.c_jaccard r = None) ∧
    (∀ p, p ∈ proximity_df → Scoring.p_key p = Scoring.c_key r →
       Scoring.c_mean_distance r = Some (Scoring.p_mean_distance p) ∧
       Scoring.c_proximity_score r = Scoring.p_proximity_score p) ∧
    ((∀ p, p ∈ proximity_df → Scoring.p_key p ≠ Scoring.c_key r) →
       Scoring.c_mean_distance r = None ∧
       Scoring.c_proximity_score r = 0%Q).
Proof. apply combine_unique_keys. Qed.

(** The round trip: the pair (D1, X1) has a proximity row only. *)
Lemma combine_keeps_every_pair_witness :
  let out := Scoring.combine_overlap_and_proximity rt_overlap rt_proximity 1 1 in
  NoDup (Scoring.c_key <$> out) ∧
  (∀ k, k ∈ Scoring.c_key <$> out ↔
        k ∈ Scoring.p_key <$> rt_proximity ∨
        k ∈ Scoring.o_key <$> rt_overlap).
Proof.
  destruct (combine_keeps_every_pair rt_overlap rt_proximity 1 1)
    as (Hnd & Hkeys & _).
  - apply (bool_decide_unpack _). vm_compute. exact I.
  - apply (bool_decide_unpack _). vm_compute. exact I.
  - split; [exact Hnd|exact Hkeys].
Defined.

(** ** Network proximity *)

Lemma bind_Permutation_ext {A B} (f g : A → list B) (l1 l2 : list A) :
  l1 ≡ₚ l2 → (∀ x, f x ≡ₚ g x) → l1 ≫= f ≡ₚ l2 ≫= g.
Proof.
  intros Hl Hfg. rewrite <- Hl. clear Hl l2.
  induction l1 as [|x l1 IH]; [done|]. csimpl. by rewrite IH, Hfg.
Qed.

Lemma mapM_total {A B} (f : A → option B) (g : A → B) (l : list A) :
  (∀ x, x ∈ l → f x = Some (g x)) → mapM f l = Some (g <$> l).
Proof.
  intros Hfg. apply mapM_Some_2.
  induction l as [|x l IH]; [constructor|]. csimpl. constructor.
  - apply Hfg. by left.
  - apply IH. intros y Hy. apply Hfg. by right.
Qed.

Lemma graphs_symmetric (interactions : list Graphs.GeneGeneInteraction) :
  symmetric (Graphs.build_ppi_graph interactions).
Proof.
  induction interactions as [|inter l IH] using rev_ind;
    [apply symmetric_empty|].
  rewrite build_ppi_graph_snoc. by apply symmetric_add_edge.
Qed.

Section network.
Context {A : Type} (G : gmap string (gmap string A)).
Context (G_sym : symmetric G).

(** The length the library returns for two nodes is the length of a
    shortest path, and it returns none where there is no path. *)
Lemma shortest_path_length_spec t g d :
  is_Some (G !! t) →
  shortest_path_length G t g = Some d ↔ shortest G t g d.
Proof.
  intros Ht. unfold shortest_path_length.
  destruct (single_source_lengths G (symmetric_closed G G_sym) None t Ht)
    as (lengths & -> & Hspec).
  rewrite Hspec. simpl. tauto.
Qed.

Lemma elem_of_pair_distances (D S : gset string) d :
  d ∈ pair_distances elements G D S ↔
  ∃ t g, t ∈ D ∧ g ∈ S ∧ is_Some (G !! t) ∧ is_Some (G !! g) ∧
         shortest G t g d.
Proof.
  unfold pair_distances. rewrite list_elem_of_bind. split.
  - intros (t & Hd & Ht%elem_of_elements).
    apply list_elem_of_bind in Hd as (g & Hd & Hg%elem_of_elements).
    unfold Nx.has_node in Hd.
    destruct (bool_decide (is_Some (G !! t))) eqn:Hnt;
      [|by apply elem_of_nil in Hd].
    destruct (bool_decide (is_Some (G !! g))) eqn:Hng;
      [|by apply elem_of_nil in Hd].
    apply bool_decide_eq_true in Hnt, Hng. simpl in Hd.
    destruct (shortest_path_length G t g) as [d'|] eqn:Hspl;
      [|by apply elem_of_nil in Hd].
    apply list_elem_of_singleton in Hd as ->.
    apply shortest_path_length_spec in Hspl; [|done].
    by exists t, g.
  - intros (t & g & Ht & Hg & Hnt & Hng & Hsh).
    exists t. split; [|by apply elem_of_elements].
    apply list_elem_of_bind. exists g. split; [|by apply elem_of_elements].
    unfold Nx.has_node. rewrite !bool_decide_eq_true_2 by done. simpl.
    apply shortest_path_length_spec in Hsh; [|done]. rewrite Hsh.
    by left.
Qed.

End network.

Section order_free.
Context {A : Type} (G : gmap string (gmap string A)).
Context (set_iter : gset string → list string).
Context (set_iter_perm : ∀ X, set_iter X ≡ₚ elements X).

Lemma pair_distances_perm (D S : gset string) :
  pair_distances set_iter G D S ≡ₚ pair_distances elements G D S.
Proof.
  unfold pair_distances. apply bind_Permutation_ext; [done|].
  intros t. by apply bind_Permutation_ext.
Qed.

Lemma np_mean_perm ds ds' : ds ≡ₚ ds' → np_mean ds = np_mean ds'.
Proof. intros Hp. unfold np_mean. by rewrite Hp. Qed.

Lemma np_mean_nonneg ds : ds ≠ [] → (0 <= np_mean ds)%Q.
Proof.
  intros Hne. unfold np_mean. apply true_div_nonneg; [lia|].
  destruct ds; [done|]. simpl. lia.
Qed.

Lemma network_mean_distance_nonneg default_distance (D S : gset string) :
  (0 <= default_distance)%Q →
  (0 <= network_mean_distance G default_distance D S)%Q.
Proof.
  intros Hd. unfold network_mean_distance.
  simpl.
  destruct (pair_distances elements G D S) as [|d ds] eqn:Heq; [done|].
  by apply np_mean_nonneg.
Qed.

(** The row of a pair does not depend on the order in which the sets
    are iterated, and with a default distance that is not negative the
    division does not fail. *)
Lemma proximity_row_canonical default_distance drug disease :
  (0 <= default_distance)%Q →
  proximity_row set_iter G default_distance drug disease
  = Some (network_row G default_distance (drug, disease)).
Proof.
  intros Hd. unfold proximity_row, network_row, network_mean_distance. simpl.
  pose proof (pair_distances_perm drug.2 disease.2) as Hp.
  assert ((match pair_distances set_iter G drug.2 disease.2 with
           | [] => default_distance
           | _ :: _ => np_mean (pair_distances set_iter G drug.2 disease.2)
           end) =
          (match pair_distances elements G drug.2 disease.2 with
           | [] => default_distance
           | _ :: _ => np_mean (pair_distances elements G drug.2 disease.2)
           end)) as Hmd.
  { destruct (pair_distances set_iter G drug.2 disease.2) as [|d ds] eqn:H1.
    - apply Permutation_nil_l in Hp. by rewrite <- Hp.
    - destruct (pair_distances elements G drug.2 disease.2) as [|d' ds'] eqn:H2.
      + by apply Permutation_nil_r in Hp.
      + by apply np_mean_perm. }
  rewrite Hmd.
  set (md := match pair_distances elements G drug.2 disease.2 with
             | [] => default_distance
             | _ :: _ => np_mean (pair_distances elements G drug.2 disease.2)
             end).
  assert (0 <= md)%Q as Hmd0.
  { apply (network_mean_distance_nonneg default_distance drug.2 disease.2 Hd). }
  rewrite decide_False; [done|].
  intros H0. pose proof (one_plus_pos md Hmd0) as Hpos.
  rewrite H0 in Hpos. by apply Qlt_irrefl in Hpos.
Qed.

Lemma compute_network_proximity_rows default_distance
    (drug_to_genes disease_to_genes : list (string * gset string)) :
  (0 <= default_distance)%Q →
  compute_network_proximity set_iter G drug_to_genes disease_to_genes
    default_distance
  = Some (merge_sort prox_order
            (network_row G default_distance
               <$> list_prod drug_to_genes disease_to_genes)).
Proof.
  intros Hd. unfold compute_network_proximity.
  rewrite (mapM_total _ (network_row G default_distance)).
  - done.
  - intros [drug disease] _. by apply proximity_row_canonical.
Qed.

End order_free.

Lemma NoDup_list_prod {A B} (l : list A) (k : list B) :
  NoDup l → NoDup k → NoDup (list_prod l k).
Proof.
  intros Hl Hk. induction Hl as [|x l Hx Hl IH]; [constructor|].
  simpl. apply NoDup_app. split; [|split; [|done]].
  - change (map (pair x) k) with (pair x <$> k).
    apply NoDup_fmap_2; [|done]. by intros y1 y2 [= ->].
  - intros [x' y] Hin1 Hin2.
    change (map (pair x) k) with (pair x <$> k) in Hin1.
    apply list_elem_of_fmap in Hin1 as (y' & [= -> ->] & _).
    rewrite <- list_cprod_list_prod in Hin2.
    apply list_elem_of_cprod in Hin2 as [Hin2 _]. done.
Qed.

Lemma fmap_list_prod {A B C D} (f : A → C) (g : B → D) (l : list A)
    (k : list B) :
  (λ x : A * B, (f x.1, g x.2)) <$> list_prod l k
  = list_prod (f <$> l) (g <$> k).
Proof.
  induction l as [|x l IH]; [done|]. simpl.
  rewrite fmap_app, IH. f_equal.
  change (map (pair x) k) with (pair x <$> k).
  change (map (pair (f x)) (g <$> k)) with (pair (f x) <$> (g <$> k)).
  by rewrite <- !list_fmap_compose.
Qed.

Section prox_order.

Lemma prox_order_lex a b :
  prox_order a b ↔
  (Scoring.p_proximity_score b < Scoring.p_proximity_score a)%Q ∨
  ((Scoring.p_proximity_score b == Scoring.p_proximity_score a)%Q ∧
   key_le (Scoring.p_key a) (Scoring.p_key b)).
Proof.
  unfold prox_order. destruct (_ ?= _)%Q eqn:Hc.
  - apply Qcompare_Eq in Hc. split; [by right|].
    intros [Hlt|[_ ?]]; [|done]. rewrite Hc in Hlt.
    by apply Qlt_irrefl in Hlt.
  - apply Qcompare_Lt in Hc. split; [by left|done].
  - apply Qcompare_Gt in Hc. split; [done|]. intros [Hlt|[Heq _]].
    + by apply (Qlt_irrefl _ (Qlt_trans _ _ _ Hlt Hc)).
    + rewrite Heq in Hc. by apply Qlt_irrefl in Hc.
Qed.

#[global] Instance prox_order_total : Total prox_order.
Proof.
  intros a b. rewrite !prox_order_lex.
  destruct (Q_dec (Scoring.p_proximity_score a) (Scoring.p_proximity_score b))
    as [[Hlt|Hgt]|Heq]; [right; by left|left; by left|].
  destruct (key_le_total (Scoring.p_key a) (Scoring.p_key b)).
  - left. right. split; [by symmetry|done].
  - right. right. by split.
Qed.

#[global] Instance prox_order_trans : Transitive prox_order.
Proof.
  intros a b c. rewrite !prox_order_lex.
  intros [Hab|[Hab Hab']] [Hbc|[Hbc Hbc']].
  - left. by eapply Qlt_trans.
  - left. by rewrite Hbc.
  - left. by rewrite <- Hab.
  - right. split; [by rewrite Hbc|]. by eapply key_le_trans.
Qed.

End prox_order.

Lemma network_rows_keys {A : Type} (G : gmap string (gmap string A))
    (default_distance : Q)
    (drug_to_genes disease_to_genes : list (string * gset string)) :
  Scoring.p_key <$> merge_sort prox_order
                      (network_row G default_distance
                         <$> list_prod drug_to_genes disease_to_genes)
  ≡ₚ list_prod drug_to_genes.*1 disease_to_genes.*1.
Proof.
  rewrite merge_sort_Permutation.
  rewrite <- list_fmap_compose, <- fmap_list_prod. done.
Qed.

Lemma network_row_scores {A : Type} (G : gmap string (gmap string A))
    (default_distance : Q) items :
  (0 <= default_distance)%Q →
  ∃ q, Scoring.p_mean_distance (network_row G default_distance items)
         = Finite q ∧ (0 <= q)%Q ∧
       Scoring.p_proximity_score (network_row G default_distance items)
         = Qred (1 / (1 + q)) ∧
       (0 < Scoring.p_proximity_score (network_row G default_distance items))%Q ∧
       (Scoring.p_proximity_score (network_row G default_distance items) <= 1)%Q.
Proof.
  intros Hd. unfold network_row. simpl.
  set (q := network_mean_distance G default_distance items.1.2 items.2.2).
  assert (0 <= q)%Q as Hq by (by apply network_mean_distance_nonneg).
  exists q. split; [done|]. split; [done|]. split; [done|].
  apply (proximity_score_finite q Hq).
Qed.

(** [compute_network_proximity] with a default distance that is not
    negative returns a table with exactly one row for every pair of a
    drug and a disease of the two dictionaries, evidence or not.  The
    mean distance of a row is not negative and its proximity score,
    1 / (1 + mean distance), is above 0 and at most 1. *)
Theorem network_proximity_rows {A : Type}
    (set_iter : gset string → list string) (G : gmap string (gmap string A))
    (drug_to_genes disease_to_genes : list (string * gset string))
    (default_distance : Q) :
  (∀ X, set_iter X ≡ₚ elements X) →
  (0 <= default_distance)%Q →
  NoDup drug_to_genes.*1 → NoDup disease_to_genes.*1 →
  ∃ out,
    compute_network_proximity set_iter G drug_to_genes disease_to_genes
      default_distance = Some out ∧
    length out = (length drug_to_genes * length disease_to_genes)%nat ∧
    NoDup (Scoring.p_key <$> out) ∧
    (∀ d s, (d, s) ∈ Scoring.p_key <$> out ↔
            d ∈ drug_to_genes.*1 ∧ s ∈ disease_to_genes.*1) ∧
    ∀ r, r ∈ out →
      ∃ q, Scoring.p_mean_distance r = Finite q ∧ (0 <= q)%Q ∧
           Scoring.p_proximity_score r = Qred (1 / (1 + q)) ∧
           (0 < Scoring.p_proximity_score r)%Q ∧
           (Scoring.p_proximity_score r <= 1)%Q.
Proof.
  intros Hperm Hd Hnd1 Hnd2.
  rewrite (compute_network_proximity_rows G set_iter Hperm) by done.
  eexists. split; [done|].
  set (rows := network_row G default_distance
                 <$> list_prod drug_to_genes disease_to_genes).
  assert (Hkeys : Scoring.p_key <$> merge_sort prox_order rows
                  ≡ₚ list_prod drug_to_genes.*1 disease_to_genes.*1).
  { rewrite merge_sort_Permutation. unfold rows.
    rewrite <- list_fmap_compose, <- fmap_list_prod. done. }
  split; [|split; [|split]].
  - rewrite merge_sort_Permutation. unfold rows.
    by rewrite length_fmap, length_prod.
  - rewrite Hkeys. by apply NoDup_list_prod.
  - intros d s. rewrite Hkeys, <- list_cprod_list_prod.
    by rewrite list_elem_of_cprod.
  - intros r Hr. rewrite merge_sort_Permutation in Hr.
    apply list_elem_of_fmap in Hr as ([drug disease] & -> & _).
    unfold network_row. simpl.
    set (q := network_mean_distance G default_distance drug.2 disease.2).
    assert (0 <= q)%Q as Hq by (by apply network_mean_distance_nonneg).
    exists q. split; [done|]. split; [done|]. split; [done|].
    apply (proximity_score_finite q Hq).
Qed.

Lemma network_proximity_rows_witness :
  ∃ out,
    compute_network_proximity elements
      (Graphs.build_ppi_graph reversed_duplicate)
      [("D1", {["A"]}); ("D2", {["Z"]})]%string [("X1", {["B"]})]%string 5
    = Some out ∧
    length out = 2%nat.
Proof.
  destruct (network_proximity_rows elements
              (Graphs.build_ppi_graph reversed_duplicate)
              [("D1", {["A"]}); ("D2", {["Z"]})]%string
              [("X1", {["B"]})]%string 5)
    as (out & Hout & Hlen & _).
  - reflexivity.
  - discriminate.
  - apply (bool_decide_unpack _). vm_compute. exact I.
  - apply (bool_decide_unpack _). vm_compute. exact I.
  - exists out. split; [exact Hout|exact Hlen].
Defined.

(** The mean distance of a pair in the table of
    [compute_network_proximity], over the graph of [build_ppi_graph]: it
    is the same for every iteration order of the gene sets; it is the
    default distance when no target of the drug is connected to a gene of
    the disease; and for a drug with the one target [t] and a disease
    with the one gene [g], both nodes of the graph and connected, it is
    the length of a shortest path from [t] to [g]. *)
Theorem network_proximity_mean_distance
    (set_iter : gset string → list string)
    (interactions : list Graphs.GeneGeneInteraction)
    (drug_to_genes disease_to_genes : list (string * gset string))
    (default_distance : Q) (d s : string) (D S : gset string) :
  (∀ X, set_iter X ≡ₚ elements X) →
  (0 <= default_distance)%Q →
  (d, D) ∈ drug_to_genes → (s, S) ∈ disease_to_genes →
  let G := Graphs.build_ppi_graph interactions in
  ∃ out r,
    compute_network_proximity set_iter G drug_to_genes disease_to_genes
      default_distance = Some out ∧
    r ∈ out ∧ Scoring.p_key r = (d, s) ∧
    Scoring.p_mean_distance r
      = Finite (network_mean_distance G default_distance D S) ∧
    ((∀ t g n, t ∈ D → g ∈ S → is_Some (G !! t) → is_Some (G !! g) →
               ¬ walk G n t g) →
     Scoring.p_mean_distance r = Finite default_distance) ∧
    (∀ t g n, D = {[t]} → S = {[g]} →
       is_Some (G !! t) → is_Some (G !! g) → shortest G t g n →
       ∃ q, Scoring.p_mean_distance r = Finite q ∧
            (q == inject_Z (Z.of_nat n))%Q).
Proof.
  intros Hperm Hd HD HS G.
  rewrite (compute_network_proximity_rows G set_iter Hperm) by done.
  exists (merge_sort prox_order
            (network_row G default_distance
               <$> list_prod drug_to_genes disease_to_genes)),
         (network_row G default_distance ((d, D), (s, S))).
  split; [done|]. split; [|split; [done|split; [done|split]]].
  - rewrite merge_sort_Permutation. apply list_elem_of_fmap_2.
    rewrite <- list_cprod_list_prod. by apply list_elem_of_cprod.
  - intros Hno. simpl. f_equal. unfold network_mean_distance. simpl.
    destruct (pair_distances elements G D S) as [|x xs] eqn:Heq; [done|].
    exfalso.
    assert (x ∈ pair_distances elements G D S) as Hx
      by (rewrite Heq; by left).
    apply (elem_of_pair_distances G (graphs_symmetric interactions)) in Hx
      as (t & g & Ht & Hg & Hnt & Hng & [Hw _]).
    by apply (Hno t g x).
  - intros t g n -> -> Hnt Hng Hsh. simpl.
    unfold network_mean_distance, pair_distances. simpl.
    rewrite !elements_singleton. simpl.
    unfold Nx.has_node. rewrite !bool_decide_eq_true_2 by done. simpl.
    apply (shortest_path_length_spec G (graphs_symmetric interactions)) in Hsh;
      [|done].
    rewrite Hsh. simpl. eexists. split; [done|].
    unfold np_mean. simpl. rewrite Nat.add_0_r. apply true_div_one.
Qed.

(** The two interacting genes A and B as the only target and the only
    disease gene: distance 1. *)
Lemma network_proximity_mean_distance_witness :
  ∃ out r q,
    compute_network_proximity elements
      (Graphs.build_ppi_graph reversed_duplicate)
      [("D1", {["A"]})]%string [("X1", {["B"]})]%string 5 = Some out ∧
    r ∈ out ∧ Scoring.p_key r = ("D1", "X1")%string ∧
    Scoring.p_mean_distance r = Finite q ∧ (q == 1)%Q.
Proof.
  destruct (network_proximity_mean_distance elements reversed_duplicate
              [("D1", {["A"]})]%string [("X1", {["B"]})]%string 5
              "D1" "X1" {["A"%string]} {["B"%string]})
    as (out & r & Hout & Hr & Hkey & _ & _ & Hone).
  - reflexivity.
  - discriminate.
  - by left.
  - by left.
  - destruct (Hone "A" "B" 1%nat)%string as (q & Hq & Heq).
    + reflexivity.
    + reflexivity.
    + vm_compute. by eexists.
    + vm_compute. by eexists.
    + split.
      * eapply walk_step; [|constructor]. vm_compute. reflexivity.
      * intros d' Hw. destruct d' as [|d']; [|lia]. inversion Hw.
    + exists out, r, q.
      split; [exact Hout|]. split; [exact Hr|]. split; [exact Hkey|].
      split; [exact Hq|exact Heq].
Defined.

(** The proximity table is ranked: down the table the proximity score
    never grows, and rows with equal scores follow each other in the
    order of their identifiers. *)
Theorem network_proximity_ranked {A : Type}
    (set_iter : gset string → list string) (G : gmap string (gmap string A))
    (drug_to_genes disease_to_genes : list (string * gset string))
    (default_distance : Q) (out : list Scoring.prox_row)
    (i j : nat) (ri rj : Scoring.prox_row) :
  compute_network_proximity set_iter G drug_to_genes disease_to_genes
    default_distance = Some out →
  (i < j)%nat → out !! i = Some ri → out !! j = Some rj →
  (Scoring.p_proximity_score rj <= Scoring.p_proximity_score ri)%Q ∧
  ((Scoring.p_proximity_score rj == Scoring.p_proximity_score ri)%Q →
   key_le (Scoring.p_key ri) (Scoring.p_key rj)).
Proof.
  unfold compute_network_proximity. intros Hout Hij Hi Hj.
  destruct (mapM _ _) as [rows|]; [|done]. simpl in Hout.
  injection Hout as <-.
  assert (StronglySorted prox_order (merge_sort prox_order rows)) as Hs.
  { apply StronglySorted_merge_sort; apply _. }
  pose proof (StronglySorted_lookup _ _ _ _ _ _ Hs Hij Hi Hj) as Hord.
  apply prox_order_lex in Hord as [Hlt|[Heq Hkey]].
  - split; [by apply Qlt_le_weak|]. intros Heq. rewrite Heq in Hlt.
    by apply Qlt_irrefl in Hlt.
  - split; [|done]. rewrite Heq. apply Qle_refl.
Qed.

Lemma network_proximity_ranked_witness :
  (1 # 6 <= 1 # 2)%Q ∧
  ((1 # 6 == 1 # 2)%Q → key_le ("D1", "X1")%string ("D2", "X1")%string).
Proof.
  apply (network_proximity_ranked elements
           (Graphs.build_ppi_graph reversed_duplicate)
           [("D2", {["Z"]}); ("D1", {["A"]})]%string [("X1", {["B"]})]%string 5
           [Scoring.MkProx "D1" "X1" (Finite 1) (1 # 2);
            Scoring.MkProx "D2" "X1" (Finite 5) (1 # 6)] 0 1
           (Scoring.MkProx "D1" "X1" (Finite 1) (1 # 2))
           (Scoring.MkProx "D2" "X1" (Finite 5) (1 # 6))).
  - by vm_compute.
  - lia.
  - reflexivity.
  - reflexivity.
Defined.

(** ** Entity names *)

Lemma foldl_insert_last {A} (key : A → string) (val : A → string)
    (l : list A) k :
  foldl (λ m d, <[key d := val d]> m) (∅ : gmap string string) l !! k
  = last (val <$> filter (λ d, key d = k) l).
Proof.
  induction l as [|d l IH] using rev_ind; [done|].
  rewrite foldl_app, filter_app, fmap_app. simpl.
  rewrite filter_cons, filter_nil.
  destruct (decide (key d = k)) as [<-|Hne].
  - rewrite lookup_insert_eq. simpl. by rewrite last_snoc.
  - rewrite lookup_insert_ne by done. simpl. by rewrite app_nil_r.
Qed.

Lemma attach_rows {A : Type} (key : A → string * string)
    (df : list A) (drugs : list Drug.t) (diseases : list Disease.t) :
  let out := attach_entity_names key df drugs diseases in
  n_row <$> out = df ∧
  ∀ x, x ∈ out →
    n_drug_name x
      = last (Drug.name <$>
              filter (λ d, Drug.id d = (key (n_row x)).1) drugs) ∧
    n_disease_name x
      = last (Disease.name <$>
              filter (λ d, Disease.id d = (key (n_row x)).2) diseases).
Proof.
  simpl. unfold attach_entity_names. split.
  - rewrite <- list_fmap_compose. apply list_fmap_id.
  - intros x (r & -> & _)%list_elem_of_fmap. simpl.
    unfold drug_names, disease_names.
    by rewrite (foldl_insert_last Drug.id Drug.name),
               (foldl_insert_last Disease.id Disease.name).
Qed.

(** [attach_entity_names] keeps the rows and their order, and names each
    row after the last drug, and the last disease, of the lists that has
    its identifier; an identifier that no entry of the list has gets no
    name (NaN). *)
Theorem attach_entity_names_lookup {A : Type} (key : A → string * string)
    (df : list A) (drugs : list Drug.t) (diseases : list Disease.t) :
  let out := attach_entity_names key df drugs diseases in
  n_row <$> out = df ∧
  ∀ x, x ∈ out →
    n_drug_name x
      = last (Drug.name <$>
              filter (λ d, Drug.id d = (key (n_row x)).1) drugs) ∧
    n_disease_name x
      = last (Disease.name <$>
              filter (λ d, Disease.id d = (key (n_row x)).2) diseases).
Proof. apply attach_rows. Qed.

(** ** The pipelines *)

Lemma list_prod_nil_r {A B} (l : list A) : list_prod l (@nil B) = [].
Proof. induction l as [|x l IH]; [done|]. by simpl. Qed.

Lemma compute_network_proximity_no_items {A : Type}
    (set_iter : gset string → list string) (G : gmap string (gmap string A))
    (drug_to_genes disease_to_genes : list (string * gset string))
    (default_distance : Q) :
  drug_to_genes = [] ∨ disease_to_genes = [] →
  compute_network_proximity set_iter G drug_to_genes disease_to_genes
    default_distance = Some [].
Proof.
  unfold compute_network_proximity.
  intros [-> | ->]; [done|]. by rewrite list_prod_nil_r.
Qed.

Lemma compute_overlap_table_fast_nil_r dts :
  Scoring.compute_overlap_table_fast dts []
  = Scoring.MkDataFrame Scoring.overlap_columns [].
Proof. by destruct dts. Qed.

(** Without drug-target associations, or without gene-disease
    associations, the proximity table has no rows and hence no columns,
    and the merge on [drug_id] and [disease_id] fails: the toy pipeline,
    and the CSV pipeline with interactions, end with [KeyError].  The CSV
    pipeline without interactions returns the empty overlap table. *)
Theorem pipelines_without_associations
    (set_iter : gset string → list string)
    (drugs : list Drug.t) (diseases : list Disease.t)
    (dts : list Scoring.DrugTargetAssoc) (gds : list Scoring.GeneDiseaseAssoc)
    (inter : Graphs.GeneGeneInteraction)
    (ppis : list Graphs.GeneGeneInteraction) (alpha beta : Q) :
  dts = [] ∨ gds = [] →
  Pipeline.run_toy_pipeline set_iter drugs diseases dts gds ppis alpha beta
    = inl Pipeline.KeyError ∧
  Pipeline.run_csv_pipeline set_iter drugs diseases dts gds (inter :: ppis)
    alpha beta = inl Pipeline.KeyError ∧
  Pipeline.run_csv_pipeline set_iter drugs diseases dts gds [] alpha beta
    = inr [].
Proof.
  intros Hnil.
  assert (Scoring.build_drug_target_map dts = []
          ∨ Scoring.build_disease_gene_map gds = []) as Hmaps.
  { destruct Hnil as [-> | ->]; [by left|by right]. }
  assert (Scoring.compute_overlap_table_fast dts gds
          = Scoring.MkDataFrame Scoring.overlap_columns []) as Hov.
  { destruct Hnil as [-> | ->]; [done|].
    apply compute_overlap_table_fast_nil_r. }
  unfold Pipeline.run_toy_pipeline, Pipeline.run_csv_pipeline.
  rewrite !(compute_network_proximity_no_items set_iter _ _ _ 5 Hmaps).
  by rewrite Hov.
Qed.

Lemma pipelines_without_associations_witness :
  Pipeline.run_toy_pipeline elements [] [] [] ex_gene_diseases
    reversed_duplicate 1 1 = inl Pipeline.KeyError.
Proof.
  apply (pipelines_without_associations elements [] [] [] ex_gene_diseases
           (Graphs.MkInteraction "A" "B" None "ppi") reversed_duplicate 1 1).
  by left.
Defined.

(** *** The tables the pipelines combine *)

Lemma fast_table_naive (dts : list Scoring.DrugTargetAssoc)
    (gds : list Scoring.GeneDiseaseAssoc) :
  Scoring.df_rows (Scoring.compute_overlap_table_fast dts gds) =
  Scoring.df_rows
    (Scoring.compute_overlap_table
       (Scoring.build_drug_target_map dts)
       (Scoring.build_disease_gene_map gds)).
Proof. by rewrite compute_overlap_table_fast_frame. Qed.

(** The frame of the vectorized computation has its columns. *)
Lemma fast_table_frame (dts : list Scoring.DrugTargetAssoc)
    (gds : list Scoring.GeneDiseaseAssoc) :
  Scoring.compute_overlap_table_fast dts gds =
  Scoring.MkDataFrame Scoring.overlap_columns
    (Scoring.df_rows (Scoring.compute_overlap_table_fast dts gds)).
Proof. by rewrite compute_overlap_table_fast_frame at 1 2. Qed.

Section combine_rows.
Context (overlap_df : list Scoring.overlap_row).
Context (proximity_df : list Scoring.prox_row) (alpha beta : Q).

Local Abbreviation out :=
  (Scoring.combine_overlap_and_proximity overlap_df proximity_df alpha beta).
Local Abbreviation batch_max :=
  (default 0%Q
     (Scoring.series_max
        ((λ j, default 0%Q (Scoring.j_n_overlap j))
           <$> Scoring.merge_outer proximity_df overlap_df))).

Lemma combine_row_scores r :
  r ∈ out →
  (Scoring.c_n_overlap r <= batch_max)%Q ∧
  Scoring.c_norm_overlap r
    = (if decide (0 < batch_max)%Q
       then Qred (Scoring.c_n_overlap r / batch_max) else 0%Q) ∧
  Scoring.c_combined_score r
    = Qred (alpha * Scoring.c_norm_overlap r
            + beta * Scoring.c_proximity_score r).
Proof.
  unfold Scoring.combine_overlap_and_proximity.
  rewrite sort_values_Permutation.
  intros (j & -> & Hj)%list_elem_of_fmap. simpl.
  split; [|done].
  pose proof (series_max_is_batch_max
    ((λ j, default 0%Q (Scoring.j_n_overlap j))
       <$> Scoring.merge_outer proximity_df overlap_df)) as [_ Hub].
  eapply Forall_forall in Hub; [exact Hub|].
  apply list_elem_of_fmap. eauto.
Qed.

Lemma combine_batch_max :
  is_batch_max batch_max (Scoring.c_n_overlap <$> out).
Proof.
  eapply is_batch_max_perm; [|apply series_max_is_batch_max].
  unfold Scoring.combine_overlap_and_proximity.
  rewrite sort_values_Permutation, <- list_fmap_compose. done.
Qed.

End combine_rows.

Lemma fast_table_row (dts : list Scoring.DrugTargetAssoc)
    (gds : list Scoring.GeneDiseaseAssoc) (o : Scoring.overlap_row) :
  o ∈ Scoring.df_rows (Scoring.compute_overlap_table_fast dts gds) ↔
  is_overlap_row
    ((λ a, (Scoring.dt_drug_id a, Scoring.dt_gene_id a)) <$> dts)
    ((λ a, (Scoring.gd_gene_id a, Scoring.gd_disease_id a)) <$> gds) o.
Proof. rewrite fast_table_naive. apply elem_of_table. Qed.

Lemma fast_table_keys_NoDup (dts : list Scoring.DrugTargetAssoc)
    (gds : list Scoring.GeneDiseaseAssoc) :
  NoDup (Scoring.o_key
           <$> Scoring.df_rows (Scoring.compute_overlap_table_fast dts gds)).
Proof. rewrite fast_table_naive. apply table_keys_NoDup. Qed.

Lemma fast_table_count (dts : list Scoring.DrugTargetAssoc)
    (gds : list Scoring.GeneDiseaseAssoc) (o : Scoring.overlap_row) :
  o ∈ Scoring.df_rows (Scoring.compute_overlap_table_fast dts gds) →
  1 ≤ Scoring.o_n_overlap o.
Proof.
  intros (d & s & Hne & ->)%fast_table_row. unfold overlap_row_of. simpl.
  assert (size (values_of ((λ a, (Scoring.dt_drug_id a, Scoring.dt_gene_id a))
                             <$> dts) d
                ∩ values_of ((λ r : string * string, (r.2, r.1)) <$>
                             ((λ a, (Scoring.gd_gene_id a,
                                     Scoring.gd_disease_id a)) <$> gds)) s)
          ≠ 0)%nat; [|lia].
  apply size_non_empty_iff. by intros ?%leibniz_equiv.
Qed.

Lemma pipeline_combine_rows (overlap_df : list Scoring.overlap_row)
    (prox_df : list Scoring.prox_row) (alpha beta : Q) :
  prox_df ≠ [] →
  Pipeline.combine (Scoring.MkDataFrame Scoring.overlap_columns overlap_df)
    prox_df alpha beta
  = inr (Scoring.combine_overlap_and_proximity overlap_df prox_df alpha beta).
Proof. by destruct prox_df. Qed.

(** Without interactions the CSV pipeline ranks the overlapping pairs by
    their overlap alone: the result has one row for every row of the
    overlap table and no other, with its overlap columns; the mean
    distance of every row is +infinity and its proximity score 0, and its
    combined score is alpha times its overlap count divided by the
    largest overlap count of the table. *)
Theorem csv_pipeline_without_interactions
    (set_iter : gset string → list string)
    (drugs : list Drug.t) (diseases : list Disease.t)
    (dts : list Scoring.DrugTargetAssoc) (gds : list Scoring.GeneDiseaseAssoc)
    (alpha beta : Q) :
  let overlap_df :=
    Scoring.df_rows (Scoring.compute_overlap_table_fast dts gds) in
  ∃ out M,
    Pipeline.run_csv_pipeline set_iter drugs diseases dts gds [] alpha beta
    = inr out ∧
    Scoring.c_key ∘ n_row <$> out ≡ₚ Scoring.o_key <$> overlap_df ∧
    is_batch_max M (Scoring.c_n_overlap ∘ n_row <$> out) ∧
    ∀ x, x ∈ out →
      let r := n_row x in
      Scoring.c_mean_distance r = Some Inf ∧
      Scoring.c_proximity_score r = 0%Q ∧
      (∃ o, o ∈ overlap_df ∧ Scoring.o_key o = Scoring.c_key r ∧
            Scoring.c_n_overlap r = inject_Z (Scoring.o_n_overlap o) ∧
            Scoring.c_overlapping_genes r
              = Some (Scoring.o_overlapping_genes o) ∧
            Scoring.c_jaccard r = Scoring.o_jaccard o) ∧
      (1 <= Scoring.c_n_overlap r)%Q ∧ (0 < M)%Q ∧
      (Scoring.c_combined_score r == alpha * (Scoring.c_n_overlap r / M))%Q.
Proof.
  intros overlap_df. unfold Pipeline.run_csv_pipeline.
  rewrite (fast_table_frame dts gds). fold overlap_df.
  destruct overlap_df as [|o0 os] eqn:Hov.
  { exists [], 0%Q. split; [done|]. split; [done|]. split.
    - split; [by right|constructor].
    - by intros x ?%elem_of_nil. }
  rewrite <- Hov.
  replace (Scoring.df_empty
             (Scoring.MkDataFrame Scoring.overlap_columns overlap_df))
    with false by (by rewrite Hov).
  cbn [Scoring.df_rows].
  set (prox_df := (λ o, Scoring.MkProx (Scoring.o_drug_id o)
                          (Scoring.o_disease_id o) Inf 0) <$> overlap_df).
  assert (Hpk : Scoring.p_key <$> prox_df = Scoring.o_key <$> overlap_df).
  { unfold prox_df. by rewrite <- list_fmap_compose. }
  assert (Hnd : NoDup (Scoring.o_key <$> overlap_df)).
  { unfold overlap_df. apply fast_table_keys_NoDup. }
  rewrite (pipeline_combine_rows overlap_df prox_df).
  2:{ unfold prox_df. by rewrite Hov. }
  set (comb := Scoring.combine_overlap_and_proximity overlap_df prox_df
                 alpha beta).
  destruct (combine_unique_keys overlap_df prox_df alpha beta)
    as (Hcnd & Hckeys & Hrows); [by rewrite Hpk|done|]. fold comb in Hcnd, Hckeys, Hrows.
  destruct (attach_rows Scoring.c_key comb drugs diseases) as [Hattach _].
  set (M := default 0%Q (Scoring.series_max
              ((λ j, default 0%Q (Scoring.j_n_overlap j))
                 <$> Scoring.merge_outer prox_df overlap_df))).
  exists (attach_entity_names Scoring.c_key comb drugs diseases), M.
  split; [done|].
  rewrite !list_fmap_compose, Hattach.
  split; [|split].
  - apply NoDup_Permutation; [done..|].
    intros k. rewrite Hckeys, Hpk. tauto.
  - apply combine_batch_max.
  - intros x Hx. cbv zeta.
    assert (n_row x ∈ comb) as Hr.
    { rewrite <- Hattach. by apply list_elem_of_fmap_2. }
    set (r := n_row x) in *.
    assert (Scoring.c_key r ∈ Scoring.o_key <$> overlap_df) as Hk.
    { assert (Scoring.c_key r ∈ Scoring.c_key <$> comb) as Hin
        by (by apply list_elem_of_fmap_2).
      apply Hckeys in Hin. rewrite Hpk in Hin. tauto. }
    apply list_elem_of_fmap in Hk as (o & Hko & Ho).
    destruct (Hrows r Hr) as (Hov1 & _ & Hpr1 & _).
    destruct (Hov1 o Ho (eq_sym Hko)) as (Hn & Hgenes & Hjac).
    destruct (Hpr1 (Scoring.MkProx (Scoring.o_drug_id o)
                      (Scoring.o_disease_id o) Inf 0%Q)) as [Hmd Hps].
    { unfold prox_df. apply list_elem_of_fmap. by exists o. }
    { by rewrite Hko. }
    simpl in Hmd, Hps.
    assert (1 <= Scoring.c_n_overlap r)%Q as Hn1.
    { rewrite Hn. replace 1%Q with (inject_Z 1) by done.
      rewrite <- Zle_Qle. by apply (fast_table_count dts gds). }
    destruct (combine_row_scores overlap_df prox_df alpha beta r Hr)
      as (HnM & Hnorm & Hscore).
    fold M in HnM, Hnorm.
    assert (0 < M)%Q as HM.
    { eapply Qlt_le_trans; [|exact HnM].
      eapply Qlt_le_trans; [|exact Hn1]. done. }
    split; [done|]. split; [done|]. split; [by exists o|].
    split; [done|]. split; [done|].
    rewrite Hscore, Qred_correct, Hnorm, Hps.
    rewrite decide_True by done. rewrite Qred_correct.
    rewrite Qmult_0_r, Qplus_0_r. done.
Qed.

(** The toy associations without interactions: the pairs (D2, DIS1) and
    (D2, DIS2) tie on the combined score, the proximity score and the
    overlap count, and keep the order of their keys in the merged
    frame. *)
Example csv_pipeline_tied_rows :
  ∃ out,
    Pipeline.run_csv_pipeline elements [] [] ex_drug_targets ex_gene_diseases
      [] 1 1 = inr out ∧
    Scoring.c_key ∘ n_row <$> out
    = [("D1", "DIS1"); ("D2", "DIS1"); ("D2", "DIS2")]%string.
Proof. eexists. split; by vm_compute. Qed.

Lemma build_drug_target_map_nil dts :
  Scoring.build_drug_target_map dts = [] → dts = [].
Proof.
  rewrite build_drug_target_map_grouped. intros Hnil.
  destruct dts as [|a dts]; [done|]. exfalso.
  destruct (grouped_spec ((λ a, (Scoring.dt_drug_id a, Scoring.dt_gene_id a))
                            <$> a :: dts)) as (_ & Hkeys & _).
  assert (Scoring.dt_drug_id a ∈
          (grouped ((λ a, (Scoring.dt_drug_id a, Scoring.dt_gene_id a))
                      <$> a :: dts)).*1) as Hin.
  { apply Hkeys. csimpl. by left. }
  rewrite Hnil in Hin. by apply elem_of_nil in Hin.
Qed.

Lemma build_disease_gene_map_nil gds :
  Scoring.build_disease_gene_map gds = [] → gds = [].
Proof.
  rewrite build_disease_gene_map_grouped. intros Hnil.
  destruct gds as [|a gds]; [done|]. exfalso.
  destruct (grouped_spec ((λ a, (Scoring.gd_disease_id a, Scoring.gd_gene_id a))
                            <$> a :: gds)) as (_ & Hkeys & _).
  assert (Scoring.gd_disease_id a ∈
          (grouped ((λ a, (Scoring.gd_disease_id a, Scoring.gd_gene_id a))
                      <$> a :: gds)).*1) as Hin.
  { apply Hkeys. csimpl. by left. }
  rewrite Hnil in Hin. by apply elem_of_nil in Hin.
Qed.

(** With drug-target and gene-disease associations, the toy pipeline,
    and the CSV pipeline with interactions, rank every pair of a drug and
    a disease of the association lists, once, overlap or not.  A row has
    the number of shared genes as its overlap count (0 for none), a mean
    distance that is not negative, a proximity score above 0 and at most
    1, and the combined score alpha * normalized overlap + beta *
    proximity score, the normalized overlap being between 0 and 1. *)
Theorem pipelines_rank_every_pair
    (set_iter : gset string → list string)
    (drugs : list Drug.t) (diseases : list Disease.t)
    (dts : list Scoring.DrugTargetAssoc) (gds : list Scoring.GeneDiseaseAssoc)
    (ppis : list Graphs.GeneGeneInteraction) (alpha beta : Q) :
  (∀ X, set_iter X ≡ₚ elements X) →
  dts ≠ [] → gds ≠ [] →
  let D := values_of ((λ a, (Scoring.dt_drug_id a, Scoring.dt_gene_id a))
                        <$> dts) in
  let S := values_of ((λ a, (Scoring.gd_disease_id a, Scoring.gd_gene_id a))
                        <$> gds) in
  ∃ out,
    Pipeline.run_toy_pipeline set_iter drugs diseases dts gds ppis alpha beta
    = inr out ∧
    (ppis ≠ [] →
     Pipeline.run_csv_pipeline set_iter drugs diseases dts gds ppis alpha beta
     = inr out) ∧
    NoDup (Scoring.c_key ∘ n_row <$> out) ∧
    (∀ d s, (d, s) ∈ Scoring.c_key ∘ n_row <$> out ↔
            (∃ a, a ∈ dts ∧ Scoring.dt_drug_id a = d) ∧
            (∃ b, b ∈ gds ∧ Scoring.gd_disease_id b = s)) ∧
    ∀ x, x ∈ out →
      let r := n_row x in
      Scoring.c_n_overlap r
        = inject_Z (Z.of_nat (size (D (Scoring.c_drug_id r)
                                    ∩ S (Scoring.c_disease_id r)))) ∧
      (∃ q, Scoring.c_mean_distance r = Some (Finite q) ∧ (0 <= q)%Q ∧
            Scoring.c_proximity_score r = Qred (1 / (1 + q))) ∧
      (0 < Scoring.c_proximity_score r)%Q ∧
      (Scoring.c_proximity_score r <= 1)%Q ∧
      (0 <= Scoring.c_norm_overlap r)%Q ∧
      (Scoring.c_norm_overlap r <= 1)%Q ∧
      (Scoring.c_combined_score r ==
         alpha * Scoring.c_norm_overlap r
         + beta * Scoring.c_proximity_score r)%Q.
Proof.
  intros Hperm Hdts Hgds D S.
  set (d2g := Scoring.build_drug_target_map dts).
  set (s2g := Scoring.build_disease_gene_map gds).
  set (overlap_df :=
         Scoring.df_rows (Scoring.compute_overlap_table_fast dts gds)).
  set (G := Graphs.build_ppi_graph ppis).
  set (prox_df := merge_sort prox_order
                    (network_row G 5 <$> list_prod d2g s2g)).
  assert (Hcnp : compute_network_proximity set_iter G d2g s2g 5 = Some prox_df).
  { by apply compute_network_proximity_rows. }
  destruct (build_maps_keys dts gds) as (Hnd1 & Hnd2 & Hk1 & Hk2).
  fold d2g s2g in Hnd1, Hnd2, Hk1, Hk2.
  assert (Hpkeys : Scoring.p_key <$> prox_df ≡ₚ list_prod d2g.*1 s2g.*1)
    by apply network_rows_keys.
  assert (Hpnd : NoDup (Scoring.p_key <$> prox_df)).
  { rewrite Hpkeys. by apply NoDup_list_prod. }
  assert (Hpin : ∀ d s, (d, s) ∈ Scoring.p_key <$> prox_df ↔
                        d ∈ d2g.*1 ∧ s ∈ s2g.*1).
  { intros d s. rewrite Hpkeys, <- list_cprod_list_prod.
    by rewrite list_elem_of_cprod. }
  assert (Hne : prox_df ≠ []).
  { intros Hnil. apply (f_equal length) in Hnil. unfold prox_df in Hnil.
    rewrite merge_sort_Permutation, length_fmap, length_prod in Hnil.
    simpl in Hnil.
    assert (length d2g ≠ 0)%nat.
    { intros H0. apply nil_length_inv in H0.
      by apply build_drug_target_map_nil in H0. }
    assert (length s2g ≠ 0)%nat.
    { intros H0. apply nil_length_inv in H0.
      by apply build_disease_gene_map_nil in H0. }
    nia. }
  set (comb := Scoring.combine_overlap_and_proximity overlap_df prox_df
                 alpha beta).
  assert (Hond : NoDup (Scoring.o_key <$> overlap_df))
    by apply fast_table_keys_NoDup.
  destruct (combine_unique_keys overlap_df prox_df alpha beta Hpnd Hond)
    as (Hcnd & Hckeys & Hrows). fold comb in Hcnd, Hckeys, Hrows.
  destruct (attach_rows Scoring.c_key comb drugs diseases) as [Hattach _].
  assert (Hosub : ∀ o, o ∈ overlap_df →
                       Scoring.o_key o ∈ Scoring.p_key <$> prox_df).
  { intros o (d & s & Hinter & ->)%fast_table_row.
    apply set_choose_L in Hinter as [g [Hgd Hgs]%elem_of_intersection].
    apply elem_of_values_of in Hgd, Hgs.
    apply list_elem_of_fmap in Hgd as (a & Heqa & Ha).
    apply list_elem_of_fmap in Hgs as ([g' s'] & Heqs & Hb).
    apply list_elem_of_fmap in Hb as (b & Heqb & Hb).
    simpl in Heqa, Heqs, Heqb.
    injection Heqa as Hd _. injection Heqs as Hs _. injection Heqb as _ Hs'.
    apply Hpin. unfold overlap_row_of, Scoring.o_key. simpl.
    split; [apply Hk1|apply Hk2].
    - by exists a.
    - exists b. split; [done|]. congruence. }
  exists (attach_entity_names Scoring.c_key comb drugs diseases).
  assert (Htoy : Pipeline.run_toy_pipeline set_iter drugs diseases dts gds
                   ppis alpha beta
                 = inr (attach_entity_names Scoring.c_key comb drugs diseases)).
  { unfold Pipeline.run_toy_pipeline.
    rewrite (fast_table_frame dts gds). fold d2g s2g G overlap_df.
    rewrite Hcnp. by rewrite pipeline_combine_rows. }
  split; [done|]. split.
  { intros Hppis. destruct ppis as [|inter ppis]; [done|].
    revert Htoy. unfold Pipeline.run_toy_pipeline, Pipeline.run_csv_pipeline.
    done. }
  rewrite !list_fmap_compose, Hattach.
  split; [done|]. split.
  - intros d s. rewrite Hckeys, <- Hk1, <- Hk2, <- Hpin. split; [|by left].
    intros [?|Hin]; [done|].
    apply list_elem_of_fmap in Hin as (o & -> & Ho). by apply Hosub.
  - intros x Hx. cbv zeta.
    assert (n_row x ∈ comb) as Hr.
    { rewrite <- Hattach. by apply list_elem_of_fmap_2. }
    set (r := n_row x) in *.
    destruct (Hrows r Hr) as (Hov1 & Hov0 & Hpr1 & _).
    assert (Scoring.c_key r ∈ Scoring.p_key <$> prox_df) as Hk.
    { assert (Scoring.c_key r ∈ Scoring.c_key <$> comb) as Hin
        by (by apply list_elem_of_fmap_2).
      apply Hckeys in Hin as [?|Hin]; [done|].
      apply list_elem_of_fmap in Hin as (o & -> & Ho). by apply Hosub. }
    apply list_elem_of_fmap in Hk as (p & Hkp & Hp).
    destruct (Hpr1 p Hp (eq_sym Hkp)) as [Hmd Hps].
    assert (∃ q, Scoring.p_mean_distance p = Finite q ∧ (0 <= q)%Q ∧
                 Scoring.p_proximity_score p = Qred (1 / (1 + q)) ∧
                 (0 < Scoring.p_proximity_score p)%Q ∧
                 (Scoring.p_proximity_score p <= 1)%Q)
      as (q & Hq & Hq0 & Hqp & Hp0 & Hp1).
    { unfold prox_df in Hp. rewrite merge_sort_Permutation in Hp.
      apply list_elem_of_fmap in Hp as (items & -> & _).
      by apply network_row_scores. }
    destruct (combine_row_scores overlap_df prox_df alpha beta r Hr)
      as (HnM & Hnorm & Hscore).
    set (M := default 0%Q (Scoring.series_max _)) in *.
    assert (Hn : Scoring.c_n_overlap r
                 = inject_Z (Z.of_nat (size (D (Scoring.c_drug_id r)
                                             ∩ S (Scoring.c_disease_id r))))).
    { destruct (decide (D (Scoring.c_drug_id r) ∩ S (Scoring.c_disease_id r)
                        = ∅)) as [Hempty|Hinter].
      - rewrite Hempty, size_empty. simpl.
        apply Hov0. intros o (d & s & Hinter & ->)%fast_table_row Hko.
        unfold Scoring.c_key, Scoring.o_key, overlap_row_of in Hko.
        simpl in Hko. injection Hko as -> ->.
        rewrite <- gd_rev_swap in Hinter. done.
      - destruct (Hov1 (overlap_row_of (Scoring.c_drug_id r)
                          (D (Scoring.c_drug_id r)) (Scoring.c_disease_id r)
                          (S (Scoring.c_disease_id r)))) as (Hn & _).
        + apply fast_table_row.
          exists (Scoring.c_drug_id r), (Scoring.c_disease_id r).
          rewrite <- gd_rev_swap. by split.
        + done.
        + by rewrite Hn. }
    assert (0 <= Scoring.c_n_overlap r)%Q as Hn0.
    { rewrite Hn. replace 0%Q with (inject_Z 0) by done.
      rewrite <- Zle_Qle. lia. }
    split; [done|]. split.
    { exists q. by rewrite Hmd, Hps, Hq. }
    rewrite <- Hps in Hp0, Hp1. split; [done|]. split; [done|].
    split; [|split].
    + rewrite Hnorm. case_decide; [|done]. rewrite Qred_correct.
      by apply Qdiv_unit_interval.
    + rewrite Hnorm. case_decide; [|done]. rewrite Qred_correct.
      by apply Qdiv_unit_interval.
    + rewrite Hscore. apply Qred_correct.
Qed.

(** The toy associations over the small graph. *)
Lemma pipelines_rank_every_pair_witness :
  ∃ out,
    Pipeline.run_toy_pipeline elements [] [] ex_drug_targets ex_gene_diseases
      reversed_duplicate 1 1 = inr out ∧
    NoDup (Scoring.c_key ∘ n_row <$> out).
Proof.
  destruct (pipelines_rank_every_pair elements [] [] ex_drug_targets
              ex_gene_diseases reversed_duplicate 1 1)
    as (out & Hout & _ & Hnd & _).
  - reflexivity.
  - discriminate.
  - discriminate.
  - exists out. split; [exact Hout|exact Hnd].
Defined.

(** ** Graphs from edge lists without duplicates *)

Lemma observed_weights_unique (interactions : list Graphs.GeneGeneInteraction)
    a b :
  NoDup ((λ inter, unordered (Graphs.gene1_id inter) (Graphs.gene2_id inter))
           <$> interactions) →
  observed_weights a b interactions = [] ∨
  ∃ inter, inter ∈ interactions ∧ joins a b inter ∧
           observed_weights a b interactions
           = [default 1%Q (Graphs.weight inter)].
Proof.
  intros Hnd. unfold observed_weights.
  assert (filter (joins a b) interactions
          = filter (λ inter, unordered (Graphs.gene1_id inter)
                               (Graphs.gene2_id inter) = unordered a b)
              interactions) as ->.
  { apply list_filter_iff. intros inter.
    rewrite unordered_eq_iff. unfold joins. split.
    - intros [[<- <-]|[<- <-]]; auto.
    - intros [[-> ->]|[-> ->]]; auto. }
  destruct (filter_key_unique
              (λ inter, unordered (Graphs.gene1_id inter)
                          (Graphs.gene2_id inter))
              interactions (unordered a b) Hnd) as [->|[inter Hf]];
    [by left|].
  right. exists inter. rewrite Hf.
  assert (inter ∈ filter (λ inter, unordered (Graphs.gene1_id inter)
                            (Graphs.gene2_id inter) = unordered a b)
                    interactions) as Hin by (rewrite Hf; by left).
  apply list_elem_of_filter in Hin as [Hkey Hin].
  split; [done|]. split; [|done].
  apply unordered_eq_iff in Hkey. unfold joins.
  destruct Hkey as [[-> ->]|[-> ->]]; auto.
Qed.

(** On an edge list that names no unordered pair twice, as the script
    that writes the interaction table leaves it, the graph has one edge
    per interaction, every edge carries the weight of its interaction
    (1.0 for none), and that weight is the maximum of the weights observed
    for its pair. *)
Theorem build_ppi_graph_without_duplicates
    (interactions : list Graphs.GeneGeneInteraction) :
  NoDup ((λ inter, unordered (Graphs.gene1_id inter) (Graphs.gene2_id inter))
           <$> interactions) →
  let G := Graphs.build_ppi_graph interactions in
  Nx.number_of_edges G = length interactions ∧
  (∀ inter, inter ∈ interactions →
     Nx.edge_data G (Graphs.gene1_id inter) (Graphs.gene2_id inter)
       = Some (default 1%Q (Graphs.weight inter)) ∧
     Nx.edge_data G (Graphs.gene2_id inter) (Graphs.gene1_id inter)
       = Some (default 1%Q (Graphs.weight inter))) ∧
  weights_are_maxima interactions.
Proof.
  intros Hnd G. unfold G. split; [|split].
  - rewrite number_of_edges_build. unfold unordered_pairs.
    rewrite size_list_to_set by done. by rewrite length_fmap.
  - intros inter Hin.
    assert (observed_weights (Graphs.gene1_id inter) (Graphs.gene2_id inter)
              interactions = [default 1%Q (Graphs.weight inter)]) as Hw.
    { destruct (observed_weights_unique interactions
                  (Graphs.gene1_id inter) (Graphs.gene2_id inter) Hnd)
        as [Hnil|(inter' & Hin' & Hj' & Heq)].
      - exfalso. unfold observed_weights in Hnil.
        apply fmap_nil_inv in Hnil.
        eapply (filter_nil_not_elem_of _ _ inter); [exact Hnil| |done].
        by left.
      - rewrite Heq. assert (inter' = inter) as ->; [|done].
        eapply (NoDup_fmap_elem_inj _ interactions); [exact Hnd|done..|].
        apply unordered_eq_iff. destruct Hj' as [[<- <-]|[<- <-]]; auto. }
    split.
    + by rewrite edge_data_build, Hw.
    + by rewrite edge_data_build_sym, edge_data_build, Hw.
  - intros a b. rewrite edge_data_build.
    destruct (observed_weights_unique interactions a b Hnd)
      as [->|(inter & _ & _ & ->)]; simpl; [done|]. apply Qeq_refl.
Qed.

Lemma build_ppi_graph_without_duplicates_witness :
  Nx.number_of_edges
    (Graphs.build_ppi_graph
       [Graphs.MkInteraction "A" "B" (Some (4 # 5)) "ppi";
        Graphs.MkInteraction "C" "B" None "ppi"]) = 2%nat.
Proof.
  apply (build_ppi_graph_without_duplicates
           [Graphs.MkInteraction "A" "B" (Some (4 # 5)) "ppi";
            Graphs.MkInteraction "C" "B" None "ppi"]).
  apply (bool_decide_unpack _). vm_compute. exact I.
Defined.

(** ** The graph of the precomputation *)

(** [build_ppi_graph] of the precomputation: a gene is a node exactly
    when it is an end of a row of the interaction table, blanks stripped;
    two genes are joined exactly when a row names them, in either order;
    every edge is seen from both ends and joins two nodes; and every node
    is a gene of the universe, so that every source of a traversal and
    every gene it reaches has a position in the index. *)
Theorem precompute_graph_structure (strip : string → string)
    (ppi : list (string * string)) (dt_genes gd_genes : list string)
    (a b : string) :
  let G := Precompute.build_ppi_graph strip ppi in
  (Nx.has_node G a = true ↔
     ∃ e, e ∈ ppi ∧ (strip e.1 = a ∨ strip e.2 = a)) ∧
  (Nx.has_edge G a b = true ↔ ∃ e, e ∈ ppi ∧ row_joins strip a b e) ∧
  Nx.has_edge G a b = Nx.has_edge G b a ∧
  (Nx.has_edge G a b = true →
     Nx.has_node G a = true ∧ Nx.has_node G b = true) ∧
  (Nx.has_node G a = true →
     a ∈ Precompute.build_gene_universe strip ppi dt_genes gd_genes).
Proof.
  intros G. unfold G, Nx.has_node, Nx.has_edge.
  rewrite !bool_decide_eq_true.
  assert (Hedge : ∀ x y,
    is_Some (Nx.edge_data (Precompute.build_ppi_graph strip ppi) x y) →
    is_Some (Precompute.build_ppi_graph strip ppi !! x)).
  { intros x y. apply edge_data_node. }
  assert (Hsym : ∀ x y,
    is_Some (Nx.edge_data (Precompute.build_ppi_graph strip ppi) x y) ↔
    is_Some (Nx.edge_data (Precompute.build_ppi_graph strip ppi) y x)).
  { intros x y. rewrite !precompute_graph_edges. unfold row_joins.
    split; intros (e & He & Hj); exists e; tauto. }
  split; [apply precompute_graph_nodes|].
  split; [apply precompute_graph_edges|]. split; [|split].
  - apply bool_decide_ext, Hsym.
  - intros Hab. split; [by eapply Hedge|]. eapply Hedge. by apply Hsym.
  - apply precompute_graph_nodes_universe.
Qed.

(** ** The two scorers side by side *)

Section same_adjacency.
Context {A B : Type}.
Context (G1 : gmap string (gmap string A)) (G2 : gmap string (gmap string B)).
Context (same : ∀ a, Nx.neighbors G1 a = Nx.neighbors G2 a).

Lemma walk_same_1 n a b : walk G1 n a b → walk G2 n a b.
Proof.
  induction 1 as [a|n a u b Hu _ IH]; [constructor|].
  eapply walk_step; [|exact IH]. by rewrite <- same.
Qed.

Lemma walk_same_2 n a b : walk G2 n a b → walk G1 n a b.
Proof.
  induction 1 as [a|n a u b Hu _ IH]; [constructor|].
  eapply walk_step; [|exact IH]. by rewrite same.
Qed.

Lemma shortest_same a b d : shortest G1 a b d ↔ shortest G2 a b d.
Proof.
  unfold shortest. split; intros [Hw Hmin].
  - split; [by apply walk_same_1|]. intros d' Hw'.
    by apply Hmin, walk_same_2.
  - split; [by apply walk_same_2|]. intros d' Hw'.
    by apply Hmin, walk_same_1.
Qed.

End same_adjacency.

Lemma graphs_nodes (l : list Graphs.GeneGeneInteraction) a :
  is_Some (Graphs.build_ppi_graph l !! a) ↔
  ∃ inter, inter ∈ l ∧ (Graphs.gene1_id inter = a ∨ Graphs.gene2_id inter = a).
Proof.
  induction l as [|inter l IH] using rev_ind.
  - unfold Graphs.build_ppi_graph. simpl. rewrite lookup_empty. split.
    + by intros [? ?].
    + intros (e & He & _). by apply elem_of_nil in He.
  - rewrite build_ppi_graph_snoc, node_add_edge, IH. split.
    + intros [->|[->|(e' & He' & Ha)]].
      * exists inter. split; [|by left]. apply elem_of_app. right. by left.
      * exists inter. split; [|by right]. apply elem_of_app. right. by left.
      * exists e'. split; [|done]. apply elem_of_app. by left.
    + intros (e' & He' & Ha). apply elem_of_app in He' as [He'|He'].
      * right. right. eauto.
      * apply list_elem_of_singleton in He' as ->.
        destruct Ha as [<-|<-]; auto.
Qed.

Section two_graphs.
Context (strip : string → string).
Context (interactions : list Graphs.GeneGeneInteraction).
Context (clean : Forall (λ inter,
  strip (Graphs.gene1_id inter) = Graphs.gene1_id inter ∧
  strip (Graphs.gene2_id inter) = Graphs.gene2_id inter) interactions).

Local Abbreviation ppi :=
  ((λ inter, (Graphs.gene1_id inter, Graphs.gene2_id inter)) <$> interactions).
Local Abbreviation G1 := (Graphs.build_ppi_graph interactions).
Local Abbreviation G2 := (Precompute.build_ppi_graph strip ppi).

(** The graph of the package and the graph of the precomputation, built
    from the same stripped rows, have the same edges and the same nodes. *)
Lemma same_neighbors a : Nx.neighbors G1 a = Nx.neighbors G2 a.
Proof.
  apply set_eq. intros b. rewrite !elem_of_neighbors.
  rewrite has_edge_build, elem_of_unordered_pairs, precompute_graph_edges.
  rewrite Forall_forall in clean. split.
  - intros (inter & Hin & Hj).
    exists (Graphs.gene1_id inter, Graphs.gene2_id inter).
    split; [apply list_elem_of_fmap; by exists inter|].
    destruct (clean inter Hin) as [H1 H2].
    unfold row_joins, joins in *. simpl. by rewrite H1, H2.
  - intros (e & (inter & -> & Hin)%list_elem_of_fmap & Hj).
    exists inter. split; [done|].
    destruct (clean inter Hin) as [H1 H2].
    unfold row_joins, joins in *. simpl in Hj. by rewrite H1, H2 in Hj.
Qed.

Lemma same_nodes a : is_Some (G1 !! a) ↔ is_Some (G2 !! a).
Proof.
  rewrite graphs_nodes, precompute_graph_nodes.
  rewrite Forall_forall in clean. split.
  - intros (inter & Hin & Ha).
    exists (Graphs.gene1_id inter, Graphs.gene2_id inter).
    split; [apply list_elem_of_fmap; by exists inter|].
    destruct (clean inter Hin) as [H1 H2]. simpl. by rewrite H1, H2.
  - intros (e & (inter & -> & Hin)%list_elem_of_fmap & Ha).
    exists inter. split; [done|].
    destruct (clean inter Hin) as [H1 H2]. simpl in Ha.
    by rewrite H1, H2 in Ha.
Qed.

End two_graphs.

(** *** Lists of entries and lists of path lengths *)

Lemma bind_ext_in {A B} (f g : A → list B) (l : list A) :
  (∀ x, x ∈ l → f x = g x) → l ≫= f = l ≫= g.
Proof.
  induction l as [|x l IH]; intros Hfg; [done|]. csimpl.
  rewrite Hfg by (by left). f_equal. apply IH.
  intros y Hy. apply Hfg. by right.
Qed.

Lemma omap_total {A B} (f : A → option B) (h : A → B) (l : list A) :
  (∀ x, x ∈ l → f x = Some (h x)) → omap f l = h <$> l.
Proof.
  induction l as [|x l IH]; intros Hf; [done|]. csimpl.
  rewrite Hf by (by left). f_equal. apply IH.
  intros y Hy. apply Hf. by right.
Qed.

Lemma filter_entries (P : Z → Prop) `{!∀ d, Decision (P d)}
    (dist : list (list Z)) (idx_d idx_s : list Z) :
  filter P (entries dist idx_d idx_s) =
  i ← idx_d; j ← idx_s;
  if decide (P (cell dist (Z.to_nat i) (Z.to_nat j)))
  then [cell dist (Z.to_nat i) (Z.to_nat j)] else [].
Proof.
  unfold entries. induction idx_d as [|i idx_d IH]; [done|]. csimpl.
  rewrite filter_app, IH. f_equal. clear IH.
  induction idx_s as [|j idx_s IH]; [done|]. csimpl.
  rewrite filter_cons. case_decide; simpl; by rewrite IH.
Qed.

Lemma bind_fmap_l {A B C} (f : A → B) (k : B → list C) (l : list A) :
  (f <$> l) ≫= k = l ≫= (k ∘ f).
Proof.
  induction l as [|x l IH]; [done|]. csimpl. by rewrite IH.
Qed.

Lemma fmap_bind_r {A B C} (f : B → C) (k : A → list B) (l : list A) :
  f <$> (l ≫= k) = l ≫= (λ x, f <$> k x).
Proof.
  induction l as [|x l IH]; [done|]. csimpl. by rewrite fmap_app, IH.
Qed.

Lemma sum_of_nat (ds : list nat) :
  Annotate.sum (Z.of_nat <$> ds) = Z.of_nat (sum_list ds).
Proof.
  unfold Annotate.sum. induction ds as [|d ds IH]; [done|]. csimpl.
  rewrite IH. lia.
Qed.

Lemma mean_of_nat (ds : list nat) :
  mean (Z.of_nat <$> ds) =
  match ds with [] => Inf | _ => Finite (np_mean ds) end.
Proof.
  destruct ds as [|d ds]; [done|]. unfold mean, np_mean.
  change (Z.of_nat <$> d :: ds) with (Z.of_nat d :: (Z.of_nat <$> ds)).
  cbv iota. f_equal. f_equal.
  - apply (sum_of_nat (d :: ds)).
  - simpl. by rewrite length_fmap.
Qed.

Section least_walk.
Context {A : Type} (G : gmap string (gmap string A)).
Context (G_sym : symmetric G).
Context (s : string) (s_node : is_Some (G !! s)).

(** Below every bound either no walk reaches [t], or [t] has a shortest
    path: the traversal with the bound as its cutoff decides it. *)
Lemma least_walk_below t n :
  (∀ m, (m < n)%nat → ¬ walk G m s t) ∨ (∃ d, shortest G s t d).
Proof.
  induction n as [|n [Hno | Hsh]]; [left; lia| |by right].
  destruct (single_source_lengths G (symmetric_closed G G_sym)
              (Some (Z.of_nat n)) s s_node) as (lengths & _ & Hspec).
  destruct (lengths !! t) as [d|] eqn:Hl.
  - apply Hspec in Hl as [Hsh _]. right. by exists d.
  - left. intros m Hm Hw. destruct (decide (m = n)) as [-> | Hmn].
    + assert (lengths !! t = Some n) as Hn; [|congruence].
      apply Hspec. split; [split; [done|]|right; lia].
      intros d' Hd'. destruct (le_lt_dec n d') as [|Hlt]; [done|].
      by destruct (Hno d' Hlt).
    + apply (Hno m); [lia|done].
Qed.

Lemma walk_shortest t n : walk G n s t → ∃ d, shortest G s t d.
Proof.
  intros Hw. destruct (least_walk_below t (S n)) as [Hno | Hsh]; [|done].
  destruct (Hno n); [lia|done].
Qed.

End least_walk.

(** The matrix-backed scorer agrees with the graph-based one wherever
    there is evidence.  For an interaction table of stripped identifiers,
    a store precomputed from it without a cutoff, and a drug and a disease
    whose genes are all nodes of the graph, with every shortest path from
    a target to a disease gene below 65535: when some target is connected
    to some disease gene, the mean distance read from the store is the
    mean distance in the row of [compute_network_proximity] for the pair;
    when none is, the store gives +infinity where
    [compute_network_proximity] has its default distance. *)
Theorem scorers_agree
    (set_iter set_iter' set_iter'' : gset string → list string)
    (strip : string → string) (mmap_empty_ok : bool)
    (interactions : list Graphs.GeneGeneInteraction)
    (dt_genes gd_genes : list string)
    (drug_to_genes disease_to_genes : gmap string (list string))
    (drug_id disease_id : string) (genes_d genes_s : list string)
    (default_distance : Q) :
  (∀ X, set_iter X ≡ₚ elements X) → (∀ X, set_iter' X ≡ₚ elements X) →
  (∀ X, set_iter'' X ≡ₚ elements X) →
  (∀ x, strip (strip x) = strip x) →
  Forall (λ inter,
    strip (Graphs.gene1_id inter) = Graphs.gene1_id inter ∧
    strip (Graphs.gene2_id inter) = Graphs.gene2_id inter) interactions →
  drug_to_genes !! drug_id = Some genes_d →
  disease_to_genes !! disease_id = Some genes_s →
  genes_d ≠ [] →
  (0 <= default_distance)%Q →
  let G := Graphs.build_ppi_graph interactions in
  let ppi :=
    (λ inter, (Graphs.gene1_id inter, Graphs.gene2_id inter))
      <$> interactions in
  (∀ g, g ∈ genes_d ++ genes_s → is_Some (G !! g)) →
  (∀ t g d, t ∈ genes_d → g ∈ genes_s → shortest G t g d →
            Z.of_nat d < max_uint16) →
  ∃ idx M gene_to_idx dist max_val m,
    Precompute.main set_iter strip mmap_empty_ok ppi dt_genes gd_genes None
    = Precompute.MkRun (Some idx) (Some M) (Ok ()) ∧
    load_distance_matrix strip mmap_empty_ok (index_rows idx) (matrix_cells M)
    = Ok (gene_to_idx, dist, max_val) ∧
    compute_network_proximity set_iter'' G
      [(drug_id, list_to_set genes_d)] [(disease_id, list_to_set genes_s)]
      default_distance
    = Some [Scoring.MkProx drug_id disease_id (Finite m)
              (Qred (1 / (1 + m)))] ∧
    let score :=
      Annotate.mean_distance_for_pair set_iter' drug_id disease_id
        drug_to_genes disease_to_genes gene_to_idx dist max_val in
    ((∃ t g n, t ∈ genes_d ∧ g ∈ genes_s ∧ walk G n t g) →
     score = Ok (Finite m)) ∧
    ((∀ t g n, t ∈ genes_d → g ∈ genes_s → ¬ walk G n t g) →
     score = Ok Inf ∧ m = default_distance).
Proof.
  intros Hperm Hperm' Hperm'' Hstrip Hclean Hd Hs Hne Hdef G ppi Hnodes
    Hshort.
  set (U := Precompute.build_gene_universe strip ppi dt_genes gd_genes).
  set (all := merge_sort str_le (set_iter U)).
  set (G2 := Precompute.build_ppi_graph strip ppi).
  assert (Hin_all : ∀ g, g ∈ genes_d ++ genes_s → g ∈ all).
  { intros g Hg. apply elem_of_all_genes; [done|].
    apply precompute_graph_nodes_universe.
    apply (same_nodes strip interactions Hclean). by apply Hnodes. }
  assert (U ≠ ∅ ∨ mmap_empty_ok = true) as HU.
  { left. destruct genes_d as [|g genes_d]; [done|].
    assert (g ∈ all) as Hg by (apply Hin_all; by left).
    apply (elem_of_all_genes set_iter Hperm) in Hg. fold U in Hg.
    intros Hempty. rewrite Hempty in Hg. by apply elem_of_empty in Hg. }
  destruct (load_after_run set_iter Hperm strip Hstrip mmap_empty_ok ppi
              dt_genes gd_genes None HU) as (M & HM & Hload & Hsq & Hu & Hr).
  pose proof (universe_non_empty set_iter Hperm strip mmap_empty_ok ppi
                dt_genes gd_genes HU) as Hrun.
  destruct (main_entries set_iter Hperm strip mmap_empty_ok ppi dt_genes
              gd_genes None Hrun) as (M' & HM' & _ & Hcells).
  assert (M' = M) as -> by congruence.
  fold U all G2 in HM, Hload, Hsq, Hu, Hr, Hcells.
  set (gene_to_idx := dict_zip (index_rows (zip all (seq 0 (length all)))))
    in *.
  set (D := list_to_set genes_d : gset string).
  set (S := list_to_set genes_s : gset string).
  exists (zip all (seq 0 (length all))), M, gene_to_idx, M, max_uint16,
    (network_mean_distance G default_distance D S).
  split; [done|]. split; [done|].
  split.
  { by rewrite (compute_network_proximity_rows G set_iter'' Hperm''
                  default_distance _ _ Hdef). }
  cbv zeta.
  assert (Hpos : ∀ g, g ∈ genes_d ++ genes_s →
            ∃ k, all !! k = Some g ∧ gene_to_idx !! g = Some (Z.of_nat k)).
  { intros g Hg. apply Hin_all, list_elem_of_lookup in Hg as [k Hk].
    exists k. split; [done|].
    apply (dict_zip_index_rows set_iter Hperm strip ppi dt_genes gd_genes).
    by exists k. }
  set (pos := λ g, default 0 (gene_to_idx !! g)).
  assert (HgD : gene_indices gene_to_idx genes_d = pos <$> elements D).
  { unfold gene_indices. apply omap_total.
    intros g Hg%elem_of_elements%elem_of_list_to_set.
    destruct (Hpos g) as (k & _ & Hk); [apply elem_of_app; by left|].
    unfold pos. by rewrite Hk. }
  assert (HgS : gene_indices gene_to_idx genes_s = pos <$> elements S).
  { unfold gene_indices. apply omap_total.
    intros g Hg%elem_of_elements%elem_of_list_to_set.
    destruct (Hpos g) as (k & _ & Hk); [apply elem_of_app; by right|].
    unfold pos. by rewrite Hk. }
  assert (Hlists : valid_entries gene_to_idx M genes_d genes_s
                   = Z.of_nat <$> pair_distances elements G D S).
  { unfold valid_entries. rewrite HgD, HgS, filter_entries.
    rewrite bind_fmap_l. unfold pair_distances. rewrite fmap_bind_r.
    apply bind_ext_in. intros t Ht%elem_of_elements%elem_of_list_to_set.
    simpl. rewrite bind_fmap_l, fmap_bind_r.
    apply bind_ext_in. intros g Hg%elem_of_elements%elem_of_list_to_set.
    simpl.
    destruct (Hpos t) as (i & Hi & Hti); [apply elem_of_app; by left|].
    destruct (Hpos g) as (j & Hj & Hgj); [apply elem_of_app; by right|].
    unfold pos. rewrite Hti, Hgj. simpl. rewrite !Nat2Z.id.
    assert (is_Some (G !! t)) as Hnt by (apply Hnodes, elem_of_app; by left).
    assert (is_Some (G !! g)) as Hng by (apply Hnodes, elem_of_app; by right).
    unfold Nx.has_node. rewrite !bool_decide_eq_true_2 by done. simpl.
    destruct (Hcells t i g j Hi Hj) as (_ & Hdiag & Hfin & Hval).
    pose proof (shortest_path_length_spec G (graphs_symmetric interactions)
                  t g) as Hspl.
    destruct (shortest_path_length G t g) as [d|] eqn:Heq.
    - assert (shortest G t g d) as Hsh by (by apply Hspl).
      pose proof (Hshort t g d Ht Hg Hsh) as Hfit.
      rewrite (Hval d); [|by apply (shortest_same G G2
                                      (same_neighbors strip interactions Hclean))
                         |done|lia].
      by rewrite decide_True by lia.
    - rewrite decide_False; [done|].
      intros Hmax. destruct (decide (i = j)) as [->|Hij].
      + assert (g = t) as -> by congruence.
        assert (shortest G t t 0) as Hsh by (by apply shortest_zero).
        apply Hspl in Hsh; [|done]. congruence.
      + destruct (Hfin Hij Hmax) as (d & Hsh & _).
        apply (shortest_same G G2 (same_neighbors strip interactions Hclean))
          in Hsh.
        apply Hspl in Hsh; [|done]. congruence. }
  rewrite (mean_distance_for_pair_present set_iter' Hperm' gene_to_idx M
             (length all) drug_id disease_id drug_to_genes disease_to_genes
             genes_d genes_s Hsq Hu Hr Hd Hs).
  rewrite Hlists, mean_of_nat. unfold network_mean_distance. simpl.
  pose proof (elem_of_pair_distances G (graphs_symmetric interactions) D S)
    as Hin.
  split.
  - intros (t & g & n & Ht & Hg & Hw).
    assert (is_Some (G !! t)) as Hnt by (apply Hnodes, elem_of_app; by left).
    assert (is_Some (G !! g)) as Hng by (apply Hnodes, elem_of_app; by right).
    destruct (walk_shortest G (graphs_symmetric interactions) t Hnt g n Hw)
      as [d Hsh].
    assert (d ∈ pair_distances elements G D S) as Hd'.
    { apply Hin. exists t, g.
      split; [by apply elem_of_list_to_set|].
      split; [by apply elem_of_list_to_set|done]. }
    destruct (pair_distances elements G D S); [|done].
    by apply elem_of_nil in Hd'.
  - intros Hno.
    destruct (pair_distances elements G D S) as [|d l] eqn:Hpd; [done|].
    assert (d ∈ d :: l) as Hd' by (by left).
    apply Hin in Hd' as (t & g & Ht & Hg & _ & _ & Hw & _).
    apply elem_of_list_to_set in Ht. apply elem_of_list_to_set in Hg.
    by destruct (Hno t g d Ht Hg).
Qed.

(** The path A - B - C: drug targets A and B, disease gene C. *)
Lemma scorers_agree_witness :
  ∃ idx M gene_to_idx dist max_val m,
    Precompute.main elements id true
      [("A", "B"); ("B", "C")]%string [] [] None
    = Precompute.MkRun (Some idx) (Some M) (Ok ()) ∧
    load_distance_matrix id true (index_rows idx) (matrix_cells M)
    = Ok (gene_to_idx, dist, max_val) ∧
    compute_network_proximity elements
      (Graphs.build_ppi_graph
         [Graphs.MkInteraction "A" "B" None "ppi";
          Graphs.MkInteraction "B" "C" (Some (1 # 2)) "ppi"])
      [("D", list_to_set ["A"; "B"])]%string [("X", list_to_set ["C"])]%string
      5
    = Some [Scoring.MkProx "D" "X" (Finite m) (Qred (1 / (1 + m)))] ∧
    Annotate.mean_distance_for_pair elements "D" "X"
      (<["D" := ["A"; "B"]%string]> ∅) (<["X" := ["C"]%string]> ∅)
      gene_to_idx dist max_val
    = Ok (Finite m).
Proof.
  destruct (scorers_agree elements elements elements id true
              [Graphs.MkInteraction "A" "B" None "ppi";
               Graphs.MkInteraction "B" "C" (Some (1 # 2)) "ppi"] [] []
              (<["D" := ["A"; "B"]%string]> ∅) (<["X" := ["C"]%string]> ∅)
              "D" "X" ["A"; "B"]%string ["C"]%string 5)
    as (idx & M & gene_to_idx & dist & max_val & m & HM & Hload & Hnet
        & Hscore & _).
  - reflexivity.
  - reflexivity.
  - reflexivity.
  - reflexivity.
  - repeat constructor.
  - reflexivity.
  - reflexivity.
  - discriminate.
  - discriminate.
  - intros g Hg. apply (bool_decide_unpack _). revert g Hg.
    apply Forall_forall. repeat constructor.
  - intros t g d Ht Hg.
    apply list_elem_of_singleton in Hg as ->.
    apply elem_of_cons in Ht as [-> | Ht];
      [|apply list_elem_of_singleton in Ht as ->];
      (intros Hsh;
       apply (shortest_path_length_spec _ (graphs_symmetric _)) in Hsh;
       [vm_compute in Hsh; injection Hsh as <-; reflexivity
       |apply (bool_decide_unpack _); vm_compute; exact I]).
  - exists idx, M, gene_to_idx, dist, max_val, m.
    split; [exact HM|]. split; [exact Hload|]. split; [exact Hnet|].
    apply Hscore. exists "B"%string, "C"%string, 1%nat.
    split; [by right; left|]. split; [by left|].
    eapply walk_step; [|constructor].
    apply (bool_decide_unpack _). vm_compute. exact I.
Defined.
